(** * CPyComp: the C99 preprocessor (c99_preprocessor.py, intermediate_representation.py)

    A shallow embedding of the preprocessing engine: the phase filter
    (digraph/trigraph replacement, line splicing, comment stripping), the
    PLY lexer rules, the [Macro] record with define/undef/expand, the
    semantic actions of the yacc grammar, the include resolver with its
    header cache, and [process].

    Python values are dynamically typed, so the embedding carries a small
    universe of Python values and raises the exceptions the interpreter
    would raise ([TypeError], ...).  Strings are sequences of 8-bit
    characters. *)

From Stdlib Require Import ZArith List String Ascii Bool Lia.
From Stdlib Require Import SpecFloat DecimalPos.
From stdpp Require Import gmap strings.
Import ListNotations.

Local Open Scope string_scope.
Local Open Scope Z_scope.

(** ** Characters and Python string primitives *)

Module PyStr.

Definition NL : ascii := "010"%char.
Definition TAB : ascii := "009"%char.
Definition DQ : ascii := "034"%char.
Definition SQ : ascii := "039"%char.
Definition BSL : ascii := "092"%char.

Definition nl : string := String NL EmptyString.
Definition dq : string := String DQ EmptyString.
Definition bsl : string := String BSL EmptyString.

(** [strip_prefix p s] is [Some rest] when [s = p ++ rest]. *)
Fixpoint strip_prefix (p s : string) : option string :=
  match p with
  | EmptyString => Some s
  | String c p' =>
      match s with
      | String d s' => if Ascii.eqb c d then strip_prefix p' s' else None
      | EmptyString => None
      end
  end.

Definition starts_with (p s : string) : bool :=
  match strip_prefix p s with Some _ => true | None => false end.

(** [contains needle s]: Python's [needle in s]. *)
Fixpoint contains (needle s : string) : bool :=
  starts_with needle s ||
  match s with
  | EmptyString => false
  | String _ s' => contains needle s'
  end.

Fixpoint last_char (s : string) : option ascii :=
  match s with
  | EmptyString => None
  | String c EmptyString => Some c
  | String _ s' => last_char s'
  end.

Definition ends_with_nl (s : string) : bool :=
  match last_char s with
  | Some c => Ascii.eqb c NL
  | None => false
  end.

Fixpoint take (n : nat) (s : string) : string :=
  match n, s with
  | S n', String c s' => String c (take n' s')
  | _, _ => EmptyString
  end.

Fixpoint drop (n : nat) (s : string) : string :=
  match n, s with
  | S n', String _ s' => drop n' s'
  | _, _ => s
  end.

(** [str.replace(old, new)] for a non-empty [old]: the occurrences are
    found left to right and do not overlap.  [skip] counts the characters
    of a matched occurrence that are still to be dropped. *)
Fixpoint replace_from (old new : string) (skip : nat) (s : string) : string :=
  match s with
  | EmptyString => EmptyString
  | String c s' =>
      match skip with
      | S k => replace_from old new k s'
      | O =>
          if starts_with old s
          then new ++ replace_from old new (Nat.pred (String.length old)) s'
          else String c (replace_from old new O s')
      end
  end.

(** With an empty [old] Python inserts [new] before every character and at
    the end. *)
Fixpoint intersperse_all (new s : string) : string :=
  match s with
  | EmptyString => new
  | String c s' => new ++ String c (intersperse_all new s')
  end.

Definition py_replace (old new s : string) : string :=
  match old with
  | EmptyString => intersperse_all new s
  | _ => replace_from old new O s
  end.

(** [sep.join(l)] on a list of strings. *)
Fixpoint join (sep : string) (l : list string) : string :=
  match l with
  | [] => EmptyString
  | [x] => x
  | x :: l' => x ++ sep ++ join sep l'
  end.

(** [s.endswith(suf)]: some suffix of [s] is [suf]. *)
Fixpoint ends_with (suf s : string) : bool :=
  String.eqb s suf
  || match s with
     | EmptyString => false
     | String _ s' => ends_with suf s'
     end.

Definition head_char (s : string) : option ascii :=
  match s with
  | String c _ => Some c
  | EmptyString => None
  end.

(** [s[1:-1]] *)
Definition slice_1_m1 (s : string) : string :=
  take (Nat.pred (Nat.pred (String.length s))) (drop 1 s).

(** [s.split(',')] *)
Fixpoint split_on (sep : ascii) (cur : string) (s : string) : list string :=
  match s with
  | EmptyString => [cur]
  | String c s' =>
      if Ascii.eqb c sep then cur :: split_on sep EmptyString s'
      else split_on sep (cur ++ String c EmptyString) s'
  end.

End PyStr.
Import PyStr.

(** ** Regular expressions with Python's backtracking semantics

    The alternatives of [RAlt] are tried in order, [RStar] is greedy,
    [RStarLazy] is the non-greedy star; a match is the first success in that
    order.  Every starred expression of the source consumes at least one
    character per iteration. *)

Module Re.

Inductive regex : Type :=
| REps
| RChr (c : ascii)
| RAny                    (* [.]: any character but newline *)
| RSet (f : ascii -> bool)
| RSeq (r1 r2 : regex)
| RAlt (r1 r2 : regex)
| RStar (r : regex)
| RStarLazy (r : regex).

Definition RPlus (r : regex) : regex := RSeq r (RStar r).
Definition ROpt (r : regex) : regex := RAlt r REps.

Fixpoint RLit (s : string) : regex :=
  match s with
  | EmptyString => REps
  | String c s' => RSeq (RChr c) (RLit s')
  end.

Fixpoint rmatch {A : Type} (r : regex) (s : string) (k : string -> option A)
  {struct r} : option A :=
  match r with
  | REps => k s
  | RChr c =>
      match s with
      | String d s' => if Ascii.eqb c d then k s' else None
      | EmptyString => None
      end
  | RAny =>
      match s with
      | String d s' => if Ascii.eqb d NL then None else k s'
      | EmptyString => None
      end
  | RSet f =>
      match s with
      | String d s' => if f d then k s' else None
      | EmptyString => None
      end
  | RSeq r1 r2 => rmatch r1 s (fun s' => rmatch r2 s' k)
  | RAlt r1 r2 =>
      match rmatch r1 s k with
      | Some x => Some x
      | None => rmatch r2 s k
      end
  | RStar r' =>
      (fix loop (n : nat) (s0 : string) {struct n} : option A :=
         match n with
         | O => k s0
         | S n' =>
             match rmatch r' s0
                     (fun s' => if (String.length s' <? String.length s0)%nat
                                then loop n' s' else None) with
             | Some x => Some x
             | None => k s0
             end
         end) (String.length s) s
  | RStarLazy r' =>
      (fix loop (n : nat) (s0 : string) {struct n} : option A :=
         match k s0 with
         | Some x => Some x
         | None =>
             match n with
             | O => None
             | S n' =>
                 rmatch r' s0
                   (fun s' => if (String.length s' <? String.length s0)%nat
                              then loop n' s' else None)
             end
         end) (String.length s) s
  end.

(** What it means that an expression matches the text between the start of
    [s] and the rest [s']: the matcher finds only such matches
    ([rmatch_sound] below). *)
Inductive matches : regex -> string -> string -> Prop :=
| m_eps (s : string) : matches REps s s
| m_chr (c : ascii) (s : string) : matches (RChr c) (String c s) s
| m_any (c : ascii) (s : string) : c <> NL -> matches RAny (String c s) s
| m_set (f : ascii -> bool) (c : ascii) (s : string) :
    f c = true -> matches (RSet f) (String c s) s
| m_seq (r1 r2 : regex) (s s1 s2 : string) :
    matches r1 s s1 -> matches r2 s1 s2 -> matches (RSeq r1 r2) s s2
| m_alt_l (r1 r2 : regex) (s s1 : string) :
    matches r1 s s1 -> matches (RAlt r1 r2) s s1
| m_alt_r (r1 r2 : regex) (s s1 : string) :
    matches r2 s s1 -> matches (RAlt r1 r2) s s1
| m_star_nil (r : regex) (s : string) : matches (RStar r) s s
| m_star_cons (r : regex) (s s1 s2 : string) :
    matches r s s1 -> matches (RStar r) s1 s2 -> matches (RStar r) s s2
| m_lazy_nil (r : regex) (s : string) : matches (RStarLazy r) s s
| m_lazy_cons (r : regex) (s s1 s2 : string) :
    matches r s s1 -> matches (RStarLazy r) s1 s2 -> matches (RStarLazy r) s s2.

(** The text a match has consumed ends in a character that is no
    newline. *)
Definition consumed_to_non_nl (s rest : string) : Prop :=
  exists (pre : string) (c : ascii), s = pre ++ String c rest /\ c <> NL.

(** [re.match]: the rest of the input after the match. *)
Definition re_match (r : regex) (s : string) : option string :=
  rmatch r s Some.

(** Length of the match at the start of [s]. *)
Definition match_len (r : regex) (s : string) : option nat :=
  match re_match r s with
  | Some rest => Some (String.length s - String.length rest)%nat
  | None => None
  end.

(** [re.sub(r, repl, s)] for an expression that matches no empty string. *)
Fixpoint sub_from (r : regex) (repl : string) (skip : nat) (s : string) : string :=
  match s with
  | EmptyString => EmptyString
  | String c s' =>
      match skip with
      | S k => sub_from r repl k s'
      | O =>
          match match_len r s with
          | Some (S m) => repl ++ sub_from r repl m s'
          | _ => String c (sub_from r repl O s')
          end
      end
  end.

Definition re_sub (r : regex) (repl s : string) : string := sub_from r repl O s.

Definition in_range (lo hi c : ascii) : bool :=
  (nat_of_ascii lo <=? nat_of_ascii c)%nat && (nat_of_ascii c <=? nat_of_ascii hi)%nat.

Definition is_digit (c : ascii) : bool := in_range "0" "9" c.
Definition is_letter (c : ascii) : bool := in_range "a" "z" c || in_range "A" "Z" c.
Definition is_ident_start (c : ascii) : bool := is_letter c || Ascii.eqb c "_".
Definition is_ident_char (c : ascii) : bool := is_ident_start c || is_digit c.

(** [\s] on characters below 256 *)
Definition is_space (c : ascii) : bool :=
  let n := nat_of_ascii c in
  ((9 <=? n) && (n <=? 13) || (28 <=? n) && (n <=? 32) || (n =? 133) || (n =? 160))%nat.

End Re.
Import Re.

(** ** Phase filter (translation phases 1 to 3) *)

Module Phase.

(** [self._di_tri_graph_replace_table], in insertion order. *)
Definition _di_tri_graph_replace_table : list (string * string) :=
  [ ("<:", "["); (">:", "]"); ("<%", "{"); (">%", "}"); ("%:", "#");
    ("??=", "#"); ("??/", bsl); ("??'", "^"); ("??(", "[");
    ("??)", "]"); ("??!", "|"); ("??<", "{"); ("??>", "}");
    ("??-", "~") ].

(** The table the C99 standard (and section 4.1 of the specification)
    gives. *)
Definition c99_di_tri_graph_table : list (string * string) :=
  [ ("<:", "["); (":>", "]"); ("<%", "{"); ("%>", "}"); ("%:", "#");
    ("??=", "#"); ("??/", bsl); ("??'", "^"); ("??(", "[");
    ("??)", "]"); ("??!", "|"); ("??<", "{"); ("??>", "}");
    ("??-", "~") ].

Definition replace_with_table (table : list (string * string)) (file_content : string) : string :=
  fold_left (fun acc kv => py_replace (fst kv) (snd kv) acc) table file_content.

Definition _replace_di_trigraph (file_content : string) : string :=
  replace_with_table _di_tri_graph_replace_table file_content.

Definition _join_backslash (file_content : string) : string :=
  py_replace (String BSL nl) EmptyString file_content.

(** [COMMENT_RE = re.compile(r'\/\*[\s\S]*?\*\/+|//.*')] *)
Definition COMMENT_RE : regex :=
  RAlt (RSeq (RLit "/*") (RSeq (RStarLazy (RSet (fun _ => true)))
                               (RSeq (RChr "*") (RPlus (RChr "/")))))
       (RSeq (RLit "//") (RStar RAny)).

Definition _strip_comment (file_content : string) : string :=
  re_sub COMMENT_RE " " file_content.

Definition _is_source_file (file_content : string) : bool :=
  negb (Nat.eqb (String.length file_content) 0) && ends_with_nl file_content.

(** The text transformations at the start of [process], lines 1099-1110. *)
Definition phase_filter (keep_comment : bool) (file_content : string) : string :=
  let file_content :=
    if _is_source_file file_content then file_content else file_content ++ nl in
  let file_content := _replace_di_trigraph file_content in
  let file_content := _join_backslash file_content in
  if keep_comment then file_content else _strip_comment file_content.

(** The text after the final newline is ensured and the table is applied,
    before the lines are spliced. *)
Definition after_phase_1 (file_content : string) : string :=
  _replace_di_trigraph
    (if _is_source_file file_content then file_content else file_content ++ nl).

(** The splice of the lines written by recursion on the text; it is what
    [_join_backslash] computes ([join_backslash_splice] below). *)
Fixpoint splice (s : string) : string :=
  match s with
  | EmptyString => EmptyString
  | String c s' =>
      match s' with
      | String d s'' =>
          if Ascii.eqb c BSL && Ascii.eqb d NL then splice s''
          else String c (splice s')
      | EmptyString => String c EmptyString
      end
  end.

(** An entry of a replacement table whose key is not empty and does not end
    in a newline. *)
Definition keeps_newline (kv : string * string) : bool :=
  negb (String.eqb (fst kv) EmptyString)
  && negb (match last_char (fst kv) with Some c => Ascii.eqb c NL | None => false end).

End Phase.
Import Phase.

(** ** Python values, exceptions and the operators the actions use *)

Module Py.

Inductive builtin : Type := Strftime | Localtime.

Inductive value : Type :=
| VNone
| VBool (b : bool)
| VInt (z : Z)
| VFloat (f : spec_float)
| VStr (s : string)
| VTuple (a b : value)
| VList (l : list value)
| VBuiltin (f : builtin).

(** Exceptions, and three marks that are no exception of the program.
    [PErrorCalled] marks the point where the generated parser calls
    [p_error], and [Unmodelled] behaviour of the Python runtime or of PLY
    that the embedding leaves out; the embedding stops at either, and
    neither is ever the outcome the theorems below speak about: [p_error]
    only prints, and what the error recovery of PLY makes of the rest of
    the input is not modelled.  [OutOfFuel] belongs to the embedding. *)
Inductive exn : Type :=
| TypeError
| ValueError
| IndexError
| AttributeError
| UnboundLocalError
| ZeroDivisionError
| OverflowError
| NameError (msg : string)
| FileNotFoundError (msg : string)
| Exception (arg : value)
| PErrorCalled (at_token : string)
| Unmodelled (what : string)
| OutOfFuel.

Inductive result (A : Type) : Type :=
| Ok (a : A)
| Raise (e : exn).
Arguments Ok {A} a.
Arguments Raise {A} e.

Definition bind {A B : Type} (r : result A) (f : A -> result B) : result B :=
  match r with
  | Ok a => f a
  | Raise e => Raise e
  end.

Definition prec : Z := 53.
Definition emax : Z := 1024.

Definition float_is_zero (f : spec_float) : bool :=
  match f with
  | S754_zero _ => true
  | _ => false
  end.

(** Truth value of an object, as tested by [if x:], [and], [or], [not]. *)
Definition truthy (v : value) : bool :=
  match v with
  | VNone => false
  | VBool b => b
  | VInt z => negb (z =? 0)
  | VFloat f => negb (float_is_zero f)
  | VStr s => negb (Nat.eqb (String.length s) 0)
  | VTuple _ _ => true
  | VList l => negb (Nat.eqb (List.length l) 0)
  | VBuiltin _ => true
  end.

Fixpoint uint_to_string (d : Decimal.uint) : string :=
  match d with
  | Decimal.Nil => EmptyString
  | Decimal.D0 d => String "0" (uint_to_string d)
  | Decimal.D1 d => String "1" (uint_to_string d)
  | Decimal.D2 d => String "2" (uint_to_string d)
  | Decimal.D3 d => String "3" (uint_to_string d)
  | Decimal.D4 d => String "4" (uint_to_string d)
  | Decimal.D5 d => String "5" (uint_to_string d)
  | Decimal.D6 d => String "6" (uint_to_string d)
  | Decimal.D7 d => String "7" (uint_to_string d)
  | Decimal.D8 d => String "8" (uint_to_string d)
  | Decimal.D9 d => String "9" (uint_to_string d)
  end.

Definition Z_to_string (z : Z) : string :=
  match z with
  | Z0 => "0"
  | Zpos p => uint_to_string (Pos.to_uint p)
  | Zneg p => String "-" (uint_to_string (Pos.to_uint p))
  end.

(** [str(v)], also the conversion of [f'{v}'].  The repr of floats and of
    containers is left out. *)
Definition py_str (v : value) : result string :=
  match v with
  | VNone => Ok "None"
  | VBool true => Ok "True"
  | VBool false => Ok "False"
  | VInt z => Ok (Z_to_string z)
  | VStr s => Ok s
  | VFloat _ => Raise (Unmodelled "repr of a float")
  | VTuple _ _ => Raise (Unmodelled "repr of a tuple")
  | VList _ => Raise (Unmodelled "repr of a list")
  | VBuiltin _ => Raise (Unmodelled "repr of a function")
  end.

(** [' '.join(l)]: every item must be a [str]. *)
Fixpoint all_str (l : list value) : result (list string) :=
  match l with
  | [] => Ok []
  | VStr s :: l' => bind (all_str l') (fun r => Ok (s :: r))
  | _ :: _ => Raise TypeError
  end.

Definition py_join (sep : string) (l : list value) : result value :=
  bind (all_str l) (fun ss => Ok (VStr (join sep ss))).

(** [' '.join([str(t) for t in l])] *)
Fixpoint map_str (l : list value) : result (list string) :=
  match l with
  | [] => Ok []
  | v :: l' => bind (py_str v) (fun s => bind (map_str l') (fun r => Ok (s :: r)))
  end.

Definition py_join_str (sep : string) (l : list value) : result value :=
  bind (map_str l) (fun ss => Ok (VStr (join sep ss))).

(** [len(v)] *)
Definition py_len (v : value) : result Z :=
  match v with
  | VStr s => Ok (Z.of_nat (String.length s))
  | VList l => Ok (Z.of_nat (List.length l))
  | VTuple _ _ => Ok 2
  | _ => Raise TypeError
  end.

Fixpoint chars_of (s : string) : list value :=
  match s with
  | EmptyString => []
  | String c s' => VStr (String c EmptyString) :: chars_of s'
  end.

(** The items of an iterable, as [zip] and [f( *args )] consume them. *)
Definition py_iter (v : value) : result (list value) :=
  match v with
  | VStr s => Ok (chars_of s)
  | VList l => Ok l
  | VTuple a b => Ok [a; b]
  | _ => Raise TypeError
  end.

(** [replacement.replace(label, arg)] *)
Definition py_method_replace (self label arg : value) : result value :=
  match self with
  | VStr s =>
      match label, arg with
      | VStr l, VStr a => Ok (VStr (py_replace l a s))
      | _, _ => Raise TypeError
      end
  | _ => Raise AttributeError
  end.

(** *** Numbers *)

(** An integer as an (unnormalised) binary float. *)
Definition SF_of_Z (z : Z) (negzero : bool) : spec_float :=
  match z with
  | Z0 => S754_zero negzero
  | Zpos p => S754_finite false p 0
  | Zneg p => S754_finite true p 0
  end.

(** [float(z)]: the nearest binary64 number. *)
Definition float_of_Z (z : Z) : result spec_float :=
  match binary_normalize prec emax z 0 false with
  | S754_infinity _ => Raise OverflowError
  | f => Ok f
  end.

(** [a / b] on two [int]: the binary64 number nearest to the exact
    quotient (the division of CPython's [long_true_divide]). *)
Definition int_true_divide (a b : Z) : result value :=
  if b =? 0 then Raise ZeroDivisionError
  else
    match SFdiv prec emax (SF_of_Z a false) (SF_of_Z b false) with
    | S754_infinity _ => Raise OverflowError
    | S754_zero s => Ok (VFloat (S754_zero (xorb (a <? 0) (b <? 0))))
    | f => Ok (VFloat f)
    end.

(** A float that has an integral value ([float.is_integer]). *)
Definition float_is_integer (f : spec_float) : bool :=
  match f with
  | S754_zero _ => true
  | S754_finite _ m e =>
      if 0 <=? e then true else (Zpos m mod 2 ^ (- e) =? 0)
  | _ => false
  end.

Inductive num : Type :=
| NInt (z : Z)
| NFloat (f : spec_float).

(** The numeric view of a value: [bool] is a subclass of [int]. *)
Definition as_num (v : value) : option num :=
  match v with
  | VBool b => Some (NInt (if b then 1 else 0))
  | VInt z => Some (NInt z)
  | VFloat f => Some (NFloat f)
  | _ => None
  end.

Definition as_int (v : value) : option Z :=
  match v with
  | VBool b => Some (if b then 1 else 0)
  | VInt z => Some z
  | _ => None
  end.

Definition is_bool (v : value) : bool :=
  match v with VBool _ => true | _ => false end.

Definition to_float (n : num) : result spec_float :=
  match n with
  | NInt z => float_of_Z z
  | NFloat f => Ok f
  end.

Definition float_div (x y : spec_float) : result value :=
  if float_is_zero y then Raise ZeroDivisionError
  else Ok (VFloat (SFdiv prec emax x y)).

(** [a / b] *)
Definition py_truediv (a b : value) : result value :=
  match as_num a, as_num b with
  | Some (NInt x), Some (NInt y) => int_true_divide x y
  | Some x, Some y =>
      bind (to_float x) (fun fx => bind (to_float y) (fun fy => float_div fx fy))
  | _, _ => Raise TypeError
  end.

Fixpoint repeat_string (n : nat) (s : string) : string :=
  match n with
  | O => EmptyString
  | S n' => s ++ repeat_string n' s
  end.

(** [a * b] *)
Definition py_mul (a b : value) : result value :=
  match as_num a, as_num b with
  | Some (NInt x), Some (NInt y) => Ok (VInt (x * y))
  | Some x, Some y =>
      bind (to_float x) (fun fx => bind (to_float y) (fun fy =>
        Ok (VFloat (SFmul prec emax fx fy))))
  | _, _ =>
      match a, as_int b, as_int a, b with
      | VStr s, Some n, _, _ => Ok (VStr (repeat_string (Z.to_nat n) s))
      | _, _, Some n, VStr s => Ok (VStr (repeat_string (Z.to_nat n) s))
      | VTuple _ _, Some _, _, _ => Raise (Unmodelled "repetition of a tuple")
      | _, _, Some _, VTuple _ _ => Raise (Unmodelled "repetition of a tuple")
      | VList _, Some _, _, _ => Raise (Unmodelled "repetition of a list")
      | _, _, Some _, VList _ => Raise (Unmodelled "repetition of a list")
      | _, _, _, _ => Raise TypeError
      end
  end.

(** [a % b]: the sign of the result follows the divisor, as [Z.modulo]. *)
Definition py_mod (a b : value) : result value :=
  match as_num a, as_num b with
  | Some (NInt x), Some (NInt y) =>
      if y =? 0 then Raise ZeroDivisionError else Ok (VInt (x mod y))
  | Some _, Some _ => Raise (Unmodelled "float modulo")
  | _, _ =>
      match a with
      | VStr _ => Raise (Unmodelled "printf-style string formatting")
      | _ => Raise TypeError
      end
  end.

(** [a + b] *)
Definition py_add (a b : value) : result value :=
  match as_num a, as_num b with
  | Some (NInt x), Some (NInt y) => Ok (VInt (x + y))
  | Some x, Some y =>
      bind (to_float x) (fun fx => bind (to_float y) (fun fy =>
        Ok (VFloat (SFadd prec emax fx fy))))
  | _, _ =>
      match a, b with
      | VStr s, VStr t => Ok (VStr (s ++ t))
      | VList l, VList m => Ok (VList (l ++ m))
      | VTuple _ _, VTuple _ _ => Raise (Unmodelled "concatenation of tuples")
      | _, _ => Raise TypeError
      end
  end.

(** [a - b] *)
Definition py_sub (a b : value) : result value :=
  match as_num a, as_num b with
  | Some (NInt x), Some (NInt y) => Ok (VInt (x - y))
  | Some x, Some y =>
      bind (to_float x) (fun fx => bind (to_float y) (fun fy =>
        Ok (VFloat (SFsub prec emax fx fy))))
  | _, _ => Raise TypeError
  end.

(** [a << b] and [a >> b] *)
Definition py_lshift (a b : value) : result value :=
  match as_int a, as_int b with
  | Some x, Some y => if y <? 0 then Raise ValueError else Ok (VInt (Z.shiftl x y))
  | _, _ => Raise TypeError
  end.

Definition py_rshift (a b : value) : result value :=
  match as_int a, as_int b with
  | Some x, Some y => if y <? 0 then Raise ValueError else Ok (VInt (Z.shiftr x y))
  | _, _ => Raise TypeError
  end.

(** Bitwise operators: two [bool] give a [bool], integers an [int]. *)
Definition py_bitop (fb : bool -> bool -> bool) (fz : Z -> Z -> Z) (a b : value) : result value :=
  match a, b with
  | VBool x, VBool y => Ok (VBool (fb x y))
  | _, _ =>
      match as_int a, as_int b with
      | Some x, Some y => Ok (VInt (fz x y))
      | _, _ => Raise TypeError
      end
  end.

Definition py_and_ := py_bitop andb Z.land.
Definition py_xor := py_bitop xorb Z.lxor.
Definition py_or_ := py_bitop orb Z.lor.

Fixpoint string_ltb (s t : string) : bool :=
  match s, t with
  | _, EmptyString => false
  | EmptyString, String _ _ => true
  | String c s', String d t' =>
      (nat_of_ascii c <? nat_of_ascii d)%nat
      || (Nat.eqb (nat_of_ascii c) (nat_of_ascii d) && string_ltb s' t')
  end.

(** An [int] against a [float]: Python compares the two values exactly,
    without converting the integer; the float [m * 2 ^ e] is brought to an
    integer scale first. *)
Definition int_float_compare (a : Z) (f : spec_float) : option comparison :=
  match f with
  | S754_zero _ => Some (a ?= 0)
  | S754_infinity s => Some (if s then Gt else Lt)
  | S754_nan => None
  | S754_finite s m e =>
      let v := if s then Zneg m else Zpos m in
      Some (if 0 <=? e then a ?= v * 2 ^ e else a * 2 ^ (- e) ?= v)
  end.

(** Order of two numbers; [None] when a NaN is involved. *)
Definition num_compare (x y : num) : result (option comparison) :=
  match x, y with
  | NInt a, NInt b => Ok (Some (a ?= b))
  | NFloat a, NFloat b => Ok (SFcompare a b)
  | NInt a, NFloat f => Ok (int_float_compare a f)
  | NFloat f, NInt a => Ok (option_map CompOpp (int_float_compare a f))
  end.

(** [a < b], [a > b], [a <= b], [a >= b]: [test] reads the comparison. *)
Definition py_order (test : comparison -> bool) (a b : value) : result value :=
  match as_num a, as_num b with
  | Some x, Some y =>
      bind (num_compare x y) (fun c =>
        Ok (VBool (match c with Some c => test c | None => false end)))
  | _, _ =>
      match a, b with
      | VStr s, VStr t =>
          Ok (VBool (test (if String.eqb s t then Eq
                           else if string_ltb s t then Lt else Gt)))
      | VTuple _ _, VTuple _ _ => Raise (Unmodelled "comparison of tuples")
      | VList _, VList _ => Raise (Unmodelled "comparison of lists")
      | _, _ => Raise TypeError
      end
  end.

Definition is_lt (c : comparison) : bool := match c with Lt => true | _ => false end.
Definition is_gt (c : comparison) : bool := match c with Gt => true | _ => false end.
Definition is_le (c : comparison) : bool := match c with Gt => false | _ => true end.
Definition is_ge (c : comparison) : bool := match c with Lt => false | _ => true end.

(** [a == b] never raises; values of different kinds are unequal. *)
Definition py_eq (a b : value) : result bool :=
  match as_num a, as_num b with
  | Some x, Some y =>
      bind (num_compare x y) (fun c =>
        Ok (match c with Some Eq => true | _ => false end))
  | _, _ =>
      match a, b with
      | VStr s, VStr t => Ok (String.eqb s t)
      | VNone, VNone => Ok true
      | VTuple _ _, VTuple _ _ => Raise (Unmodelled "comparison of tuples")
      | VList _, VList _ => Raise (Unmodelled "comparison of lists")
      | VBuiltin f, VBuiltin g =>
          Ok (match f, g with
              | Strftime, Strftime | Localtime, Localtime => true
              | _, _ => false
              end)
      | _, _ => Ok false
      end
  end.

(** *** The last steps of [binary_round_aux]

    The float built from a rounded mantissa of 53 or 54 bits, and the
    location of the quotient after the shift by one bit. *)
Definition finish (sx : bool) (m1 e : Z) : spec_float :=
  if m1 =? 2 ^ 53 then S754_finite sx (Z.to_pos (2 ^ 52)) (e + 1)
  else S754_finite sx (Z.to_pos m1) e.

Definition loc_after_shift (m : Z) (l : location) : location :=
  loc_of_shr_record (shr_1 (shr_record_of_loc m l)).

End Py.
Import Py.

(** ** The lexer: class [C99PreProcessorLexer] *)

Module Lex.

(** Token types: the values of [reserved], the names of [tokens], and one
    type per literal character. *)
Inductive toktype : Type :=
| DEFINE | DEFINED | ELIF | ELSE | ENDIF | ERROR | IF | IFDEF | IFNDEF
| INCLUDE | LINE | PRAGMA | _PRAGMA | UNDEF
| CONSTANT | HEADER_NAME | DIRECTIVE | IDENTIFIER | STRING_LITERAL
| NEWLINE
| ELLIPSIS | LEFT_ASSIGN | RIGHT_ASSIGN | ADD_ASSIGN | SUB_ASSIGN
| MUL_ASSIGN | DIV_ASSIGN | MOD_ASSIGN | AND_ASSIGN | XOR_ASSIGN | OR_ASSIGN
| LEFT_OP | RIGHT_OP | INC_OP | DEC_OP | PTR_OP | AND_OP | OR_OP
| LE_OP | GE_OP | EQ_OP | NE_OP | HASH_HASH | LPAREN
| LIT (c : ascii).

Definition toktype_eqb (a b : toktype) : bool :=
  match a, b with
  | DEFINE, DEFINE | DEFINED, DEFINED | ELIF, ELIF | ELSE, ELSE
  | ENDIF, ENDIF | ERROR, ERROR | IF, IF | IFDEF, IFDEF | IFNDEF, IFNDEF
  | INCLUDE, INCLUDE | LINE, LINE | PRAGMA, PRAGMA | _PRAGMA, _PRAGMA
  | UNDEF, UNDEF | CONSTANT, CONSTANT | HEADER_NAME, HEADER_NAME
  | DIRECTIVE, DIRECTIVE | IDENTIFIER, IDENTIFIER
  | STRING_LITERAL, STRING_LITERAL | NEWLINE, NEWLINE
  | ELLIPSIS, ELLIPSIS | LEFT_ASSIGN, LEFT_ASSIGN
  | RIGHT_ASSIGN, RIGHT_ASSIGN | ADD_ASSIGN, ADD_ASSIGN
  | SUB_ASSIGN, SUB_ASSIGN | MUL_ASSIGN, MUL_ASSIGN
  | DIV_ASSIGN, DIV_ASSIGN | MOD_ASSIGN, MOD_ASSIGN
  | AND_ASSIGN, AND_ASSIGN | XOR_ASSIGN, XOR_ASSIGN | OR_ASSIGN, OR_ASSIGN
  | LEFT_OP, LEFT_OP | RIGHT_OP, RIGHT_OP | INC_OP, INC_OP | DEC_OP, DEC_OP
  | PTR_OP, PTR_OP | AND_OP, AND_OP | OR_OP, OR_OP | LE_OP, LE_OP
  | GE_OP, GE_OP | EQ_OP, EQ_OP | NE_OP, NE_OP | HASH_HASH, HASH_HASH
  | LPAREN, LPAREN => true
  | LIT c, LIT d => Ascii.eqb c d
  | _, _ => false
  end.

(** [reserved] *)
Definition reserved : list (string * toktype) :=
  [ ("#define", DEFINE); ("defined", DEFINED); ("#elif", ELIF);
    ("#else", ELSE); ("#endif", ENDIF); ("#error", ERROR); ("#if", IF);
    ("#ifdef", IFDEF); ("#ifndef", IFNDEF); ("#include", INCLUDE);
    ("#line", LINE); ("#pragma", PRAGMA); ("_Pragma", _PRAGMA);
    ("#undef", UNDEF) ].

Fixpoint lookup_reserved (l : list (string * toktype)) (k : string) : option toktype :=
  match l with
  | [] => None
  | (k', t) :: l' => if String.eqb k' k then Some t else lookup_reserved l' k
  end.

(** [literals] *)
Definition literals : string :=
  ";{},:=()[].&!~-+*/%<>^|?" ++ dq ++ "@#".

Fixpoint mem_char (c : ascii) (s : string) : bool :=
  match s with
  | EmptyString => false
  | String d s' => Ascii.eqb c d || mem_char c s'
  end.

(** [t_ignore] *)
Definition t_ignore : string := String " " (String TAB EmptyString).

(** *** The regular expressions of the rules *)

Definition DIGIT : regex := RSet is_digit.
(** [HEX_DIGIT = r"[a-fA-F-0-9]"]: the class holds the character [-]. *)
Definition HEX_DIGIT : regex :=
  RSet (fun c => in_range "a" "f" c || in_range "A" "F" c
                 || Ascii.eqb c "-" || is_digit c).
Definition E : regex :=
  RSeq (RSet (fun c => mem_char c "Ee"))
       (RSeq (ROpt (RSet (fun c => mem_char c "+-"))) (RPlus DIGIT)).
Definition FLOAT_SUFFIX : regex := RSet (fun c => mem_char c "fFlL").
Definition INT_SUFFIX : regex := RSet (fun c => mem_char c "uUlL").

Definition NEWLINE_RE : regex := RPlus (RChr NL).

Definition HEADER_NAME_RE : regex :=
  RAlt (RSeq (RChr "<")
             (RSeq (RPlus (RSet (fun c => negb (mem_char c "<>")))) (RChr ">")))
       (RSeq (RChr DQ)
             (RSeq (RPlus (RSet (fun c => negb (Ascii.eqb c DQ))))
                   (RSeq (RChr DQ) (RChr " ")))).

Definition IDENT_RE : regex := RSeq (RSet is_ident_start) (RStar (RSet is_ident_char)).
Definition DIRECTIVE_RE : regex := RSeq (RChr "#") IDENT_RE.

Definition STRING_LITERAL_RE : regex :=
  RSeq (ROpt (RChr "L"))
       (RSeq (RChr DQ)
             (RSeq (RStar (RAlt (RSeq (RChr BSL) RAny)
                                (RSet (fun c => negb (Ascii.eqb c BSL || Ascii.eqb c DQ)))))
                   (RChr DQ))).

Definition FLOAT_RE : regex :=
  RAlt (RSeq (RPlus DIGIT) (RSeq E (ROpt FLOAT_SUFFIX)))
  (RAlt (RSeq (RStar DIGIT)
              (RSeq (RChr ".") (RSeq (RPlus DIGIT) (RSeq (ROpt E) (ROpt FLOAT_SUFFIX)))))
        (RSeq (RPlus DIGIT)
              (RSeq (RChr ".") (RSeq (RStar DIGIT) (RSeq (ROpt E) (ROpt FLOAT_SUFFIX)))))).

Definition HEX_RE : regex :=
  RSeq (RChr "0") (RSeq (RSet (fun c => mem_char c "xX"))
                        (RSeq (RPlus HEX_DIGIT) (ROpt INT_SUFFIX))).

Definition INTEGER_RE : regex :=
  RAlt (RSeq (RChr "0") (RSeq (RPlus DIGIT) (ROpt INT_SUFFIX)))
       (RSeq (RPlus DIGIT) (ROpt INT_SUFFIX)).

Definition LITERAL_RE : regex :=
  RSeq (ROpt (RChr "L"))
       (RSeq (RChr SQ)
             (RSeq (RPlus (RAlt (RSeq (RChr BSL) RAny)
                                (RSet (fun c => negb (Ascii.eqb c SQ)))))
                   (RChr SQ))).

(** The rules given as functions, in the order of their definition, which
    is the order of the master expression. *)
Inductive lexrule : Type :=
| R_NEWLINE | R_HEADER_NAME | R_DIRECTIVE | R_IDENTIFIER | R_STRING_LITERAL
| R_FLOAT | R_HEX | R_INTEGER | R_LITERAL | R_LPAREN
| R_STR (t : toktype).

(** The rules given as strings; PLY adds them after the functions, the
    longest expression first.  Of two operators of which one is a prefix of
    the other ([<<=] and [<<], [>>=] and [>>]) the longer comes first. *)
Definition string_rules : list (toktype * string) :=
  [ (ELLIPSIS, "...");
    (DEC_OP, "--"); (HASH_HASH, "##"); (INC_OP, "++"); (OR_OP, "||");
    (ADD_ASSIGN, "+="); (LEFT_ASSIGN, "<<="); (MUL_ASSIGN, "*=");
    (OR_ASSIGN, "|="); (PTR_OP, "->"); (RIGHT_ASSIGN, ">>=");
    (XOR_ASSIGN, "^=");
    (AND_ASSIGN, "&="); (AND_OP, "&&"); (DIV_ASSIGN, "/="); (EQ_OP, "==");
    (GE_OP, ">="); (LEFT_OP, "<<"); (LE_OP, "<="); (MOD_ASSIGN, "%=");
    (NE_OP, "!="); (RIGHT_OP, ">>"); (SUB_ASSIGN, "-=") ].

Definition function_rules : list (lexrule * regex) :=
  [ (R_NEWLINE, NEWLINE_RE); (R_HEADER_NAME, HEADER_NAME_RE);
    (R_DIRECTIVE, DIRECTIVE_RE); (R_IDENTIFIER, IDENT_RE);
    (R_STRING_LITERAL, STRING_LITERAL_RE); (R_FLOAT, FLOAT_RE);
    (R_HEX, HEX_RE); (R_INTEGER, INTEGER_RE); (R_LITERAL, LITERAL_RE) ].

(** [t_LPAREN]: [(?<!\s)\(], a parenthesis that no white space precedes. *)
Definition lparen_len (prev : option ascii) (s : string) : option nat :=
  match s with
  | String "(" _ =>
      match prev with
      | Some p => if is_space p then None else Some 1%nat
      | None => Some 1%nat
      end
  | _ => None
  end.

Fixpoint first_function_rule (rules : list (lexrule * regex)) (s : string)
  : option (lexrule * nat) :=
  match rules with
  | [] => None
  | (r, re) :: rules' =>
      match match_len re s with
      | Some n => Some (r, n)
      | None => first_function_rule rules' s
      end
  end.

Fixpoint first_string_rule (rules : list (toktype * string)) (s : string)
  : option (lexrule * nat) :=
  match rules with
  | [] => None
  | (t, lit) :: rules' =>
      if starts_with lit s then Some (R_STR t, String.length lit)
      else first_string_rule rules' s
  end.

(** The master expression at one position. *)
Definition master_match (prev : option ascii) (s : string) : option (lexrule * nat) :=
  match first_function_rule function_rules s with
  | Some m => Some m
  | None =>
      match lparen_len prev s with
      | Some n => Some (R_LPAREN, n)
      | None => first_string_rule string_rules s
      end
  end.

(** What the scanner finds at a position, before the rule's function runs. *)
Inductive rawkind : Type :=
| RRule (r : lexrule)
| RLiteral
| RIllegal.

Record rawtok : Type := { rk : rawkind; lexeme : string }.

(** The scanning loop of [lex.Lexer.token]: skip [t_ignore], try the master
    expression, then the literals, else report an illegal character and
    skip it.  [skip] counts the characters of the current lexeme still to
    be passed; [prev] is the character before the position. *)
Fixpoint raw_lex (prev : option ascii) (skip : nat) (s : string) : list rawtok :=
  match s with
  | EmptyString => []
  | String c s' =>
      match skip with
      | S k => raw_lex (Some c) k s'
      | O =>
          if mem_char c t_ignore then raw_lex (Some c) O s'
          else
            match master_match prev s with
            | Some (r, S m) =>
                {| rk := RRule r; lexeme := take (S m) s |} :: raw_lex (Some c) m s'
            | _ =>
                if mem_char c literals
                then {| rk := RLiteral; lexeme := String c EmptyString |}
                       :: raw_lex (Some c) O s'
                else {| rk := RIllegal; lexeme := String c EmptyString |}
                       :: raw_lex (Some c) O s'
            end
      end
  end.

Record token : Type := { ttype : toktype; tvalue : value }.

(** The state of the wrapper object. *)
Record C99PreProcessorLexer : Type :=
  { lineno : Z; nested_if : Z }.

(** [__init__] *)
Definition lexer_init : C99PreProcessorLexer := {| lineno := 1; nested_if := 0 |}.

Definition endif_message : string :=
  "Number of #endif doesn't match with number of #if.".

(** [t_DIRECTIVE]: the token and the wrapper when the rule returns.  What
    the rule leaves in the wrapper when it raises is in
    [t_DIRECTIVE_object] below. *)
Definition t_DIRECTIVE (t_value : string) (self : C99PreProcessorLexer)
  : result (token * C99PreProcessorLexer) :=
  match lookup_reserved reserved t_value with
  | Some ty =>
      if toktype_eqb ty IF || toktype_eqb ty IFDEF || toktype_eqb ty IFNDEF then
        Ok ({| ttype := ty; tvalue := VStr t_value |},
            {| lineno := lineno self; nested_if := nested_if self + 1 |})
      else if toktype_eqb ty ENDIF then
        let n := nested_if self - 1 in
        if n <? 0 then Raise (Exception (VStr endif_message))
        else Ok ({| ttype := ty; tvalue := VStr t_value |},
                 {| lineno := lineno self; nested_if := n |})
      else Ok ({| ttype := ty; tvalue := VStr t_value |}, self)
  | None => Ok ({| ttype := DIRECTIVE; tvalue := VStr t_value |}, self)
  end.

(** [t_DIRECTIVE] statement by statement, with the wrapper object as the
    rule leaves it, also when it raises: the counter is decremented before
    it is tested, so the fatal error leaves it at -1. *)
Definition t_DIRECTIVE_object (t_value : string) (self : C99PreProcessorLexer)
  : result token * C99PreProcessorLexer :=
  match lookup_reserved reserved t_value with
  | Some ty =>
      if toktype_eqb ty IF || toktype_eqb ty IFDEF || toktype_eqb ty IFNDEF then
        (Ok {| ttype := ty; tvalue := VStr t_value |},
         {| lineno := lineno self; nested_if := nested_if self + 1 |})
      else if toktype_eqb ty ENDIF then
        let self' := {| lineno := lineno self; nested_if := nested_if self - 1 |} in
        if nested_if self' <? 0 then (Raise (Exception (VStr endif_message)), self')
        else (Ok {| ttype := ty; tvalue := VStr t_value |}, self')
      else (Ok {| ttype := ty; tvalue := VStr t_value |}, self)
  | None => (Ok {| ttype := DIRECTIVE; tvalue := VStr t_value |}, self)
  end.

(** *** Conversions of the numeric rules *)

Definition digit_val (c : ascii) : option Z :=
  if is_digit c then Some (Z.of_nat (nat_of_ascii c - 48)) else None.

Definition hex_val (c : ascii) : option Z :=
  if is_digit c then Some (Z.of_nat (nat_of_ascii c - 48))
  else if in_range "a" "f" c then Some (Z.of_nat (nat_of_ascii c - 87))
  else if in_range "A" "F" c then Some (Z.of_nat (nat_of_ascii c - 55))
  else None.

Fixpoint parse_digits (base : Z) (dv : ascii -> option Z) (acc : Z) (s : string) : option Z :=
  match s with
  | EmptyString => Some acc
  | String c s' =>
      match dv c with
      | Some d => parse_digits base dv (acc * base + d) s'
      | None => None
      end
  end.

(** [int(t.value)] on a lexeme of [INTEGER_RE]: a suffix is not a digit. *)
Definition int_of_lexeme (s : string) : result Z :=
  match s with
  | EmptyString => Raise ValueError
  | _ => match parse_digits 10 digit_val 0 s with
         | Some z => Ok z
         | None => Raise ValueError
         end
  end.

(** [int(t.value, 16)] on a lexeme of [HEX_RE]. *)
Definition hex_of_lexeme (s : string) : result Z :=
  match s with
  | String "0" (String x (String c rest)) =>
      if mem_char x "xX" then
        match parse_digits 16 hex_val 0 (String c rest) with
        | Some z => Ok z
        | None => Raise ValueError
        end
      else Raise ValueError
  | _ => Raise ValueError
  end.

(** Decimal digits at the front of a string, and the rest. *)
Fixpoint span_digits (s : string) : string * string :=
  match s with
  | String c s' =>
      if is_digit c then let (d, r) := span_digits s' in (String c d, r)
      else (EmptyString, s)
  | EmptyString => (EmptyString, EmptyString)
  end.

Definition digits_Z (s : string) : Z :=
  match parse_digits 10 digit_val 0 s with Some z => z | None => 0 end.

(** The binary64 number nearest to [m * 10 ^ e]. *)
Definition float_of_decimal (m e : Z) : spec_float :=
  match m with
  | Zpos p =>
      if 0 <=? e then binary_normalize prec emax (m * 10 ^ e) 0 false
      else SFdiv prec emax (S754_finite false p 0)
                           (SF_of_Z (10 ^ (- e)) false)
  | _ => S754_zero false
  end.

(** [float(t.value)] on a lexeme of [FLOAT_RE]: digits, an optional
    fraction, an optional exponent; a suffix is refused. *)
Definition float_of_lexeme (s : string) : result spec_float :=
  let (ip, r1) := span_digits s in
  let (fp, r2) :=
    match r1 with
    | String "." r => span_digits r
    | _ => (EmptyString, r1)
    end in
  let mant := digits_Z (ip ++ fp) in
  let scale := Z.of_nat (String.length fp) in
  match r2 with
  | EmptyString => Ok (float_of_decimal mant (- scale))
  | String e r3 =>
      if mem_char e "eE" then
        let '(neg, r4) :=
          match r3 with
          | String "-" r => (true, r)
          | String "+" r => (false, r)
          | _ => (false, r3)
          end in
        let (ep, r5) := span_digits r4 in
        match ep, r5 with
        | String _ _, EmptyString =>
            let x := digits_Z ep in
            Ok (float_of_decimal mant ((if neg then - x else x) - scale))
        | _, _ => Raise ValueError
        end
      else Raise ValueError
  end.

(** The function of a rule, applied to the matched text: the token it
    returns and the new state of the wrapper.  [lex_lineno] is the line
    counter of the PLY lexer object that scans the buffer. *)
Definition run_rule (r : lexrule) (t_value : string) (lex_lineno : Z)
  (self : C99PreProcessorLexer) : result (token * Z * C99PreProcessorLexer) :=
  match r with
  | R_NEWLINE =>
      let l := lex_lineno + Z.of_nat (String.length t_value) in
      Ok ({| ttype := NEWLINE; tvalue := VStr t_value |}, l,
          {| lineno := l; nested_if := nested_if self |})
  | R_HEADER_NAME => Ok ({| ttype := HEADER_NAME; tvalue := VStr t_value |}, lex_lineno, self)
  | R_DIRECTIVE =>
      bind (t_DIRECTIVE t_value self) (fun '(t, self') => Ok (t, lex_lineno, self'))
  | R_IDENTIFIER => Ok ({| ttype := IDENTIFIER; tvalue := VStr t_value |}, lex_lineno, self)
  | R_STRING_LITERAL =>
      Ok ({| ttype := STRING_LITERAL; tvalue := VStr t_value |}, lex_lineno, self)
  | R_FLOAT =>
      bind (float_of_lexeme t_value) (fun f =>
        Ok ({| ttype := CONSTANT; tvalue := VFloat f |}, lex_lineno, self))
  | R_HEX =>
      bind (hex_of_lexeme t_value) (fun z =>
        Ok ({| ttype := CONSTANT; tvalue := VInt z |}, lex_lineno, self))
  | R_INTEGER =>
      bind (int_of_lexeme t_value) (fun z =>
        Ok ({| ttype := CONSTANT; tvalue := VInt z |}, lex_lineno, self))
  | R_LITERAL => Ok ({| ttype := CONSTANT; tvalue := VStr t_value |}, lex_lineno, self)
  | R_LPAREN => Ok ({| ttype := LPAREN; tvalue := VStr t_value |}, lex_lineno, self)
  | R_STR t => Ok ({| ttype := t; tvalue := VStr t_value |}, lex_lineno, self)
  end.

Definition first_char (s : string) : ascii :=
  match s with
  | String c _ => c
  | EmptyString => "000"%char
  end.

(** One raw token through its rule: [None] for an illegal character, which
    [t_error] reports and skips. *)
Definition run_raw (t : rawtok) (lex_lineno : Z) (self : C99PreProcessorLexer)
  : result (option token * Z * C99PreProcessorLexer) :=
  match rk t with
  | RRule r =>
      bind (run_rule r (lexeme t) lex_lineno self) (fun '(tok, l, self') =>
        Ok (Some tok, l, self'))
  | RLiteral =>
      Ok (Some {| ttype := LIT (first_char (lexeme t)); tvalue := VStr (lexeme t) |},
          lex_lineno, self)
  | RIllegal => Ok (None, lex_lineno, self)
  end.

(** The tokens of a scanned buffer, the rule functions run in order, with
    the line counter and the state of the wrapper at the end. *)
Fixpoint scan (raws : list rawtok) (lex_lineno : Z) (self : C99PreProcessorLexer)
  : result (list token * Z * C99PreProcessorLexer) :=
  match raws with
  | [] => Ok ([], lex_lineno, self)
  | t :: raws' =>
      bind (run_raw t lex_lineno self) (fun '(o, l, self') =>
        bind (scan raws' l self') (fun '(toks, l', self'') =>
          Ok (match o with Some tok => tok :: toks | None => toks end, l', self'')))
  end.

(** [tokenize(data)], the first buffer handed to the lexer: [input] does
    not reset the line counter of the PLY lexer, which is at 1 only until
    the first [NEWLINE] has been scanned. *)
Definition tokenize (data : string) (self : C99PreProcessorLexer)
  : result (list token * C99PreProcessorLexer) :=
  bind (scan (raw_lex None O data) 1 self) (fun '(toks, _, self') => Ok (toks, self')).

(** The wrapper object after the rule of a raw token has raised: the
    numeric rules raise in [int] or [float], before anything is stored. *)
Definition left_by_raise (t : rawtok) (self : C99PreProcessorLexer) : C99PreProcessorLexer :=
  match rk t with
  | RRule R_DIRECTIVE => snd (t_DIRECTIVE_object (lexeme t) self)
  | _ => self
  end.

(** The wrapper object when the scan has stopped, at the end of the buffer
    or at the rule that raised. *)
Fixpoint scan_leaves (raws : list rawtok) (lex_lineno : Z) (self : C99PreProcessorLexer)
  : C99PreProcessorLexer :=
  match raws with
  | [] => self
  | t :: raws' =>
      match run_raw t lex_lineno self with
      | Ok (_, l, self') => scan_leaves raws' l self'
      | Raise _ => left_by_raise t self
      end
  end.

Definition tokenize_leaves (data : string) (self : C99PreProcessorLexer)
  : C99PreProcessorLexer :=
  scan_leaves (raw_lex None O data) 1 self.

(** *** Well-formed conditionals

    A raw token opens a conditional when [t_DIRECTIVE] maps it to [IF],
    [IFDEF] or [IFNDEF], and closes one when it maps it to [ENDIF]. *)
Definition is_directive (t : rawtok) (spelling : string) : bool :=
  match rk t with
  | RRule R_DIRECTIVE => String.eqb spelling (lexeme t)
  | _ => false
  end.

Definition opens (t : rawtok) : bool :=
  is_directive t "#if" || is_directive t "#ifdef" || is_directive t "#ifndef".

Definition closes (t : rawtok) : bool := is_directive t "#endif".

(** Every opening directive has its [#endif], properly nested. *)
Inductive balanced : list rawtok -> Prop :=
| balanced_nil : balanced []
| balanced_other (t : rawtok) (l : list rawtok) :
    opens t = false -> closes t = false -> balanced l -> balanced (t :: l)
| balanced_if (t t' : rawtok) (l1 l2 : list rawtok) :
    opens t = true -> closes t' = true -> balanced l1 -> balanced l2 ->
    balanced (t :: l1 ++ t' :: l2).

(** The numeric lexemes are accepted by [int] and [float]. *)
Definition converts (t : rawtok) : bool :=
  match rk t with
  | RRule R_FLOAT => match float_of_lexeme (lexeme t) with Ok _ => true | Raise _ => false end
  | RRule R_HEX => match hex_of_lexeme (lexeme t) with Ok _ => true | Raise _ => false end
  | RRule R_INTEGER => match int_of_lexeme (lexeme t) with Ok _ => true | Raise _ => false end
  | _ => true
  end.

(** What the scanner guarantees of a raw token: a lexeme of [t_DIRECTIVE]
    starts with [#], and no rule given as a string has the type
    [DEFINED]. *)
Definition raw_ok (t : rawtok) : Prop :=
  match rk t with
  | RRule R_DIRECTIVE => starts_with "#" (lexeme t) = true
  | RRule (R_STR ty) => ty <> DEFINED
  | _ => True
  end.

(** The wrapper with its counter moved by [d]. *)
Definition bump (d : Z) (self : C99PreProcessorLexer) : C99PreProcessorLexer :=
  {| lineno := lineno self; nested_if := nested_if self + d |}.

End Lex.
Import Lex.

(** ** The [Macro] record (intermediate_representation.py) *)

Module IR.

Record Macro : Type :=
  { name : string;
    replacement : value;
    arg_list : value;
    variadic : bool;
    callback : value;
    has_been_expanded : bool }.

(** [Macro.__init__(name, replacement = '', arg_list = [], variadic = False,
    callback = None)] *)
Definition Macro_init (name : string) (replacement arg_list : value)
  (variadic : bool) (callback : value) : Macro :=
  {| name := name; replacement := replacement; arg_list := arg_list;
     variadic := variadic; callback := callback; has_been_expanded := false |}.

Definition set_expanded (b : bool) (m : Macro) : Macro :=
  {| name := name m; replacement := replacement m; arg_list := arg_list m;
     variadic := variadic m; callback := callback m; has_been_expanded := b |}.

(** [zip(self.arg_list, arg_list)] followed by the loop of replacements. *)
Fixpoint substitute (labels args : list value) (replacement : value) : result value :=
  match labels, args with
  | l :: labels', a :: args' =>
      bind (py_method_replace replacement l a) (substitute labels' args')
  | _, _ => Ok replacement
  end.

(** A call of a built-in function of module [time].  [clock fmt] is the
    local time formatted by [fmt]; [strftime] refuses a second argument that
    is not a time tuple, and the function [time.localtime] is not one. *)
Definition call_builtin (clock : string -> string) (f : value) (args : list value)
  : result value :=
  match f with
  | VBuiltin Strftime =>
      match args with
      | [VStr fmt] => Ok (VStr (clock fmt))
      | _ => Raise TypeError
      end
  | VBuiltin Localtime => Raise (Unmodelled "time.struct_time")
  | _ => Raise TypeError
  end.

Definition needs_args_message : string := "Function like macro needs argument list.".
Definition arity_message : string :=
  "Number of arguments not matching with expected list length.".
Definition callback_args_message : string :=
  "Callback macro can't be called with user provided argument list.".

(** [Macro.expand(arg_list)]: the replacement and the macro with its flag
    set. *)
Definition expand (clock : string -> string) (self : Macro) (args : value)
  : result (value * Macro) :=
  bind
    (if truthy args then
       bind (if variadic self then Ok tt
             else bind (py_len args) (fun n =>
                  bind (py_len (arg_list self)) (fun m =>
                    if negb (n =? m) then Raise (Exception (VStr arity_message))
                    else Ok tt)))
         (fun _ =>
            if truthy (callback self)
            then Raise (Exception (VStr callback_args_message))
            else
              bind (py_iter (arg_list self)) (fun labels =>
              bind (py_iter args) (fun actuals =>
                substitute labels actuals (replacement self))))
     else if truthy (callback self) then
       bind (py_iter (arg_list self)) (fun stored =>
       bind (call_builtin clock (callback self) stored) (fun callback_return =>
         match callback_return with
         | VStr s => Ok (VStr (dq ++ s ++ dq))
         | v => bind (py_str v) (fun s => Ok (VStr s))
         end))
     else if truthy (arg_list self) && negb (truthy args) then
       Raise (Exception (VStr needs_args_message))
     else Ok (replacement self))
    (fun r => Ok (r, set_expanded true self)).

End IR.
Import IR.

(** ** The engine: class [C99PreProcessor] *)

Module Engine.

(** The fields of the object, then the environment it runs in: the files
    of the file system by path, the log of the files read, and the clock. *)
Record C99PreProcessor : Type :=
  { _current_file : option string;   (* [None]: the initial empty string, not a [Path] *)
    _lexer : C99PreProcessorLexer;
    headers_table : gmap string string;
    macro : gmap string Macro;
    _stdlib_path : list string;
    _keep_comment : bool;
    files : gmap string string;
    files_read : list string;
    clock : string -> string }.

Definition set_current_file (f : option string) (e : C99PreProcessor) : C99PreProcessor :=
  {| _current_file := f; _lexer := _lexer e; headers_table := headers_table e;
     macro := macro e; _stdlib_path := _stdlib_path e;
     _keep_comment := _keep_comment e; files := files e;
     files_read := files_read e; clock := clock e |}.

Definition set_lexer (l : C99PreProcessorLexer) (e : C99PreProcessor) : C99PreProcessor :=
  {| _current_file := _current_file e; _lexer := l; headers_table := headers_table e;
     macro := macro e; _stdlib_path := _stdlib_path e;
     _keep_comment := _keep_comment e; files := files e;
     files_read := files_read e; clock := clock e |}.

Definition set_headers_table (h : gmap string string) (e : C99PreProcessor) : C99PreProcessor :=
  {| _current_file := _current_file e; _lexer := _lexer e; headers_table := h;
     macro := macro e; _stdlib_path := _stdlib_path e;
     _keep_comment := _keep_comment e; files := files e;
     files_read := files_read e; clock := clock e |}.

Definition set_macro (m : gmap string Macro) (e : C99PreProcessor) : C99PreProcessor :=
  {| _current_file := _current_file e; _lexer := _lexer e; headers_table := headers_table e;
     macro := m; _stdlib_path := _stdlib_path e;
     _keep_comment := _keep_comment e; files := files e;
     files_read := files_read e; clock := clock e |}.

Definition log_read (p : string) (e : C99PreProcessor) : C99PreProcessor :=
  {| _current_file := _current_file e; _lexer := _lexer e; headers_table := headers_table e;
     macro := macro e; _stdlib_path := _stdlib_path e;
     _keep_comment := _keep_comment e; files := files e;
     files_read := files_read e ++ [p]; clock := clock e |}.

(** Computations on the engine: a result and the new state, or an
    exception, which aborts the pass. *)
Definition M (A : Type) : Type := C99PreProcessor -> result (A * C99PreProcessor).

Definition ret {A : Type} (a : A) : M A := fun e => Ok (a, e).
Definition raise {A : Type} (x : exn) : M A := fun _ => Raise x.
Definition mbind {A B : Type} (c : M A) (f : A -> M B) : M B :=
  fun e => match c e with
           | Ok (a, e') => f a e'
           | Raise x => Raise x
           end.
Definition lift {A : Type} (r : result A) : M A :=
  fun e => match r with Ok a => Ok (a, e) | Raise x => Raise x end.
Definition get : M C99PreProcessor := fun e => Ok (e, e).
Definition modify (f : C99PreProcessor -> C99PreProcessor) : M unit :=
  fun e => Ok (tt, f e).

Declare Scope engine_scope.
Delimit Scope engine_scope with engine.
Notation "x <- c ;; k" := (mbind c (fun x => k))
  (at level 100, c at next level, right associativity) : engine_scope.
Notation "c ;;; k" := (mbind c (fun _ => k))
  (at level 100, right associativity) : engine_scope.
Local Open Scope engine_scope.

(** [define_macro(name, replacement = None, arg_list = None, variadic =
    False)]: no callback is handed to [Macro]. *)
Definition define_macro (name : string) (replacement arg_list : value)
  (variadic : bool) : M Macro :=
  let m := Macro_init name replacement arg_list variadic VNone in
  modify (fun e => set_macro (<[name := m]> (macro e)) e) ;;;
  ret m.

(** [undef_macro(name)]: [self.macro.pop(name, None)] *)
Definition undef_macro (name : string) : M (option Macro) :=
  e <- get ;;
  modify (fun e => set_macro (delete name (macro e)) e) ;;;
  ret (macro e !! name).

(** [expand_macro(name, arg_list = None)] *)
Definition expand_macro (name : string) (args : value) : M value :=
  e <- get ;;
  match macro e !! name with
  | Some m =>
      if negb (has_been_expanded m) then
        r <- lift (expand (clock e) m args) ;;
        modify (fun e => set_macro (<[name := set_expanded false (snd r)]> (macro e)) e) ;;;
        ret (fst r)
      else
        modify (fun e => set_macro (<[name := set_expanded false m]> (macro e)) e) ;;;
        raise UnboundLocalError
  | None => raise (NameError ("Macro " ++ name ++ " not defined."))
  end.

(** [x in self.macro] *)
Definition in_macro (x : value) : M bool :=
  e <- get ;;
  match x with
  | VStr s => ret (bool_decide (is_Some (macro e !! s)))
  | VList _ => raise TypeError
  | _ => ret false
  end.

(** [__init__(stdlib_path = [], keep_comment = True)], in an environment. *)
Definition bare (stdlib_path : list string) (keep_comment : bool)
  (files : gmap string string) (clock : string -> string) : C99PreProcessor :=
  {| _current_file := None; _lexer := lexer_init; headers_table := ∅;
     macro := ∅;
     _stdlib_path := match stdlib_path with [] => ["stdlib/"] | _ => stdlib_path end;
     _keep_comment := keep_comment; files := files; files_read := [];
     clock := clock |}.

Definition register_builtins : M unit :=
  define_macro "__DATE__" (VBuiltin Strftime)
               (VList [VStr "%b %d %Y"; VBuiltin Localtime]) false ;;;
  define_macro "__FILE__" (VStr EmptyString) VNone false ;;;
  e <- get ;;
  define_macro "__LINE__" (VInt (lineno (_lexer e))) VNone false ;;;
  define_macro "__TIME__" (VBuiltin Strftime)
               (VList [VStr "%H:%M:%S"; VBuiltin Localtime]) false ;;;
  ret tt.

Definition C99PreProcessor_init (stdlib_path : list string) (keep_comment : bool)
  (files : gmap string string) (clock : string -> string) : C99PreProcessor :=
  match register_builtins (bare stdlib_path keep_comment files clock) with
  | Ok (_, e) => e
  | Raise _ => bare stdlib_path keep_comment files clock
  end.

(** *** Paths: a model of [pathlib] on relative POSIX paths *)

Fixpoint strip_trailing_slashes (s : string) : string :=
  match s with
  | EmptyString => EmptyString
  | String c s' =>
      match strip_trailing_slashes s' with
      | EmptyString => if Ascii.eqb c "/" then EmptyString else String c EmptyString
      | r => String c r
      end
  end.

(** [Path(s)] *)
Definition Path (s : string) : string :=
  match strip_trailing_slashes s with
  | EmptyString => if starts_with "/" s then "/" else "."
  | r => r
  end.

(** The text before the last [/] of [s], if there is one. *)
Fixpoint dirname (s : string) : option string :=
  match s with
  | EmptyString => None
  | String c s' =>
      match dirname s' with
      | Some d => Some (String c d)
      | None => if Ascii.eqb c "/" then Some EmptyString else None
      end
  end.

(** [p.parent] *)
Definition parent (p : string) : string :=
  match dirname p with
  | Some EmptyString => "/"
  | Some d => d
  | None => "."
  end.

(** [p.joinpath(h)] *)
Definition joinpath (p h : string) : string :=
  if starts_with "/" h then Path h
  else if String.eqb p "." then Path h
  else if String.eqb p "/" then Path ("/" ++ h)
  else Path (p ++ "/" ++ h).

Definition is_file (p : string) : M bool :=
  e <- get ;; ret (bool_decide (is_Some (files e !! p))).

(** [file.read_text()] *)
Definition read_text (p : string) : M string :=
  e <- get ;;
  match files e !! p with
  | Some content => modify (log_read p) ;;; ret content
  | None => raise (FileNotFoundError p)
  end.

(** The search of [include] in the directories of [self._stdlib_path]. *)
Fixpoint search_stdlib (dirs : list string) (header_path : string)
  (include_path : option string) : M (bool * option string) :=
  match dirs with
  | [] => ret (false, include_path)
  | std_dir :: dirs' =>
      let p := joinpath (Path std_dir) header_path in
      found <- is_file p ;;
      if found then ret (true, Some p) else search_stdlib dirs' header_path (Some p)
  end.

Definition not_found_message (header_path : string) : string :=
  header_path ++ " doesn't resolve to an existing file.".

(** [include(header_name)]; [process] is the method of the same object. *)
Definition include (process : string -> M value) (header_name : value) : M value :=
  match header_name with
  | VStr hn =>
      let header_path := slice_1_m1 hn in
      e <- get ;;
      match headers_table e !! header_path with
      | Some cached => ret (VStr cached)
      | None =>
          match hn with
          | EmptyString => raise IndexError
          | String c0 _ =>
              r1 <- (if Ascii.eqb c0 DQ
                        && match last_char hn with
                           | Some c => Ascii.eqb c DQ
                           | None => false
                           end
                     then
                       match _current_file e with
                       | Some cur =>
                           let p := joinpath (parent cur) header_path in
                           found <- is_file p ;; ret (found, Some p)
                       | None => raise AttributeError
                       end
                     else ret (false, None)) ;;
              r2 <- (if negb (fst r1)
                     then search_stdlib (_stdlib_path e) header_path (snd r1)
                     else ret r1) ;;
              if negb (fst r2) then
                raise (FileNotFoundError (not_found_message header_path))
              else
                match snd r2 with
                | Some include_path =>
                    include_content <- process include_path ;;
                    match include_content with
                    | VStr s =>
                        let include_content := s ++ nl in
                        modify (fun e =>
                          set_headers_table
                            (<[header_path := include_content]> (headers_table e)) e) ;;;
                        ret (VStr include_content)
                    | _ => raise TypeError
                    end
                | None => raise UnboundLocalError
                end
          end
      end
  | VTuple _ _ => raise (Unmodelled "slice of a tuple")
  | VList _ => raise (Unmodelled "slice of a list")
  | _ => raise TypeError
  end.

(** [process(file_path)]; [parse] is [self.parse] on a clone of the lexer. *)
Definition process (parse : string -> M value) (file_path : string) : M value :=
  let file := Path file_path in
  modify (set_current_file (Some file)) ;;;
  file_content <- read_text file ;;
  e <- get ;;
  parse (phase_filter (_keep_comment e) file_content).

End Engine.
Import Engine.

(** ** The semantic actions of the grammar

    An action receives the values [p[1:]] of the symbols of its production
    and returns [p[0]]; [len(p)] is one more than the number of symbols. *)

Module Actions.

Local Open Scope engine_scope.

(** Modelled from the spec: the decorator [debug_production] of module
    [utils], which is not among the sources.  Section 6.3 has the option
    [debug] trace the reductions of the grammar; the decorator leaves the
    action it wraps as it is, and the decorated actions below are written
    without it. *)
Definition debug_production {A : Type} (action : A) : A := action.

(** [p[i]] for [i >= 1] *)
Definition item (p : list value) (i : nat) : M value :=
  match nth_error p (Nat.pred i) with
  | Some v => ret v
  | None => raise IndexError
  end.

Definition len (p : list value) : nat := S (List.length p).

(** An f-string: the conversions of its parts, concatenated. *)
Definition fstr (parts : list value) : M value :=
  lift (bind (map_str parts) (fun ss => Ok (VStr (join EmptyString ss)))).

Definition nested_if_zero : M bool :=
  e <- get ;; ret (nested_if (_lexer e) =? 0).

(** [v[0]] and [v[1]] of a pair *)
Definition index (v : value) (i : nat) : M value :=
  match v, i with
  | VTuple a _, O => ret a
  | VTuple _ b, S O => ret b
  | VTuple _ _, _ => raise IndexError
  | VList l, _ => match nth_error l i with Some x => ret x | None => raise IndexError end
  | _, _ => raise (Unmodelled "index of a value that is no pair")
  end.

Definition as_string (v : value) : M string :=
  match v with
  | VStr s => ret s
  | _ => raise TypeError
  end.

Definition p_preprocessing_file (p : list value) : M value :=
  if Nat.eqb (len p) 2 then item p 1 else ret (VStr EmptyString).

Definition p_group (p : list value) : M value :=
  if Nat.eqb (len p) 2 then item p 1
  else p1 <- item p 1 ;; p2 <- item p 2 ;; fstr [p1; p2].

Definition p_group_part (p : list value) : M value := item p 1.

Definition p_control_line (p : list value) : M value :=
  p1 <- item p 1 ;; fstr [p1; VStr nl].

(** The end of the four [if_section] actions: the rescan of the selected
    block when no enclosing block is open. *)
Definition rescan (parse : string -> M value) (if_block : value) : M value :=
  z <- nested_if_zero ;;
  if z then s <- as_string if_block ;; parse s else ret if_block.

Definition p_if_section (parse : string -> M value) (p : list value) : M value :=
  p1 <- item p 1 ;;
  c <- index p1 0 ;;
  if_block <- (if truthy c then index p1 1 else ret (VStr nl)) ;;
  rescan parse if_block.

(** The [for] loop over the [elif] groups: the first one whose condition
    holds. *)
Fixpoint first_true_group (groups : list value) : M (option value) :=
  match groups with
  | [] => ret None
  | g :: groups' =>
      c <- index g 0 ;;
      if truthy c then b <- index g 1 ;; ret (Some b)
      else first_true_group groups'
  end.

Definition p_if_section2 (parse : string -> M value) (p : list value) : M value :=
  p1 <- item p 1 ;;
  c <- index p1 0 ;;
  if_block <- (if truthy c then index p1 1
               else
                 p2 <- item p 2 ;;
                 gs <- lift (py_iter p2) ;;
                 o <- first_true_group gs ;;
                 ret (match o with Some b => b | None => VStr nl end)) ;;
  rescan parse if_block.

Definition p_if_section3 (parse : string -> M value) (p : list value) : M value :=
  p1 <- item p 1 ;;
  c <- index p1 0 ;;
  if_block <- (if truthy c then index p1 1 else item p 2) ;;
  rescan parse if_block.

Definition p_if_section4 (parse : string -> M value) (p : list value) : M value :=
  p1 <- item p 1 ;;
  c <- index p1 0 ;;
  if_block <- (if truthy c then index p1 1
               else
                 p2 <- item p 2 ;;
                 gs <- lift (py_iter p2) ;;
                 o <- first_true_group gs ;;
                 match o with Some b => ret b | None => item p 3 end) ;;
  rescan parse if_block.

Definition p_if_group (p : list value) : M value :=
  p2 <- item p 2 ;;
  group <- (if truthy p2 && Nat.eqb (len p) 5 then item p 4 else ret (VStr EmptyString)) ;;
  ret (VTuple p2 group).

Definition p_if_group2 (p : list value) : M value :=
  p2 <- item p 2 ;;
  d <- in_macro p2 ;;
  group <- (if d && Nat.eqb (len p) 5 then item p 4 else ret (VStr EmptyString)) ;;
  ret (VTuple (VBool d) group).

Definition p_if_group3 (p : list value) : M value :=
  p2 <- item p 2 ;;
  d <- in_macro p2 ;;
  group <- (if negb d && Nat.eqb (len p) 5 then item p 4 else ret (VStr EmptyString)) ;;
  ret (VTuple (VBool (negb d)) group).

Definition p_elif_groups (p : list value) : M value :=
  if Nat.eqb (len p) 2 then p1 <- item p 1 ;; ret (VList [p1])
  else if Nat.eqb (len p) 3 then
    p1 <- item p 1 ;; p2 <- item p 2 ;;
    match p1 with
    | VList l => ret (VList (l ++ [p2]))
    | _ => raise AttributeError
    end
  else ret VNone.

Definition p_elif_group (p : list value) : M value :=
  p2 <- item p 2 ;;
  group <- (if truthy p2 && Nat.eqb (len p) 5 then item p 4 else ret (VStr EmptyString)) ;;
  ret (VTuple p2 group).

Definition p_else_group (p : list value) : M value :=
  if Nat.eqb (len p) 4 then item p 3 else ret (VStr EmptyString).

Definition p_endif_line (p : list value) : M value := ret (VStr nl).

Definition p_define_directive (p : list value) : M value :=
  z <- nested_if_zero ;;
  p1 <- item p 1 ;; p2 <- item p 2 ;; p3 <- item p 3 ;;
  if z then
    n <- as_string p2 ;; define_macro n p3 VNone false ;;; ret (VStr nl)
  else fstr [p1; VStr " "; p2; VStr " "; p3].

Definition p_define_directive_2 (p : list value) : M value :=
  z <- nested_if_zero ;;
  p1 <- item p 1 ;; p2 <- item p 2 ;; p5 <- item p 5 ;;
  if z then
    n <- as_string p2 ;; define_macro n p5 VNone false ;;; ret (VStr nl)
  else fstr [p1; VStr " "; p2; VStr "() "; p5].

(** [p[4].split(',')] *)
Definition split_commas (v : value) : M value :=
  s <- as_string v ;; ret (VList (map VStr (split_on "," EmptyString s))).

Definition p_define_directive_3 (p : list value) : M value :=
  z <- nested_if_zero ;;
  p1 <- item p 1 ;; p2 <- item p 2 ;; p4 <- item p 4 ;; p6 <- item p 6 ;;
  if z then
    n <- as_string p2 ;; a <- split_commas p4 ;;
    define_macro n p6 a false ;;; ret (VStr nl)
  else fstr [p1; VStr " "; p2; VStr "("; p4; VStr ") "; p6].

Definition p_define_directive_4 (p : list value) : M value :=
  z <- nested_if_zero ;;
  p1 <- item p 1 ;; p2 <- item p 2 ;; p6 <- item p 6 ;;
  if z then
    n <- as_string p2 ;; define_macro n p6 VNone true ;;; ret (VStr nl)
  else fstr [p1; VStr " "; p2; VStr "(...) "; p6].

Definition p_define_directive_5 (p : list value) : M value :=
  z <- nested_if_zero ;;
  p1 <- item p 1 ;; p2 <- item p 2 ;; p4 <- item p 4 ;; p8 <- item p 8 ;;
  if z then
    n <- as_string p2 ;; a <- split_commas p4 ;;
    define_macro n p8 a true ;;; ret (VStr nl)
  else fstr [p1; VStr " "; p2; VStr "("; p4; VStr ",...) "; p8].

Definition p_error_directive (p : list value) : M value :=
  z <- nested_if_zero ;;
  if z then
    if Nat.eqb (len p) 2 then raise (Exception VNone)
    else if Nat.eqb (len p) 3 then p2 <- item p 2 ;; raise (Exception p2)
    else ret VNone
  else
    p1 <- item p 1 ;;
    x <- (if Nat.eqb (len p) 2 then item p 2 else ret (VStr EmptyString)) ;;
    fstr [p1; VStr " "; x].

Definition p_include_directive (process : string -> M value) (p : list value) : M value :=
  z <- nested_if_zero ;;
  p1 <- item p 1 ;; p2 <- item p 2 ;;
  if z then include process p2 else fstr [p1; VStr " "; p2].

(** [lineno_update] and [pragma] are empty hooks. *)
Definition p_line_directive (p : list value) : M value :=
  z <- nested_if_zero ;;
  p1 <- item p 1 ;; p2 <- item p 2 ;;
  if z then ret (VStr nl) else fstr [p1; VStr " "; p2].

Definition p_pragma_directive (p : list value) : M value :=
  z <- nested_if_zero ;;
  if z then ret (VStr nl) else lift (py_join " " p).

Definition p_undef_directive (p : list value) : M value :=
  z <- nested_if_zero ;;
  p1 <- item p 1 ;; p2 <- item p 2 ;;
  if z then n <- as_string p2 ;; undef_macro n ;;; ret (VStr nl)
  else fstr [p1; VStr " "; p2].

Definition p_primary_expression (p : list value) : M value :=
  p1 <- item p 1 ;;
  d <- in_macro p1 ;;
  if d then n <- as_string p1 ;; expand_macro n VNone else ret p1.

Definition p_primary_expression2 (p : list value) : M value := item p 1.

Definition p_primary_expression3 (p : list value) : M value := item p 2.

Definition p_unary_expression (p : list value) : M value :=
  if Nat.eqb (len p) 2 then item p 1
  else if Nat.eqb (len p) 3 then
    p1 <- item p 1 ;; p2 <- item p 2 ;; ret (VTuple p1 p2)
  else
    p3 <- item p 3 ;; d <- in_macro p3 ;; ret (VBool d).

Definition p_unary_operator (p : list value) : M value := item p 1.

(** [p[2] == op] for the text of an operator *)
Definition is_op (v : value) (op : string) : bool :=
  match v with
  | VStr s => String.eqb s op
  | _ => false
  end.

(** The shape shared by the binary levels: the first operator of the chain
    [if p[2] == ...: ... elif ...] that fits; otherwise [p[0]] stays
    [None]. *)
Fixpoint binary_level (ops : list (string * (value -> value -> result value)))
  (p1 p2 p3 : value) : M value :=
  match ops with
  | [] => ret VNone
  | (op, f) :: ops' =>
      if is_op p2 op then lift (f p1 p3) else binary_level ops' p1 p2 p3
  end.

Definition binary_action (ops : list (string * (value -> value -> result value)))
  (p : list value) : M value :=
  if Nat.eqb (len p) 2 then item p 1
  else p1 <- item p 1 ;; p2 <- item p 2 ;; p3 <- item p 3 ;; binary_level ops p1 p2 p3.

Definition p_multiplicative_expression : list value -> M value :=
  binary_action [("*", py_mul); ("/", py_truediv); ("%", py_mod)].

Definition p_additive_expression : list value -> M value :=
  binary_action [("+", py_add); ("-", py_sub)].

Definition p_shift_expression : list value -> M value :=
  binary_action [("<<", py_lshift); (">>", py_rshift)].

Definition p_relational_expression : list value -> M value :=
  binary_action [("<", py_order is_lt); (">", py_order is_gt);
                 ("<=", py_order is_le); (">=", py_order is_ge)].

Definition p_equality_expression : list value -> M value :=
  binary_action
    [("==", fun a b => bind (py_eq a b) (fun r => Ok (VBool r)));
     ("!=", fun a b => bind (py_eq a b) (fun r => Ok (VBool (negb r))))].

Definition p_and_expression (p : list value) : M value :=
  if Nat.eqb (len p) 2 then item p 1
  else p1 <- item p 1 ;; p3 <- item p 3 ;; lift (py_and_ p1 p3).

Definition p_exclusive_or_expression (p : list value) : M value :=
  if Nat.eqb (len p) 2 then item p 1
  else p1 <- item p 1 ;; p3 <- item p 3 ;; lift (py_xor p1 p3).

Definition p_inclusive_or_expression (p : list value) : M value :=
  if Nat.eqb (len p) 2 then item p 1
  else p1 <- item p 1 ;; p3 <- item p 3 ;; lift (py_or_ p1 p3).

(** [p[1] and p[3]] *)
Definition p_logical_and_expression (p : list value) : M value :=
  if Nat.eqb (len p) 2 then item p 1
  else p1 <- item p 1 ;; p3 <- item p 3 ;; ret (if truthy p1 then p3 else p1).

(** [p[1] or p[2]] *)
Definition p_logical_or_expression (p : list value) : M value :=
  if Nat.eqb (len p) 2 then item p 1
  else p1 <- item p 1 ;; p2 <- item p 2 ;; ret (if truthy p1 then p1 else p2).

(** [p[1] if p[2] else p[3]] *)
Definition p_conditional_expression (p : list value) : M value :=
  if Nat.eqb (len p) 2 then item p 1
  else p1 <- item p 1 ;; p2 <- item p 2 ;; p3 <- item p 3 ;;
       ret (if truthy p2 then p1 else p3).

Definition p_constant_expression (p : list value) : M value := item p 1.

Definition p_text_line (p : list value) : M value := lift (py_join " " p).

Definition p_conditionally_supported_directive (p : list value) : M value :=
  ret (VStr nl).

Definition p_identifier_list (p : list value) : M value :=
  if Nat.eqb (len p) 2 then item p 1 else lift (py_join EmptyString p).

Definition p_replacement_list (p : list value) : M value :=
  if Nat.eqb (len p) 2 then item p 1 else ret VNone.

Definition p_token_list (p : list value) : M value :=
  if Nat.eqb (len p) 2 then item p 1 else lift (py_join_str " " p).

Definition p_token (p : list value) : M value :=
  p1 <- item p 1 ;;
  d <- in_macro p1 ;;
  if d then n <- as_string p1 ;; expand_macro n VNone else ret p1.

Definition p_token2 (p : list value) : M value := item p 1.

Definition p_operator_punc (p : list value) : M value := item p 1.

End Actions.
Import Actions.

(** ** The parser

    [yacc.yacc] builds an LALR(1) parser from the productions in the
    docstrings of the actions.  The grammar is written out here as a
    predictive parser with one token of lookahead that runs each action when
    its production is complete, the order in which the generated parser
    reduces.  The lookahead is read from the lexer as soon as the token
    before it has been shifted, so the rule of a token (the update of
    [nested_if] in [t_DIRECTIVE]) has run when the productions before that
    token are reduced.

    The generated parser reduces a production only when the lookahead is
    in the lookahead set of the reduction, which for this grammar is the
    set of the tokens that can follow the nonterminal; on any other token
    it calls [p_error] and the action does not run.  An action that can
    raise or that changes the engine is therefore guarded by [reduce_on]
    with that set, or by [at_newline] where the set is the [NEWLINE] that
    ends a directive.  An action that only hands on, joins or pairs its
    items has no such guard: it changes nothing in the engine, and the
    offending token is the same.

    At the call of [p_error] the embedding stops with [PErrorCalled] at the
    offending token.  [p_error] only prints: the error recovery of PLY, and
    with it what the program returns for an input outside the grammar, is
    left out, and no statement is made about such an input. *)

Module Parser.

Local Open Scope engine_scope.

Record pst : Type :=
  { la : option token;          (* the lookahead; [None] at the end of input *)
    pending : list rawtok;      (* what the scanner has not delivered yet *)
    lex_lineno : Z;             (* [lineno] of the cloned PLY lexer *)
    eng : C99PreProcessor }.

Definition P (A : Type) : Type := pst -> result (A * pst).

Definition pret {A : Type} (a : A) : P A := fun s => Ok (a, s).
Definition praise {A : Type} (x : exn) : P A := fun _ => Raise x.
Definition pbind {A B : Type} (c : P A) (f : A -> P B) : P B :=
  fun s => match c s with
           | Ok (a, s') => f a s'
           | Raise x => Raise x
           end.

Declare Scope parser_scope.
Delimit Scope parser_scope with parser.
Notation "x <~ c ;; k" := (pbind c (fun x => k))
  (at level 100, c at next level, right associativity) : parser_scope.
Local Open Scope parser_scope.

(** An action of the engine, run by the parser. *)
Definition act {A : Type} (m : M A) : P A :=
  fun s => match m (eng s) with
           | Ok (a, e) =>
               Ok (a, {| la := la s; pending := pending s;
                         lex_lineno := lex_lineno s; eng := e |})
           | Raise x => Raise x
           end.

(** The next token of the lexer: raw tokens go through their rules until
    one returns a token. *)
Fixpoint next_token (raws : list rawtok) (l : Z) (e : C99PreProcessor) : result pst :=
  match raws with
  | [] => Ok {| la := None; pending := []; lex_lineno := l; eng := e |}
  | t :: raws' =>
      match run_raw t l (_lexer e) with
      | Ok (Some tok, l', lx) =>
          Ok {| la := Some tok; pending := raws'; lex_lineno := l'; eng := set_lexer lx e |}
      | Ok (None, l', lx) => next_token raws' l' (set_lexer lx e)
      | Raise x => Raise x
      end
  end.

Definition describe (o : option token) : string :=
  match o with
  | Some {| tvalue := VStr s |} => s
  | Some _ => "CONSTANT"
  | None => "$end"
  end.

Definition peek : P (option toktype) :=
  fun s => Ok (match la s with Some t => Some (ttype t) | None => None end, s).

Definition syntax_error {A : Type} : P A :=
  fun s => Raise (PErrorCalled (describe (la s))).

(** Shift the lookahead and read the next one. *)
Definition shift : P value :=
  fun s => match la s with
           | Some t =>
               match next_token (pending s) (lex_lineno s) (eng s) with
               | Ok s' => Ok (tvalue t, s')
               | Raise x => Raise x
               end
           | None => Raise (PErrorCalled "$end")
           end.

Definition la_is (f : toktype -> bool) (o : option toktype) : bool :=
  match o with Some t => f t | None => false end.

Definition expect (ty : toktype) : P value :=
  o <~ peek ;; if la_is (toktype_eqb ty) o then shift else syntax_error.

Fixpoint loop_while (n : nat) (cond : option toktype -> bool)
  (step : value -> P value) (acc : value) : P value :=
  match n with
  | O => praise OutOfFuel
  | S n' =>
      o <~ peek ;;
      if cond o then acc' <~ step acc ;; loop_while n' cond step acc'
      else pret acc
  end.

(** A left-recursive list: repeat [step] while the lookahead starts one
    more item.  Every step shifts a token, so the number of tokens left
    bounds the iterations. *)
Definition while (cond : option toktype -> bool) (step : value -> P value)
  (acc : value) : P value :=
  fun s => loop_while (2 + List.length (pending s)) cond step acc s.

Definition is_named_punc (t : toktype) : bool :=
  match t with
  | AND_OP | MUL_ASSIGN | DIV_ASSIGN | MOD_ASSIGN | ADD_ASSIGN | SUB_ASSIGN
  | LEFT_ASSIGN | RIGHT_ASSIGN | AND_ASSIGN | XOR_ASSIGN | OR_ASSIGN
  | DEC_OP | ELLIPSIS | EQ_OP | GE_OP | INC_OP | LEFT_OP | LE_OP | NE_OP
  | HASH_HASH | PTR_OP | OR_OP | RIGHT_OP => true
  | _ => false
  end.

(** The tokens of [operator_punc] *)
Definition is_operator_punc (t : toktype) : bool :=
  match t with
  | LIT c => mem_char c ("=;{},:()[].&!~-+*/%<>^|?" ++ dq ++ "@#")
  | _ => is_named_punc t
  end.

(** The tokens that start a [token] *)
Definition starts_token (t : toktype) : bool :=
  match t with
  | IDENTIFIER | HEADER_NAME | CONSTANT | STRING_LITERAL => true
  | _ => is_operator_punc t
  end.

Definition starts_group_part (t : toktype) : bool :=
  match t with
  | DEFINE | ERROR | INCLUDE | LINE | PRAGMA | _PRAGMA | UNDEF
  | IF | IFDEF | IFNDEF | DIRECTIVE | NEWLINE => true
  | _ => starts_token t
  end.

Definition lit_in (chars : string) (t : toktype) : bool :=
  match t with
  | LIT c => mem_char c chars
  | _ => false
  end.

(** A reduction: the action runs when the lookahead is in the lookahead
    set [ok] of the production. *)
Definition reduce_on (ok : option toktype -> bool) (m : M value) : P value :=
  o <~ peek ;; if ok o then act m else syntax_error.

(** What can follow a [token]: another token, or the [NEWLINE] that ends
    the line.  An [LPAREN] is neither. *)
Definition follows_token (o : option toktype) : bool :=
  la_is (fun t => starts_token t || toktype_eqb t NEWLINE) o.

(** What can follow a [primary_expression]: a binary operator, [?], [:],
    [')'], or the [NEWLINE] that ends the line. *)
Definition follows_primary_expression (o : option toktype) : bool :=
  la_is (fun t => lit_in "*/%+-<>&^|?:)" t
                  || toktype_eqb t LEFT_OP || toktype_eqb t RIGHT_OP
                  || toktype_eqb t LE_OP || toktype_eqb t GE_OP
                  || toktype_eqb t EQ_OP || toktype_eqb t NE_OP
                  || toktype_eqb t AND_OP || toktype_eqb t OR_OP
                  || toktype_eqb t NEWLINE) o.

(** What can follow a [group_part]: the start of another one, the line
    that ends the enclosing conditional group, or the end of the input. *)
Definition follows_group_part (o : option toktype) : bool :=
  match o with
  | Some t => starts_group_part t || toktype_eqb t ELIF || toktype_eqb t ELSE
              || toktype_eqb t ENDIF
  | None => true
  end.

(** [token] *)
Definition parse_token : P value :=
  o <~ peek ;;
  match o with
  | Some IDENTIFIER => v <~ shift ;; reduce_on follows_token (p_token [v])
  | Some HEADER_NAME | Some CONSTANT | Some STRING_LITERAL =>
      v <~ shift ;; reduce_on follows_token (p_token2 [v])
  | Some t =>
      if is_operator_punc t then
        v <~ shift ;;
        v <~ reduce_on follows_token (p_operator_punc [v]) ;;
        act (p_token2 [v])
      else syntax_error
  | None => syntax_error
  end.

(** [token_list : token | token_list token] *)
Definition parse_token_list : P value :=
  t <~ parse_token ;;
  v <~ act (p_token_list [t]) ;;
  while (la_is starts_token)
        (fun acc => t <~ parse_token ;; act (p_token_list [acc; t])) v.

(** The productions of a directive are reduced when the lookahead is the
    [NEWLINE] that ends the control line. *)
Definition at_newline : P unit :=
  o <~ peek ;; if la_is (toktype_eqb NEWLINE) o then pret tt else syntax_error.

(** [replacement_list : | token_list] *)
Definition parse_replacement_list : P value :=
  o <~ peek ;;
  if la_is starts_token o then
    v <~ parse_token_list ;; _ <~ at_newline ;; act (p_replacement_list [v])
  else _ <~ at_newline ;; act (p_replacement_list []).

(** [identifier_list : IDENTIFIER | identifier_list ',' IDENTIFIER], up to
    the [')'] or to the [','] that an [ELLIPSIS] follows; the second
    component tells which, with the value of that [',']. *)
Fixpoint identifier_list_loop (n : nat) (acc : value) : P (value * option value) :=
  match n with
  | O => praise OutOfFuel
  | S n' =>
      o <~ peek ;;
      if la_is (toktype_eqb (LIT ",")) o then
        c <~ shift ;;
        o' <~ peek ;;
        if la_is (toktype_eqb IDENTIFIER) o' then
          i <~ shift ;;
          acc' <~ act (p_identifier_list [acc; c; i]) ;;
          identifier_list_loop n' acc'
        else pret (acc, Some c)
      else pret (acc, None)
  end.

Definition parse_define_directive : P value :=
  p1 <~ expect DEFINE ;;
  p2 <~ expect IDENTIFIER ;;
  o <~ peek ;;
  if la_is (toktype_eqb LPAREN) o then
    p3 <~ shift ;;
    o <~ peek ;;
    match o with
    | Some (LIT ")") =>
        p4 <~ shift ;;
        p5 <~ parse_replacement_list ;;
        act (p_define_directive_2 [p1; p2; p3; p4; p5])
    | Some ELLIPSIS =>
        p4 <~ shift ;;
        p5 <~ expect (LIT ")") ;;
        p6 <~ parse_replacement_list ;;
        act (p_define_directive_4 [p1; p2; p3; p4; p5; p6])
    | Some IDENTIFIER =>
        i <~ shift ;;
        l <~ act (p_identifier_list [i]) ;;
        r <~ (fun s => identifier_list_loop (2 + List.length (pending s)) l s) ;;
        match snd r with
        | None =>
            p5 <~ expect (LIT ")") ;;
            p6 <~ parse_replacement_list ;;
            act (p_define_directive_3 [p1; p2; p3; fst r; p5; p6])
        | Some p5 =>
            p6 <~ expect ELLIPSIS ;;
            p7 <~ expect (LIT ")") ;;
            p8 <~ parse_replacement_list ;;
            act (p_define_directive_5 [p1; p2; p3; fst r; p5; p6; p7; p8])
        end
    | _ => syntax_error
    end
  else
    p3 <~ parse_replacement_list ;;
    act (p_define_directive [p1; p2; p3]).

Definition parse_error_directive : P value :=
  p1 <~ expect ERROR ;;
  o <~ peek ;;
  if la_is starts_token o then
    p2 <~ parse_token_list ;; _ <~ at_newline ;; act (p_error_directive [p1; p2])
  else _ <~ at_newline ;; act (p_error_directive [p1]).

Definition parse_include_directive (process : string -> M value) : P value :=
  p1 <~ expect INCLUDE ;;
  p2 <~ parse_token_list ;;
  _ <~ at_newline ;;
  act (p_include_directive process [p1; p2]).

Definition parse_line_directive : P value :=
  p1 <~ expect LINE ;;
  p2 <~ parse_token_list ;;
  _ <~ at_newline ;;
  act (p_line_directive [p1; p2]).

Definition parse_pragma_directive : P value :=
  o <~ peek ;;
  if la_is (toktype_eqb _PRAGMA) o then
    p1 <~ shift ;;
    p2 <~ expect (LIT "(") ;;
    p3 <~ expect STRING_LITERAL ;;
    p4 <~ expect (LIT ")") ;;
    _ <~ at_newline ;;
    act (p_pragma_directive [p1; p2; p3; p4])
  else
    p1 <~ expect PRAGMA ;;
    o <~ peek ;;
    if la_is starts_token o then
      p2 <~ parse_token_list ;; _ <~ at_newline ;; act (p_pragma_directive [p1; p2])
    else _ <~ at_newline ;; act (p_pragma_directive [p1]).

Definition parse_undef_directive : P value :=
  p1 <~ expect UNDEF ;;
  p2 <~ expect IDENTIFIER ;;
  _ <~ at_newline ;;
  act (p_undef_directive [p1; p2]).

(** [control_line] *)
Definition parse_control_line (process : string -> M value) : P value :=
  o <~ peek ;;
  d <~ match o with
       | Some DEFINE => parse_define_directive
       | Some ERROR => parse_error_directive
       | Some INCLUDE => parse_include_directive process
       | Some LINE => parse_line_directive
       | Some PRAGMA | Some _PRAGMA => parse_pragma_directive
       | Some UNDEF => parse_undef_directive
       | _ => syntax_error
       end ;;
  n <~ expect NEWLINE ;;
  act (p_control_line [d; n]).

(** [text_line : NEWLINE | token_list NEWLINE] *)
Definition parse_text_line : P value :=
  o <~ peek ;;
  if la_is (toktype_eqb NEWLINE) o then
    n <~ shift ;; reduce_on follows_group_part (p_text_line [n])
  else
    t <~ parse_token_list ;;
    n <~ expect NEWLINE ;;
    reduce_on follows_group_part (p_text_line [t; n]).

(** [conditionally_supported_directive : DIRECTIVE token_list NEWLINE] *)
Definition parse_conditionally_supported_directive : P value :=
  p1 <~ expect DIRECTIVE ;;
  p2 <~ parse_token_list ;;
  p3 <~ expect NEWLINE ;;
  act (p_conditionally_supported_directive [p1; p2; p3]).

(** The nonterminals through which the grammar is recursive. *)
Inductive nonterm : Type :=
| N_group
| N_conditional_expression
| N_unary_expression.

Section Grammar.

Variable parse : string -> M value.       (* [self._parser.parse] on a cloned lexer *)
Variable rec : nonterm -> P value.

Definition parse_constant_expression : P value :=
  v <~ rec N_conditional_expression ;; act (p_constant_expression [v]).

Definition parse_primary_expression : P value :=
  o <~ peek ;;
  match o with
  | Some IDENTIFIER =>
      v <~ shift ;; reduce_on follows_primary_expression (p_primary_expression [v])
  | Some CONSTANT =>
      v <~ shift ;; reduce_on follows_primary_expression (p_primary_expression2 [v])
  | Some (LIT "(") =>
      p1 <~ shift ;;
      p2 <~ parse_constant_expression ;;
      p3 <~ expect (LIT ")") ;;
      reduce_on follows_primary_expression (p_primary_expression3 [p1; p2; p3])
  | _ => syntax_error
  end.

Definition parse_unary_expression : P value :=
  o <~ peek ;;
  if la_is (lit_in "&*+-~!") o then
    op <~ shift ;;
    p1 <~ act (p_unary_operator [op]) ;;
    p2 <~ rec N_unary_expression ;;
    act (p_unary_expression [p1; p2])
  else if la_is (toktype_eqb DEFINED) o then
    p1 <~ shift ;;
    p2 <~ expect (LIT "(") ;;
    p3 <~ expect IDENTIFIER ;;
    p4 <~ expect (LIT ")") ;;
    reduce_on follows_primary_expression (p_unary_expression [p1; p2; p3; p4])
  else
    v <~ parse_primary_expression ;; act (p_unary_expression [v]).

(** A level [e : sub | e op sub] of binary operators. *)
Definition binary_chain (ops : toktype -> bool) (sub : P value)
  (action : list value -> M value) : P value :=
  v <~ sub ;;
  v <~ act (action [v]) ;;
  while (la_is ops)
        (fun acc => op <~ shift ;; r <~ sub ;; act (action [acc; op; r])) v.

Definition parse_multiplicative_expression : P value :=
  binary_chain (lit_in "*/%") (rec N_unary_expression) p_multiplicative_expression.
Definition parse_additive_expression : P value :=
  binary_chain (lit_in "+-") parse_multiplicative_expression p_additive_expression.
Definition parse_shift_expression : P value :=
  binary_chain (fun t => toktype_eqb t LEFT_OP || toktype_eqb t RIGHT_OP)
               parse_additive_expression p_shift_expression.
Definition parse_relational_expression : P value :=
  binary_chain (fun t => lit_in "<>" t || toktype_eqb t LE_OP || toktype_eqb t GE_OP)
               parse_shift_expression p_relational_expression.
Definition parse_equality_expression : P value :=
  binary_chain (fun t => toktype_eqb t EQ_OP || toktype_eqb t NE_OP)
               parse_relational_expression p_equality_expression.
Definition parse_and_expression : P value :=
  binary_chain (lit_in "&") parse_equality_expression p_and_expression.
Definition parse_exclusive_or_expression : P value :=
  binary_chain (lit_in "^") parse_and_expression p_exclusive_or_expression.
Definition parse_inclusive_or_expression : P value :=
  binary_chain (lit_in "|") parse_exclusive_or_expression p_inclusive_or_expression.
Definition parse_logical_and_expression : P value :=
  binary_chain (toktype_eqb AND_OP) parse_inclusive_or_expression p_logical_and_expression.
Definition parse_logical_or_expression : P value :=
  binary_chain (toktype_eqb OR_OP) parse_logical_and_expression p_logical_or_expression.

Definition parse_conditional_expression : P value :=
  p1 <~ parse_logical_or_expression ;;
  o <~ peek ;;
  if la_is (toktype_eqb (LIT "?")) o then
    p2 <~ shift ;;
    p3 <~ rec N_conditional_expression ;;
    p4 <~ expect (LIT ":") ;;
    p5 <~ rec N_conditional_expression ;;
    act (p_conditional_expression [p1; p2; p3; p4; p5])
  else act (p_conditional_expression [p1]).

(** The optional [group] that ends [if_group], [elif_group], [else_group]:
    the values of the symbols before it, with its value when it is there. *)
Definition with_optional_group (front : list value) (action : list value -> M value)
  : P value :=
  o <~ peek ;;
  if la_is starts_group_part o then
    g <~ rec N_group ;; act (action (front ++ [g])%list)
  else act (action front).

Definition parse_if_group : P value :=
  o <~ peek ;;
  match o with
  | Some IF =>
      p1 <~ shift ;;
      p2 <~ parse_constant_expression ;;
      p3 <~ expect NEWLINE ;;
      with_optional_group [p1; p2; p3] p_if_group
  | Some IFDEF =>
      p1 <~ shift ;;
      p2 <~ expect IDENTIFIER ;;
      p3 <~ expect NEWLINE ;;
      with_optional_group [p1; p2; p3] p_if_group2
  | Some IFNDEF =>
      p1 <~ shift ;;
      p2 <~ expect IDENTIFIER ;;
      p3 <~ expect NEWLINE ;;
      with_optional_group [p1; p2; p3] p_if_group3
  | _ => syntax_error
  end.

Definition parse_elif_group : P value :=
  p1 <~ expect ELIF ;;
  p2 <~ parse_constant_expression ;;
  p3 <~ expect NEWLINE ;;
  with_optional_group [p1; p2; p3] p_elif_group.

(** [elif_groups : elif_group | elif_groups elif_group] *)
Definition parse_elif_groups : P value :=
  g <~ parse_elif_group ;;
  v <~ act (p_elif_groups [g]) ;;
  while (la_is (toktype_eqb ELIF))
        (fun acc => g <~ parse_elif_group ;; act (p_elif_groups [acc; g])) v.

Definition parse_else_group : P value :=
  p1 <~ expect ELSE ;;
  p2 <~ expect NEWLINE ;;
  with_optional_group [p1; p2] p_else_group.

Definition parse_endif_line : P value :=
  p1 <~ expect ENDIF ;;
  p2 <~ expect NEWLINE ;;
  act (p_endif_line [p1; p2]).

(** The four productions of [if_section] *)
Definition parse_if_section : P value :=
  p1 <~ parse_if_group ;;
  o <~ peek ;;
  if la_is (toktype_eqb ELIF) o then
    p2 <~ parse_elif_groups ;;
    o <~ peek ;;
    if la_is (toktype_eqb ELSE) o then
      p3 <~ parse_else_group ;;
      p4 <~ parse_endif_line ;;
      reduce_on follows_group_part (p_if_section4 parse [p1; p2; p3; p4])
    else
      p3 <~ parse_endif_line ;;
      reduce_on follows_group_part (p_if_section2 parse [p1; p2; p3])
  else if la_is (toktype_eqb ELSE) o then
    p2 <~ parse_else_group ;;
    p3 <~ parse_endif_line ;;
    reduce_on follows_group_part (p_if_section3 parse [p1; p2; p3])
  else
    p2 <~ parse_endif_line ;;
    reduce_on follows_group_part (p_if_section parse [p1; p2]).

Definition parse_group_part : P value :=
  o <~ peek ;;
  v <~ match o with
       | Some IF | Some IFDEF | Some IFNDEF => parse_if_section
       | Some DIRECTIVE => parse_conditionally_supported_directive
       | Some DEFINE | Some ERROR | Some INCLUDE | Some LINE | Some PRAGMA
       | Some _PRAGMA | Some UNDEF => parse_control_line (process parse)
       | Some t => if starts_group_part t then parse_text_line else syntax_error
       | None => syntax_error
       end ;;
  act (p_group_part [v]).

(** [group : group_part | group group_part] *)
Definition parse_group : P value :=
  g <~ parse_group_part ;;
  v <~ act (p_group [g]) ;;
  while (la_is starts_group_part)
        (fun acc => g <~ parse_group_part ;; act (p_group [acc; g])) v.

Definition parse_nonterm (nt : nonterm) : P value :=
  match nt with
  | N_group => parse_group
  | N_conditional_expression => parse_conditional_expression
  | N_unary_expression => parse_unary_expression
  end.

End Grammar.

Fixpoint drive (parse : string -> M value) (fuel : nat) (nt : nonterm) : P value :=
  match fuel with
  | O => praise OutOfFuel
  | S fuel' => parse_nonterm parse (drive parse fuel') nt
  end.

(** [preprocessing_file : | group] *)
Definition parse_preprocessing_file (parse : string -> M value) (fuel : nat) : P value :=
  o <~ peek ;;
  match o with
  | None => act (p_preprocessing_file [])
  | Some _ =>
      g <~ drive parse fuel N_group ;;
      o <~ peek ;;
      match o with
      | None => act (p_preprocessing_file [g])
      | Some _ => syntax_error
      end
  end.

(** [self._parser.parse(data, lexer = clone)]: [depth] bounds the nesting
    of rescans and inclusions. *)
Fixpoint parse_text (depth : nat) (data : string) : M value :=
  match depth with
  | O => raise OutOfFuel
  | S depth' =>
      fun e =>
        let raws := raw_lex None O data in
        match next_token raws 1 e with
        | Ok s =>
            match parse_preprocessing_file (parse_text depth')
                    (4 * List.length raws + 8) s with
            | Ok (v, s') => Ok (v, eng s')
            | Raise x => Raise x
            end
        | Raise x => Raise x
        end
  end.

(** [C99PreProcessor.process] and [C99PreProcessor.include] *)
Definition run_process (depth : nat) (file_path : string) : M value :=
  process (parse_text depth) file_path.

Definition run_include (depth : nat) (header_name : value) : M value :=
  include (run_process depth) header_name.

End Parser.
Import Parser.

(** ** Inputs of the examples *)

Module Examples.

Definition no_clock : string -> string := fun _ => EmptyString.

(** An engine built with the default options over a file system that holds
    one file, [main.c]. *)
Definition engine_on (content : string) : C99PreProcessor :=
  C99PreProcessor_init [] true {[ "main.c" := content ]} no_clock.

(** Scenario S1 of the specification *)
Definition s1_input : string := "#define FOO 1" ++ nl ++ "FOO" ++ nl.

Definition if_else (condition : string) : string :=
  "#if " ++ condition ++ nl ++ "YES" ++ nl ++ "#else" ++ nl ++ "NO" ++ nl
  ++ "#endif" ++ nl.

Definition defined_input : string :=
  "#define X 1" ++ nl ++ "#if defined(X)" ++ nl ++ "YES" ++ nl ++ "#endif" ++ nl.

(** A file that includes the header [h.h] twice. *)
Definition h_name : value := VStr (dq ++ "h.h" ++ dq).

Definition include_engine : C99PreProcessor :=
  set_current_file (Some "main.c")
    (C99PreProcessor_init [] true
       {[ "main.c" := "#include " ++ dq ++ "h.h" ++ dq ++ nl
                      ++ "#include " ++ dq ++ "h.h" ++ dq ++ nl;
          "h.h" := "int x;" ++ nl ]}
       no_clock).


Definition output (r : result (value * C99PreProcessor)) : result value :=
  match r with
  | Ok (v, _) => Ok v
  | Raise x => Raise x
  end.

End Examples.
Import Examples.

(** ** Notions used in the statements

    Predicates on texts and token lists, the loops of the matcher by name,
    and the states of the parser that the statements below speak about. *)

Module Notions.

(** The loop of [rmatch] on a greedy star, by its name. *)
Definition star_loop {A : Type} (r : regex) (k : string -> option A)
  : nat -> string -> option A :=
  fix loop (n : nat) (s0 : string) {struct n} : option A :=
    match n with
    | O => k s0
    | S n' =>
        match rmatch r s0
                (fun s' => if (String.length s' <? String.length s0)%nat
                           then loop n' s' else None) with
        | Some x => Some x
        | None => k s0
        end
    end.

(** The loop of [rmatch] on a lazy star. *)
Definition lazy_loop {A : Type} (r : regex) (k : string -> option A)
  : nat -> string -> option A :=
  fix loop (n : nat) (s0 : string) {struct n} : option A :=
    match k s0 with
    | Some x => Some x
    | None =>
        match n with
        | O => None
        | S n' =>
            rmatch r s0
              (fun s' => if (String.length s' <? String.length s0)%nat
                         then loop n' s' else None)
        end
    end.

(** A greedy run of the characters of a class, then [k], giving back one
    character at a time while [k] fails. *)
Fixpoint backtrack {A : Type} (f : ascii -> bool) (s : string) (k : string -> option A)
  : option A :=
  match s with
  | String c s' =>
      if f c then
        match backtrack f s' k with
        | Some x => Some x
        | None => k s
        end
      else k s
  | EmptyString => k s
  end.

(** The shortest run of the characters of a class after which [k]
    succeeds. *)
Fixpoint shortest {A : Type} (f : ascii -> bool) (s : string) (k : string -> option A)
  : option A :=
  match k s with
  | Some x => Some x
  | None =>
      match s with
      | String c s' => if f c then shortest f s' k else None
      | EmptyString => None
      end
  end.

(** The text after the longest prefix of characters of a class. *)
Fixpoint drop_while (f : ascii -> bool) (s : string) : string :=
  match s with
  | String c s' => if f c then drop_while f s' else s
  | EmptyString => EmptyString
  end.

Fixpoint take_while (f : ascii -> bool) (s : string) : string :=
  match s with
  | String c s' => if f c then String c (take_while f s') else EmptyString
  | EmptyString => EmptyString
  end.

Fixpoint all_chars (f : ascii -> bool) (s : string) : bool :=
  match s with
  | String c s' => f c && all_chars f s'
  | EmptyString => true
  end.

(** No character of the leading run of the class [f], nor the character
    after the run, is in [g]. *)
Fixpoint heads_ok (f g : ascii -> bool) (s : string) : bool :=
  match s with
  | String x s' => negb (g x) && (if f x then heads_ok f g s' else true)
  | EmptyString => true
  end.

(** No macro of the table is marked as being expanded. *)
Definition unexpanded (e : C99PreProcessor) : Prop :=
  forall (n : string) (m : Macro), macro e !! n = Some m -> has_been_expanded m = false.

(** The exceptions [Macro.expand] can raise. *)
Definition expand_exn (x : exn) : Prop :=
  match x with
  | TypeError | AttributeError | Exception _ | Unmodelled _ => True
  | _ => False
  end.

(** A file system with a directory [sub]: [main.c] includes ["sub/a.h"] and
    then ["b.h"], which exists next to [main.c] and in [sub]. *)
Definition sub_engine : C99PreProcessor :=
  C99PreProcessor_init [] true
    {[ "main.c" := "#include " ++ dq ++ "sub/a.h" ++ dq ++ nl
                   ++ "#include " ++ dq ++ "b.h" ++ dq ++ nl;
       "sub/a.h" := "int a;" ++ nl;
       "sub/b.h" := "int sub_b;" ++ nl;
       "b.h" := "int b;" ++ nl ]}
    no_clock.

(** The end of a block comment: [\*\/+]. *)
Definition block_end (s : string) : option string :=
  rmatch (RSeq (RChr "*") (RPlus (RChr "/"))) s Some.

Definition is_newline (t : rawtok) : bool :=
  match rk t with
  | RRule R_NEWLINE => true
  | _ => false
  end.

(** The characters matched by [t_NEWLINE] in a list of raw tokens. *)
Fixpoint newlines (raws : list rawtok) : Z :=
  match raws with
  | [] => 0
  | t :: raws' =>
      (if is_newline t then Z.of_nat (String.length (lexeme t)) else 0) + newlines raws'
  end.

(** What the scanner guarantees of the first character of a string or
    character literal. *)
Definition literal_ok (t : rawtok) : Prop :=
  match rk t with
  | RRule R_STRING_LITERAL => head_char (lexeme t) = Some DQ
  | RRule R_LITERAL => head_char (lexeme t) = Some SQ
  | _ => True
  end.

Definition exp_or_dot (x : ascii) : bool := mem_char x "Ee" || Ascii.eqb "." x.

(** The class [[a-fA-F-0-9]] of [HEX_DIGIT]. *)
Definition hex_class (c : ascii) : bool :=
  in_range "a" "f" c || in_range "A" "F" c || Ascii.eqb c "-" || is_digit c.

(** A text that [t_IDENTIFIER] matches as a whole. *)
Definition is_identifier (w : string) : bool :=
  match w with
  | String c w' => is_ident_start c && all_chars is_ident_char w'
  | EmptyString => false
  end.

Definition ident_raw (w : string) : rawtok := {| rk := RRule R_IDENTIFIER; lexeme := w |}.
Definition newline_raw : rawtok := {| rk := RRule R_NEWLINE; lexeme := nl |}.

Definition ident_token (w : string) : token := {| ttype := IDENTIFIER; tvalue := VStr w |}.
Definition newline_token : token := {| ttype := NEWLINE; tvalue := VStr nl |}.

(** The wrapper after the [NEWLINE] that ends line [l]. *)
Definition after_newline (l : Z) (e : C99PreProcessor) : C99PreProcessor :=
  set_lexer {| lineno := l + 1; nested_if := nested_if (_lexer e) |} e.

(** The state of the parser before the words [ws] and the end of the
    line. *)
Definition at_words (ws : list string) (l : Z) (e : C99PreProcessor) : pst :=
  match ws with
  | w :: ws' =>
      {| la := Some (ident_token w);
         pending := (map ident_raw ws' ++ [newline_raw])%list;
         lex_lineno := l; eng := e |}
  | [] =>
      {| la := Some newline_token; pending := []; lex_lineno := l + 1;
         eng := after_newline l e |}
  end.

Fixpoint join_onto (acc : string) (ws : list string) : string :=
  match ws with
  | [] => acc
  | w :: ws' => join_onto (acc ++ " " ++ w) ws'
  end.

(** The characters of a line of identifiers. *)
Definition plain (c : ascii) : bool :=
  is_ident_char c || Ascii.eqb c " " || Ascii.eqb c NL.

(** An [elif] group whose condition is false. *)
Definition false_group (g : value) : Prop :=
  exists c b : value, g = VTuple c b /\ truthy c = false.

(** A character with which no rule of the lexer starts, which is not
    ignored and which is no literal: [t_error] gets it. *)
Definition illegal_char (c : ascii) : bool :=
  negb (mem_char c t_ignore || mem_char c literals || Ascii.eqb c NL
        || is_digit c || is_ident_start c || Ascii.eqb c SQ).

(** What an action gives for a directive that it leaves alone: a string,
    the engine as it was; it can fail on its items only. *)
Definition kept_as_text (e : C99PreProcessor) (r : result (value * C99PreProcessor))
  : Prop :=
  match r with
  | Ok (v, e') => e' = e /\ exists s : string, v = VStr s
  | Raise x => x = IndexError \/ x = TypeError \/ exists w : string, x = Unmodelled w
  end.

(** A computation of the engine relates the state it returns in to the
    state it started from. *)
Definition keeps (R : C99PreProcessor -> C99PreProcessor -> Prop) {A : Type} (c : M A)
  : Prop :=
  forall (e e' : C99PreProcessor) (a : A), c e = Ok (a, e') -> R e e'.

Definition pkeeps (R : C99PreProcessor -> C99PreProcessor -> Prop) {A : Type} (c : P A)
  : Prop :=
  forall (s s' : pst) (a : A), c s = Ok (a, s') -> R (eng s) (eng s').

(** The actions of the grammar, all of them, with the parser they call. *)
Definition grammar_actions (parse : string -> M value) : list (list value -> M value) :=
  [ p_preprocessing_file; p_group; p_group_part; p_control_line;
    p_if_section parse; p_if_section2 parse; p_if_section3 parse; p_if_section4 parse;
    p_if_group; p_if_group2; p_if_group3; p_elif_groups; p_elif_group; p_else_group;
    p_endif_line;
    p_define_directive; p_define_directive_2; p_define_directive_3;
    p_define_directive_4; p_define_directive_5; p_error_directive;
    p_include_directive (process parse); p_line_directive; p_pragma_directive;
    p_undef_directive;
    p_primary_expression; p_primary_expression2; p_primary_expression3;
    p_unary_expression; p_unary_operator;
    p_multiplicative_expression; p_additive_expression; p_shift_expression;
    p_relational_expression; p_equality_expression; p_and_expression;
    p_exclusive_or_expression; p_inclusive_or_expression;
    p_logical_and_expression; p_logical_or_expression;
    p_conditional_expression; p_constant_expression;
    p_text_line; p_conditionally_supported_directive; p_identifier_list;
    p_replacement_list; p_token_list; p_token; p_token2; p_operator_punc ].

(** The states the engine can be in later: after any number of tokens read
    by the lexer (a rule changes the fields of the wrapper only), of files
    opened by [process] (which sets the current file and reads the file),
    of actions run by the parser and of whole files processed, in any
    order and on any items. *)
Inductive later (e : C99PreProcessor) : C99PreProcessor -> Prop :=
| later_now : later e e
| later_token (e1 : C99PreProcessor) (lx : C99PreProcessorLexer) :
    later e e1 -> later e (set_lexer lx e1)
| later_file (e1 : C99PreProcessor) (p : string) :
    later e e1 -> later e (log_read p (set_current_file (Some p) e1))
| later_action (e1 e2 : C99PreProcessor) (depth : nat)
    (action : list value -> M value) (p : list value) (v : value) :
    later e e1 ->
    In action (grammar_actions (parse_text depth)) ->
    action p e1 = Ok (v, e2) ->
    later e e2
| later_process (e1 e2 : C99PreProcessor) (depth : nat) (file_path : string) (v : value) :
    later e e1 ->
    run_process depth file_path e1 = Ok (v, e2) ->
    later e e2.


(** The log of the files read has grown by [more], and the current file is
    the last of them, or what it was when no file was read. *)
Definition current_file_is_last_read (e e' : C99PreProcessor) : Prop :=
  exists more : list string,
    files_read e' = (files_read e ++ more)%list
    /\ _current_file e' = List.last (map Some more) (_current_file e).

(** No [DEFINED] token is or will be the lookahead of the parser. *)
Definition never_defined (s : pst) : Prop :=
  (forall t : token, la s = Some t -> ttype t <> DEFINED)
  /\ Forall raw_ok (pending s).

(** A balanced buffer with a constant that [int] refuses. *)
Definition suffixed_constant_input : string :=
  "#if 1" ++ nl ++ "long x = 10L;" ++ nl ++ "#endif" ++ nl.

(** The lookahead is an [LPAREN]. *)
Definition at_lparen (s : pst) : Prop :=
  exists t : token, la s = Some t /\ ttype t = LPAREN.

End Notions.
Import Notions.

(** * Properties *)

(** ** Phase filter *)

(** C4: evaluated on the digraphs the claim names.  The pass leaves [:>]
    and [%>] as they are and replaces the reversed spellings [>:] and [>%],
    where the table of the standard gives the brackets. *)
Theorem digraph_table_reversed :
  _replace_di_trigraph ":>" = ":>"
  /\ _replace_di_trigraph "%>" = "%>"
  /\ _replace_di_trigraph ">:" = "]"
  /\ _replace_di_trigraph ">%" = "}"
  /\ _replace_di_trigraph "a<:0:> <%%> %:" = "a[0:> {%> #"
  /\ replace_with_table c99_di_tri_graph_table ":>" = "]"
  /\ replace_with_table c99_di_tri_graph_table "%>" = "}".
Proof. repeat split; reflexivity. Qed.

(** C3, as stated, fails on two inputs.  A file that ends in
    backslash-newline loses its last newline in the splice, after the test
    for a final newline has been made; of a doubled backslash before two
    newlines the single pass of [replace] leaves a backslash-newline
    behind. *)
Lemma phase_filter_postcondition_fails :
  phase_filter true ("x" ++ bsl ++ nl) = "x"
  /\ ends_with_nl (phase_filter true ("x" ++ bsl ++ nl)) = false
  /\ ends_with_nl (phase_filter false ("x" ++ bsl ++ nl)) = false
  /\ phase_filter true (bsl ++ bsl ++ nl ++ nl) = bsl ++ nl
  /\ contains (bsl ++ nl) (phase_filter true (bsl ++ bsl ++ nl ++ nl)) = true
  /\ contains (bsl ++ nl) (phase_filter false (bsl ++ bsl ++ nl ++ nl)) = true.
Proof. repeat split; reflexivity. Qed.

Lemma replace_from_step (old new : string) (c : ascii) (s' : string) :
  replace_from old new 0 (String c s')
  = if starts_with old (String c s')
    then new ++ replace_from old new (Nat.pred (String.length old)) s'
    else String c (replace_from old new 0 s').
Proof. reflexivity. Qed.

Lemma replace_from_skip (old new : string) (k : nat) (c : ascii) (s' : string) :
  replace_from old new (S k) (String c s') = replace_from old new k s'.
Proof. reflexivity. Qed.

Lemma splice_step (c d : ascii) (s'' : string) :
  splice (String c (String d s''))
  = if Ascii.eqb c BSL && Ascii.eqb d NL then splice s''
    else String c (splice (String d s'')).
Proof. reflexivity. Qed.

Lemma starts_with_bsl_nl (c d : ascii) (s : string) :
  starts_with (String BSL nl) (String c (String d s))
  = Ascii.eqb c BSL && Ascii.eqb d NL.
Proof.
  unfold starts_with, nl. cbn [strip_prefix].
  rewrite (Ascii.eqb_sym BSL c), (Ascii.eqb_sym NL d).
  destruct (Ascii.eqb c BSL); [|reflexivity].
  destruct (Ascii.eqb d NL); reflexivity.
Qed.

Lemma join_backslash_splice_aux (n : nat) :
  forall s, (String.length s <= n)%nat ->
    replace_from (String BSL nl) EmptyString 0 s = splice s.
Proof.
  induction n as [|n IH]; intros s Hlen.
  - destruct s; [reflexivity | simpl in Hlen; lia].
  - destruct s as [|c s']; [reflexivity|].
    destruct s' as [|d s''].
    + rewrite replace_from_step. unfold starts_with, nl. cbn [strip_prefix].
      destruct (Ascii.eqb BSL c); reflexivity.
    + rewrite replace_from_step, splice_step, starts_with_bsl_nl.
      destruct (Ascii.eqb c BSL && Ascii.eqb d NL).
      * change (Nat.pred (String.length (String BSL nl))) with 1%nat.
        rewrite replace_from_skip. cbn [String.append].
        apply IH. simpl in Hlen. lia.
      * f_equal. apply IH. simpl in Hlen. simpl. lia.
Qed.

Lemma join_backslash_splice (s : string) : _join_backslash s = splice s.
Proof.
  unfold _join_backslash.
  exact (join_backslash_splice_aux (String.length s) s (le_n _)).
Qed.

Lemma starts_with_cons (a c : ascii) (p s : string) :
  starts_with (String a p) (String c s) = Ascii.eqb a c && starts_with p s.
Proof.
  unfold starts_with. cbn [strip_prefix]. destruct (Ascii.eqb a c); reflexivity.
Qed.

Lemma contains_cons (n : string) (c : ascii) (s : string) :
  contains n (String c s) = starts_with n (String c s) || contains n s.
Proof. reflexivity. Qed.

Lemma ends_with_cons (suf : string) (c : ascii) (s : string) :
  ends_with suf (String c s) = String.eqb (String c s) suf || ends_with suf s.
Proof. reflexivity. Qed.

Lemma last_char_cons (c : ascii) (s : string) :
  s <> EmptyString -> last_char (String c s) = last_char s.
Proof. destruct s; [congruence | reflexivity]. Qed.

Lemma last_char_some_nonempty (s : string) (c : ascii) :
  last_char s = Some c -> s <> EmptyString.
Proof. destruct s; [discriminate | discriminate]. Qed.

Lemma last_char_app (a b : string) :
  b <> EmptyString -> last_char (a ++ b) = last_char b.
Proof.
  intros Hb. induction a as [|c a IH]; [reflexivity|].
  change (last_char (String c (a ++ b)) = last_char b).
  rewrite last_char_cons; [exact IH|].
  destruct a; [exact Hb | discriminate].
Qed.

Lemma starts_with_bsl_nl_short (c : ascii) :
  starts_with (String BSL nl) (String c EmptyString) = false.
Proof. unfold starts_with, nl. cbn [strip_prefix]. destruct (Ascii.eqb BSL c); reflexivity. Qed.

Lemma head_splice_nl (s : string) :
  head_char (splice s) = Some NL ->
  head_char s = Some NL \/ starts_with (String BSL nl) s = true.
Proof.
  destruct s as [|c [|d s'']]; cbn [splice head_char]; try (intros H; left; exact H).
  rewrite starts_with_bsl_nl.
  destruct (Ascii.eqb c BSL && Ascii.eqb d NL); [intros _; right; reflexivity|].
  cbn [head_char]. intros H; left; exact H.
Qed.

(** If no backslash stands before a backslash-newline, the splice leaves no
    backslash-newline. *)
Lemma splice_no_bsl_nl_aux (n : nat) :
  forall s, (String.length s <= n)%nat ->
    contains (String BSL (String BSL nl)) s = false ->
    contains (String BSL nl) (splice s) = false.
Proof.
  induction n as [|n IH]; intros s Hlen Hbb.
  - destruct s; [reflexivity | simpl in Hlen; lia].
  - destruct s as [|c [|d s'']]; [reflexivity | |].
    + cbn [splice]. rewrite contains_cons, starts_with_bsl_nl_short. reflexivity.
    + rewrite contains_cons in Hbb. apply orb_false_iff in Hbb. destruct Hbb as [Hb0 Hb1].
      rewrite splice_step.
      destruct (Ascii.eqb c BSL && Ascii.eqb d NL) eqn:Em.
      * apply IH; [simpl in Hlen; lia|].
        rewrite contains_cons in Hb1. apply orb_false_iff in Hb1. tauto.
      * rewrite contains_cons. apply orb_false_iff. split.
        2:{ apply IH; [simpl in Hlen; simpl; lia | exact Hb1]. }
        destruct (splice (String d s'')) as [|x X] eqn:Ex.
        { apply starts_with_bsl_nl_short. }
        rewrite starts_with_bsl_nl.
        destruct (Ascii.eqb c BSL) eqn:Ec; [|reflexivity].
        destruct (Ascii.eqb x NL) eqn:Ex'; [|reflexivity]. exfalso.
        apply Ascii.eqb_eq in Ex'. subst x.
        destruct (head_splice_nl (String d s'')) as [Hh|Hh].
        { rewrite Ex. reflexivity. }
        -- cbn [head_char] in Hh. inversion Hh; subst d.
           rewrite Ascii.eqb_refl in Em. discriminate.
        -- apply Ascii.eqb_eq in Ec. subst c.
           rewrite starts_with_cons, Ascii.eqb_refl, Hh in Hb0. discriminate.
Qed.

Lemma splice_no_bsl_nl (s : string) :
  contains (String BSL (String BSL nl)) s = false ->
  contains (String BSL nl) (splice s) = false.
Proof. apply (splice_no_bsl_nl_aux (String.length s)). apply le_n. Qed.

(** If the text ends in a newline that no backslash precedes, so does the
    spliced text. *)
Lemma splice_last_nl_aux (n : nat) :
  forall s, (String.length s <= n)%nat ->
    last_char s = Some NL ->
    ends_with (String BSL nl) s = false ->
    last_char (splice s) = Some NL.
Proof.
  induction n as [|n IH]; intros s Hlen Hl He.
  - destruct s; [discriminate | simpl in Hlen; lia].
  - destruct s as [|c [|d s'']]; [discriminate | exact Hl |].
    rewrite ends_with_cons in He. apply orb_false_iff in He. destruct He as [He0 He1].
    rewrite last_char_cons in Hl by discriminate.
    rewrite splice_step.
    destruct (Ascii.eqb c BSL && Ascii.eqb d NL) eqn:Em.
    + apply andb_true_iff in Em. destruct Em as [Ec Ed].
      apply Ascii.eqb_eq in Ec, Ed. subst c d.
      destruct s'' as [|x s3].
      * exfalso. unfold nl in He0. rewrite String.eqb_refl in He0. discriminate.
      * rewrite last_char_cons in Hl by discriminate.
        rewrite ends_with_cons in He1. apply orb_false_iff in He1.
        apply IH; [simpl in Hlen; simpl; lia | exact Hl | tauto].
    + assert (H : last_char (splice (String d s'')) = Some NL).
      { apply IH; [simpl in Hlen; simpl; lia | exact Hl | exact He1]. }
      rewrite last_char_cons; [exact H|].
      exact (last_char_some_nonempty _ _ H).
Qed.

Lemma splice_last_nl (s : string) :
  last_char s = Some NL ->
  ends_with (String BSL nl) s = false ->
  last_char (splice s) = Some NL.
Proof. apply (splice_last_nl_aux (String.length s)). apply le_n. Qed.

Lemma strip_prefix_app (p s r : string) :
  strip_prefix p s = Some r -> s = p ++ r.
Proof.
  revert s. induction p as [|a p IH]; intros s H.
  - cbn in H. inversion H. reflexivity.
  - destruct s as [|c s]; cbn [strip_prefix] in H; [discriminate|].
    destruct (Ascii.eqb a c) eqn:E; [|discriminate].
    apply Ascii.eqb_eq in E. subst c.
    change (String a s = String a (p ++ r)). f_equal. apply IH. exact H.
Qed.

Lemma string_length_app (a b : string) :
  String.length (a ++ b) = (String.length a + String.length b)%nat.
Proof.
  induction a as [|c a IH]; [reflexivity|].
  change (S (String.length (a ++ b)) = S (String.length a + String.length b)).
  rewrite IH. reflexivity.
Qed.

Lemma string_app_empty_r (a : string) : a ++ EmptyString = a.
Proof.
  induction a as [|c a IH]; [reflexivity|].
  change (String c (a ++ EmptyString) = String c a). rewrite IH. reflexivity.
Qed.

(** A replacement whose pattern does not end in a newline keeps the final
    newline of the text. *)
Lemma replace_from_last_nl (old new : string) :
  old <> EmptyString -> last_char old <> Some NL ->
  forall (s : string) (skip : nat),
    last_char s = Some NL -> (skip < String.length s)%nat ->
    last_char (replace_from old new skip s) = Some NL.
Proof.
  intros Hold Hlast. induction s as [|c s' IH]; intros skip Hl Hs; [discriminate|].
  destruct skip as [|k].
  - rewrite replace_from_step.
    destruct (starts_with old (String c s')) eqn:Em.
    + unfold starts_with in Em.
      destruct (strip_prefix old (String c s')) as [rest|] eqn:Es; [|discriminate].
      apply strip_prefix_app in Es.
      assert (Hrest : rest <> EmptyString).
      { intros ->. rewrite string_app_empty_r in Es. rewrite Es in Hl. contradiction. }
      assert (Hlen : (String.length old + String.length rest = S (String.length s'))%nat).
      { rewrite <- string_length_app, <- Es. reflexivity. }
      assert (Ho : (0 < String.length old)%nat) by (destruct old; [congruence | simpl; lia]).
      assert (Hr : (0 < String.length rest)%nat) by (destruct rest; [congruence | simpl; lia]).
      assert (Hs' : s' <> EmptyString) by (destruct s'; [simpl in Hlen; lia | discriminate]).
      rewrite last_char_cons in Hl by exact Hs'.
      assert (H : last_char (replace_from old new (Nat.pred (String.length old)) s') = Some NL).
      { apply IH; [exact Hl | lia]. }
      rewrite last_char_app; [exact H | exact (last_char_some_nonempty _ _ H)].
    + destruct s' as [|d s''].
      * exact Hl.
      * rewrite last_char_cons in Hl by discriminate.
        assert (H : last_char (replace_from old new 0 (String d s'')) = Some NL).
        { apply IH; [exact Hl | simpl; lia]. }
        rewrite last_char_cons; [exact H | exact (last_char_some_nonempty _ _ H)].
  - rewrite replace_from_skip.
    assert (Hs' : s' <> EmptyString) by (destruct s'; [simpl in Hs; lia | discriminate]).
    rewrite last_char_cons in Hl by exact Hs'.
    apply IH; [exact Hl | simpl in Hs; lia].
Qed.

Lemma replace_with_table_last_nl (table : list (string * string)) :
  forallb keeps_newline table = true ->
  forall s, last_char s = Some NL ->
    last_char (replace_with_table table s) = Some NL.
Proof.
  unfold replace_with_table.
  induction table as [|[old new] table IH]; intros Hall s Hl; [exact Hl|].
  cbn [forallb] in Hall. apply andb_true_iff in Hall. destruct Hall as [Hkv Hall].
  cbn [fold_left fst snd]. apply IH; [exact Hall|].
  unfold keeps_newline in Hkv. cbn [fst] in Hkv.
  apply andb_true_iff in Hkv. destruct Hkv as [H1 H2].
  assert (Hold : old <> EmptyString).
  { intros ->. discriminate. }
  assert (Hlast : last_char old <> Some NL).
  { intros E. rewrite E, Ascii.eqb_refl in H2. discriminate. }
  unfold py_replace. destruct old as [|a old']; [congruence|].
  apply replace_from_last_nl; try assumption.
  destruct s; [discriminate | simpl; lia].
Qed.

Lemma source_file_last_nl (content : string) :
  last_char (if _is_source_file content then content else content ++ nl) = Some NL.
Proof.
  unfold _is_source_file, ends_with_nl.
  destruct (negb (Nat.eqb (String.length content) 0)); cbn [andb].
  - destruct (last_char content) as [c|] eqn:E.
    + destruct (Ascii.eqb c NL) eqn:Ec.
      * apply Ascii.eqb_eq in Ec. subst c. exact E.
      * apply last_char_app. discriminate.
    + apply last_char_app. discriminate.
  - apply last_char_app. discriminate.
Qed.

Lemma rmatch_sound (A : Type) (r : regex) :
  forall (s : string) (k : string -> option A) (x : A),
    rmatch r s k = Some x ->
    exists rest, matches r s rest /\ k rest = Some x.
Proof.
  induction r as [| c | | f | r1 IH1 r2 IH2 | r1 IH1 r2 IH2 | r IH | r IH];
    intros s k x H; cbn [rmatch] in H.
  - exists s. split; [constructor | exact H].
  - destruct s as [|d s']; [discriminate|].
    destruct (Ascii.eqb c d) eqn:E; [|discriminate].
    apply Ascii.eqb_eq in E. subst d. exists s'. split; [constructor | exact H].
  - destruct s as [|d s']; [discriminate|].
    destruct (Ascii.eqb d NL) eqn:E; [discriminate|].
    apply Ascii.eqb_neq in E. exists s'. split; [constructor; exact E | exact H].
  - destruct s as [|d s']; [discriminate|].
    destruct (f d) eqn:E; [|discriminate].
    exists s'. split; [constructor; exact E | exact H].
  - apply IH1 in H. destruct H as [s1 [H1 H]].
    apply IH2 in H. destruct H as [s2 [H2 H]].
    exists s2. split; [econstructor; eassumption | exact H].
  - destruct (rmatch r1 s k) as [y|] eqn:E.
    + inversion H; subst y. apply IH1 in E. destruct E as [s1 [H1 E]].
      exists s1. split; [apply m_alt_l; exact H1 | exact E].
    + apply IH2 in H. destruct H as [s1 [H1 H]].
      exists s1. split; [apply m_alt_r; exact H1 | exact H].
  - revert H. generalize (String.length s) as n. revert s.
    intros s n. revert s. induction n as [|n IHn]; intros s H.
    + exists s. split; [constructor | exact H].
    + match type of H with
      | match ?c with _ => _ end = _ => destruct c as [y|] eqn:E
      end.
      * inversion H; subst y. apply IH in E. destruct E as [s1 [H1 E]].
        destruct (String.length s1 <? String.length s)%nat; [|discriminate].
        apply IHn in E. destruct E as [s2 [H2 E]].
        exists s2. split; [econstructor; eassumption | exact E].
      * exists s. split; [constructor | exact H].
  - revert H. generalize (String.length s) as n. revert s.
    intros s n. revert s. induction n as [|n IHn]; intros s H.
    + destruct (k s) as [y|] eqn:E; [|discriminate].
      exists s. split; [constructor | congruence].
    + destruct (k s) as [y|] eqn:E.
      * exists s. split; [constructor | congruence].
      * apply IH in H. destruct H as [s1 [H1 H]].
        destruct (String.length s1 <? String.length s)%nat; [|discriminate].
        apply IHn in H. destruct H as [s2 [H2 H]].
        exists s2. split; [econstructor; eassumption | exact H].
Qed.

Lemma consumed_cons (a : ascii) (s rest : string) :
  consumed_to_non_nl s rest -> consumed_to_non_nl (String a s) rest.
Proof.
  intros [pre [c [E Hc]]]. exists (String a pre), c. split; [|exact Hc].
  rewrite E. reflexivity.
Qed.

Lemma matches_suffix (r : regex) (s rest : string) :
  matches r s rest -> exists pre, s = pre ++ rest.
Proof.
  induction 1 as [s | c s | c s Hc | f c s Hf
                  | r1 r2 s s1 s2 H1 IH1 H2 IH2
                  | r1 r2 s s1 H1 IH1 | r1 r2 s s1 H1 IH1
                  | r s | r s s1 s2 H1 IH1 H2 IH2
                  | r s | r s s1 s2 H1 IH1 H2 IH2].
  - exists EmptyString. reflexivity.
  - exists (String c EmptyString). reflexivity.
  - exists (String c EmptyString). reflexivity.
  - exists (String c EmptyString). reflexivity.
  - destruct IH1 as [p1 E1], IH2 as [p2 E2]. exists (p1 ++ p2).
    rewrite E1, E2. clear. induction p1 as [|a p1 IH]; [reflexivity|].
    change (String a (p1 ++ p2 ++ s2) = String a ((p1 ++ p2) ++ s2)). rewrite IH. reflexivity.
  - exact IH1.
  - exact IH1.
  - exists EmptyString. reflexivity.
  - destruct IH1 as [p1 E1], IH2 as [p2 E2]. exists (p1 ++ p2).
    rewrite E1, E2. clear. induction p1 as [|a p1 IH]; [reflexivity|].
    change (String a (p1 ++ p2 ++ s2) = String a ((p1 ++ p2) ++ s2)). rewrite IH. reflexivity.
  - exists EmptyString. reflexivity.
  - destruct IH1 as [p1 E1], IH2 as [p2 E2]. exists (p1 ++ p2).
    rewrite E1, E2. clear. induction p1 as [|a p1 IH]; [reflexivity|].
    change (String a (p1 ++ p2 ++ s2) = String a ((p1 ++ p2) ++ s2)). rewrite IH. reflexivity.
Qed.

Lemma consumed_app (pre s rest : string) :
  consumed_to_non_nl s rest -> consumed_to_non_nl (pre ++ s) rest.
Proof.
  intros H. induction pre as [|a pre IH]; [exact H|].
  change (consumed_to_non_nl (String a (pre ++ s)) rest). apply consumed_cons. exact IH.
Qed.

(** A greedy run of single characters, none of them a newline. *)
Lemma star_of_non_nl (r : regex) (s rest : string) :
  (forall a b, matches r a b -> exists c, a = String c b /\ c <> NL) ->
  matches (RStar r) s rest ->
  s = rest \/ consumed_to_non_nl s rest.
Proof.
  intros Hr H. remember (RStar r) as rs eqn:E.
  induction H as [ | | | | | | | r0 s | r0 s s1 s2 H1 _ H2 IH2 | | ]; try discriminate.
  - left. reflexivity.
  - inversion E; subst r0. right.
    destruct (Hr _ _ H1) as [c [Ec Hc]]. subst s.
    destruct (IH2 eq_refl) as [-> | Hcons].
    + exists EmptyString, c. split; [reflexivity | exact Hc].
    + apply consumed_cons. exact Hcons.
Qed.

Lemma chr_single (c : ascii) (a b : string) :
  c <> NL -> matches (RChr c) a b -> exists d, a = String d b /\ d <> NL.
Proof. intros Hc H. inversion H; subst. exists c. split; [reflexivity | exact Hc]. Qed.

Lemma any_single (a b : string) :
  matches RAny a b -> exists d, a = String d b /\ d <> NL.
Proof. intros H. inversion H; subst. eexists. split; [reflexivity | assumption]. Qed.

Ltac invert_matches :=
  repeat match goal with
         | H : matches (RSeq _ _) _ _ |- _ => inversion H; subst; clear H
         | H : matches (RAlt _ _) _ _ |- _ => inversion H; subst; clear H
         | H : matches (RChr _) _ _ |- _ => inversion H; subst; clear H
         | H : matches REps _ _ |- _ => inversion H; subst; clear H
         end.

Lemma comment_match_consumed (s rest : string) :
  matches COMMENT_RE s rest -> consumed_to_non_nl s rest.
Proof.
  unfold COMMENT_RE, RPlus. cbn [RLit]. intros H. invert_matches.
  - (* block comment *)
    match goal with
    | Hz : matches (RStarLazy _) _ _ |- _ =>
        apply matches_suffix in Hz; destruct Hz as [p ->]
    end.
    apply consumed_cons, consumed_cons, consumed_app, consumed_cons.
    match goal with
    | Hs : matches (RStar (RChr "/")) _ _ |- _ =>
        destruct (star_of_non_nl (RChr "/") _ _
                    (fun a b => chr_single "/" a b ltac:(discriminate)) Hs)
          as [-> | Hcons]
    end.
    + exists EmptyString, "/"%char. split; [reflexivity | discriminate].
    + apply consumed_cons. exact Hcons.
  - (* line comment *)
    apply consumed_cons.
    match goal with
    | Hs : matches (RStar RAny) _ _ |- _ =>
        destruct (star_of_non_nl RAny _ _ any_single Hs) as [-> | Hcons]
    end.
    + exists EmptyString, "/"%char. split; [reflexivity | discriminate].
    + apply consumed_cons. exact Hcons.
Qed.

(** A comment found in a text that ends in a newline stops before the end
    of the text. *)
Lemma comment_match_len (s : string) (n : nat) :
  last_char s = Some NL ->
  match_len COMMENT_RE s = Some n ->
  (n < String.length s)%nat.
Proof.
  intros Hl H. unfold match_len, re_match in H.
  destruct (rmatch COMMENT_RE s Some) as [rest|] eqn:E; [|discriminate].
  inversion H; subst n. clear H.
  apply rmatch_sound in E. destruct E as [rest' [Hm Hr]]. inversion Hr; subst rest'.
  apply comment_match_consumed in Hm. destruct Hm as [pre [c [Es Hc]]].
  assert (Hrest : rest <> EmptyString).
  { intros ->. rewrite Es in Hl. rewrite last_char_app in Hl by discriminate.
    cbn in Hl. congruence. }
  rewrite Es, string_length_app. cbn [String.length].
  destruct rest; [congruence | cbn [String.length]; lia].
Qed.

Lemma sub_from_step (r : regex) (repl : string) (c : ascii) (s' : string) :
  sub_from r repl 0 (String c s')
  = match match_len r (String c s') with
    | Some (S m) => repl ++ sub_from r repl m s'
    | _ => String c (sub_from r repl 0 s')
    end.
Proof. reflexivity. Qed.

Lemma sub_from_skip (r : regex) (repl : string) (k : nat) (c : ascii) (s' : string) :
  sub_from r repl (S k) (String c s') = sub_from r repl k s'.
Proof. reflexivity. Qed.

Lemma strip_comment_last_nl (s : string) :
  forall skip : nat,
    last_char s = Some NL -> (skip < String.length s)%nat ->
    last_char (sub_from COMMENT_RE " " skip s) = Some NL.
Proof.
  induction s as [|c s' IH]; intros skip Hl Hs; [discriminate|].
  destruct skip as [|k].
  - rewrite sub_from_step.
    destruct (match_len COMMENT_RE (String c s')) as [[|m]|] eqn:Em.
    + destruct s' as [|d s'']; [exact Hl|].
      rewrite last_char_cons in Hl by discriminate.
      assert (H : last_char (sub_from COMMENT_RE " " 0 (String d s'')) = Some NL)
        by (apply IH; [exact Hl | simpl; lia]).
      rewrite last_char_cons; [exact H | exact (last_char_some_nonempty _ _ H)].
    + pose proof (comment_match_len _ _ Hl Em) as Hlt. cbn [String.length] in Hlt.
      assert (Hs' : s' <> EmptyString) by (destruct s'; [simpl in Hlt; lia | discriminate]).
      rewrite last_char_cons in Hl by exact Hs'.
      assert (H : last_char (sub_from COMMENT_RE " " m s') = Some NL)
        by (apply IH; [exact Hl | lia]).
      rewrite last_char_app; [exact H | exact (last_char_some_nonempty _ _ H)].
    + destruct s' as [|d s'']; [exact Hl|].
      rewrite last_char_cons in Hl by discriminate.
      assert (H : last_char (sub_from COMMENT_RE " " 0 (String d s'')) = Some NL)
        by (apply IH; [exact Hl | simpl; lia]).
      rewrite last_char_cons; [exact H | exact (last_char_some_nonempty _ _ H)].
  - rewrite sub_from_skip.
    assert (Hs' : s' <> EmptyString) by (destruct s'; [simpl in Hs; lia | discriminate]).
    rewrite last_char_cons in Hl by exact Hs'.
    apply IH; [exact Hl | simpl in Hs; lia].
Qed.

Lemma head_sub_from (r : regex) (s : string) :
  head_char (sub_from r " " 0 s) = Some NL -> head_char s = Some NL.
Proof.
  destruct s as [|c s']; [discriminate|].
  rewrite sub_from_step.
  destruct (match_len r (String c s')) as [[|m]|]; cbn [head_char String.append];
    try (intros H; exact H).
  discriminate.
Qed.

Lemma starts_with_bsl_nl_head (c : ascii) (X : string) :
  starts_with (String BSL nl) (String c X)
  = Ascii.eqb c BSL && match head_char X with Some d => Ascii.eqb d NL | None => false end.
Proof.
  destruct X as [|d X'].
  - rewrite starts_with_bsl_nl_short. destruct (Ascii.eqb c BSL); reflexivity.
  - apply starts_with_bsl_nl.
Qed.

(** Replacing comments by a space brings no backslash before a newline. *)
Lemma sub_from_no_bsl_nl (r : regex) (s : string) :
  forall skip : nat,
    contains (String BSL nl) s = false ->
    contains (String BSL nl) (sub_from r " " skip s) = false.
Proof.
  induction s as [|c s' IH]; intros skip H; [destruct skip; reflexivity|].
  rewrite contains_cons in H. apply orb_false_iff in H. destruct H as [H0 H1].
  destruct skip as [|k]; [|rewrite sub_from_skip; apply IH; exact H1].
  rewrite sub_from_step.
  destruct (match_len r (String c s')) as [[|m]|].
  - rewrite contains_cons, (IH 0%nat H1), orb_false_r, starts_with_bsl_nl_head.
    rewrite starts_with_bsl_nl_head in H0.
    destruct (Ascii.eqb c BSL); [|reflexivity]. cbn [andb] in *.
    destruct (head_char (sub_from r " " 0 s')) as [d|] eqn:Eh; [|reflexivity].
    destruct (Ascii.eqb d NL) eqn:Ed; [|reflexivity].
    apply Ascii.eqb_eq in Ed. subst d. apply head_sub_from in Eh.
    rewrite Eh, Ascii.eqb_refl in H0. discriminate.
  - change (" " ++ sub_from r " " m s') with (String " " (sub_from r " " m s')).
    rewrite contains_cons, (IH m H1), orb_false_r, starts_with_bsl_nl_head.
    reflexivity.
  - rewrite contains_cons, (IH 0%nat H1), orb_false_r, starts_with_bsl_nl_head.
    rewrite starts_with_bsl_nl_head in H0.
    destruct (Ascii.eqb c BSL); [|reflexivity]. cbn [andb] in *.
    destruct (head_char (sub_from r " " 0 s')) as [d|] eqn:Eh; [|reflexivity].
    destruct (Ascii.eqb d NL) eqn:Ed; [|reflexivity].
    apply Ascii.eqb_eq in Ed. subst d. apply head_sub_from in Eh.
    rewrite Eh, Ascii.eqb_refl in H0. discriminate.
Qed.

Lemma phase_filter_unfold (keep : bool) (content : string) :
  phase_filter keep content
  = if keep then splice (after_phase_1 content)
    else _strip_comment (splice (after_phase_1 content)).
Proof.
  unfold phase_filter, after_phase_1. rewrite join_backslash_splice. reflexivity.
Qed.

(** C3, amended: take the text after the final newline is ensured and the
    digraphs and trigraphs are replaced.  If it does not end in
    backslash-newline, the buffer of the phase filter ends with a newline;
    if it holds no backslash directly before a backslash-newline, the
    buffer holds no backslash directly before a newline.  Both hold with
    and without the stripping of comments. *)
Theorem phase_filter_postcondition :
  forall (keep_comment : bool) (content : string),
    (ends_with (bsl ++ nl) (after_phase_1 content) = false ->
     ends_with_nl (phase_filter keep_comment content) = true)
    /\ (contains (bsl ++ bsl ++ nl) (after_phase_1 content) = false ->
        contains (bsl ++ nl) (phase_filter keep_comment content) = false).
Proof.
  intros keep content. rewrite phase_filter_unfold.
  assert (H1 : last_char (after_phase_1 content) = Some NL).
  { unfold after_phase_1, _replace_di_trigraph.
    apply replace_with_table_last_nl; [reflexivity | apply source_file_last_nl]. }
  split.
  - intros He.
    pose proof (splice_last_nl _ H1 He) as H2.
    unfold ends_with_nl. destruct keep.
    + rewrite H2. apply Ascii.eqb_refl.
    + unfold _strip_comment, re_sub.
      rewrite strip_comment_last_nl; [apply Ascii.eqb_refl | exact H2 |].
      destruct (splice (after_phase_1 content)); [discriminate | simpl; lia].
  - intros Hb. pose proof (splice_no_bsl_nl _ Hb) as H2. destruct keep.
    + exact H2.
    + unfold _strip_comment, re_sub. apply sub_from_no_bsl_nl. exact H2.
Qed.

Lemma phase_filter_postcondition_witness :
  ends_with_nl (phase_filter false ("a ??/" ++ nl ++ "b // c")) = true
  /\ contains (bsl ++ nl) (phase_filter false ("a ??/" ++ nl ++ "b // c")) = false
  /\ phase_filter false ("a ??/" ++ nl ++ "b // c") = "a b  " ++ nl.
Proof.
  destruct (phase_filter_postcondition false ("a ??/" ++ nl ++ "b // c")) as [H1 H2].
  split; [apply H1; reflexivity|]. split; [apply H2; reflexivity | reflexivity].
Defined.

(** ** Expression evaluator *)

(** C6: the action of [a ? b : c] tests [p[2]], the text of the [?] token,
    which is a non-empty string, and so returns the value of the condition
    [a] whatever [b] and [c] are; [#if 0 ? 1 : 2] then takes the [#else]
    branch, where C gives 2 and the first branch. *)
Theorem conditional_returns_condition :
  (forall (a b c : value) (e : C99PreProcessor),
      p_conditional_expression [a; VStr "?"; b; VStr ":"; c] e = Ok (a, e))
  /\ p_conditional_expression [VInt 0; VStr "?"; VInt 1; VStr ":"; VInt 2]
       (engine_on EmptyString) = Ok (VInt 0, engine_on EmptyString)
  /\ (forall d : nat,
         output (run_process (S (S d)) "main.c" (engine_on (if_else "0 ? 1 : 2")))
         = Ok (VStr ("NO " ++ nl))).
Proof.
  split; [|split].
  - intros a b c e. reflexivity.
  - reflexivity.
  - intros d. vm_compute. reflexivity.
Qed.

(** ** The macro table *)

Lemma define_macro_run (n : string) (r a : value) (v : bool) (e : C99PreProcessor) :
  define_macro n r a v e
  = Ok (Macro_init n r a v VNone,
        set_macro (<[n := Macro_init n r a v VNone]> (macro e)) e).
Proof. reflexivity. Qed.

Lemma in_macro_defined (n : string) (m : Macro) (e : C99PreProcessor) :
  macro e !! n = Some m -> in_macro (VStr n) e = Ok (true, e).
Proof.
  intros H. unfold in_macro, mbind, get, ret. rewrite H.
  rewrite bool_decide_eq_true_2; [reflexivity | eauto].
Qed.

Lemma in_macro_undefined (n : string) (e : C99PreProcessor) :
  macro e !! n = None -> in_macro (VStr n) e = Ok (false, e).
Proof.
  intros H. unfold in_macro, mbind, get, ret. rewrite H.
  rewrite bool_decide_eq_false_2; [reflexivity | ].
  intros [x Hx]. discriminate.
Qed.

(** An object-like macro expands to its stored replacement, whatever its
    type. *)
Lemma expand_object_like (n : string) (r : value) (e : C99PreProcessor) :
  macro e !! n = Some (Macro_init n r VNone false VNone) ->
  exists e', expand_macro n VNone e = Ok (r, e').
Proof.
  intros H. unfold expand_macro, mbind, get. rewrite H. simpl.
  eexists. reflexivity.
Qed.

Lemma p_token_object_like (n : string) (r : value) (e : C99PreProcessor) :
  macro e !! n = Some (Macro_init n r VNone false VNone) ->
  exists e', p_token [VStr n] e = Ok (r, e').
Proof.
  intros H. destruct (expand_object_like n r e H) as [e' He'].
  exists e'. unfold p_token, mbind, item, ret. cbn [nth_error Nat.pred].
  rewrite (in_macro_defined n _ e H). unfold as_string, ret. exact He'.
Qed.

(** C1: evaluated on scenario S1.  The replacement list of a single
    numeric constant keeps the [int] the lexer made of it, the identifier of
    the text line expands to that [int], and the [join] of [p_text_line]
    refuses it: [process] raises [TypeError] and returns no output.  The
    same holds for every macro name and every integer constant at the level
    of the actions. *)
Theorem define_then_use_raises :
  (forall d : nat,
      output (run_process (S d) "main.c" (engine_on s1_input)) = Raise TypeError)
  /\ (forall (x : string) (y : Z) (e : C99PreProcessor),
         exists e1 e2,
           p_define_directive [VStr "#define"; VStr x; VInt y]
             (set_lexer lexer_init e) = Ok (VStr nl, e1)
           /\ p_token [VStr x] e1 = Ok (VInt y, e2)
           /\ p_text_line [VInt y; VStr nl] e2 = Raise TypeError).
Proof.
  split.
  - intros d. vm_compute. reflexivity.
  - intros x y e.
    set (e1 := set_macro (<[x := Macro_init x (VInt y) VNone false VNone]>
                            (macro (set_lexer lexer_init e)))
                         (set_lexer lexer_init e)).
    destruct (p_token_object_like x (VInt y) e1) as [e2 He2].
    { unfold e1. simpl. apply lookup_insert_eq. }
    exists e1, e2. split; [reflexivity|]. split; [exact He2 | reflexivity].
Qed.

(** C2: an identifier that is no key of the macro table evaluates to its
    own name, a non-empty string and so a true condition: [#if FOO] with
    [FOO] undefined takes the first branch, where [#ifdef FOO] takes the
    [#else] branch. *)
Theorem undefined_identifier_is_its_name :
  (forall (x : string) (e : C99PreProcessor),
      macro e !! x = None ->
      x <> EmptyString ->
      p_primary_expression [VStr x] e = Ok (VStr x, e)
      /\ truthy (VStr x) = true
      /\ p_if_group [VStr "#if"; VStr x; VStr nl; VStr "YES"] e
         = Ok (VTuple (VStr x) (VStr "YES"), e))
  /\ (forall d : nat,
         output (run_process (S (S d)) "main.c" (engine_on (if_else "FOO")))
         = Ok (VStr ("YES " ++ nl)))
  /\ (forall d : nat,
         output (run_process (S (S d)) "main.c"
                   (engine_on ("#ifdef FOO" ++ nl ++ "YES" ++ nl ++ "#else" ++ nl
                               ++ "NO" ++ nl ++ "#endif" ++ nl)))
         = Ok (VStr ("NO " ++ nl))).
Proof.
  split; [|split].
  - intros x e Hx Hne.
    assert (Ht : truthy (VStr x) = true) by (destruct x; [congruence | reflexivity]).
    split; [|split].
    + unfold p_primary_expression, mbind, item, ret. cbn [nth_error Nat.pred].
      rewrite (in_macro_undefined x e Hx). reflexivity.
    + exact Ht.
    + unfold p_if_group, mbind, item, ret. cbn [nth_error Nat.pred len List.length].
      rewrite Ht. reflexivity.
  - intros d. vm_compute. reflexivity.
  - intros d. vm_compute. reflexivity.
Qed.

Lemma undefined_identifier_is_its_name_witness :
  macro (engine_on EmptyString) !! "FOO" = None
  /\ "FOO" <> EmptyString
  /\ p_primary_expression [VStr "FOO"] (engine_on EmptyString)
     = Ok (VStr "FOO", engine_on EmptyString).
Proof.
  assert (H1 : macro (engine_on EmptyString) !! "FOO" = None) by reflexivity.
  assert (H2 : "FOO" <> EmptyString) by discriminate.
  split; [exact H1 | split; [exact H2 |]].
  exact (proj1 (proj1 undefined_identifier_is_its_name "FOO" (engine_on EmptyString) H1 H2)).
Defined.

(** C9: [define_macro] hands no callback to [Macro]: [time.strftime] is
    stored as the replacement of [__DATE__] and of [__TIME__] and the
    format with [time.localtime] as their parameter list.  Expanded without
    arguments they are function-like macros without a call, and [expand]
    raises; nothing is wrapped in quotes.  The callback branch of [expand]
    does what the claim says for a macro that has a callback, but no macro
    of the table has one. *)
Theorem builtin_macros_have_no_callback :
  forall (stdlib_path : list string) (keep_comment : bool)
         (fs : gmap string string) (clk : string -> string),
    let e := C99PreProcessor_init stdlib_path keep_comment fs clk in
    macro e !! "__DATE__"
    = Some (Macro_init "__DATE__" (VBuiltin Strftime)
              (VList [VStr "%b %d %Y"; VBuiltin Localtime]) false VNone)
    /\ macro e !! "__TIME__"
       = Some (Macro_init "__TIME__" (VBuiltin Strftime)
                 (VList [VStr "%H:%M:%S"; VBuiltin Localtime]) false VNone)
    /\ expand_macro "__DATE__" VNone e = Raise (Exception (VStr needs_args_message))
    /\ expand_macro "__TIME__" VNone e = Raise (Exception (VStr needs_args_message))
    /\ (forall (n : string) (r a : value) (v : bool) (e0 e1 : C99PreProcessor) (m : Macro),
           define_macro n r a v e0 = Ok (m, e1) ->
           callback m = VNone /\ macro e1 !! n = Some m)
    /\ (forall (fmt : string) (r : value),
           expand clk (Macro_init "__DATE__" r (VList [VStr fmt]) false (VBuiltin Strftime))
                  VNone
           = Ok (VStr (dq ++ clk fmt ++ dq),
                 set_expanded true
                   (Macro_init "__DATE__" r (VList [VStr fmt]) false (VBuiltin Strftime))))
    /\ (forall d : nat,
           output (run_process (S d) "main.c" (engine_on ("__DATE__" ++ nl)))
           = Raise (Exception (VStr needs_args_message))).
Proof.
  intros stdlib_path keep_comment fs clk e.
  split; [reflexivity|]. split; [reflexivity|].
  split; [reflexivity|]. split; [reflexivity|].
  split; [|split].
  - intros n r a v e0 e1 m H. rewrite define_macro_run in H.
    inversion H; subst. split; [reflexivity|]. simpl. apply lookup_insert_eq.
  - intros fmt r. reflexivity.
  - intros d. vm_compute. reflexivity.
Qed.

Lemma builtin_macros_have_no_callback_witness :
  callback (Macro_init "X" (VInt 1) VNone false VNone) = VNone.
Proof.
  exact (proj1 (proj1 (proj2 (proj2 (proj2 (proj2
           (builtin_macros_have_no_callback [] true ∅ no_clock)))))
           "X" (VInt 1) VNone false
           (engine_on EmptyString) _ _ (define_macro_run _ _ _ _ _))).
Defined.

(** ** The lexer *)

Lemma directive_re_hash (s : string) (n : nat) :
  match_len DIRECTIVE_RE s = Some n -> starts_with "#" s = true.
Proof.
  destruct s as [|c s']; unfold match_len, re_match, DIRECTIVE_RE.
  - cbn [rmatch]. discriminate.
  - cbn [rmatch]. unfold starts_with. cbn [strip_prefix].
    destruct (Ascii.eqb "#" c); [reflexivity | discriminate].
Qed.

Lemma function_rule_directive (s : string) (n : nat) :
  first_function_rule function_rules s = Some (R_DIRECTIVE, n) ->
  starts_with "#" s = true.
Proof.
  unfold function_rules. cbn [first_function_rule].
  destruct (match_len NEWLINE_RE s); [discriminate|].
  destruct (match_len HEADER_NAME_RE s); [discriminate|].
  destruct (match_len DIRECTIVE_RE s) eqn:Hd.
  - intros _. exact (directive_re_hash s _ Hd).
  - destruct (match_len IDENT_RE s); [discriminate|].
    destruct (match_len STRING_LITERAL_RE s); [discriminate|].
    destruct (match_len FLOAT_RE s); [discriminate|].
    destruct (match_len HEX_RE s); [discriminate|].
    destruct (match_len INTEGER_RE s); [discriminate|].
    destruct (match_len LITERAL_RE s); discriminate.
Qed.

Lemma function_rule_not_string (s : string) (t : toktype) (n : nat) :
  first_function_rule function_rules s <> Some (R_STR t, n).
Proof.
  unfold function_rules. cbn [first_function_rule].
  repeat match goal with
         | |- context [match_len ?r s] => destruct (match_len r s); [discriminate|]
         end.
  discriminate.
Qed.

Lemma string_rule_not_defined (s : string) (r : lexrule) (n : nat) :
  first_string_rule string_rules s = Some (r, n) ->
  exists t, r = R_STR t /\ t <> DEFINED.
Proof.
  unfold string_rules. cbn [first_string_rule].
  repeat match goal with
         | |- context [starts_with ?l s] =>
             destruct (starts_with l s);
             [intros H; inversion H; eexists; split; [reflexivity | discriminate] |]
         end.
  discriminate.
Qed.

Lemma master_match_ok (prev : option ascii) (c : ascii) (s' : string)
  (r : lexrule) (m : nat) :
  master_match prev (String c s') = Some (r, S m) ->
  raw_ok {| rk := RRule r; lexeme := take (S m) (String c s') |}.
Proof.
  unfold master_match, raw_ok. cbn [rk lexeme take].
  destruct (first_function_rule function_rules (String c s')) as [[r0 n0]|] eqn:Hf.
  - intros H. inversion H; subst r0 n0.
    destruct r; try exact I.
    + apply function_rule_directive in Hf.
      unfold starts_with in *. cbn [strip_prefix] in *.
      destruct (Ascii.eqb "#" c); [reflexivity | discriminate].
    + exfalso. exact (function_rule_not_string _ _ _ Hf).
  - destruct (lparen_len prev (String c s')).
    + intros H. inversion H. exact I.
    + intros H. apply string_rule_not_defined in H.
      destruct H as [t [-> Ht]]. exact Ht.
Qed.

Lemma raw_lex_ok (s : string) :
  forall (prev : option ascii) (skip : nat), Forall raw_ok (raw_lex prev skip s).
Proof.
  induction s as [|c s' IH]; intros prev skip; cbn [raw_lex].
  - constructor.
  - destruct skip as [|k]; [|apply IH].
    destruct (mem_char c t_ignore); [apply IH|].
    destruct (master_match prev (String c s')) as [[r [|m]]|] eqn:Hm.
    + destruct (mem_char c literals); constructor; try apply IH; exact I.
    + constructor; [|apply IH]. exact (master_match_ok _ _ _ _ _ Hm).
    + destruct (mem_char c literals); constructor; try apply IH; exact I.
Qed.

Lemma reserved_defined (v : string) :
  lookup_reserved reserved v = Some DEFINED -> v = "defined".
Proof.
  unfold reserved. cbn [lookup_reserved].
  repeat match goal with
         | |- context [String.eqb ?k v] =>
             destruct (String.eqb k v) eqn:?; [try discriminate |]
         end.
  - intros _. symmetry. apply String.eqb_eq. assumption.
  - discriminate.
Qed.

Lemma t_DIRECTIVE_type (v : string) (self self' : C99PreProcessorLexer) (tok : token) :
  t_DIRECTIVE v self = Ok (tok, self') ->
  ttype tok = match lookup_reserved reserved v with Some ty => ty | None => DIRECTIVE end.
Proof.
  unfold t_DIRECTIVE. destruct (lookup_reserved reserved v) as [ty|].
  - destruct (toktype_eqb ty IF || toktype_eqb ty IFDEF || toktype_eqb ty IFNDEF).
    + intros H; inversion H; reflexivity.
    + destruct (toktype_eqb ty ENDIF).
      * destruct (nested_if self - 1 <? 0); [discriminate|].
        intros H; inversion H; reflexivity.
      * intros H; inversion H; reflexivity.
  - intros H; inversion H; reflexivity.
Qed.

Lemma run_raw_not_defined (t : rawtok) (l l' : Z)
  (self self' : C99PreProcessorLexer) (tok : token) :
  raw_ok t ->
  run_raw t l self = Ok (Some tok, l', self') ->
  ttype tok <> DEFINED.
Proof.
  unfold raw_ok, run_raw. destruct t as [k v]. cbn [rk lexeme].
  destruct k as [r| |]; [| intros _ H; inversion H; discriminate | discriminate].
  destruct r; cbn [run_rule]; intros Hok H;
    try (inversion H; discriminate).
  - (* R_DIRECTIVE *)
    destruct (t_DIRECTIVE v self) as [[tk s1]|] eqn:Hd; [|discriminate].
    cbn [bind] in H. inversion H; subst tok l' self'.
    rewrite (t_DIRECTIVE_type _ _ _ _ Hd).
    destruct (lookup_reserved reserved v) as [ty|] eqn:Hl; [|discriminate].
    intros ->. apply reserved_defined in Hl. subst v. discriminate.
  - destruct (float_of_lexeme v); [|discriminate]. inversion H. discriminate.
  - destruct (hex_of_lexeme v); [|discriminate]. inversion H. discriminate.
  - destruct (int_of_lexeme v); [|discriminate]. inversion H. discriminate.
  - inversion H. cbn [ttype]. exact Hok.
Qed.

Lemma scan_not_defined (raws : list rawtok) :
  Forall raw_ok raws ->
  forall (l l' : Z) (self self' : C99PreProcessorLexer) (toks : list token),
    scan raws l self = Ok (toks, l', self') ->
    Forall (fun t => ttype t <> DEFINED) toks.
Proof.
  induction 1 as [|t raws Ht Hraws IH]; intros l l' self self' toks; cbn [scan].
  - intros H. inversion H. constructor.
  - destruct (run_raw t l self) as [[[o l1] s1]|] eqn:Hr; [|discriminate].
    cbn [bind].
    destruct (scan raws l1 s1) as [[[toks1 l2] s2]|] eqn:Hs; [|discriminate].
    cbn [bind]. intros H. inversion H; subst.
    specialize (IH _ _ _ _ _ Hs).
    destruct o as [tok|]; [|exact IH].
    constructor; [|exact IH]. exact (run_raw_not_defined _ _ _ _ _ _ Ht Hr).
Qed.

Lemma next_token_never_defined (raws : list rawtok) :
  Forall raw_ok raws ->
  forall (l : Z) (e : C99PreProcessor) (s : pst),
    next_token raws l e = Ok s -> never_defined s.
Proof.
  induction 1 as [|t raws Ht Hr IH]; intros l e s; cbn [next_token].
  - intros H. inversion H; subst. split; [discriminate | constructor].
  - destruct (run_raw t l (_lexer e)) as [[[[tok|] l'] lx]|] eqn:E; [| |discriminate].
    + intros H. inversion H; subst. split; [|exact Hr].
      cbn [la]. intros t0 H0. inversion H0; subst.
      exact (run_raw_not_defined _ _ _ _ _ _ Ht E).
    + apply IH.
Qed.

(** C5: no buffer makes the lexer return a [DEFINED] token: [defined] is
    matched by [t_IDENTIFIER], which does not look into [reserved], and
    [t_DIRECTIVE], which does, only sees lexemes that start with [#].  The
    parser takes its lookahead from [next_token] only, at the start of a
    buffer and at every shift, so its lookahead is never a [DEFINED] token
    either, and the production [DEFINED '(' IDENTIFIER ')'], whose action
    tests the key as the claim says, is never reduced.  In [defined(X)]
    the parenthesis is an [LPAREN] besides, where the production has the
    literal. *)
Theorem defined_is_never_lexed :
  (forall (data : string) (self self' : C99PreProcessorLexer) (toks : list token),
      tokenize data self = Ok (toks, self') ->
      Forall (fun t => ttype t <> DEFINED) toks)
  /\ tokenize "defined(X)" lexer_init
     = Ok ([ {| ttype := IDENTIFIER; tvalue := VStr "defined" |};
             {| ttype := LPAREN; tvalue := VStr "(" |};
             {| ttype := IDENTIFIER; tvalue := VStr "X" |};
             {| ttype := LIT ")"; tvalue := VStr ")" |} ], lexer_init)
  /\ (forall (data : string) (l : Z) (e : C99PreProcessor) (s : pst),
         next_token (raw_lex None 0 data) l e = Ok s -> never_defined s)
  /\ (forall (s s' : pst) (v : value),
         never_defined s -> shift s = Ok (v, s') -> never_defined s')
  /\ (forall (x : string) (e : C99PreProcessor),
         p_unary_expression [VStr "defined"; VStr "("; VStr x; VStr ")"] e
         = Ok (VBool (bool_decide (is_Some (macro e !! x))), e)).
Proof.
  split; [|split; [|split; [|split]]].
  - intros data self self' toks. unfold tokenize.
    destruct (scan (raw_lex None 0 data) 1 self) as [[[toks1 l1] s1]|] eqn:Hs;
      [|discriminate].
    cbn [bind]. intros H. inversion H; subst.
    exact (scan_not_defined _ (raw_lex_ok data None O) _ _ _ _ _ Hs).
  - vm_compute. reflexivity.
  - intros data l e s. apply next_token_never_defined. apply raw_lex_ok.
  - intros s s' v [_ Hp]. unfold shift. destruct (la s); [|discriminate].
    destruct (next_token (pending s) (lex_lineno s) (eng s)) as [s1|] eqn:E; [|discriminate].
    intros H. inversion H; subst. exact (next_token_never_defined _ Hp _ _ _ E).
  - intros x e. reflexivity.
Qed.

Lemma defined_is_never_lexed_witness :
  Forall (fun t => ttype t <> DEFINED)
    [ {| ttype := IDENTIFIER; tvalue := VStr "defined" |};
      {| ttype := LPAREN; tvalue := VStr "(" |};
      {| ttype := IDENTIFIER; tvalue := VStr "X" |};
      {| ttype := LIT ")"; tvalue := VStr ")" |} ].
Proof.
  apply (proj1 defined_is_never_lexed "defined(X)" lexer_init lexer_init).
  vm_compute. reflexivity.
Defined.

Lemma scan_app (l1 l2 : list rawtok) :
  forall (l : Z) (self : C99PreProcessorLexer),
    scan (l1 ++ l2) l self
    = bind (scan l1 l self) (fun '(t1, la, s1) =>
        bind (scan l2 la s1) (fun '(t2, lb, s2) => Ok ((t1 ++ t2)%list, lb, s2))).
Proof.
  induction l1 as [|t l1 IH]; intros l self; cbn [scan app bind].
  - destruct (scan l2 l self) as [[[t2 lb] s2]|]; reflexivity.
  - destruct (run_raw t l self) as [[[o la] s1]|]; cbn [bind]; [|reflexivity].
    rewrite IH.
    destruct (scan l1 la s1) as [[[t1 lb] s2]|]; cbn [bind]; [|reflexivity].
    destruct (scan l2 lb s2) as [[[t2 lc] s3]|]; cbn [bind]; [|reflexivity].
    destruct o; reflexivity.
Qed.

(** The three ways [t_DIRECTIVE] treats the counter. *)
Lemma t_DIRECTIVE_cases (v : string) (self : C99PreProcessorLexer) :
  let o := String.eqb "#if" v || String.eqb "#ifdef" v || String.eqb "#ifndef" v in
  let c := String.eqb "#endif" v in
  exists ty,
    t_DIRECTIVE v self
    = if o then Ok ({| ttype := ty; tvalue := VStr v |}, bump 1 self)
      else if c then
        if nested_if self - 1 <? 0 then Raise (Exception (VStr endif_message))
        else Ok ({| ttype := ty; tvalue := VStr v |}, bump (-1) self)
      else Ok ({| ttype := ty; tvalue := VStr v |}, self).
Proof.
  unfold t_DIRECTIVE, reserved, bump. cbn [lookup_reserved].
  destruct (String.eqb "#define" v) eqn:E1.
  { apply String.eqb_eq in E1; subst v. eexists. reflexivity. }
  destruct (String.eqb "defined" v) eqn:E2.
  { apply String.eqb_eq in E2; subst v. eexists. reflexivity. }
  destruct (String.eqb "#elif" v) eqn:E3.
  { apply String.eqb_eq in E3; subst v. eexists. reflexivity. }
  destruct (String.eqb "#else" v) eqn:E4.
  { apply String.eqb_eq in E4; subst v. eexists. reflexivity. }
  destruct (String.eqb "#endif" v) eqn:E5.
  { apply String.eqb_eq in E5; subst v. eexists. cbn.
    destruct (nested_if self - 1 <? 0); reflexivity. }
  destruct (String.eqb "#error" v) eqn:E6.
  { apply String.eqb_eq in E6; subst v. eexists. reflexivity. }
  destruct (String.eqb "#if" v) eqn:E7.
  { apply String.eqb_eq in E7; subst v. eexists. reflexivity. }
  destruct (String.eqb "#ifdef" v) eqn:E8.
  { apply String.eqb_eq in E8; subst v. eexists. reflexivity. }
  destruct (String.eqb "#ifndef" v) eqn:E9.
  { apply String.eqb_eq in E9; subst v. eexists. reflexivity. }
  cbn [orb].
  repeat match goal with
         | |- context [String.eqb ?k v] =>
             destruct (String.eqb k v); [eexists; reflexivity |]
         end.
  eexists. reflexivity.
Qed.

Lemma run_raw_opens (t : rawtok) (l : Z) (self : C99PreProcessorLexer) :
  opens t = true ->
  exists tok, run_raw t l self = Ok (Some tok, l, bump 1 self).
Proof.
  unfold opens, is_directive, run_raw. destruct t as [k v]. cbn [rk lexeme].
  destruct k as [r| |]; try discriminate. destruct r; try discriminate.
  intros H. cbn [run_rule].
  destruct (t_DIRECTIVE_cases v self) as [ty Hty]. cbv zeta in Hty.
  rewrite H in Hty. rewrite Hty. cbn [bind]. eexists. reflexivity.
Qed.

Lemma opens_not_closes (t : rawtok) : opens t = true -> closes t = false.
Proof.
  unfold opens, closes, is_directive. destruct (rk t) as [r| |]; try discriminate.
  destruct r; try discriminate.
  destruct (String.eqb "#endif" (lexeme t)) eqn:E; [|reflexivity].
  apply String.eqb_eq in E. rewrite <- E. discriminate.
Qed.

Lemma run_raw_closes (t : rawtok) (l : Z) (self : C99PreProcessorLexer) :
  closes t = true ->
  if nested_if self <=? 0
  then run_raw t l self = Raise (Exception (VStr endif_message)) \/ nested_if self < 0
  else exists tok, run_raw t l self = Ok (Some tok, l, bump (-1) self).
Proof.
  intros Hc.
  assert (Ho : opens t = false).
  { destruct (opens t) eqn:E; [|reflexivity].
    apply opens_not_closes in E. congruence. }
  revert Hc Ho.
  unfold opens, closes, is_directive, run_raw. destruct t as [k v]. cbn [rk lexeme].
  destruct k as [r| |]; try discriminate. destruct r; try discriminate.
  intros Hc Ho. cbn [run_rule].
  destruct (t_DIRECTIVE_cases v self) as [ty Hty]. cbv zeta in Hty.
  rewrite Ho, Hc in Hty. rewrite Hty.
  destruct (nested_if self <=? 0) eqn:En.
  - apply Z.leb_le in En.
    destruct (nested_if self - 1 <? 0) eqn:E1; [left; reflexivity|].
    apply Z.ltb_ge in E1. lia.
  - apply Z.leb_gt in En.
    destruct (nested_if self - 1 <? 0) eqn:E1.
    + apply Z.ltb_lt in E1. lia.
    + cbn [bind]. eexists. reflexivity.
Qed.

Lemma run_raw_other (t : rawtok) (l : Z) (self : C99PreProcessorLexer) :
  opens t = false -> closes t = false -> converts t = true ->
  exists o l', run_raw t l self
               = Ok (o, l', {| lineno := l'; nested_if := nested_if self |})
               \/ run_raw t l self = Ok (o, l', self).
Proof.
  unfold opens, closes, converts, is_directive, run_raw.
  destruct t as [k v]. cbn [rk lexeme].
  destruct k as [r| |]; [| intros; eexists; eexists; right; reflexivity
                         | intros; eexists; eexists; right; reflexivity].
  destruct r; cbn [run_rule]; intros Ho Hc Hv;
    try (eexists; eexists; right; reflexivity).
  - eexists; eexists; left; reflexivity.
  - destruct (t_DIRECTIVE_cases v self) as [ty Hty]. cbv zeta in Hty.
    rewrite Ho, Hc in Hty. rewrite Hty. cbn [bind].
    eexists; eexists; right; reflexivity.
  - destruct (float_of_lexeme v); [|discriminate]. cbn [bind].
    eexists; eexists; right; reflexivity.
  - destruct (hex_of_lexeme v); [|discriminate]. cbn [bind].
    eexists; eexists; right; reflexivity.
  - destruct (int_of_lexeme v); [|discriminate]. cbn [bind].
    eexists; eexists; right; reflexivity.
Qed.

(** A rule that returns leaves the counter non-negative. *)
Lemma run_raw_nonneg (t : rawtok) (l l' : Z) (self self' : C99PreProcessorLexer)
  (o : option token) :
  0 <= nested_if self ->
  run_raw t l self = Ok (o, l', self') ->
  0 <= nested_if self'.
Proof.
  intros Hn. unfold run_raw. destruct t as [k v]. cbn [rk lexeme].
  destruct k as [r| |]; [| intros H; inversion H; subst; exact Hn
                         | intros H; inversion H; subst; exact Hn].
  destruct (run_rule r v l self) as [[[tok l1] s1]|] eqn:Hr; [|discriminate].
  cbn [bind]. intros H. inversion H; subst. clear H.
  destruct r; cbn [run_rule] in Hr;
    try (inversion Hr; subst; exact Hn).
  - destruct (t_DIRECTIVE_cases v self) as [ty Hty]. cbv zeta in Hty.
    rewrite Hty in Hr.
    destruct (String.eqb "#if" v || String.eqb "#ifdef" v || String.eqb "#ifndef" v).
    + inversion Hr; subst. cbn. lia.
    + destruct (String.eqb "#endif" v).
      * destruct (nested_if self - 1 <? 0) eqn:E; [discriminate|].
        inversion Hr; subst. cbn. apply Z.ltb_ge in E. lia.
      * inversion Hr; subst. exact Hn.
  - destruct (float_of_lexeme v); [|discriminate]. inversion Hr; subst. exact Hn.
  - destruct (hex_of_lexeme v); [|discriminate]. inversion Hr; subst. exact Hn.
  - destruct (int_of_lexeme v); [|discriminate]. inversion Hr; subst. exact Hn.
Qed.

Lemma scan_nonneg (raws : list rawtok) :
  forall (l l' : Z) (self self' : C99PreProcessorLexer) (toks : list token),
    0 <= nested_if self ->
    scan raws l self = Ok (toks, l', self') ->
    0 <= nested_if self'.
Proof.
  induction raws as [|t raws IH]; intros l l' self self' toks Hn; cbn [scan].
  - intros H. inversion H; subst. exact Hn.
  - destruct (run_raw t l self) as [[[o l1] s1]|] eqn:Hr; [|discriminate].
    cbn [bind].
    destruct (scan raws l1 s1) as [[[toks1 l2] s2]|] eqn:Hs; [|discriminate].
    cbn [bind]. intros H. inversion H; subst.
    exact (IH _ _ _ _ _ (run_raw_nonneg _ _ _ _ _ _ Hn Hr) Hs).
Qed.

(** A balanced sequence whose constants convert is scanned to the end and
    leaves the counter where it was. *)
Lemma scan_balanced (raws : list rawtok) :
  balanced raws ->
  forall (l : Z) (self : C99PreProcessorLexer),
    forallb converts raws = true ->
    0 <= nested_if self ->
    exists toks l' self',
      scan raws l self = Ok (toks, l', self')
      /\ nested_if self' = nested_if self.
Proof.
  induction 1 as [|t raws Ho Hc Hb IH | t t' l1 l2 Ho Hc Hb1 IH1 Hb2 IH2];
    intros l self Hv Hn.
  - exists [], l, self. split; reflexivity.
  - cbn [forallb] in Hv. apply andb_true_iff in Hv. destruct Hv as [Hv1 Hv2].
    destruct (run_raw_other t l self Ho Hc Hv1) as [o [l1 [Hr|Hr]]].
    + destruct (IH l1 {| lineno := l1; nested_if := nested_if self |} Hv2 Hn)
        as [toks [l2 [s2 [Hs Hd]]]].
      cbn [scan]. rewrite Hr. cbn [bind]. rewrite Hs. cbn [bind].
      eexists; eexists; eexists. split; [reflexivity | exact Hd].
    + destruct (IH l1 self Hv2 Hn) as [toks [l2 [s2 [Hs Hd]]]].
      cbn [scan]. rewrite Hr. cbn [bind]. rewrite Hs. cbn [bind].
      eexists; eexists; eexists. split; [reflexivity | exact Hd].
  - cbn [forallb] in Hv. apply andb_true_iff in Hv. destruct Hv as [_ Hv].
    rewrite forallb_app in Hv. apply andb_true_iff in Hv. destruct Hv as [Hv1 Hv].
    cbn [forallb] in Hv. apply andb_true_iff in Hv. destruct Hv as [_ Hv2].
    destruct (run_raw_opens t l self Ho) as [tok Hr].
    assert (Hn1 : 0 <= nested_if (bump 1 self)) by (cbn; lia).
    destruct (IH1 l (bump 1 self) Hv1 Hn1) as [toks1 [la [s1 [Hs1 Hd1]]]].
    pose proof (run_raw_closes t' la s1 Hc) as Hcl.
    assert (Hpos : (nested_if s1 <=? 0) = false).
    { apply Z.leb_gt. rewrite Hd1. cbn. lia. }
    rewrite Hpos in Hcl. destruct Hcl as [tok' Hr'].
    assert (Hn2 : 0 <= nested_if (bump (-1) s1)).
    { cbn. rewrite Hd1. cbn. lia. }
    destruct (IH2 la (bump (-1) s1) Hv2 Hn2) as [toks2 [lb [s2 [Hs2 Hd2]]]].
    change (t :: l1 ++ t' :: l2) with (([t] ++ l1) ++ (t' :: l2))%list.
    rewrite scan_app. cbn [app scan]. rewrite Hr. cbn [bind].
    rewrite Hs1. cbn [bind]. rewrite Hr'. cbn [bind]. rewrite Hs2. cbn [bind].
    eexists; eexists; eexists. split; [reflexivity|].
    rewrite Hd2. cbn. rewrite Hd1. cbn. lia.
Qed.

(** [t_DIRECTIVE] returns what [t_DIRECTIVE_object] returns, with the
    object. *)
Lemma t_DIRECTIVE_of_object (v : string) (self : C99PreProcessorLexer) :
  t_DIRECTIVE v self
  = match fst (t_DIRECTIVE_object v self) with
    | Ok tok => Ok (tok, snd (t_DIRECTIVE_object v self))
    | Raise x => Raise x
    end.
Proof.
  unfold t_DIRECTIVE, t_DIRECTIVE_object.
  destruct (lookup_reserved reserved v) as [ty|]; [|reflexivity].
  destruct (toktype_eqb ty IF || toktype_eqb ty IFDEF || toktype_eqb ty IFNDEF);
    [reflexivity|].
  destruct (toktype_eqb ty ENDIF); [|reflexivity].
  cbv zeta. cbn [nested_if]. destruct (nested_if self - 1 <? 0); reflexivity.
Qed.

Lemma scan_leaves_app (l1 l2 : list rawtok) :
  forall (l : Z) (self : C99PreProcessorLexer),
    scan_leaves (l1 ++ l2) l self
    = match scan l1 l self with
      | Ok (_, l', self') => scan_leaves l2 l' self'
      | Raise _ => scan_leaves l1 l self
      end.
Proof.
  induction l1 as [|t l1 IH]; intros l self; cbn [scan scan_leaves app bind];
    [reflexivity|].
  destruct (run_raw t l self) as [[[o la] s1]|]; cbn [bind]; [|reflexivity].
  rewrite IH. destruct (scan l1 la s1) as [[[t1 lb] s2]|]; reflexivity.
Qed.

Lemma scan_leaves_ok (raws : list rawtok) :
  forall (l l' : Z) (self self' : C99PreProcessorLexer) (toks : list token),
    scan raws l self = Ok (toks, l', self') -> scan_leaves raws l self = self'.
Proof.
  induction raws as [|t raws IH]; intros l l' self self' toks; cbn [scan scan_leaves].
  - intros H. inversion H. reflexivity.
  - destruct (run_raw t l self) as [[[o l1] s1]|]; [|discriminate]. cbn [bind].
    destruct (scan raws l1 s1) as [[[toks1 l2] s2]|] eqn:Hs; [|discriminate].
    cbn [bind]. intros H. inversion H; subst. exact (IH _ _ _ _ _ Hs).
Qed.

Lemma run_raw_closes_object (t : rawtok) (l : Z) (self : C99PreProcessorLexer) :
  closes t = true -> nested_if self = 0 ->
  run_raw t l self = Raise (Exception (VStr endif_message))
  /\ nested_if (left_by_raise t self) = -1.
Proof.
  intros Hc Hz.
  assert (Ho : opens t = false).
  { destruct (opens t) eqn:E; [|reflexivity].
    apply opens_not_closes in E. congruence. }
  revert Hc Ho.
  unfold opens, closes, is_directive, run_raw, left_by_raise.
  destruct t as [k v]. cbn [rk lexeme].
  destruct k as [r| |]; try discriminate. destruct r; try discriminate.
  intros Hc Ho. cbn [run_rule].
  apply String.eqb_eq in Hc. subst v.
  unfold t_DIRECTIVE, t_DIRECTIVE_object. cbn. rewrite Hz. cbn. split; reflexivity.
Qed.

Lemma float_of_lexeme_raises (v : string) (x : exn) :
  float_of_lexeme v = Raise x -> x = ValueError.
Proof.
  unfold float_of_lexeme.
  destruct (span_digits v) as [ip r1].
  match goal with |- context [let (_, _) := ?p in _] => destruct p as [fp r2] end.
  destruct r2 as [|c r3]; [discriminate|].
  destruct (mem_char c "eE"); [|intros H; inversion H; reflexivity].
  match goal with |- context [let '(_, _) := ?p in _] => destruct p as [neg r4] end.
  destruct (span_digits r4) as [ep r5].
  destruct ep; destruct r5; intros H; inversion H; reflexivity.
Qed.

Lemma hex_of_lexeme_raises (v : string) (x : exn) :
  hex_of_lexeme v = Raise x -> x = ValueError.
Proof.
  unfold hex_of_lexeme.
  destruct v as [|c0 v]; [intros H; inversion H; reflexivity|].
  destruct c0 as [[] [] [] [] [] [] [] []];
    try (intros H; inversion H; reflexivity).
  destruct v as [|c1 [|c2 rest]]; try (intros H; inversion H; reflexivity).
  destruct (mem_char c1 "xX"); [|intros H; inversion H; reflexivity].
  destruct (parse_digits 16 hex_val 0 (String c2 rest));
    intros H; inversion H; reflexivity.
Qed.

Lemma int_of_lexeme_raises (v : string) (x : exn) :
  int_of_lexeme v = Raise x -> x = ValueError.
Proof.
  unfold int_of_lexeme. destruct v; [intros H; inversion H; reflexivity|].
  destruct (parse_digits 10 digit_val 0 (String a v));
    intros H; inversion H; reflexivity.
Qed.

(** A token that neither opens nor closes a conditional: its rule returns
    and leaves the counter, or it is a constant that [int] or [float]
    refuses. *)
Lemma run_raw_other_or_stops (t : rawtok) (l : Z) (self : C99PreProcessorLexer) :
  opens t = false -> closes t = false ->
  (exists o l' self', run_raw t l self = Ok (o, l', self')
                      /\ nested_if self' = nested_if self)
  \/ (run_raw t l self = Raise ValueError /\ left_by_raise t self = self).
Proof.
  destruct (converts t) eqn:Hv.
  - intros Ho Hc. left.
    destruct (run_raw_other t l self Ho Hc Hv) as [o [l' [Hr|Hr]]].
    + exists o, l', {| lineno := l'; nested_if := nested_if self |}.
      split; [exact Hr | reflexivity].
    + exists o, l', self. split; [exact Hr | reflexivity].
  - intros _ _. right. revert Hv.
    unfold converts, run_raw, left_by_raise. destruct t as [k v]. cbn [rk lexeme].
    destruct k as [r| |]; try discriminate.
    destruct r; try discriminate; cbn [run_rule].
    + destruct (float_of_lexeme v) as [f|x] eqn:E; [discriminate|].
      intros _. rewrite (float_of_lexeme_raises v x E). split; reflexivity.
    + destruct (hex_of_lexeme v) as [f|x] eqn:E; [discriminate|].
      intros _. rewrite (hex_of_lexeme_raises v x E). split; reflexivity.
    + destruct (int_of_lexeme v) as [f|x] eqn:E; [discriminate|].
      intros _. rewrite (int_of_lexeme_raises v x E). split; reflexivity.
Qed.

(** A balanced sequence is scanned to its end, the counter back where it
    was, or the scan stops at a constant with the counter not below where
    it was. *)
Lemma scan_balanced_or_stops (raws : list rawtok) :
  balanced raws ->
  forall (l : Z) (self : C99PreProcessorLexer),
    0 <= nested_if self ->
    (exists toks l' self',
        scan raws l self = Ok (toks, l', self')
        /\ nested_if self' = nested_if self)
    \/ (scan raws l self = Raise ValueError
        /\ nested_if self <= nested_if (scan_leaves raws l self)).
Proof.
  induction 1 as [|t raws Ho Hc Hb IH | t t' l1 l2 Ho Hc Hb1 IH1 Hb2 IH2];
    intros l self Hn.
  - left. exists [], l, self. split; reflexivity.
  - cbn [scan scan_leaves].
    destruct (run_raw_other_or_stops t l self Ho Hc) as [[o [l1 [s1 [Hr Hd]]]] | [Hr Hl]].
    + rewrite Hr. cbn [bind].
      assert (Hn1 : 0 <= nested_if s1) by lia.
      destruct (IH l1 s1 Hn1) as [[toks [l2 [s2 [Hs Hd2]]]] | [Hs Hle]].
      * left. rewrite Hs. cbn [bind]. eexists; eexists; eexists.
        split; [reflexivity | lia].
      * right. rewrite Hs. cbn [bind]. split; [reflexivity | lia].
    + right. rewrite Hr. cbn [bind]. split; [reflexivity | rewrite Hl; lia].
  - change (t :: l1 ++ t' :: l2) with (([t] ++ l1) ++ (t' :: l2))%list.
    rewrite scan_app, scan_leaves_app.
    destruct (run_raw_opens t l self Ho) as [tok Hr].
    assert (Hn1 : 0 <= nested_if (bump 1 self)) by (cbn; lia).
    cbn [app scan scan_leaves]. rewrite Hr. cbn [bind].
    destruct (IH1 l (bump 1 self) Hn1) as [[toks1 [la [s1 [Hs1 Hd1]]]] | [Hs1 Hle1]].
    + rewrite Hs1. cbn [bind].
      pose proof (run_raw_closes t' la s1 Hc) as Hcl.
      assert (Hpos : (nested_if s1 <=? 0) = false).
      { apply Z.leb_gt. rewrite Hd1. cbn. lia. }
      rewrite Hpos in Hcl. destruct Hcl as [tok' Hr'].
      assert (Hn2 : 0 <= nested_if (bump (-1) s1)).
      { cbn. rewrite Hd1. cbn. lia. }
      rewrite Hr'. cbn [bind].
      destruct (IH2 la (bump (-1) s1) Hn2) as [[toks2 [lb [s2 [Hs2 Hd2]]]] | [Hs2 Hle2]].
      * left. rewrite Hs2. cbn [bind]. eexists; eexists; eexists.
        split; [reflexivity|]. rewrite Hd2. cbn. rewrite Hd1. cbn. lia.
      * right. rewrite Hs2. cbn [bind]. split; [reflexivity|].
        cbn in Hle2. rewrite Hd1 in Hle2. cbn in Hle2. lia.
    + right. rewrite Hs1. cbn [bind]. split; [reflexivity|]. cbn in Hle1. lia.
Qed.

(** C7, as stated, fails twice.  A buffer whose conditionals are balanced
    but which holds a constant that [int] refuses ([10L]) is not scanned to
    its end: [t_INTEGER] raises [ValueError] inside the conditional and the
    counter stays at 1.  And an [#endif] without its [#if] is counted before
    it is refused: the rule stores -1 and then raises, so the fatal error
    leaves the counter negative. *)
Lemma conditional_is_left_open_by_a_refused_constant :
  balanced (raw_lex None 0 suffixed_constant_input)
  /\ tokenize suffixed_constant_input lexer_init = Raise ValueError
  /\ nested_if (tokenize_leaves suffixed_constant_input lexer_init) = 1
  /\ tokenize ("#endif" ++ nl) lexer_init = Raise (Exception (VStr endif_message))
  /\ nested_if (tokenize_leaves ("#endif" ++ nl) lexer_init) = -1.
Proof.
  split; [|repeat split; vm_compute; reflexivity].
  change (raw_lex None 0 suffixed_constant_input)
    with ({| rk := RRule R_DIRECTIVE; lexeme := "#if" |}
          :: ([ {| rk := RRule R_INTEGER; lexeme := "1" |};
                {| rk := RRule R_NEWLINE; lexeme := nl |};
                {| rk := RRule R_IDENTIFIER; lexeme := "long" |};
                {| rk := RRule R_IDENTIFIER; lexeme := "x" |};
                {| rk := RLiteral; lexeme := "=" |};
                {| rk := RRule R_INTEGER; lexeme := "10L" |};
                {| rk := RLiteral; lexeme := ";" |};
                {| rk := RRule R_NEWLINE; lexeme := nl |} ]
              ++ {| rk := RRule R_DIRECTIVE; lexeme := "#endif" |}
              :: [ {| rk := RRule R_NEWLINE; lexeme := nl |} ]))%list.
  apply balanced_if; try reflexivity.
  - repeat (apply balanced_other; [reflexivity | reflexivity |]). apply balanced_nil.
  - apply balanced_other; try reflexivity. apply balanced_nil.
Qed.

Lemma balanced_if_endif :
  balanced (raw_lex None 0 ("#if 1" ++ nl ++ "#endif" ++ nl)).
Proof.
  change (raw_lex None 0 ("#if 1" ++ nl ++ "#endif" ++ nl))
    with ({| rk := RRule R_DIRECTIVE; lexeme := "#if" |}
          :: ([ {| rk := RRule R_INTEGER; lexeme := "1" |};
                {| rk := RRule R_NEWLINE; lexeme := nl |} ]
              ++ {| rk := RRule R_DIRECTIVE; lexeme := "#endif" |}
              :: [ {| rk := RRule R_NEWLINE; lexeme := nl |} ]))%list.
  apply balanced_if; try reflexivity.
  - apply balanced_other; try reflexivity.
    apply balanced_other; try reflexivity. apply balanced_nil.
  - apply balanced_other; try reflexivity. apply balanced_nil.
Qed.

(** C7, amended: from a counter that is not negative, every token the
    lexer returns leaves [nested_if] non-negative; an [#endif] met while the
    counter is 0 raises [Exception] with the message of the source, the
    counter being left at -1; a buffer whose conditionals are balanced is
    scanned to its end with the counter back at its initial value, which
    [__init__] sets to 0, when all its constants convert, and when the scan
    stops it stops with [ValueError], at a constant that does not convert,
    the counter not below its initial value.  The counter goes up by one at
    [#if], [#ifdef] and [#ifndef] and down by one at an [#endif] that has
    its [#if]; [tokenize_leaves] is the wrapper as [tokenize] returns
    it. *)
Theorem nested_if_never_negative :
  forall (data : string) (self : C99PreProcessorLexer),
    0 <= nested_if self ->
    (forall (raws1 raws2 : list rawtok) (toks : list token) (l' : Z)
            (self' : C99PreProcessorLexer),
        raw_lex None 0 data = (raws1 ++ raws2)%list ->
        scan raws1 1 self = Ok (toks, l', self') ->
        0 <= nested_if self')
    /\ (forall (raws1 raws2 : list rawtok) (t : rawtok) (toks : list token) (l' : Z)
               (self' : C99PreProcessorLexer),
           raw_lex None 0 data = (raws1 ++ t :: raws2)%list ->
           scan raws1 1 self = Ok (toks, l', self') ->
           nested_if self' = 0 ->
           closes t = true ->
           tokenize data self = Raise (Exception (VStr endif_message))
           /\ nested_if (tokenize_leaves data self) = -1)
    /\ (balanced (raw_lex None 0 data) ->
        (forallb converts (raw_lex None 0 data) = true ->
         exists (toks : list token) (self' : C99PreProcessorLexer),
           tokenize data self = Ok (toks, self')
           /\ nested_if self' = nested_if self)
        /\ (forall x : exn,
               tokenize data self = Raise x ->
               x = ValueError
               /\ nested_if self <= nested_if (tokenize_leaves data self)))
    /\ (forall (toks : list token) (self' : C99PreProcessorLexer),
           tokenize data self = Ok (toks, self') -> tokenize_leaves data self = self')
    /\ nested_if lexer_init = 0
    /\ String.prefix "Number of #endif doesn't match with number of #if" endif_message
       = true
    /\ (forall (t : rawtok) (l : Z),
           opens t = true ->
           exists tok, run_raw t l self = Ok (Some tok, l, bump 1 self))
    /\ (forall (t : rawtok) (l : Z),
           closes t = true -> 0 < nested_if self ->
           exists tok, run_raw t l self = Ok (Some tok, l, bump (-1) self)).
Proof.
  intros data self Hn.
  split; [|split; [|split; [|split; [|split; [|split; [|split]]]]]].
  - intros raws1 raws2 toks l' self' _ Hs.
    exact (scan_nonneg _ _ _ _ _ _ Hn Hs).
  - intros raws1 raws2 t toks l' self' Hd Hs Hz Hc.
    destruct (run_raw_closes_object t l' self' Hc Hz) as [Hr Hl].
    unfold tokenize, tokenize_leaves. rewrite Hd, scan_app, scan_leaves_app, Hs.
    cbn [bind scan scan_leaves]. rewrite Hr. split; [reflexivity | exact Hl].
  - intros Hb. split.
    + intros Hv.
      destruct (scan_balanced _ Hb 1 self Hv Hn) as [toks [l' [self' [Hs Hd]]]].
      exists toks, self'. unfold tokenize. rewrite Hs. split; [reflexivity | exact Hd].
    + intros x. unfold tokenize, tokenize_leaves.
      destruct (scan_balanced_or_stops _ Hb 1 self Hn)
        as [[toks [l' [self' [Hs Hd]]]] | [Hs Hle]]; rewrite Hs; cbn [bind].
      * discriminate.
      * intros H. inversion H. split; [reflexivity | exact Hle].
  - intros toks self'. unfold tokenize, tokenize_leaves.
    destruct (scan (raw_lex None 0 data) 1 self) as [[[toks1 l1] s1]|] eqn:Hs;
      [|discriminate].
    cbn [bind]. intros H. inversion H; subst. exact (scan_leaves_ok _ _ _ _ _ _ Hs).
  - reflexivity.
  - reflexivity.
  - intros t l Ho. exact (run_raw_opens t l self Ho).
  - intros t l Hc Hpos. pose proof (run_raw_closes t l self Hc) as H.
    replace (nested_if self <=? 0) with false in H; [exact H|].
    symmetry. apply Z.leb_gt. exact Hpos.
Qed.

Lemma nested_if_never_negative_witness :
  0 <= nested_if lexer_init
  /\ exists (toks : list token) (self' : C99PreProcessorLexer),
       tokenize ("#if 1" ++ nl ++ "#endif" ++ nl) lexer_init = Ok (toks, self')
       /\ nested_if self' = nested_if lexer_init.
Proof.
  assert (H0 : 0 <= nested_if lexer_init) by (vm_compute; discriminate).
  split; [exact H0|].
  apply (proj1 (proj1 (proj2 (proj2
           (nested_if_never_negative ("#if 1" ++ nl ++ "#endif" ++ nl) lexer_init H0)))
           balanced_if_endif)).
  vm_compute. reflexivity.
Defined.

(** ** What the steps of the engine keep

    The engine changes state in three ways: a rule of the lexer runs (the
    fields of the wrapper change), [process] opens a file (the current file
    and the log change), an action of the grammar runs.  A relation between
    the state before and the state after that is reflexive and transitive,
    that holds across these changes of the wrapper, of the macro table, of
    the current file and the log, and that [include] keeps when [process]
    does, holds across every action, across the parser on every text, and
    so across [process] and [include] themselves. *)

Lemma is_file_run (p : string) (e : C99PreProcessor) :
  is_file p e = Ok (bool_decide (is_Some (files e !! p)), e).
Proof. reflexivity. Qed.

Lemma search_stdlib_state (h : string) (fs : list string) :
  forall (e e' : C99PreProcessor) (p0 : option string) (r : bool * option string),
    search_stdlib fs h p0 e = Ok (r, e') -> e' = e.
Proof.
  induction fs as [|d fs IH]; intros e e' p0 r.
  - cbn [search_stdlib]. unfold ret. intros H. inversion H. reflexivity.
  - cbn [search_stdlib]. unfold mbind. rewrite is_file_run.
    destruct (bool_decide (is_Some (files e !! joinpath (Path d) h))).
    + unfold ret. intros H. inversion H. reflexivity.
    + apply IH.
Qed.

Lemma process_run (parse : string -> M value) (p : string) (e e1 : C99PreProcessor)
  (v : value) :
  process parse p e = Ok (v, e1) ->
  exists content,
    files e !! Path p = Some content
    /\ parse (phase_filter (_keep_comment e) content)
             (log_read (Path p) (set_current_file (Some (Path p)) e)) = Ok (v, e1).
Proof.
  cbv [process mbind modify read_text get ret raise].
  destruct e as [cf lx ht mc sp kc fl fr ck].
  cbn [files set_current_file _keep_comment log_read].
  destruct (fl !! Path p) as [content|] eqn:Hf; [|discriminate].
  intros H. exists content. split; [reflexivity | exact H].
Qed.

(** The two ways [include] returns: from the cache, with the engine as it
    is; or after [process] has returned the text of the file found, which
    then is the new entry of the cache. *)
Lemma include_run (process : string -> M value) (header_name v : value)
  (e e1 : C99PreProcessor) :
  include process header_name e = Ok (v, e1) ->
  exists hn : string,
    header_name = VStr hn
    /\ ((exists s, headers_table e !! slice_1_m1 hn = Some s /\ v = VStr s /\ e1 = e)
        \/ (headers_table e !! slice_1_m1 hn = None
            /\ exists (include_path s : string) (ep : C99PreProcessor),
                 process include_path e = Ok (VStr s, ep)
                 /\ v = VStr (s ++ nl)
                 /\ e1 = set_headers_table
                           (<[slice_1_m1 hn := s ++ nl]> (headers_table ep)) ep)).
Proof.
  destruct header_name as [| | | |hn| | |]; try discriminate.
  intros H. exists hn. split; [reflexivity|].
  unfold include in H. unfold mbind at 1 in H. unfold get at 1 in H.
  destruct (headers_table e !! slice_1_m1 hn) as [cached|] eqn:Hc.
  - left. unfold ret in H. inversion H; subst. exists cached. repeat split.
  - right. split; [reflexivity|].
    destruct hn as [|c0 rest]; [discriminate|].
    unfold mbind at 1 in H.
    match type of H with
    | match ?c e with _ => _ end = _ => destruct (c e) as [[r1 ea]|] eqn:H1
    end; [|discriminate].
    assert (Ea : ea = e).
    { destruct (Ascii.eqb c0 DQ && _) in H1.
      - destruct (_current_file e); [|discriminate].
        unfold mbind in H1. rewrite is_file_run in H1. inversion H1. reflexivity.
      - inversion H1. reflexivity. }
    subst ea. unfold mbind at 1 in H.
    match type of H with
    | match ?c e with _ => _ end = _ => destruct (c e) as [[r2 eb]|] eqn:H2
    end; [|discriminate].
    assert (Eb : eb = e).
    { destruct (negb (fst r1)).
      - exact (search_stdlib_state _ _ _ _ _ _ H2).
      - inversion H2. reflexivity. }
    subst eb.
    destruct (negb (fst r2)); [discriminate|].
    destruct (snd r2) as [ip|]; [|discriminate].
    unfold mbind at 1 in H.
    destruct (process ip e) as [[pv ep]|] eqn:Hp; [|discriminate].
    destruct pv; try discriminate.
    unfold mbind, modify, ret in H. inversion H; subst v e1. clear H.
    exists ip, s, ep. repeat split. exact Hp.
Qed.

Section Steps.

Variable R : C99PreProcessor -> C99PreProcessor -> Prop.
Hypothesis R_refl : forall e, R e e.
Hypothesis R_trans : forall a b c, R a b -> R b c -> R a c.
Hypothesis R_lexer : forall lx e, R e (set_lexer lx e).
Hypothesis R_macro : forall m e, R e (set_macro m e).
Hypothesis R_file : forall p e, R e (log_read p (set_current_file (Some p) e)).
Hypothesis R_include :
  forall process : string -> M value,
    (forall p, keeps R (process p)) -> forall h, keeps R (include process h).

Lemma keeps_ret (A : Type) (a : A) : keeps R (ret a).
Proof. intros e e' x H. inversion H; subst. apply R_refl. Qed.

Lemma keeps_raise (A : Type) (x : exn) : keeps R (@raise A x).
Proof. intros e e' a H. discriminate. Qed.

Lemma keeps_lift (A : Type) (r : result A) : keeps R (lift r).
Proof. intros e e' a. unfold lift. destruct r; intros H; inversion H; subst. apply R_refl. Qed.

Lemma keeps_get : keeps R get.
Proof. intros e e' a H. inversion H; subst. apply R_refl. Qed.

Lemma keeps_bind (A B : Type) (c : M A) (f : A -> M B) :
  keeps R c -> (forall a, keeps R (f a)) -> keeps R (mbind c f).
Proof.
  intros Hc Hf e e' b. unfold mbind.
  destruct (c e) as [[a e1]|] eqn:E; [|discriminate].
  intros H. exact (R_trans _ _ _ (Hc _ _ _ E) (Hf a _ _ _ H)).
Qed.

Lemma keeps_modify (f : C99PreProcessor -> C99PreProcessor) :
  (forall e, R e (f e)) -> keeps R (modify f).
Proof. intros Hf e e' a H. inversion H; subst. apply Hf. Qed.

Ltac keeps_step :=
  match goal with
  | |- keeps _ (mbind _ _) => apply keeps_bind; [|intros ?]
  | |- keeps _ (ret _) => apply keeps_ret
  | |- keeps _ (raise _) => apply keeps_raise
  | |- keeps _ (lift _) => apply keeps_lift
  | |- keeps _ get => apply keeps_get
  | |- keeps _ (modify _) => apply keeps_modify; intros ?; apply R_macro
  | |- keeps _ (if ?b then _ else _) => destruct b
  | |- keeps _ (match ?x with _ => _ end) => destruct x
  | H : forall s, keeps _ (?f s) |- keeps _ (?f _) => apply H
  end.

Lemma keeps_process (parse : string -> M value) (p : string) :
  (forall s, keeps R (parse s)) -> keeps R (process parse p).
Proof.
  intros Hparse e e' v H.
  destruct (process_run _ _ _ _ _ H) as [content [_ Hq]].
  exact (R_trans _ _ _ (R_file (Path p) e) (Hparse _ _ _ _ Hq)).
Qed.

Lemma keeps_item (p : list value) (i : nat) : keeps R (item p i).
Proof. unfold item. repeat keeps_step. Qed.

Lemma keeps_index (v : value) (i : nat) : keeps R (index v i).
Proof. unfold index. repeat keeps_step. Qed.

Lemma keeps_as_string (v : value) : keeps R (as_string v).
Proof. unfold as_string. repeat keeps_step. Qed.

Lemma keeps_fstr (parts : list value) : keeps R (fstr parts).
Proof. unfold fstr. repeat keeps_step. Qed.

Lemma keeps_nested_if_zero : keeps R nested_if_zero.
Proof. unfold nested_if_zero. repeat keeps_step. Qed.

Lemma keeps_in_macro (x : value) : keeps R (in_macro x).
Proof. unfold in_macro. repeat keeps_step. Qed.

Lemma keeps_define_macro (n : string) (r a : value) (v : bool) :
  keeps R (define_macro n r a v).
Proof. unfold define_macro. repeat keeps_step. Qed.

Lemma keeps_undef_macro (n : string) : keeps R (undef_macro n).
Proof. unfold undef_macro. repeat keeps_step. Qed.

Lemma keeps_expand_macro (n : string) (args : value) : keeps R (expand_macro n args).
Proof. unfold expand_macro. repeat keeps_step. Qed.

Lemma keeps_split_commas (v : value) : keeps R (split_commas v).
Proof. unfold split_commas. apply keeps_bind; [apply keeps_as_string | intros; apply keeps_ret]. Qed.

Lemma keeps_first_true_group (gs : list value) : keeps R (first_true_group gs).
Proof.
  induction gs as [|g gs IH]; cbn [first_true_group].
  - apply keeps_ret.
  - apply keeps_bind; [apply keeps_index | intros c].
    destruct (truthy c); [|exact IH].
    apply keeps_bind; [apply keeps_index | intros; apply keeps_ret].
Qed.

Lemma keeps_binary_level (ops : list (string * (value -> value -> result value)))
  (p1 p2 p3 : value) : keeps R (binary_level ops p1 p2 p3).
Proof.
  induction ops as [|[op f] ops IH]; cbn [binary_level].
  - apply keeps_ret.
  - destruct (is_op p2 op); [apply keeps_lift | exact IH].
Qed.

Ltac keeps_head :=
  first
    [ apply keeps_item | apply keeps_index | apply keeps_as_string | apply keeps_fstr
    | apply keeps_nested_if_zero | apply keeps_in_macro | apply keeps_define_macro
    | apply keeps_undef_macro | apply keeps_expand_macro | apply keeps_split_commas
    | apply keeps_first_true_group | apply keeps_binary_level
    | keeps_step ].

Lemma keeps_rescan (parse : string -> M value) (b : value) :
  (forall s, keeps R (parse s)) -> keeps R (rescan parse b).
Proof. intros H. unfold rescan. repeat keeps_head. Qed.

(** Every action of the grammar. *)
Lemma keeps_action (parse : string -> M value) (action : list value -> M value)
  (p : list value) :
  (forall s, keeps R (parse s)) ->
  In action (grammar_actions parse) -> keeps R (action p).
Proof.
  intros Hparse Hin.
  assert (Hproc : forall q, keeps R (process parse q))
    by (intros q; apply keeps_process; exact Hparse).
  assert (Hinc : forall h, keeps R (include (process parse) h))
    by (apply R_include; exact Hproc).
  assert (Hres : forall b, keeps R (rescan parse b))
    by (intros b; apply keeps_rescan; exact Hparse).
  unfold grammar_actions in Hin. cbn [In] in Hin.
  repeat (destruct Hin as [<- | Hin]); try contradiction;
    unfold p_preprocessing_file, p_group, p_group_part, p_control_line,
      p_if_section, p_if_section2, p_if_section3, p_if_section4,
      p_if_group, p_if_group2, p_if_group3, p_elif_groups, p_elif_group, p_else_group,
      p_endif_line, p_define_directive, p_define_directive_2, p_define_directive_3,
      p_define_directive_4, p_define_directive_5, p_error_directive,
      p_include_directive, p_line_directive, p_pragma_directive, p_undef_directive,
      p_primary_expression, p_primary_expression2, p_primary_expression3,
      p_unary_expression, p_unary_operator,
      p_multiplicative_expression, p_additive_expression, p_shift_expression,
      p_relational_expression, p_equality_expression, p_and_expression,
      p_exclusive_or_expression, p_inclusive_or_expression,
      p_logical_and_expression, p_logical_or_expression,
      p_conditional_expression, p_constant_expression,
      p_text_line, p_conditionally_supported_directive, p_identifier_list,
      p_replacement_list, p_token_list, p_token, p_token2, p_operator_punc,
      binary_action;
    repeat keeps_head.
Qed.

(** *** The parser *)

Lemma next_token_keeps (raws : list rawtok) :
  forall (l : Z) (e : C99PreProcessor) (s : pst),
    next_token raws l e = Ok s -> R e (eng s).
Proof.
  induction raws as [|t raws IH]; intros l e s; cbn [next_token].
  - intros H. inversion H; subst. apply R_refl.
  - destruct (run_raw t l (_lexer e)) as [[[[tok|] l'] lx]|]; [| |discriminate].
    + intros H. inversion H; subst. apply R_lexer.
    + intros H. exact (R_trans _ _ _ (R_lexer lx e) (IH _ _ _ H)).
Qed.

Lemma pkeeps_pret (A : Type) (a : A) : pkeeps R (pret a).
Proof. intros s s' x H. inversion H; subst. apply R_refl. Qed.

Lemma pkeeps_praise (A : Type) (x : exn) : pkeeps R (@praise A x).
Proof. intros s s' a H. discriminate. Qed.

Lemma pkeeps_syntax_error (A : Type) : pkeeps R (@syntax_error A).
Proof. intros s s' a H. discriminate. Qed.

Lemma pkeeps_peek : pkeeps R peek.
Proof. intros s s' a H. inversion H; subst. apply R_refl. Qed.

Lemma pkeeps_pbind (A B : Type) (c : P A) (f : A -> P B) :
  pkeeps R c -> (forall a, pkeeps R (f a)) -> pkeeps R (pbind c f).
Proof.
  intros Hc Hf s s' b. unfold pbind.
  destruct (c s) as [[a s1]|] eqn:E; [|discriminate].
  intros H. exact (R_trans _ _ _ (Hc _ _ _ E) (Hf a _ _ _ H)).
Qed.

Lemma pkeeps_act (A : Type) (m : M A) : keeps R m -> pkeeps R (act m).
Proof.
  intros Hm s s' a. unfold act.
  destruct (m (eng s)) as [[x e]|] eqn:E; [|discriminate].
  intros H. inversion H; subst. cbn [eng]. exact (Hm _ _ _ E).
Qed.

Lemma pkeeps_shift : pkeeps R shift.
Proof.
  intros s s' a. unfold shift. destruct (la s); [|discriminate].
  destruct (next_token (pending s) (lex_lineno s) (eng s)) as [s1|] eqn:E; [|discriminate].
  intros H. inversion H; subst. exact (next_token_keeps _ _ _ _ E).
Qed.

Lemma pkeeps_expect (ty : toktype) : pkeeps R (expect ty).
Proof.
  unfold expect. apply pkeeps_pbind; [apply pkeeps_peek | intros o].
  destruct (la_is (toktype_eqb ty) o); [apply pkeeps_shift | apply pkeeps_syntax_error].
Qed.

Lemma pkeeps_at_newline : pkeeps R at_newline.
Proof.
  unfold at_newline. apply pkeeps_pbind; [apply pkeeps_peek | intros o].
  destruct (la_is (toktype_eqb NEWLINE) o); [apply pkeeps_pret | apply pkeeps_syntax_error].
Qed.

Lemma pkeeps_reduce_on (ok : option toktype -> bool) (m : M value) :
  keeps R m -> pkeeps R (reduce_on ok m).
Proof.
  intros Hm. unfold reduce_on. apply pkeeps_pbind; [apply pkeeps_peek | intros o].
  destruct (ok o); [apply pkeeps_act; exact Hm | apply pkeeps_syntax_error].
Qed.

Lemma pkeeps_loop_while (cond : option toktype -> bool) (step : value -> P value) :
  (forall acc, pkeeps R (step acc)) ->
  forall (n : nat) (acc : value), pkeeps R (loop_while n cond step acc).
Proof.
  intros Hs n. induction n as [|n IH]; intros acc; cbn [loop_while].
  - apply pkeeps_praise.
  - apply pkeeps_pbind; [apply pkeeps_peek | intros o].
    destruct (cond o); [|apply pkeeps_pret].
    apply pkeeps_pbind; [apply Hs | intros acc'; apply IH].
Qed.

Lemma pkeeps_while (cond : option toktype -> bool) (step : value -> P value)
  (acc : value) :
  (forall acc, pkeeps R (step acc)) -> pkeeps R (while cond step acc).
Proof.
  intros Hs s s' a. unfold while. apply pkeeps_loop_while. exact Hs.
Qed.

Section OnGrammar.

Variable parse : string -> M value.
Hypothesis Hparse : forall s, keeps R (parse s).

Lemma pkeeps_action (action : list value -> M value) (p : list value) :
  In action (grammar_actions parse) -> pkeeps R (act (action p)).
Proof. intros H. apply pkeeps_act. apply (keeps_action parse); assumption. Qed.

Lemma pkeeps_reduce_action (ok : option toktype -> bool)
  (action : list value -> M value) (p : list value) :
  In action (grammar_actions parse) -> pkeeps R (reduce_on ok (action p)).
Proof. intros H. apply pkeeps_reduce_on. apply (keeps_action parse); assumption. Qed.

Ltac in_actions := unfold grammar_actions; cbn [In]; tauto.

Ltac pkeeps_step :=
  match goal with
  | |- pkeeps _ (pbind _ _) => apply pkeeps_pbind; [|intros ?]
  | |- pkeeps _ (pret _) => apply pkeeps_pret
  | |- pkeeps _ (praise _) => apply pkeeps_praise
  | |- pkeeps _ syntax_error => apply pkeeps_syntax_error
  | |- pkeeps _ peek => apply pkeeps_peek
  | |- pkeeps _ shift => apply pkeeps_shift
  | |- pkeeps _ (expect _) => apply pkeeps_expect
  | |- pkeeps _ at_newline => apply pkeeps_at_newline
  | |- pkeeps _ (act (_ _)) => apply pkeeps_action; in_actions
  | |- pkeeps _ (reduce_on _ (_ _)) => apply pkeeps_reduce_action; in_actions
  | |- pkeeps _ (while _ _ _) => apply pkeeps_while; intros ?
  | |- pkeeps _ (if ?b then _ else _) => destruct b
  | |- pkeeps _ (match ?x with _ => _ end) => destruct x
  | H : pkeeps _ ?c |- pkeeps _ ?c => exact H
  | H : forall x, pkeeps _ (?f x) |- pkeeps _ (?f _) => apply H
  end.

Lemma pkeeps_parse_token : pkeeps R parse_token.
Proof. unfold parse_token. repeat pkeeps_step. Qed.

Lemma pkeeps_parse_token_list : pkeeps R parse_token_list.
Proof.
  pose proof pkeeps_parse_token as Ht.
  unfold parse_token_list. repeat pkeeps_step.
Qed.

Lemma pkeeps_parse_replacement_list : pkeeps R parse_replacement_list.
Proof.
  pose proof pkeeps_parse_token_list as Ht.
  unfold parse_replacement_list. repeat pkeeps_step.
Qed.

Lemma pkeeps_identifier_list_loop (n : nat) :
  forall acc : value, pkeeps R (identifier_list_loop n acc).
Proof.
  induction n as [|n IH]; intros acc; cbn [identifier_list_loop];
    repeat pkeeps_step.
Qed.

Lemma pkeeps_parse_define_directive : pkeeps R parse_define_directive.
Proof.
  pose proof pkeeps_parse_replacement_list as Hr.
  unfold parse_define_directive.
  repeat first
    [ pkeeps_step
    | let H := fresh "H" in
      intros ? ? ? H; exact (pkeeps_identifier_list_loop _ _ _ _ _ H) ].
Qed.

Lemma pkeeps_parse_control_line : pkeeps R (parse_control_line (process parse)).
Proof.
  pose proof pkeeps_parse_token_list as Ht.
  pose proof pkeeps_parse_define_directive as Hd.
  unfold parse_control_line, parse_error_directive, parse_include_directive,
    parse_line_directive, parse_pragma_directive, parse_undef_directive.
  repeat pkeeps_step.
Qed.

Lemma pkeeps_parse_text_line : pkeeps R parse_text_line.
Proof.
  pose proof pkeeps_parse_token_list as Ht.
  unfold parse_text_line. repeat pkeeps_step.
Qed.

Lemma pkeeps_parse_conditionally_supported_directive :
  pkeeps R parse_conditionally_supported_directive.
Proof.
  pose proof pkeeps_parse_token_list as Ht.
  unfold parse_conditionally_supported_directive. repeat pkeeps_step.
Qed.

Variable rec : nonterm -> P value.
Hypothesis Hrec : forall nt, pkeeps R (rec nt).

Lemma pkeeps_binary_chain (ops : toktype -> bool) (sub : P value)
  (action : list value -> M value) :
  pkeeps R sub -> In action (grammar_actions parse) ->
  pkeeps R (binary_chain ops sub action).
Proof.
  intros Hs Ha. unfold binary_chain.
  apply pkeeps_pbind; [exact Hs | intros v].
  apply pkeeps_pbind; [apply pkeeps_action; exact Ha | intros v'].
  apply pkeeps_while. intros acc.
  apply pkeeps_pbind; [apply pkeeps_shift | intros op].
  apply pkeeps_pbind; [exact Hs | intros r].
  apply pkeeps_action; exact Ha.
Qed.

Lemma pkeeps_parse_conditional_expression :
  pkeeps R (parse_conditional_expression rec).
Proof.
  unfold parse_conditional_expression.
  apply pkeeps_pbind.
  - unfold parse_logical_or_expression, parse_logical_and_expression,
      parse_inclusive_or_expression, parse_exclusive_or_expression,
      parse_and_expression, parse_equality_expression, parse_relational_expression,
      parse_shift_expression, parse_additive_expression,
      parse_multiplicative_expression.
    repeat (apply pkeeps_binary_chain; [|in_actions]). apply Hrec.
  - intros p1. repeat pkeeps_step.
Qed.

Lemma pkeeps_parse_constant_expression : pkeeps R (parse_constant_expression rec).
Proof. unfold parse_constant_expression. repeat pkeeps_step. Qed.

Lemma pkeeps_parse_unary_expression : pkeeps R (parse_unary_expression rec).
Proof.
  pose proof pkeeps_parse_constant_expression as Hc.
  unfold parse_unary_expression, parse_primary_expression. repeat pkeeps_step.
Qed.

Lemma pkeeps_with_optional_group (front : list value) (action : list value -> M value) :
  In action (grammar_actions parse) ->
  pkeeps R (with_optional_group rec front action).
Proof.
  intros Ha. unfold with_optional_group.
  apply pkeeps_pbind; [apply pkeeps_peek | intros o].
  destruct (la_is starts_group_part o).
  - apply pkeeps_pbind; [apply Hrec | intros g]. apply pkeeps_action; exact Ha.
  - apply pkeeps_action; exact Ha.
Qed.

Lemma pkeeps_parse_if_section : pkeeps R (parse_if_section parse rec).
Proof.
  pose proof pkeeps_parse_constant_expression as Hc.
  assert (Hg : forall front action, In action (grammar_actions parse) ->
                 pkeeps R (with_optional_group rec front action))
    by (intros; apply pkeeps_with_optional_group; assumption).
  unfold parse_if_section, parse_if_group, parse_elif_groups, parse_elif_group,
    parse_else_group, parse_endif_line.
  repeat first
    [ match goal with
      | |- pkeeps _ (with_optional_group _ _ _) => apply Hg; in_actions
      end
    | pkeeps_step ].
Qed.

Lemma pkeeps_parse_group : pkeeps R (parse_group parse rec).
Proof.
  pose proof pkeeps_parse_if_section as Hi.
  pose proof pkeeps_parse_control_line as Hc.
  pose proof pkeeps_parse_text_line as Ht.
  pose proof pkeeps_parse_conditionally_supported_directive as Hd.
  unfold parse_group, parse_group_part. repeat pkeeps_step.
Qed.

Lemma pkeeps_parse_nonterm (nt : nonterm) : pkeeps R (parse_nonterm parse rec nt).
Proof.
  destruct nt; cbn [parse_nonterm].
  - apply pkeeps_parse_group.
  - apply pkeeps_parse_conditional_expression.
  - apply pkeeps_parse_unary_expression.
Qed.

End OnGrammar.

Lemma pkeeps_drive (parse : string -> M value) (fuel : nat) :
  (forall s, keeps R (parse s)) ->
  forall nt, pkeeps R (drive parse fuel nt).
Proof.
  intros Hparse. induction fuel as [|fuel IH]; intros nt; cbn [drive].
  - apply pkeeps_praise.
  - apply pkeeps_parse_nonterm; assumption.
Qed.

Lemma pkeeps_parse_preprocessing_file (parse : string -> M value) (fuel : nat) :
  (forall s, keeps R (parse s)) ->
  pkeeps R (parse_preprocessing_file parse fuel).
Proof.
  intros Hparse. unfold parse_preprocessing_file.
  apply pkeeps_pbind; [apply pkeeps_peek | intros o].
  destruct o as [t|].
  - apply pkeeps_pbind; [apply pkeeps_drive; exact Hparse | intros g].
    apply pkeeps_pbind; [apply pkeeps_peek | intros o'].
    destruct o'; [apply pkeeps_syntax_error|].
    apply (pkeeps_action parse); [exact Hparse | unfold grammar_actions; cbn [In]; tauto].
  - apply (pkeeps_action parse); [exact Hparse | unfold grammar_actions; cbn [In]; tauto].
Qed.

(** The parser, whatever the text and however deep the rescans and the
    inclusions go. *)
Lemma keeps_parse_text (depth : nat) : forall data, keeps R (parse_text depth data).
Proof.
  induction depth as [|depth IH]; intros data; cbn [parse_text].
  - apply keeps_raise.
  - intros e e' v.
    destruct (next_token (raw_lex None 0 data) 1 e) as [s|] eqn:E; [|discriminate].
    destruct (parse_preprocessing_file (parse_text depth)
                (4 * List.length (raw_lex None 0 data) + 8) s) as [[v' s']|] eqn:E2;
      [|discriminate].
    intros H. inversion H; subst.
    exact (R_trans _ _ _ (next_token_keeps _ _ _ _ E)
             (pkeeps_parse_preprocessing_file _ _ IH _ _ _ E2)).
Qed.

Lemma keeps_run_process (depth : nat) (p : string) : keeps R (run_process depth p).
Proof. unfold run_process. apply keeps_process. apply keeps_parse_text. Qed.

Lemma keeps_run_include (depth : nat) (h : value) : keeps R (run_include depth h).
Proof. unfold run_include. apply R_include. intros p. apply keeps_run_process. Qed.

Lemma later_keeps (e e' : C99PreProcessor) : later e e' -> R e e'.
Proof.
  induction 1 as [|e1 lx H IH | e1 p H IH | e1 e2 depth action p v H IH Hin Hr
                  | e1 e2 depth fp v H IH Hr].
  - apply R_refl.
  - exact (R_trans _ _ _ IH (R_lexer lx e1)).
  - exact (R_trans _ _ _ IH (R_file p e1)).
  - refine (R_trans _ _ _ IH _).
    exact (keeps_action (parse_text depth) action p (keeps_parse_text depth) Hin _ _ _ Hr).
  - exact (R_trans _ _ _ IH (keeps_run_process depth fp _ _ _ Hr)).
Qed.

End Steps.

(** ** The header cache *)


(** *** An entry of the header cache stays *)








(** Two inclusions of one header in a file: the header is read once. *)
Example include_twice_reads_once :
  match run_process 3 "main.c" include_engine with
  | Ok (v, e) => Ok (v, files_read e)
  | Raise x => Raise x
  end
  = Ok (VStr ("int x ; " ++ nl ++ nl ++ nl ++ "int x ; " ++ nl ++ nl ++ nl),
        ["main.c"; "h.h"]).
Proof. vm_compute. reflexivity. Qed.

(** ** True division

    The quotient of two integers below [2 ^ 53] in absolute value, as
    [SFdiv] rounds it to binary64. *)

Lemma digits2_pos_bounds (p : positive) :
  2 ^ Zpos (digits2_pos p) <= 2 * Zpos p < 2 * 2 ^ Zpos (digits2_pos p).
Proof.
  induction p as [p IH|p IH|]; cbn [digits2_pos].
  - rewrite Pos2Z.inj_succ, Z.pow_succ_r by lia. lia.
  - rewrite Pos2Z.inj_succ, Z.pow_succ_r by lia. lia.
  - cbn. lia.
Qed.

Lemma digits2_pos_unique (p : positive) (k : Z) :
  2 ^ (k - 1) <= Zpos p < 2 ^ k -> Zpos (digits2_pos p) = k.
Proof.
  intros [Hlo Hhi].
  pose proof (digits2_pos_bounds p) as [Dlo Dhi].
  assert (Hk : 0 < k).
  { destruct (Z_lt_le_dec 0 k) as [?|Hle]; [assumption|].
    exfalso. assert (2 ^ k <= 1).
    { destruct (Z.eq_dec k 0) as [->|]; [cbn; lia|].
      rewrite Z.pow_neg_r by lia. lia. }
    lia. }
  set (d := Zpos (digits2_pos p)) in *.
  assert (Hd : 0 < d) by (unfold d; lia).
  destruct (Z.lt_trichotomy d k) as [Hlt|[Heq|Hgt]]; [|assumption|].
  - exfalso.
    assert (2 ^ d <= 2 ^ (k - 1)) by (apply Z.pow_le_mono_r; lia).
    lia.
  - exfalso.
    assert (2 ^ k <= 2 ^ (d - 1)) by (apply Z.pow_le_mono_r; lia).
    replace d with (Z.succ (d - 1)) in Dlo by lia.
    rewrite Z.pow_succ_r in Dlo by lia. lia.
Qed.

Lemma Zdigits2_unique (m k : Z) :
  0 < m -> 2 ^ (k - 1) <= m < 2 ^ k -> Zdigits2 m = k.
Proof.
  intros Hm H. destruct m as [|p|p]; try lia.
  cbn [Zdigits2]. apply digits2_pos_unique. exact H.
Qed.

Lemma new_location_spec (b r : Z) :
  0 < b -> 0 <= r < b ->
  new_location b r = if r =? 0 then loc_Exact else loc_Inexact (2 * r ?= b).
Proof.
  intros Hb Hr. unfold new_location.
  destruct (Z.even b) eqn:Eb; unfold new_location_even, new_location_odd;
    destruct (r =? 0) eqn:E0; try reflexivity.
  f_equal.
  assert (Hodd : Z.odd b = true) by (rewrite <- Z.negb_even, Eb; reflexivity).
  apply Z.odd_spec in Hodd. destruct Hodd as [k Hk].
  destruct (2 * r + 1 ?= b) eqn:C1; destruct (2 * r ?= b) eqn:C2;
    try reflexivity;
    try (apply Z.compare_eq in C1); try (apply Z.compare_eq in C2);
    try (rewrite Z.compare_lt_iff in C1); try (rewrite Z.compare_lt_iff in C2);
    try (rewrite Z.compare_gt_iff in C1); try (rewrite Z.compare_gt_iff in C2);
    lia.
Qed.

Lemma loc_of_shr_record_of_loc (m : Z) (l : location) :
  loc_of_shr_record (shr_record_of_loc m l) = l.
Proof. destruct l as [|[| |]]; reflexivity. Qed.

Lemma shr_m_of_loc (m : Z) (l : location) : shr_m (shr_record_of_loc m l) = m.
Proof. destruct l as [|[| |]]; reflexivity. Qed.

Lemma fexp_normal (e : Z) : -1074 <= e - 53 -> fexp prec emax e = e - 53.
Proof. intros H. unfold fexp, emin, prec, emax. lia. Qed.

Lemma shr_fexp_53 (m e : Z) (l : location) :
  2 ^ 52 <= m < 2 ^ 53 -> -1074 <= e ->
  shr_fexp prec emax m e l = (shr_record_of_loc m l, e).
Proof.
  intros Hm He. unfold shr_fexp.
  rewrite (Zdigits2_unique m 53) by (cbn; lia).
  rewrite fexp_normal by lia.
  replace (53 + e - 53 - e) with 0 by lia. reflexivity.
Qed.

Lemma shr_fexp_54 (m e : Z) (l : location) :
  2 ^ 53 <= m < 2 ^ 54 -> -1075 <= e ->
  shr_fexp prec emax m e l = (shr_1 (shr_record_of_loc m l), e + 1).
Proof.
  intros Hm He. unfold shr_fexp.
  rewrite (Zdigits2_unique m 54) by (cbn; lia).
  rewrite fexp_normal by lia.
  replace (54 + e - 53 - e) with 1 by lia. reflexivity.
Qed.

(** shr_1 on a non-negative mantissa *)
Lemma shr_1_spec (m : Z) (r s : bool) :
  0 <= m ->
  shr_1 {| shr_m := m; shr_r := r; shr_s := s |}
  = {| shr_m := m / 2; shr_r := Z.odd m; shr_s := r || s |}.
Proof.
  intros Hm. destruct m as [|p|p]; [reflexivity| |lia].
  destruct p as [p|p|]; cbn [shr_1].
  - f_equal. rewrite Pos2Z.inj_xI. 
    replace (2 * Zpos p + 1) with (1 + Zpos p * 2) by lia.
    rewrite Z.div_add by lia. reflexivity.
  - f_equal. rewrite Pos2Z.inj_xO. rewrite Z.mul_comm, Z.div_mul by lia. reflexivity.
  - reflexivity.
Qed.

Lemma rne_range (m : Z) (l : location) :
  m <= round_nearest_even m l <= m + 1.
Proof.
  unfold round_nearest_even. destruct l as [|[| |]]; try lia.
  destruct (Z.even m); lia.
Qed.

Lemma renormalise (sx : bool) (m1 e : Z) :
  2 ^ 52 <= m1 <= 2 ^ 53 -> -1074 <= e <= 969 ->
  (let '(mrs, e') := shr_fexp prec emax m1 e loc_Exact in
   match shr_m mrs with
   | Z0 => S754_zero sx
   | Zpos m => if e' <=? emax - prec then S754_finite sx m e' else S754_infinity sx
   | Zneg _ => S754_nan
   end) = finish sx m1 e.
Proof.
  intros Hm He. unfold finish.
  destruct (m1 =? 2 ^ 53) eqn:E.
  - apply Z.eqb_eq in E. subst m1.
    rewrite shr_fexp_54 by (cbn; lia).
    cbn [shr_record_of_loc]. rewrite shr_1_spec by (cbn; lia).
    cbn [shr_m]. change (2 ^ 53 / 2) with (Zpos (Z.to_pos (2 ^ 52))).
    cbv iota. 
    replace (e + 1 <=? emax - prec) with true; [reflexivity|].
    symmetry. apply Z.leb_le. unfold emax, prec. lia.
  - apply Z.eqb_neq in E.
    rewrite shr_fexp_53 by lia.
    cbn [shr_record_of_loc shr_m].
    destruct m1 as [|p|p]; try (cbn in Hm; lia).
    cbv iota. rewrite Pos2Z.id.
    replace (e <=? emax - prec) with true; [reflexivity|].
    symmetry. apply Z.leb_le. unfold emax, prec. lia.
Qed.

Lemma binary_round_aux_53 (sx : bool) (m e : Z) (l : location) :
  2 ^ 52 <= m < 2 ^ 53 -> -1074 <= e <= 969 ->
  binary_round_aux prec emax sx m e l = finish sx (round_nearest_even m l) e.
Proof.
  intros Hm He. unfold binary_round_aux.
  rewrite shr_fexp_53 by lia.
  rewrite shr_m_of_loc, loc_of_shr_record_of_loc.
  pose proof (rne_range m l).
  apply renormalise; lia.
Qed.

Lemma binary_round_aux_54 (sx : bool) (m e : Z) (l : location) :
  2 ^ 53 <= m < 2 ^ 54 -> -1075 <= e <= 968 ->
  binary_round_aux prec emax sx m e l
  = finish sx (round_nearest_even (m / 2) (loc_after_shift m l)) (e + 1).
Proof.
  intros Hm He. unfold binary_round_aux.
  rewrite shr_fexp_54 by lia.
  assert (Hs : shr_m (shr_1 (shr_record_of_loc m l)) = m / 2).
  { destruct l as [|[| |]]; cbn [shr_record_of_loc];
      rewrite shr_1_spec by lia; reflexivity. }
  rewrite Hs. fold (loc_after_shift m l).
  pose proof (rne_range (m / 2) (loc_after_shift m l)).
  assert (2 ^ 52 <= m / 2 < 2 ^ 53).
  { split.
    - apply Z.div_le_lower_bound; [lia|]. cbn in *. lia.
    - apply Z.div_lt_upper_bound; [lia|]. cbn in *. lia. }
  apply renormalise; lia.
Qed.

(** The error of the rounding, case of 53 bits: twice the distance to the
    quotient is at most the divisor. *)
Lemma rne_error_53 (N B q r : Z) :
  0 < B -> N = B * q + r -> 0 <= r < B ->
  let m1 := round_nearest_even q (if r =? 0 then loc_Exact else loc_Inexact (2 * r ?= B)) in
  - B <= 2 * (m1 * B - N) <= B.
Proof.
  intros HB HN Hr m1. subst m1. unfold round_nearest_even.
  destruct (r =? 0) eqn:E0.
  - apply Z.eqb_eq in E0. nia.
  - apply Z.eqb_neq in E0.
    destruct (2 * r ?= B) eqn:C.
    + apply Z.compare_eq in C. destruct (Z.even q); nia.
    + rewrite Z.compare_lt_iff in C. nia.
    + rewrite Z.compare_gt_iff in C. nia.
Qed.

Lemma rne_error_54 (N B q r : Z) :
  0 < B -> 0 <= q -> N = B * q + r -> 0 <= r < B ->
  let l := if r =? 0 then loc_Exact else loc_Inexact (2 * r ?= B) in
  let m1 := round_nearest_even (q / 2) (loc_after_shift q l) in
  - (2 * B) <= 2 * (m1 * (2 * B) - N) <= 2 * B.
Proof.
  intros HB Hq HN Hr l m1. subst m1 l. unfold loc_after_shift.
  assert (Hq2 : q = 2 * (q / 2) + (if Z.odd q then 1 else 0)).
  { rewrite (Z.div_mod q 2) at 1 by lia. rewrite Zmod_odd. reflexivity. }
  set (h := q / 2) in *.
  destruct (r =? 0) eqn:E0.
  - apply Z.eqb_eq in E0. cbn [shr_record_of_loc].
    rewrite shr_1_spec by lia. fold h.
    destruct (Z.odd q); cbn [loc_of_shr_record orb round_nearest_even].
    + destruct (Z.even h); nia.
    + nia.
  - apply Z.eqb_neq in E0.
    destruct (2 * r ?= B); cbn [shr_record_of_loc];
      rewrite shr_1_spec by lia; fold h;
      destruct (Z.odd q); cbn [loc_of_shr_record orb round_nearest_even]; nia.
Qed.

(** No multiple of [2 ^ t] is that close to a quotient that is not an
    integer. *)
Lemma no_pow2_multiple (A B t j m1 : Z) :
  0 < B -> A mod B <> 0 -> 0 <= t -> 0 <= j ->
  - (2 ^ j * B) <= 2 * (m1 * (2 ^ j * B) - A * 2 ^ (t + j)) <= 2 ^ j * B ->
  B < 2 ^ (t + 1) ->
  m1 mod 2 ^ t <> 0.
Proof.
  intros HB HA Ht Hj Herr Hsmall Hmod.
  assert (HP : 0 < 2 ^ t) by (apply Z.pow_pos_nonneg; lia).
  assert (HJ : 0 < 2 ^ j) by (apply Z.pow_pos_nonneg; lia).
  apply Z.mod_divide in Hmod; [|lia]. destruct Hmod as [K HK].
  rewrite Z.pow_add_r in Herr by lia.
  rewrite Z.pow_add_r, Z.pow_1_r in Hsmall by lia.
  set (P := 2 ^ t) in *. set (J := 2 ^ j) in *.
  set (D := K * B - A).
  assert (HD : D <> 0).
  { unfold D. intros HD0. apply HA.
    replace A with (K * B) by lia. apply Z.mod_mul. lia. }
  assert (E : m1 * (J * B) - A * (P * J) = J * (P * D)) by (unfold D; subst m1; ring).
  rewrite E in Herr.
  assert (H1 : - B <= 2 * (P * D) <= B) by nia.
  destruct (Z_lt_le_dec D 0); nia.
Qed.

Lemma pow2_mod_pow2 (k t : Z) : 0 <= t <= k -> 2 ^ k mod 2 ^ t = 0.
Proof.
  intros H. replace k with ((k - t) + t) by lia.
  rewrite Z.pow_add_r by lia. apply Z.mod_mul.
  apply Z.pow_nonzero; lia.
Qed.

Lemma finish_not_integer (sx : bool) (m1 t : Z) :
  2 ^ 52 <= m1 <= 2 ^ 53 -> 0 <= t -> m1 mod 2 ^ t <> 0 ->
  exists m e, finish sx m1 (- t) = S754_finite sx m e
              /\ e < 0 /\ Zpos m mod 2 ^ (- e) <> 0.
Proof.
  intros Hm Ht Hmod.
  assert (Ht1 : 1 <= t).
  { destruct (Z.eq_dec t 0) as [->|]; [|lia].
    exfalso. apply Hmod. cbn. apply Z.mod_1_r. }
  unfold finish. destruct (m1 =? 2 ^ 53) eqn:E.
  - apply Z.eqb_eq in E. subst m1.
    assert (Ht2 : 53 < t).
    { destruct (Z_lt_le_dec 53 t); [assumption|].
      exfalso. apply Hmod. apply pow2_mod_pow2. lia. }
    eexists. eexists. split; [reflexivity|]. split; [lia|].
    replace (- (- t + 1)) with (t - 1) by lia.
    change (Zpos (Z.to_pos (2 ^ 52))) with (2 ^ 52).
    rewrite Z.mod_small.
    + cbn. lia.
    + split; [cbn; lia|]. apply Z.pow_lt_mono_r; lia.
  - eexists. eexists. split; [reflexivity|]. split; [lia|].
    rewrite Z2Pos.id by (cbn in Hm; lia).
    replace (- - t) with t by lia. exact Hmod.
Qed.

Lemma SFdiv_core_small (pa pb : positive) :
  Zpos pa < 2 ^ 53 -> Zpos pb < 2 ^ 53 ->
  let s := 53 + Zpos (digits2_pos pb) - Zpos (digits2_pos pa) in
  1 <= s <= 105
  /\ SFdiv_core_binary prec emax (Zpos pa) 0 (Zpos pb) 0
     = ((Zpos pa * 2 ^ s) / Zpos pb, - s,
        new_location (Zpos pb) ((Zpos pa * 2 ^ s) mod Zpos pb)).
Proof.
  intros Ha Hb s.
  pose proof (digits2_pos_bounds pa) as [Da _].
  pose proof (digits2_pos_bounds pb) as [Db _].
  assert (D1 : Zpos (digits2_pos pa) <= 53).
  { destruct (Z_lt_le_dec 53 (Zpos (digits2_pos pa))) as [Hgt|]; [|assumption].
    exfalso.
    assert (2 ^ 54 <= 2 ^ Zpos (digits2_pos pa)) by (apply Z.pow_le_mono_r; lia).
    cbn in *. lia. }
  assert (D2 : Zpos (digits2_pos pb) <= 53).
  { destruct (Z_lt_le_dec 53 (Zpos (digits2_pos pb))) as [Hgt|]; [|assumption].
    exfalso.
    assert (2 ^ 54 <= 2 ^ Zpos (digits2_pos pb)) by (apply Z.pow_le_mono_r; lia).
    cbn in *. lia. }
  assert (Hs : 1 <= s <= 105) by (unfold s; lia).
  split; [exact Hs|].
  unfold SFdiv_core_binary. cbn [Zdigits2].
  rewrite fexp_normal by lia.
  replace (Z.min (Zpos (digits2_pos pa) + 0 - (Zpos (digits2_pos pb) + 0) - 53) (0 - 0))
    with (- s) by (unfold s; lia).
  replace (0 - 0 - - s) with s by lia.
  destruct s as [|ps|ps] eqn:Es; try lia.
  rewrite Z.shiftl_mul_pow2 by lia.
  unfold Z.div, Z.modulo.
  destruct (Z.div_eucl (Zpos pa * 2 ^ Zpos ps) (Zpos pb)) as [q r].
  reflexivity.
Qed.

Lemma SFdiv_small_not_integer (sa sb : bool) (pa pb : positive) :
  Zpos pa < 2 ^ 53 -> Zpos pb < 2 ^ 53 ->
  Zpos pa mod Zpos pb <> 0 ->
  exists m e,
    SFdiv prec emax (S754_finite sa pa 0) (S754_finite sb pb 0)
    = S754_finite (xorb sa sb) m e
    /\ e < 0 /\ Zpos m mod 2 ^ (- e) <> 0.
Proof.
  intros Ha Hb Hmod.
  destruct (SFdiv_core_small pa pb Ha Hb) as [Hs Hcore].
  set (s := 53 + Zpos (digits2_pos pb) - Zpos (digits2_pos pa)) in *.
  cbn [SFdiv]. rewrite Hcore. clear Hcore.
  set (A := Zpos pa) in *. set (B := Zpos pb) in *.
  assert (HB : 0 < B) by (unfold B; lia).
  assert (HA : 0 < A) by (unfold A; lia).
  pose proof (digits2_pos_bounds pa) as [Da Da'].
  pose proof (digits2_pos_bounds pb) as [Db Db'].
  fold A in Da, Da'. fold B in Db, Db'.
  set (d1 := Zpos (digits2_pos pa)) in *.
  set (d2 := Zpos (digits2_pos pb)) in *.
  assert (Hd1 : 0 < d1) by (unfold d1; lia).
  assert (Hd2 : 0 < d2) by (unfold d2; lia).
  assert (HS : 2 ^ d1 * 2 ^ s = 2 ^ 53 * 2 ^ d2).
  { rewrite <- !Z.pow_add_r by lia. f_equal. unfold s. lia. }
  assert (HX : 0 < 2 ^ d2) by (apply Z.pow_pos_nonneg; lia).
  assert (HY : 0 < 2 ^ d1) by (apply Z.pow_pos_nonneg; lia).
  assert (HSp : 0 < 2 ^ s) by (apply Z.pow_pos_nonneg; lia).
  set (N := A * 2 ^ s) in *.
  assert (HN : N = B * (N / B) + N mod B) by (apply Z.div_mod; lia).
  assert (Hr : 0 <= N mod B < B) by (apply Z.mod_pos_bound; lia).
  assert (Hq : 2 ^ 52 <= N / B < 2 ^ 54).
  { split.
    - apply Z.div_le_lower_bound; [lia|]. unfold N.
      change (2 ^ 53) with (2 * 2 ^ 52) in HS. nia.
    - apply Z.div_lt_upper_bound; [lia|]. unfold N.
      change (2 ^ 54) with (2 * 2 ^ 53). nia. }
  assert (Hsmall : B < 2 ^ s).
  { assert (2 ^ d2 <= 2 ^ s).
    { apply Z.pow_le_mono_r; [lia|]. unfold s.
      assert (d1 <= 53); [|lia].
      destruct (Z_lt_le_dec 53 d1) as [Hgt|]; [|assumption]. exfalso.
      assert (2 ^ 54 <= 2 ^ d1) by (apply Z.pow_le_mono_r; lia).
      cbn in *. lia. }
    lia. }
  rewrite new_location_spec by lia.
  destruct (Z_lt_le_dec (N / B) (2 ^ 53)) as [Hlt|Hge].
  - rewrite binary_round_aux_53 by lia.
    pose proof (rne_error_53 N B (N / B) (N mod B) HB HN Hr) as Herr.
    cbv zeta in Herr.
    set (m1 := round_nearest_even (N / B)
                 (if N mod B =? 0 then loc_Exact else loc_Inexact (2 * (N mod B) ?= B))) in *.
    pose proof (rne_range (N / B)
                 (if N mod B =? 0 then loc_Exact else loc_Inexact (2 * (N mod B) ?= B))) as Hrange.
    fold m1 in Hrange.
    apply finish_not_integer; [lia | lia |].
    apply (no_pow2_multiple A B s 0 m1); try lia.
    + rewrite Z.pow_0_r, Z.add_0_r. fold N. lia.
    + rewrite Z.pow_add_r, Z.pow_1_r by lia. lia.
  - rewrite binary_round_aux_54 by lia.
    replace (- s + 1) with (- (s - 1)) by lia.
    pose proof (rne_error_54 N B (N / B) (N mod B) HB ltac:(lia) HN Hr) as Herr.
    cbv zeta in Herr.
    set (m1 := round_nearest_even (N / B / 2)
                 (loc_after_shift (N / B)
                    (if N mod B =? 0 then loc_Exact
                     else loc_Inexact (2 * (N mod B) ?= B)))) in *.
    pose proof (rne_range (N / B / 2)
                 (loc_after_shift (N / B)
                    (if N mod B =? 0 then loc_Exact
                     else loc_Inexact (2 * (N mod B) ?= B)))) as Hrange.
    fold m1 in Hrange.
    assert (2 ^ 52 <= N / B / 2 < 2 ^ 53).
    { split.
      - apply Z.div_le_lower_bound; [lia|]. cbn in *. lia.
      - apply Z.div_lt_upper_bound; [lia|]. cbn in *. lia. }
    apply finish_not_integer; [lia | lia |].
    apply (no_pow2_multiple A B (s - 1) 1 m1); try lia.
    + rewrite Z.pow_1_r. replace (s - 1 + 1) with s by lia. fold N. lia.
    + replace (s - 1 + 1) with s by lia. exact Hsmall.
Qed.

Lemma opp_mod_nonzero (pa pb : positive) (a b : Z) :
  (a = Zpos pa \/ a = Zneg pa) -> (b = Zpos pb \/ b = Zneg pb) ->
  a mod b <> 0 -> Zpos pa mod Zpos pb <> 0.
Proof.
  intros Ha Hb Hmod H. apply Hmod.
  apply Z.mod_divide in H; [|lia].
  apply Z.mod_divide; [destruct Hb; subst; lia|].
  destruct Ha as [-> | ->], Hb as [-> | ->].
  - exact H.
  - change (Zneg pb) with (- Zpos pb). apply Z.divide_opp_l. exact H.
  - change (Zneg pa) with (- Zpos pa). apply Z.divide_opp_r. exact H.
  - change (Zneg pb) with (- Zpos pb). change (Zneg pa) with (- Zpos pa).
    apply Z.divide_opp_l, Z.divide_opp_r. exact H.
Qed.

Lemma int_true_divide_small (a b : Z) :
  b <> 0 -> a mod b <> 0 -> Z.abs a < 2 ^ 53 -> Z.abs b < 2 ^ 53 ->
  exists f, int_true_divide a b = Ok (VFloat f)
            /\ float_is_integer f = false
            /\ float_is_zero f = false.
Proof.
  intros Hb Hmod Ha Hbb.
  assert (Ha0 : a <> 0).
  { intros ->. apply Hmod. apply Z.mod_0_l. exact Hb. }
  unfold int_true_divide.
  destruct (b =? 0) eqn:Eb; [apply Z.eqb_eq in Eb; contradiction|].
  destruct a as [|pa|pa]; [contradiction| |];
    destruct b as [|pb|pb]; try contradiction; cbn [SF_of_Z].
  - destruct (SFdiv_small_not_integer false false pa pb) as [m [e [Hd [He Hm]]]];
      [lia | lia | exact Hmod |].
    rewrite Hd. eexists. split; [reflexivity|]. split; [|reflexivity].
    unfold float_is_integer.
    destruct (0 <=? e) eqn:E0; [apply Z.leb_le in E0; lia|].
    apply Z.eqb_neq. exact Hm.
  - destruct (SFdiv_small_not_integer false true pa pb) as [m [e [Hd [He Hm]]]];
      [lia | lia | apply (opp_mod_nonzero pa pb _ _ (or_introl eq_refl)
                           (or_intror eq_refl) Hmod) |].
    rewrite Hd. eexists. split; [reflexivity|]. split; [|reflexivity].
    unfold float_is_integer.
    destruct (0 <=? e) eqn:E0; [apply Z.leb_le in E0; lia|].
    apply Z.eqb_neq. exact Hm.
  - destruct (SFdiv_small_not_integer true false pa pb) as [m [e [Hd [He Hm]]]];
      [lia | lia | apply (opp_mod_nonzero pa pb _ _ (or_intror eq_refl)
                           (or_introl eq_refl) Hmod) |].
    rewrite Hd. eexists. split; [reflexivity|]. split; [|reflexivity].
    unfold float_is_integer.
    destruct (0 <=? e) eqn:E0; [apply Z.leb_le in E0; lia|].
    apply Z.eqb_neq. exact Hm.
  - destruct (SFdiv_small_not_integer true true pa pb) as [m [e [Hd [He Hm]]]];
      [lia | lia | apply (opp_mod_nonzero pa pb _ _ (or_intror eq_refl)
                           (or_intror eq_refl) Hmod) |].
    rewrite Hd. eexists. split; [reflexivity|]. split; [|reflexivity].
    unfold float_is_integer.
    destruct (0 <=? e) eqn:E0; [apply Z.leb_le in E0; lia|].
    apply Z.eqb_neq. exact Hm.
Qed.

Lemma p_multiplicative_division (x y : value) (e : C99PreProcessor) :
  p_multiplicative_expression [x; VStr "/"; y] e = lift (py_truediv x y) e.
Proof. reflexivity. Qed.

(** C10, as stated, fails: the quotient is rounded to binary64, and
    [(2 ^ 53 + 1) / 2], whose exact value is [2 ^ 52 + 1/2], evaluates to
    the float [2 ^ 52], an integral value, though 2 does not divide
    [2 ^ 53 + 1]. *)
Lemma true_division_rounds_to_integer :
  ~ (forall (a b : Z) (e : C99PreProcessor),
        b <> 0 -> a mod b <> 0 ->
        exists f,
          p_multiplicative_expression [VInt a; VStr "/"; VInt b] e = Ok (VFloat f, e)
          /\ float_is_integer f = false).
Proof.
  intros H.
  destruct (H (2 ^ 53 + 1) 2 (engine_on EmptyString)) as [f [Hf Hi]].
  - discriminate.
  - vm_compute. discriminate.
  - rewrite p_multiplicative_division in Hf. vm_compute in Hf.
    inversion Hf; subst f. vm_compute in Hi. discriminate.
Qed.

(** C10, amended: [/] is the true division of Python, never the integer
    division of C.  For operands below [2 ^ 53] in absolute value, with [b]
    not zero and not a divisor of [a], the value of [a / b] is a binary64
    float that is not integral and not zero, so it counts as true in an
    [#if]; [1 / 2] is one half, and [#if 1 / 2] takes the first branch. *)
Theorem true_division_of_small_integers :
  forall (a b : Z) (e : C99PreProcessor),
    b <> 0 -> a mod b <> 0 -> Z.abs a < 2 ^ 53 -> Z.abs b < 2 ^ 53 ->
    exists f,
      p_multiplicative_expression [VInt a; VStr "/"; VInt b] e = Ok (VFloat f, e)
      /\ float_is_integer f = false
      /\ truthy (VFloat f) = true.
Proof.
  intros a b e Hb Hmod Ha Hbb.
  destruct (int_true_divide_small a b Hb Hmod Ha Hbb) as [f [Hf [Hi Hz]]].
  exists f. rewrite p_multiplicative_division.
  change (py_truediv (VInt a) (VInt b)) with (int_true_divide a b).
  rewrite Hf. split; [reflexivity|]. split; [exact Hi|].
  cbn [truthy]. rewrite Hz. reflexivity.
Qed.

Lemma true_division_of_small_integers_witness :
  exists f,
    p_multiplicative_expression [VInt 1; VStr "/"; VInt 2] (engine_on EmptyString)
    = Ok (VFloat f, engine_on EmptyString)
    /\ float_is_integer f = false
    /\ truthy (VFloat f) = true.
Proof.
  apply (true_division_of_small_integers 1 2 (engine_on EmptyString)).
  - discriminate.
  - vm_compute. discriminate.
  - vm_compute. reflexivity.
  - vm_compute. reflexivity.
Defined.

(** One half, and the branch it selects. *)
Example one_half :
  py_truediv (VInt 1) (VInt 2) = Ok (VFloat (S754_finite false 4503599627370496 (-53)))
  /\ (forall d : nat,
         output (run_process (S (S d)) "main.c" (engine_on (if_else "1 / 2")))
         = Ok (VStr ("YES " ++ nl))).
Proof. split; [reflexivity | intros d; vm_compute; reflexivity]. Qed.

(** * Further properties *)

(** ** Regular expressions: the stars of the source's expressions *)

Lemma rmatch_star (A : Type) (r : regex) (s : string) (k : string -> option A) :
  rmatch (RStar r) s k = star_loop r k (String.length s) s.
Proof. reflexivity. Qed.

Lemma rmatch_lazy (A : Type) (r : regex) (s : string) (k : string -> option A) :
  rmatch (RStarLazy r) s k = lazy_loop r k (String.length s) s.
Proof. reflexivity. Qed.

Lemma rmatch_seq (A : Type) (r1 r2 : regex) (s : string) (k : string -> option A) :
  rmatch (RSeq r1 r2) s k = rmatch r1 s (fun s' => rmatch r2 s' k).
Proof. reflexivity. Qed.

Lemma rmatch_alt (A : Type) (r1 r2 : regex) (s : string) (k : string -> option A) :
  rmatch (RAlt r1 r2) s k
  = match rmatch r1 s k with Some x => Some x | None => rmatch r2 s k end.
Proof. reflexivity. Qed.

Lemma star_loop_ext (A : Type) (r : regex) (k1 k2 : string -> option A) :
  (forall (s : string) (ka kb : string -> option A),
      (forall s', ka s' = kb s') -> rmatch r s ka = rmatch r s kb) ->
  (forall s, k1 s = k2 s) ->
  forall n s, star_loop r k1 n s = star_loop r k2 n s.
Proof.
  intros Hr Hk. induction n as [|n IH]; intros s; cbn [star_loop]; [apply Hk|].
  rewrite (Hr s _ (fun s' => if (String.length s' <? String.length s)%nat
                             then star_loop r k2 n s' else None)).
  - rewrite Hk. reflexivity.
  - intros s'. destruct (String.length s' <? String.length s)%nat; [apply IH | reflexivity].
Qed.

Lemma lazy_loop_ext (A : Type) (r : regex) (k1 k2 : string -> option A) :
  (forall (s : string) (ka kb : string -> option A),
      (forall s', ka s' = kb s') -> rmatch r s ka = rmatch r s kb) ->
  (forall s, k1 s = k2 s) ->
  forall n s, lazy_loop r k1 n s = lazy_loop r k2 n s.
Proof.
  intros Hr Hk. induction n as [|n IH]; intros s; cbn [lazy_loop]; rewrite Hk;
    [reflexivity|].
  destruct (k2 s); [reflexivity|].
  apply Hr. intros s'.
  destruct (String.length s' <? String.length s)%nat; [apply IH | reflexivity].
Qed.

Lemma rmatch_ext (A : Type) (r : regex) :
  forall (s : string) (k1 k2 : string -> option A),
    (forall s', k1 s' = k2 s') -> rmatch r s k1 = rmatch r s k2.
Proof.
  induction r as [| c | | f | r1 IH1 r2 IH2 | r1 IH1 r2 IH2 | r IH | r IH];
    intros s k1 k2 Hk.
  - apply Hk.
  - cbn [rmatch]. destruct s as [|d s']; [reflexivity|].
    destruct (Ascii.eqb c d); [apply Hk | reflexivity].
  - cbn [rmatch]. destruct s as [|d s']; [reflexivity|].
    destruct (Ascii.eqb d NL); [reflexivity | apply Hk].
  - cbn [rmatch]. destruct s as [|d s']; [reflexivity|].
    destruct (f d); [apply Hk | reflexivity].
  - rewrite !rmatch_seq. apply IH1. intros s'. apply IH2. exact Hk.
  - rewrite !rmatch_alt. rewrite (IH1 s k1 k2 Hk), (IH2 s k1 k2 Hk). reflexivity.
  - rewrite !rmatch_star. apply star_loop_ext; assumption.
  - rewrite !rmatch_lazy. apply lazy_loop_ext; assumption.
Qed.

Lemma star_set (A : Type) (f : ascii -> bool) (k : string -> option A) :
  forall (n : nat) (s : string),
    (String.length s <= n)%nat -> star_loop (RSet f) k n s = backtrack f s k.
Proof.
  induction n as [|n IH]; intros s Hn.
  - destruct s; [reflexivity | simpl in Hn; lia].
  - destruct s as [|c s']; [reflexivity|].
    cbn [star_loop rmatch backtrack]. destruct (f c); [|reflexivity].
    cbn [String.length]. rewrite (proj2 (Nat.ltb_lt _ _) (Nat.lt_succ_diag_r _)).
    rewrite IH by (simpl in Hn; lia). reflexivity.
Qed.

Lemma star_any (A : Type) (k : string -> option A) :
  forall (n : nat) (s : string),
    (String.length s <= n)%nat ->
    star_loop RAny k n s = backtrack (fun c => negb (Ascii.eqb c NL)) s k.
Proof.
  induction n as [|n IH]; intros s Hn.
  - destruct s; [reflexivity | simpl in Hn; lia].
  - destruct s as [|c s']; [reflexivity|].
    cbn [star_loop rmatch backtrack]. destruct (Ascii.eqb c NL); [reflexivity|].
    cbn [negb String.length]. rewrite (proj2 (Nat.ltb_lt _ _) (Nat.lt_succ_diag_r _)).
    rewrite IH by (simpl in Hn; lia). reflexivity.
Qed.

Lemma star_chr (A : Type) (c : ascii) (k : string -> option A) :
  forall (n : nat) (s : string),
    (String.length s <= n)%nat ->
    star_loop (RChr c) k n s = backtrack (Ascii.eqb c) s k.
Proof.
  induction n as [|n IH]; intros s Hn.
  - destruct s; [reflexivity | simpl in Hn; lia].
  - destruct s as [|d s']; [reflexivity|].
    cbn [star_loop rmatch backtrack]. destruct (Ascii.eqb c d); [|reflexivity].
    cbn [String.length]. rewrite (proj2 (Nat.ltb_lt _ _) (Nat.lt_succ_diag_r _)).
    rewrite IH by (simpl in Hn; lia). reflexivity.
Qed.

Lemma lazy_set (A : Type) (f : ascii -> bool) (k : string -> option A) :
  forall (n : nat) (s : string),
    (String.length s <= n)%nat -> lazy_loop (RSet f) k n s = shortest f s k.
Proof.
  induction n as [|n IH]; intros s Hn.
  - destruct s; [|simpl in Hn; lia]. cbn [lazy_loop shortest].
    destruct (k EmptyString); reflexivity.
  - destruct s as [|c s']; cbn [lazy_loop rmatch shortest].
    + destruct (k EmptyString); reflexivity.
    + destruct (k (String c s')); [reflexivity|].
      destruct (f c); [|reflexivity].
      cbn [String.length]. rewrite (proj2 (Nat.ltb_lt _ _) (Nat.lt_succ_diag_r _)).
      apply IH. simpl in Hn; lia.
Qed.

(** The stars of the source's expressions. *)
Lemma rmatch_star_set (A : Type) (f : ascii -> bool) (s : string) (k : string -> option A) :
  rmatch (RStar (RSet f)) s k = backtrack f s k.
Proof. rewrite rmatch_star. apply star_set. apply le_n. Qed.

Lemma rmatch_star_any (A : Type) (s : string) (k : string -> option A) :
  rmatch (RStar RAny) s k = backtrack (fun c => negb (Ascii.eqb c NL)) s k.
Proof. rewrite rmatch_star. apply star_any. apply le_n. Qed.

Lemma rmatch_star_chr (A : Type) (c : ascii) (s : string) (k : string -> option A) :
  rmatch (RStar (RChr c)) s k = backtrack (Ascii.eqb c) s k.
Proof. rewrite rmatch_star. apply star_chr. apply le_n. Qed.

Lemma rmatch_lazy_set (A : Type) (f : ascii -> bool) (s : string) (k : string -> option A) :
  rmatch (RStarLazy (RSet f)) s k = shortest f s k.
Proof. rewrite rmatch_lazy. apply lazy_set. apply le_n. Qed.

Lemma rmatch_plus_set (A : Type) (f : ascii -> bool) (s : string) (k : string -> option A) :
  rmatch (RPlus (RSet f)) s k
  = match s with
    | String c s' => if f c then backtrack f s' k else None
    | EmptyString => None
    end.
Proof.
  unfold RPlus. rewrite rmatch_seq. cbn [rmatch].
  destruct s as [|c s']; [reflexivity|]. destruct (f c); [|reflexivity].
  apply rmatch_star_set.
Qed.

Lemma rmatch_plus_chr (A : Type) (c : ascii) (s : string) (k : string -> option A) :
  rmatch (RPlus (RChr c)) s k
  = match s with
    | String d s' => if Ascii.eqb c d then backtrack (Ascii.eqb c) s' k else None
    | EmptyString => None
    end.
Proof.
  unfold RPlus. rewrite rmatch_seq. cbn [rmatch].
  destruct s as [|d s']; [reflexivity|]. destruct (Ascii.eqb c d); [|reflexivity].
  apply rmatch_star_chr.
Qed.

Lemma rmatch_opt (A : Type) (r : regex) (s : string) (k : string -> option A) :
  rmatch (ROpt r) s k = match rmatch r s k with Some x => Some x | None => k s end.
Proof. reflexivity. Qed.

(** The greedy run ends where the class ends, when [k] accepts there. *)
Lemma backtrack_longest (A : Type) (f : ascii -> bool) (k : string -> option A) :
  forall (s : string) (x : A),
    k (drop_while f s) = Some x -> backtrack f s k = Some x.
Proof.
  induction s as [|c s' IH]; intros x H; cbn [backtrack drop_while] in *; [exact H|].
  destruct (f c); [|exact H]. rewrite (IH x H). reflexivity.
Qed.

(** It fails when [k] refuses every text that starts inside the run or at
    its end. *)
Lemma backtrack_none (A : Type) (f : ascii -> bool) (k : string -> option A) :
  forall (s : string),
    (forall i : nat, (i <= String.length (take_while f s))%nat -> k (drop i s) = None) ->
    backtrack f s k = None.
Proof.
  induction s as [|c s' IH]; intros H; cbn [backtrack].
  - exact (H O (Nat.le_0_l _)).
  - destruct (f c) eqn:Ef.
    + rewrite IH.
      * exact (H O (Nat.le_0_l _)).
      * intros i Hi. apply (H (S i)). cbn [take_while]. rewrite Ef. simpl. lia.
    + exact (H O (Nat.le_0_l _)).
Qed.

Lemma drop_while_app (f : ascii -> bool) (a b : string) :
  all_chars f a = true ->
  match b with String c _ => f c = false | EmptyString => True end ->
  drop_while f (a ++ b) = b.
Proof.
  intros Ha Hb. induction a as [|c a IH].
  - change (drop_while f b = b). destruct b as [|d b]; [reflexivity|].
    cbn [drop_while]. rewrite Hb. reflexivity.
  - cbn [all_chars] in Ha. apply andb_true_iff in Ha. destruct Ha as [Hc Ha].
    change (drop_while f (String c (a ++ b)) = b). cbn [drop_while]. rewrite Hc.
    apply IH. exact Ha.
Qed.

(** The shortest run: the first place where [k] accepts. *)
Lemma shortest_here (A : Type) (f : ascii -> bool) (k : string -> option A) (s : string) (x : A) :
  k s = Some x -> shortest f s k = Some x.
Proof. intros H. destruct s; cbn [shortest]; rewrite H; reflexivity. Qed.

Lemma shortest_step (A : Type) (f : ascii -> bool) (k : string -> option A)
  (c : ascii) (s : string) :
  k (String c s) = None -> f c = true ->
  shortest f (String c s) k = shortest f s k.
Proof. intros H Hf. cbn [shortest]. rewrite H, Hf. reflexivity. Qed.

Lemma rmatch_eps (A : Type) (s : string) (k : string -> option A) :
  rmatch REps s k = k s.
Proof. reflexivity. Qed.

Lemma rmatch_chr_hit (A : Type) (c : ascii) (s : string) (k : string -> option A) :
  rmatch (RChr c) (String c s) k = k s.
Proof. cbn [rmatch]. rewrite Ascii.eqb_refl. reflexivity. Qed.

Lemma rmatch_chr_miss (A : Type) (c d : ascii) (s : string) (k : string -> option A) :
  Ascii.eqb c d = false -> rmatch (RChr c) (String d s) k = None.
Proof. intros H. cbn [rmatch]. rewrite H. reflexivity. Qed.

Lemma rmatch_set_hit (A : Type) (f : ascii -> bool) (c : ascii) (s : string)
  (k : string -> option A) :
  f c = true -> rmatch (RSet f) (String c s) k = k s.
Proof. intros H. cbn [rmatch]. rewrite H. reflexivity. Qed.

Lemma rmatch_set_miss (A : Type) (f : ascii -> bool) (c : ascii) (s : string)
  (k : string -> option A) :
  f c = false -> rmatch (RSet f) (String c s) k = None.
Proof. intros H. cbn [rmatch]. rewrite H. reflexivity. Qed.

Lemma string_app_assoc (a b c : string) : (a ++ b) ++ c = a ++ b ++ c.
Proof.
  induction a as [|x a IH]; [reflexivity|].
  change (String x ((a ++ b) ++ c) = String x (a ++ b ++ c)). rewrite IH. reflexivity.
Qed.

Lemma string_take_app (a b : string) : take (String.length a) (a ++ b) = a.
Proof.
  induction a as [|c a IH]; [reflexivity|].
  change (String c a ++ b) with (String c (a ++ b)). cbn [String.length take].
  rewrite IH. reflexivity.
Qed.

Lemma backtrack_guard (A : Type) (f g : ascii -> bool) (k : string -> option A) :
  (forall (x : ascii) (s' : string), g x = false -> k (String x s') = None) ->
  k EmptyString = None ->
  forall s : string, heads_ok f g s = true -> backtrack f s k = None.
Proof.
  intros Hk He. induction s as [|x s IH]; intros H; cbn [backtrack]; [exact He|].
  cbn [heads_ok] in H. apply andb_true_iff in H. destruct H as [Hg Hs].
  apply negb_true_iff in Hg. destruct (f x).
  - rewrite (IH Hs). apply Hk. exact Hg.
  - apply Hk. exact Hg.
Qed.

Lemma heads_ok_app (f g : ascii -> bool) (a b : string) :
  all_chars (fun x => f x && negb (g x)) a = true ->
  match b with String x _ => g x = false /\ f x = false | EmptyString => True end ->
  heads_ok f g (a ++ b) = true.
Proof.
  intros Ha Hb. induction a as [|x a IH].
  - change (heads_ok f g b = true). destruct b as [|y b]; [reflexivity|].
    destruct Hb as [Hg Hf]. cbn [heads_ok]. rewrite Hg, Hf. reflexivity.
  - cbn [all_chars] in Ha. apply andb_true_iff in Ha. destruct Ha as [Hx Ha].
    apply andb_true_iff in Hx. destruct Hx as [Hf Hg].
    change (heads_ok f g (String x (a ++ b)) = true). cbn [heads_ok].
    rewrite Hg, Hf. exact (IH Ha).
Qed.

Lemma all_chars_weaken (f g : ascii -> bool) (s : string) :
  (forall c, f c = true -> g c = true) -> all_chars f s = true -> all_chars g s = true.
Proof.
  intros H. induction s as [|c s IH]; [reflexivity|]. cbn [all_chars].
  intros Hs. apply andb_true_iff in Hs. destruct Hs as [Hc Hs].
  rewrite (H c Hc), (IH Hs). reflexivity.
Qed.

(** ** The macro table and [Macro.expand] *)

Lemma set_macro_id (e : C99PreProcessor) : set_macro (macro e) e = e.
Proof. destruct e; reflexivity. Qed.

Lemma set_macro_twice (m1 m2 : gmap string Macro) (e : C99PreProcessor) :
  set_macro m2 (set_macro m1 e) = set_macro m2 e.
Proof. destruct e; reflexivity. Qed.

Lemma macro_set_macro (m : gmap string Macro) (e : C99PreProcessor) :
  macro (set_macro m e) = m.
Proof. destruct e; reflexivity. Qed.

Lemma undef_macro_run (n : string) (e : C99PreProcessor) :
  undef_macro n e = Ok (macro e !! n, set_macro (delete n (macro e)) e).
Proof. reflexivity. Qed.

(** X1: defining a macro and undefining it again is a round trip: when the
    name was no key of the table, [undef_macro] after [define_macro] returns
    the macro that was defined and leaves the engine as it was before
    both. *)
Theorem define_undef_round_trip :
  forall (n : string) (r a : value) (v : bool) (e : C99PreProcessor),
    macro e !! n = None ->
    mbind (define_macro n r a v) (fun _ => undef_macro n) e
    = Ok (Some (Macro_init n r a v VNone), e).
Proof.
  intros n r a v e H. unfold mbind. rewrite define_macro_run, undef_macro_run.
  rewrite macro_set_macro, lookup_insert_eq, set_macro_twice.
  rewrite delete_insert_id by exact H. rewrite set_macro_id. reflexivity.
Qed.

Lemma define_undef_round_trip_witness :
  mbind (define_macro "X" (VStr "1") VNone false) (fun _ => undef_macro "X")
        (engine_on EmptyString)
  = Ok (Some (Macro_init "X" (VStr "1") VNone false VNone), engine_on EmptyString).
Proof. apply define_undef_round_trip. reflexivity. Defined.

(** X2: [undef_macro] is [dict.pop] with a default: it never raises, it
    returns the macro the name had (nothing, when the name was no key), the
    name is no key afterwards, every other name keeps its macro, and on a
    name that was no key the engine is left as it was. *)
Theorem undef_macro_removes_one_name :
  forall (n : string) (e : C99PreProcessor),
    exists e',
      undef_macro n e = Ok (macro e !! n, e')
      /\ macro e' !! n = None
      /\ (forall n', n' <> n -> macro e' !! n' = macro e !! n')
      /\ (macro e !! n = None -> e' = e).
Proof.
  intros n e. exists (set_macro (delete n (macro e)) e).
  split; [reflexivity|]. rewrite macro_set_macro.
  split; [apply lookup_delete_eq|]. split.
  - intros n' Hn. apply lookup_delete_ne. congruence.
  - intros H. rewrite delete_id by exact H. apply set_macro_id.
Qed.

Lemma expand_macro_flag (clk : string -> string) (m : Macro) (args v : value) (m' : Macro) :
  expand clk m args = Ok (v, m') -> m' = set_expanded true m.
Proof.
  unfold expand.
  match goal with |- bind ?c _ = _ -> _ => destruct c end; cbn [bind].
  - intros H. inversion H. reflexivity.
  - discriminate.
Qed.

Lemma set_expanded_false_true (m : Macro) :
  has_been_expanded m = false -> set_expanded false (set_expanded true m) = m.
Proof. destruct m; cbn. intros ->. reflexivity. Qed.

Lemma all_str_exn (l : list value) (x : exn) : all_str l = Raise x -> x = TypeError.
Proof.
  induction l as [|v l IH]; cbn [all_str]; [discriminate|].
  destruct v; try (intros H; inversion H; reflexivity).
  destruct (all_str l); cbn [bind]; [discriminate|].
  intros H. inversion H; subst. apply IH. reflexivity.
Qed.

Lemma py_len_exn (v : value) (x : exn) : py_len v = Raise x -> expand_exn x.
Proof. destruct v; cbn; intros H; inversion H; exact I. Qed.

Lemma py_iter_exn (v : value) (x : exn) : py_iter v = Raise x -> expand_exn x.
Proof. destruct v; cbn; intros H; inversion H; exact I. Qed.

Lemma py_str_exn (v : value) (x : exn) : py_str v = Raise x -> expand_exn x.
Proof. destruct v as [| [|] | | | | | |]; cbn; intros H; inversion H; exact I. Qed.

Lemma py_method_replace_exn (r l a : value) (x : exn) :
  py_method_replace r l a = Raise x -> expand_exn x.
Proof.
  destruct r; cbn; try (intros H; inversion H; exact I).
  destruct l; try (intros H; inversion H; exact I).
  destruct a; intros H; inversion H; exact I.
Qed.

Lemma substitute_exn (labels : list value) :
  forall (args : list value) (r : value) (x : exn),
    substitute labels args r = Raise x -> expand_exn x.
Proof.
  induction labels as [|l labels IH]; intros args r x; cbn [substitute]; [discriminate|].
  destruct args as [|a args]; [discriminate|].
  destruct (py_method_replace r l a) eqn:Hr; cbn [bind].
  - apply IH.
  - intros H. inversion H; subst. exact (py_method_replace_exn _ _ _ _ Hr).
Qed.

Lemma call_builtin_exn (clk : string -> string) (f : value) (args : list value) (x : exn) :
  call_builtin clk f args = Raise x -> expand_exn x.
Proof.
  unfold call_builtin. destruct f; try (intros H; inversion H; exact I).
  destruct f.
  - destruct args as [|a [|b args]]; try destruct a; intros H; inversion H; exact I.
  - intros H; inversion H; exact I.
Qed.

Lemma expand_raises (clk : string -> string) (m : Macro) (args : value) (x : exn) :
  expand clk m args = Raise x -> expand_exn x.
Proof.
  unfold expand.
  match goal with |- bind ?c _ = _ -> _ => destruct c eqn:Hc end; cbn [bind];
    [discriminate|].
  intros H. inversion H; subst e. clear H.
  destruct (truthy args).
  - destruct (variadic m).
    + cbn [bind] in Hc. destruct (truthy (callback m)); [inversion Hc; exact I|].
      destruct (py_iter (arg_list m)) eqn:H1; cbn [bind] in Hc;
        [|inversion Hc; subst; exact (py_iter_exn _ _ H1)].
      destruct (py_iter args) eqn:H2; cbn [bind] in Hc;
        [|inversion Hc; subst; exact (py_iter_exn _ _ H2)].
      exact (substitute_exn _ _ _ _ Hc).
    + destruct (py_len args) eqn:H1; cbn [bind] in Hc;
        [|inversion Hc; subst; exact (py_len_exn _ _ H1)].
      destruct (py_len (arg_list m)) eqn:H2; cbn [bind] in Hc;
        [|inversion Hc; subst; exact (py_len_exn _ _ H2)].
      destruct (negb (a =? a0)); cbn [bind] in Hc; [inversion Hc; exact I|].
      destruct (truthy (callback m)); [inversion Hc; exact I|].
      destruct (py_iter (arg_list m)) eqn:H3; cbn [bind] in Hc;
        [|inversion Hc; subst; exact (py_iter_exn _ _ H3)].
      destruct (py_iter args) eqn:H4; cbn [bind] in Hc;
        [|inversion Hc; subst; exact (py_iter_exn _ _ H4)].
      exact (substitute_exn _ _ _ _ Hc).
  - destruct (truthy (callback m)).
    + destruct (py_iter (arg_list m)) eqn:H1; cbn [bind] in Hc;
        [|inversion Hc; subst; exact (py_iter_exn _ _ H1)].
      destruct (call_builtin clk (callback m) a) eqn:H2; cbn [bind] in Hc;
        [|inversion Hc; subst; exact (call_builtin_exn _ _ _ _ H2)].
      destruct a0; try discriminate;
        match type of Hc with
        | bind (py_str ?v) _ = _ =>
            destruct (py_str v) eqn:H3; cbn [bind] in Hc;
            [discriminate | inversion Hc; subst; exact (py_str_exn _ _ H3)]
        end.
    + destruct (truthy (arg_list m) && negb false); [inversion Hc; exact I | discriminate].
Qed.

(** X3: the flag [has_been_expanded] is never left set.  No macro of a new
    engine has it, [define_macro] and [undef_macro] keep that, and under it
    a call of [expand_macro] that returns leaves the engine exactly as it
    found it; so the branch of [expand_macro] that skips [expand] (and
    would fail on the unassigned [replacement]) is never taken. *)
Theorem expansion_flag_is_always_reset :
  (forall (stdlib_path : list string) (keep_comment : bool)
          (fs : gmap string string) (clk : string -> string),
      unexpanded (C99PreProcessor_init stdlib_path keep_comment fs clk))
  /\ (forall (n : string) (r a : value) (v : bool) (e e' : C99PreProcessor) (m : Macro),
         unexpanded e -> define_macro n r a v e = Ok (m, e') -> unexpanded e')
  /\ (forall (n : string) (e e' : C99PreProcessor) (o : option Macro),
         unexpanded e -> undef_macro n e = Ok (o, e') -> unexpanded e')
  /\ (forall (n : string) (args v : value) (e e' : C99PreProcessor),
         unexpanded e -> expand_macro n args e = Ok (v, e') -> e' = e)
  /\ (forall (n : string) (args : value) (e : C99PreProcessor),
         unexpanded e -> expand_macro n args e <> Raise UnboundLocalError).
Proof.
  split; [|split; [|split; [|split]]].
  - intros stdlib_path keep_comment fs clk n m.
    unfold C99PreProcessor_init. cbn.
    intros H.
    destruct (decide (n = "__TIME__")) as [->|N1];
      [rewrite lookup_insert_eq in H; inversion H; reflexivity|].
    rewrite lookup_insert_ne in H by congruence.
    destruct (decide (n = "__LINE__")) as [->|N2];
      [rewrite lookup_insert_eq in H; inversion H; reflexivity|].
    rewrite lookup_insert_ne in H by congruence.
    destruct (decide (n = "__FILE__")) as [->|N3];
      [rewrite lookup_insert_eq in H; inversion H; reflexivity|].
    rewrite lookup_insert_ne in H by congruence.
    destruct (decide (n = "__DATE__")) as [->|N4];
      [rewrite lookup_insert_eq in H; inversion H; reflexivity|].
    rewrite lookup_insert_ne in H by congruence.
    rewrite lookup_empty in H. discriminate.
  - intros n r a v e e' m Hu H. rewrite define_macro_run in H. inversion H; subst.
    intros n' m'. rewrite macro_set_macro.
    destruct (decide (n' = n)) as [->|N].
    + rewrite lookup_insert_eq. intros H1. inversion H1. reflexivity.
    + rewrite lookup_insert_ne by congruence. apply Hu.
  - intros n e e' o Hu H. rewrite undef_macro_run in H. inversion H; subst.
    intros n' m'. rewrite macro_set_macro.
    destruct (decide (n' = n)) as [->|N].
    + rewrite lookup_delete_eq. discriminate.
    + rewrite lookup_delete_ne by congruence. apply Hu.
  - intros n args v e e' Hu. unfold expand_macro, mbind, get.
    destruct (macro e !! n) as [m|] eqn:Hm; [|discriminate].
    rewrite (Hu _ _ Hm). cbn [negb]. unfold lift.
    destruct (expand (clock e) m args) as [[r m']|] eqn:He; [|discriminate].
    unfold modify, ret. cbn [snd fst]. intros H. inversion H; subst.
    rewrite (expand_macro_flag _ _ _ _ _ He).
    rewrite set_expanded_false_true by exact (Hu _ _ Hm).
    rewrite insert_id by exact Hm. apply set_macro_id.
  - intros n args e Hu. unfold expand_macro, mbind, get.
    destruct (macro e !! n) as [m|] eqn:Hm; [|discriminate].
    rewrite (Hu _ _ Hm). cbn [negb]. unfold lift.
    destruct (expand (clock e) m args) as [[r m']|] eqn:He.
    + discriminate.
    + intros H. inversion H; subst. apply expand_raises in He. exact He.
Qed.

Lemma split_on_nonempty (s : string) :
  forall (sep : ascii) (cur : string), split_on sep cur s <> [].
Proof.
  induction s as [|c s IH]; intros sep cur; cbn [split_on]; [discriminate|].
  destruct (Ascii.eqb c sep); [discriminate | apply IH].
Qed.

Lemma expand_needs_args (clk : string -> string) (n : string) (r : value)
  (labels : list value) (v : bool) :
  labels <> [] ->
  expand clk (Macro_init n r (VList labels) v VNone) VNone
  = Raise (Exception (VStr needs_args_message)).
Proof.
  intros H. destruct labels as [|l labels]; [congruence|]. reflexivity.
Qed.

Lemma use_of_function_like (n : string) (r : value) (labels : list value) (v : bool)
  (e : C99PreProcessor) :
  labels <> [] ->
  macro e !! n = Some (Macro_init n r (VList labels) v VNone) ->
  p_token [VStr n] e = Raise (Exception (VStr needs_args_message))
  /\ p_primary_expression [VStr n] e = Raise (Exception (VStr needs_args_message)).
Proof.
  intros Hl Hm.
  assert (He : expand_macro n VNone e = Raise (Exception (VStr needs_args_message))).
  { unfold expand_macro, mbind, get. rewrite Hm. cbn [has_been_expanded Macro_init negb].
    unfold lift. rewrite (expand_needs_args _ _ _ _ _ Hl). reflexivity. }
  split.
  - unfold p_token, mbind, item, ret. cbn [nth_error Nat.pred].
    rewrite (in_macro_defined n _ e Hm). unfold as_string, ret. exact He.
  - unfold p_primary_expression, mbind, item, ret. cbn [nth_error Nat.pred].
    rewrite (in_macro_defined n _ e Hm). unfold as_string, ret. exact He.
Qed.

Lemma reduce_at_lparen (ok : option toktype -> bool) (m m' : M value) (s : pst) :
  ok (Some LPAREN) = false -> at_lparen s -> reduce_on ok m s = reduce_on ok m' s.
Proof.
  intros Hok [t [Hl Ht]]. unfold reduce_on, pbind, peek. rewrite Hl, Ht, Hok. reflexivity.
Qed.

(** X4: a macro defined with named parameters cannot be used.  The
    parameter list stored by [#define NAME(a,b) ...] (also with [, ...]) is
    never empty, and the actions expand every identifier without arguments,
    in text lines and in [#if] expressions alike: wherever the parser
    reduces the name, it raises
    [Exception("Function like macro needs argument list.")], also before
    arguments written after a space.  Written without a space, [NAME(] is
    an [IDENTIFIER] and an [LPAREN], and before an [LPAREN] no token and no
    primary expression is reduced: the action does not run. *)
Theorem function_like_macro_cannot_be_used :
  forall (n params : string) (r : value) (e : C99PreProcessor),
    nested_if (_lexer e) = 0 ->
    (exists e1,
        p_define_directive_3
          [VStr "#define"; VStr n; VStr "("; VStr params; VStr ")"; r] e
        = Ok (VStr nl, e1)
        /\ p_token [VStr n] e1 = Raise (Exception (VStr needs_args_message))
        /\ p_primary_expression [VStr n] e1
           = Raise (Exception (VStr needs_args_message)))
    /\ (exists e1,
           p_define_directive_5
             [VStr "#define"; VStr n; VStr "("; VStr params; VStr ",";
              VStr "..."; VStr ")"; r] e
           = Ok (VStr nl, e1)
           /\ p_token [VStr n] e1 = Raise (Exception (VStr needs_args_message))
           /\ p_primary_expression [VStr n] e1
              = Raise (Exception (VStr needs_args_message)))
    /\ (forall d : nat,
           output (run_process (S d) "main.c"
                     (engine_on ("#define F(a,b) a + b" ++ nl ++ "F (1,2)" ++ nl)))
           = Raise (Exception (VStr needs_args_message)))
    /\ (forall d : nat,
           output (run_process (S d) "main.c"
                     (engine_on ("#define F(a,...) a" ++ nl ++ "#if F" ++ nl
                                 ++ "x" ++ nl ++ "#endif" ++ nl)))
           = Raise (Exception (VStr needs_args_message)))
    /\ tokenize "F(1,2)" lexer_init
       = Ok ([ {| ttype := IDENTIFIER; tvalue := VStr "F" |};
               {| ttype := LPAREN; tvalue := VStr "(" |};
               {| ttype := CONSTANT; tvalue := VInt 1 |};
               {| ttype := LIT ","; tvalue := VStr "," |};
               {| ttype := CONSTANT; tvalue := VInt 2 |};
               {| ttype := LIT ")"; tvalue := VStr ")" |} ], lexer_init)
    /\ (forall (m m' : M value) (s : pst),
           at_lparen s ->
           reduce_on follows_token m s = reduce_on follows_token m' s
           /\ reduce_on follows_primary_expression m s
              = reduce_on follows_primary_expression m' s).
Proof.
  intros n params r e Hz.
  pose proof (split_on_nonempty params "," EmptyString) as Hs.
  assert (Hl : map VStr (split_on "," EmptyString params) <> []).
  { destruct (split_on "," EmptyString params); [congruence | discriminate]. }
  split; [|split; [|split; [|split; [|split]]]].
  - eexists. split.
    + unfold p_define_directive_3, nested_if_zero, mbind, get, ret, item.
      rewrite Hz. cbn [Z.eqb nth_error Nat.pred].
      reflexivity.
    + apply (use_of_function_like n r _ false _ Hl).
      rewrite macro_set_macro. apply lookup_insert_eq.
  - eexists. split.
    + unfold p_define_directive_5, nested_if_zero, mbind, get, ret, item.
      rewrite Hz. cbn [Z.eqb nth_error Nat.pred].
      reflexivity.
    + apply (use_of_function_like n r _ true _ Hl).
      rewrite macro_set_macro. apply lookup_insert_eq.
  - intros d. vm_compute. reflexivity.
  - intros d. vm_compute. reflexivity.
  - vm_compute. reflexivity.
  - intros m m' s H. split; apply reduce_at_lparen; try exact H; reflexivity.
Qed.

Lemma function_like_macro_cannot_be_used_witness :
  exists e1,
    p_define_directive_3
      [VStr "#define"; VStr "F"; VStr "("; VStr "a,b"; VStr ")"; VStr "a + b"]
      (engine_on EmptyString)
    = Ok (VStr nl, e1)
    /\ p_token [VStr "F"] e1 = Raise (Exception (VStr needs_args_message))
    /\ p_primary_expression [VStr "F"] e1
       = Raise (Exception (VStr needs_args_message)).
Proof.
  exact (proj1 (function_like_macro_cannot_be_used "F" "a,b" (VStr "a + b")
                  (engine_on EmptyString) eq_refl)).
Defined.

Lemma substitute_truncates (labels : list value) :
  forall (args extra : list value) (r : value),
    List.length args = List.length labels ->
    substitute labels (args ++ extra) r = substitute labels args r.
Proof.
  induction labels as [|l labels IH]; intros args extra r H.
  - destruct args; [|discriminate]. destruct extra; reflexivity.
  - destruct args as [|a args]; [discriminate|]. cbn [app substitute].
    destruct (py_method_replace r l a); cbn [bind]; [|reflexivity].
    apply IH. cbn in H. lia.
Qed.

Lemma substitute_short (args : list value) :
  forall (labels rest : list value) (r : value),
    List.length labels = List.length args ->
    substitute (labels ++ rest) args r = substitute labels args r.
Proof.
  induction args as [|a args IH]; intros labels rest r H.
  - destruct labels; [|discriminate]. destruct rest; reflexivity.
  - destruct labels as [|l labels]; [discriminate|]. cbn [app substitute].
    destruct (py_method_replace r l a); cbn [bind]; [|reflexivity].
    apply IH. cbn in H. lia.
Qed.

(** X5: [Macro.expand] pairs parameters and arguments with [zip]: for a
    variadic macro the arguments beyond the parameters are dropped, and the
    parameters beyond the arguments are left in the replacement as they
    are. *)
Theorem variadic_arguments_are_paired_by_zip :
  forall (clk : string -> string) (n : string) (r : value)
         (labels args more : list value),
    args <> [] ->
    List.length args = List.length labels ->
    expand clk (Macro_init n r (VList labels) true VNone) (VList (args ++ more))
    = expand clk (Macro_init n r (VList labels) true VNone) (VList args)
    /\ expand clk (Macro_init n r (VList (labels ++ more)) true VNone) (VList args)
       = match expand clk (Macro_init n r (VList labels) true VNone) (VList args) with
         | Ok (v, _) =>
             Ok (v, set_expanded true (Macro_init n r (VList (labels ++ more)) true VNone))
         | Raise x => Raise x
         end.
Proof.
  intros clk n r labels args more Hne Hlen.
  destruct args as [|a args]; [congruence|].
  split.
  - unfold expand. cbn [truthy variadic callback arg_list replacement Macro_init
                        List.length app Nat.eqb negb bind py_iter].
    pose proof (substitute_truncates labels (a :: args) more r Hlen) as Hs.
    cbn [app] in Hs. rewrite Hs. reflexivity.
  - unfold expand. cbn [truthy variadic callback arg_list replacement Macro_init
                        List.length app Nat.eqb negb bind py_iter].
    rewrite (substitute_short (a :: args) labels more r (eq_sym Hlen)).
    destruct (substitute labels (a :: args) r); reflexivity.
Qed.

(** X6: called with a non-empty argument list, a macro that is not variadic
    checks the number of arguments before anything else and raises the
    exception of the arity when it differs from the number of parameters;
    an object-like macro (parameter list [None]) raises [TypeError], from
    [len(None)]. *)
Theorem expand_checks_the_number_of_arguments :
  forall (clk : string -> string) (n : string) (r cb : value)
         (labels args : list value),
    args <> [] ->
    List.length args <> List.length labels ->
    expand clk (Macro_init n r (VList labels) false cb) (VList args)
    = Raise (Exception (VStr arity_message))
    /\ expand clk (Macro_init n r VNone false cb) (VList args) = Raise TypeError.
Proof.
  intros clk n r cb labels args Hne Hlen.
  destruct args as [|a args]; [congruence|].
  split; [|reflexivity].
  unfold expand. cbn [truthy variadic arg_list Macro_init List.length Nat.eqb negb py_len bind].
  destruct (Z.eqb_spec (Z.of_nat (S (List.length args))) (Z.of_nat (List.length labels)))
    as [E|E].
  - apply Nat2Z.inj in E. cbn in Hlen. congruence.
  - reflexivity.
Qed.

Lemma undef_macro_removes_one_name_witness :
  exists e',
    undef_macro "X" (engine_on EmptyString) = Ok (macro (engine_on EmptyString) !! "X", e')
    /\ macro e' !! "X" = None
    /\ (forall n', n' <> "X" -> macro e' !! n' = macro (engine_on EmptyString) !! n')
    /\ (macro (engine_on EmptyString) !! "X" = None -> e' = engine_on EmptyString).
Proof. exact (undef_macro_removes_one_name "X" (engine_on EmptyString)). Defined.

Lemma expansion_flag_is_always_reset_witness :
  expand_macro "__FILE__" VNone (engine_on EmptyString)
  = Ok (VStr EmptyString, engine_on EmptyString)
  /\ unexpanded (engine_on EmptyString).
Proof.
  pose proof (proj1 expansion_flag_is_always_reset [] true
                {[ "main.c" := EmptyString ]} no_clock) as Hu.
  split; [|exact Hu].
  assert (H : exists e', expand_macro "__FILE__" VNone (engine_on EmptyString)
                         = Ok (VStr EmptyString, e')).
  { eexists. reflexivity. }
  destruct H as [e' He'].
  rewrite He'. f_equal. f_equal.
  exact (proj1 (proj2 (proj2 (proj2 expansion_flag_is_always_reset)))
           "__FILE__" VNone (VStr EmptyString) _ e' Hu He').
Defined.

Lemma variadic_arguments_are_paired_by_zip_witness :
  expand no_clock (Macro_init "F" (VStr "a + b") (VList [VStr "a"; VStr "b"]) true VNone)
         (VList ([VStr "1"; VStr "2"] ++ [VStr "3"]))
  = expand no_clock (Macro_init "F" (VStr "a + b") (VList [VStr "a"; VStr "b"]) true VNone)
           (VList [VStr "1"; VStr "2"]).
Proof.
  apply (variadic_arguments_are_paired_by_zip no_clock "F" (VStr "a + b")
           [VStr "a"; VStr "b"] [VStr "1"; VStr "2"] [VStr "3"]);
    [discriminate | reflexivity].
Defined.

Lemma expand_checks_the_number_of_arguments_witness :
  expand no_clock (Macro_init "F" (VStr "a + b") (VList [VStr "a"; VStr "b"]) false VNone)
         (VList [VStr "1"])
  = Raise (Exception (VStr arity_message)).
Proof.
  apply (expand_checks_the_number_of_arguments no_clock "F" (VStr "a + b") VNone
           [VStr "a"; VStr "b"] [VStr "1"]); [discriminate | discriminate].
Defined.

(** ** The actions of the expression evaluator *)

(** X7: [a || b] is computed as [p[1] or p[2]], and [p[2]] is the text of
    the operator: the value is the left operand when that is true and the
    string ['||'] otherwise, so it is always true and the right operand is
    never read; [#if 0 || 0] takes the first branch.  [a && b] is [p[1] and
    p[3]] and is true exactly when both operands are. *)
Theorem logical_or_never_reads_its_right_operand :
  (forall (a b : value) (e : C99PreProcessor),
      p_logical_or_expression [a; VStr "||"; b] e
      = Ok (if truthy a then a else VStr "||", e))
  /\ (forall (a b v : value) (e e' : C99PreProcessor),
         p_logical_or_expression [a; VStr "||"; b] e = Ok (v, e') -> truthy v = true)
  /\ (forall (a b : value) (e : C99PreProcessor),
         exists v,
           p_logical_and_expression [a; VStr "&&"; b] e = Ok (v, e)
           /\ truthy v = truthy a && truthy b)
  /\ (forall d : nat,
         output (run_process (S (S d)) "main.c" (engine_on (if_else "0 || 0")))
         = Ok (VStr ("YES " ++ nl)))
  /\ (forall d : nat,
         output (run_process (S (S d)) "main.c" (engine_on (if_else "1 && 0")))
         = Ok (VStr ("NO " ++ nl))).
Proof.
  split; [|split; [|split; [|split]]].
  - intros a b e. reflexivity.
  - intros a b v e e' H. cbv [p_logical_or_expression len List.length Nat.eqb mbind item
                              nth_error Nat.pred ret] in H.
    inversion H; subst. destruct (truthy a) eqn:Ha; [exact Ha | reflexivity].
  - intros a b e. exists (if truthy a then b else a). split; [reflexivity|].
    destruct (truthy a) eqn:Ha; [reflexivity | exact Ha].
  - intros d. vm_compute. reflexivity.
  - intros d. vm_compute. reflexivity.
Qed.

Lemma logical_or_never_reads_its_right_operand_witness :
  truthy (VStr "||") = true.
Proof.
  exact (proj1 (proj2 logical_or_never_reads_its_right_operand)
           (VInt 0) (VInt 0) (VStr "||") (engine_on EmptyString) (engine_on EmptyString)
           eq_refl).
Defined.

(** X8: a unary operator is not applied: the action returns the pair of the
    operator's text and the operand, which is a true value whatever the
    operand is, and which arithmetic and comparison with a number refuse
    with [TypeError].  [#if !1] takes the first branch and [#if -1 + 2]
    raises. *)
Theorem unary_operator_is_paired_not_applied :
  (forall (op v : value) (e : C99PreProcessor),
      p_unary_expression [op; v] e = Ok (VTuple op v, e)
      /\ truthy (VTuple op v) = true)
  /\ (forall (op v w : value),
         as_num w <> None ->
         py_add (VTuple op v) w = Raise TypeError
         /\ py_sub (VTuple op v) w = Raise TypeError
         /\ py_truediv (VTuple op v) w = Raise TypeError
         /\ py_mod (VTuple op v) w = Raise TypeError
         /\ py_order is_lt (VTuple op v) w = Raise TypeError)
  /\ (forall d : nat,
         output (run_process (S (S d)) "main.c" (engine_on (if_else "!1")))
         = Ok (VStr ("YES " ++ nl)))
  /\ (forall d : nat,
         output (run_process (S (S d)) "main.c" (engine_on (if_else "-1 + 2")))
         = Raise TypeError).
Proof.
  split; [|split; [|split]].
  - intros op v e. split; reflexivity.
  - intros op v w Hw.
    destruct w as [| [|] | | | | | |]; cbn in Hw; try congruence; repeat split.
  - intros d. vm_compute. reflexivity.
  - intros d. vm_compute. reflexivity.
Qed.

Lemma unary_operator_is_paired_not_applied_witness :
  py_add (VTuple (VStr "-") (VInt 1)) (VInt 2) = Raise TypeError.
Proof.
  assert (H : as_num (VInt 2) <> None) by discriminate.
  exact (proj1 (proj1 (proj2 unary_operator_is_paired_not_applied)
                  (VStr "-") (VInt 1) (VInt 2) H)).
Defined.

(** ** The actions of the directives *)

(** X9: inside a conditional group ([nested_if] not 0) the action of
    [#error] writes the directive back for the rescan, but without its
    message (the test [len(p) == 2] is the wrong way round), and raises
    [IndexError] when there is no message.  At the rescan the directive has
    no message left: [#error boom] inside [#if 1] raises [Exception()]
    where the same line outside raises [Exception('boom')]. *)
Theorem error_directive_inside_conditional_loses_its_message :
  (forall (d : string) (msg : value) (e : C99PreProcessor),
      nested_if (_lexer e) <> 0 ->
      p_error_directive [VStr d; msg] e = Ok (VStr (d ++ " "), e)
      /\ p_error_directive [VStr d] e = Raise IndexError)
  /\ (forall (d : string) (msg : value) (e : C99PreProcessor),
         nested_if (_lexer e) = 0 ->
         p_error_directive [VStr d; msg] e = Raise (Exception msg)
         /\ p_error_directive [VStr d] e = Raise (Exception VNone))
  /\ (forall d : nat,
         output (run_process (S (S d)) "main.c"
                   (engine_on ("#if 1" ++ nl ++ "#error boom" ++ nl ++ "#endif" ++ nl)))
         = Raise (Exception VNone))
  /\ (forall d : nat,
         output (run_process (S d) "main.c" (engine_on ("#error boom" ++ nl)))
         = Raise (Exception (VStr "boom"))).
Proof.
  split; [|split; [|split]].
  - intros d msg e Hz.
    assert (Hb : (nested_if (_lexer e) =? 0) = false) by (apply Z.eqb_neq; exact Hz).
    split.
    + unfold p_error_directive, nested_if_zero, mbind, get, ret. rewrite Hb.
      cbn. rewrite string_app_empty_r. reflexivity.
    + unfold p_error_directive, nested_if_zero, mbind, get, ret. rewrite Hb.
      reflexivity.
  - intros d msg e Hz.
    split; unfold p_error_directive, nested_if_zero, mbind, get, ret; rewrite Hz;
      reflexivity.
  - intros d. vm_compute. reflexivity.
  - intros d. vm_compute. reflexivity.
Qed.

Lemma error_directive_inside_conditional_loses_its_message_witness :
  p_error_directive [VStr "#error"; VStr "boom"]
    (set_lexer {| lineno := 2; nested_if := 1 |} (engine_on EmptyString))
  = Ok (VStr "#error ", set_lexer {| lineno := 2; nested_if := 1 |} (engine_on EmptyString)).
Proof.
  assert (H : nested_if (_lexer (set_lexer {| lineno := 2; nested_if := 1 |}
                                   (engine_on EmptyString))) <> 0) by discriminate.
  exact (proj1 (proj1 error_directive_inside_conditional_loses_its_message
                  "#error" (VStr "boom") _ H)).
Defined.

(** X10: a [#define] without a replacement list has [None] as its
    replacement.  Inside a conditional group the action writes the
    directive back with an f-string, which spells that [None] out: after
    the rescan the macro is defined as the text [None].  A header guard
    [#ifndef H / #define H / #endif] leaves [H] expanding to [None]. *)
Theorem empty_define_inside_conditional_becomes_None :
  (forall (d n : string) (e : C99PreProcessor),
      nested_if (_lexer e) <> 0 ->
      p_define_directive [VStr d; VStr n; VNone] e
      = Ok (VStr (d ++ " " ++ n ++ " None"), e))
  /\ (forall (e : C99PreProcessor), p_replacement_list [] e = Ok (VNone, e))
  /\ (forall d : nat,
         output (run_process (S (S d)) "main.c"
                   (engine_on ("#ifndef H" ++ nl ++ "#define H" ++ nl ++ "#endif" ++ nl
                               ++ "H" ++ nl)))
         = Ok (VStr (nl ++ nl ++ "None " ++ nl))).
Proof.
  split; [|split].
  - intros d n e Hz.
    assert (Hb : (nested_if (_lexer e) =? 0) = false) by (apply Z.eqb_neq; exact Hz).
    unfold p_define_directive, nested_if_zero, mbind, get, ret. rewrite Hb.
    cbn. reflexivity.
  - intros e. reflexivity.
  - intros d. vm_compute. reflexivity.
Qed.

Lemma empty_define_inside_conditional_becomes_None_witness :
  p_define_directive [VStr "#define"; VStr "H"; VNone]
    (set_lexer {| lineno := 2; nested_if := 1 |} (engine_on EmptyString))
  = Ok (VStr "#define H None",
        set_lexer {| lineno := 2; nested_if := 1 |} (engine_on EmptyString)).
Proof.
  assert (H : nested_if (_lexer (set_lexer {| lineno := 2; nested_if := 1 |}
                                   (engine_on EmptyString))) <> 0) by discriminate.
  exact (proj1 empty_define_inside_conditional_becomes_None "#define" "H" _ H).
Defined.

Lemma in_macro_str (n : string) (e : C99PreProcessor) :
  in_macro (VStr n) e = Ok (bool_decide (is_Some (macro e !! n)), e).
Proof. reflexivity. Qed.

(** X11: [#ifdef] and [#ifndef] test whether the name is a key of the macro
    table and are complementary; the group is kept only when the test
    holds, and the engine is left as it was.  After the action of [#undef]
    the name is no key: [#ifdef] is false, [#ifndef] is true, and the
    identifier stands for itself in a text line. *)
Theorem ifdef_and_ifndef_read_the_macro_table :
  (forall (n : string) (a b g : value) (e : C99PreProcessor),
      let d := bool_decide (is_Some (macro e !! n)) in
      p_if_group2 [a; VStr n; b; g] e
      = Ok (VTuple (VBool d) (if d then g else VStr EmptyString), e)
      /\ p_if_group3 [a; VStr n; b; g] e
         = Ok (VTuple (VBool (negb d)) (if d then VStr EmptyString else g), e)
      /\ p_if_group2 [a; VStr n; b] e = Ok (VTuple (VBool d) (VStr EmptyString), e)
      /\ p_if_group3 [a; VStr n; b] e
         = Ok (VTuple (VBool (negb d)) (VStr EmptyString), e))
  /\ (forall (n : string) (a b c g : value) (e : C99PreProcessor),
         nested_if (_lexer e) = 0 ->
         exists e1,
           p_undef_directive [a; VStr n] e = Ok (VStr nl, e1)
           /\ p_if_group2 [b; VStr n; c; g] e1
              = Ok (VTuple (VBool false) (VStr EmptyString), e1)
           /\ p_if_group3 [b; VStr n; c; g] e1 = Ok (VTuple (VBool true) g, e1)
           /\ p_token [VStr n] e1 = Ok (VStr n, e1)).
Proof.
  split.
  - intros n a b g e d. subst d.
    unfold p_if_group2, p_if_group3, mbind, item, ret.
    cbn [nth_error Nat.pred len List.length Nat.eqb].
    rewrite in_macro_str.
    destruct (bool_decide (is_Some (macro e !! n))); repeat split; reflexivity.
  - intros n a b c g e Hz.
    exists (set_macro (delete n (macro e)) e).
    assert (Hl : macro (set_macro (delete n (macro e)) e) !! n = None).
    { destruct e; cbn. apply lookup_delete_eq. }
    split; [|split; [|split]].
    + unfold p_undef_directive, nested_if_zero, mbind, get, ret, item. rewrite Hz.
      reflexivity.
    + unfold p_if_group2, mbind, item, ret. cbn [nth_error Nat.pred].
      rewrite (in_macro_undefined _ _ Hl). reflexivity.
    + unfold p_if_group3, mbind, item, ret. cbn [nth_error Nat.pred].
      rewrite (in_macro_undefined _ _ Hl). reflexivity.
    + unfold p_token, mbind, item, ret. cbn [nth_error Nat.pred].
      rewrite (in_macro_undefined _ _ Hl). reflexivity.
Qed.

Lemma ifdef_and_ifndef_read_the_macro_table_witness :
  exists e1,
    p_undef_directive [VStr "#undef"; VStr "__FILE__"] (engine_on EmptyString)
    = Ok (VStr nl, e1)
    /\ p_if_group2 [VStr "#ifdef"; VStr "__FILE__"; VStr nl; VStr "x"] e1
       = Ok (VTuple (VBool false) (VStr EmptyString), e1)
    /\ p_if_group3 [VStr "#ifndef"; VStr "__FILE__"; VStr nl; VStr "x"] e1
       = Ok (VTuple (VBool true) (VStr "x"), e1)
    /\ p_token [VStr "__FILE__"] e1 = Ok (VStr "__FILE__", e1).
Proof.
  exact (proj2 ifdef_and_ifndef_read_the_macro_table "__FILE__"
           (VStr "#undef") (VStr "#ifdef") (VStr nl) (VStr "x")
           (engine_on EmptyString) eq_refl).
Defined.

(** X12: [__FILE__] and [__LINE__] are defined once, by [__init__], from the
    values the fields have then: the empty string and the integer 1.
    Neither follows the file being processed or the line counter: whatever
    the current file and the state of the lexer, [__FILE__] expands to the
    empty string and [__LINE__] to the [int] 1, which the [join] of a text
    line refuses. *)
Theorem file_and_line_macros_are_frozen :
  forall (stdlib_path : list string) (keep_comment : bool)
         (fs : gmap string string) (clk : string -> string)
         (cur : option string) (lx : C99PreProcessorLexer),
    let e := set_lexer lx
               (set_current_file cur (C99PreProcessor_init stdlib_path keep_comment fs clk)) in
    p_token [VStr "__FILE__"] e = Ok (VStr EmptyString, e)
    /\ p_token [VStr "__LINE__"] e = Ok (VInt 1, e)
    /\ p_primary_expression [VStr "__LINE__"] e = Ok (VInt 1, e)
    /\ p_text_line [VInt 1; VStr nl] e = Raise TypeError
    /\ (forall d : nat,
           output (run_process (S (S d)) "main.c"
                     (engine_on (nl ++ nl ++ "#if __LINE__ == 1" ++ nl ++ "a" ++ nl
                                 ++ "#endif" ++ nl)))
           = Ok (VStr (nl ++ nl ++ "a " ++ nl))).
Proof.
  intros stdlib_path keep_comment fs clk cur lx e.
  split; [reflexivity|]. split; [reflexivity|]. split; [reflexivity|].
  split; [reflexivity|]. intros d. vm_compute. reflexivity.
Qed.

(** ** The include resolver *)

Lemma slice_enclosed (c d : ascii) (h : string) :
  slice_1_m1 (String c (h ++ String d EmptyString)) = h.
Proof.
  unfold slice_1_m1. cbn [String.length Nat.pred drop].
  rewrite string_length_app. cbn [String.length].
  replace (Nat.pred (String.length h + 1)) with (String.length h) by lia.
  apply string_take_app.
Qed.

Lemma last_char_snoc (h : string) (d : ascii) : last_char (h ++ String d EmptyString) = Some d.
Proof.
  induction h as [|c h IH]; [reflexivity|].
  change (String c h ++ String d EmptyString) with (String c (h ++ String d EmptyString)).
  cbn [last_char]. rewrite IH.
  destruct (h ++ String d EmptyString) eqn:E; [|reflexivity].
  destruct h; discriminate.
Qed.

Lemma search_stdlib_missing (h : string) (fs : list string) :
  forall (e : C99PreProcessor) (p0 : option string),
    (forall d, In d fs -> files e !! joinpath (Path d) h = None) ->
    exists p, search_stdlib fs h p0 e = Ok ((false, p), e).
Proof.
  induction fs as [|d fs IH]; intros e p0 H.
  - exists p0. reflexivity.
  - cbn [search_stdlib]. unfold mbind. rewrite is_file_run.
    rewrite (H d (or_introl eq_refl)).
    rewrite bool_decide_eq_false_2 by (intros [x Hx]; discriminate).
    apply IH. intros d' Hd'. apply H. right. exact Hd'.
Qed.

(** X13: an [#include] whose file is found nowhere raises
    [FileNotFoundError] with the header path in its message, and [process]
    is not called.  The form with angle brackets looks in the directories
    of [_stdlib_path] only, whatever lies next to the current file; the
    form with quotes looks next to the current file as well. *)
Theorem include_of_missing_file_raises :
  forall (process : string -> M value) (h : string) (e : C99PreProcessor),
    headers_table e !! h = None ->
    (forall d, In d (_stdlib_path e) -> files e !! joinpath (Path d) h = None) ->
    include process (VStr ("<" ++ h ++ ">")) e
    = Raise (FileNotFoundError (h ++ " doesn't resolve to an existing file."))
    /\ (forall cur : string,
           _current_file e = Some cur ->
           files e !! joinpath (parent cur) h = None ->
           include process (VStr (dq ++ h ++ dq)) e
           = Raise (FileNotFoundError (h ++ " doesn't resolve to an existing file."))).
Proof.
  intros process h e Hc Hs. split.
  - unfold include. change ("<" ++ h ++ ">") with (String "<" (h ++ String ">" EmptyString)).
    rewrite slice_enclosed. unfold mbind at 1. unfold get at 1. rewrite Hc.
    change (Ascii.eqb "<" DQ) with false. cbn [andb]. unfold mbind, ret. cbn [fst snd negb].
    destruct (search_stdlib_missing h (_stdlib_path e) e None Hs) as [p Hp].
    rewrite Hp. reflexivity.
  - intros cur Hcur Hrel.
    unfold include. change (dq ++ h ++ dq) with (String DQ (h ++ String DQ EmptyString)).
    rewrite slice_enclosed. unfold mbind at 1. unfold get at 1. rewrite Hc.
    change (last_char (String DQ (h ++ String DQ EmptyString)))
      with (last_char (String DQ (h ++ String DQ EmptyString))).
    assert (Hl : last_char (String DQ (h ++ String DQ EmptyString)) = Some DQ).
    { change (String DQ (h ++ String DQ EmptyString))
        with ((String DQ h) ++ String DQ EmptyString). apply last_char_snoc. }
    rewrite Hl, Hcur. change (Ascii.eqb DQ DQ) with true. cbn [andb].
    unfold mbind. rewrite is_file_run. unfold ret. rewrite Hrel.
    rewrite bool_decide_eq_false_2 by (intros [x Hx]; discriminate).
    cbn [fst snd negb].
    destruct (search_stdlib_missing h (_stdlib_path e) e
                (Some (joinpath (parent cur) h)) Hs) as [p Hp].
    rewrite Hp. reflexivity.
Qed.

Lemma last_nonempty (A : Type) (l : list A) (a d d' : A) :
  List.last (a :: l) d = List.last (a :: l) d'.
Proof.
  revert a. induction l as [|b l IH]; intros a; [reflexivity|].
  change (List.last (a :: b :: l) d) with (List.last (b :: l) d).
  change (List.last (a :: b :: l) d') with (List.last (b :: l) d').
  apply IH.
Qed.

Lemma last_app_default (A : Type) (l1 l2 : list A) (d : A) :
  List.last (l1 ++ l2) d = List.last l2 (List.last l1 d).
Proof.
  induction l1 as [|a l1 IH]; [reflexivity|].
  destruct l1 as [|b l1].
  - destruct l2 as [|c l2]; [reflexivity|].
    change (List.last ([a] ++ c :: l2) d) with (List.last (c :: l2) d).
    apply last_nonempty.
  - change (List.last ((a :: b :: l1) ++ l2) d) with (List.last ((b :: l1) ++ l2) d).
    change (List.last (a :: b :: l1) d) with (List.last (b :: l1) d).
    exact IH.
Qed.

Lemma last_map_some (more : list string) (d : string) :
  List.last (map Some more) (Some d) = Some (List.last more d).
Proof.
  induction more as [|a more IH]; [reflexivity|].
  destruct more as [|b more]; [reflexivity|].
  change (List.last (map Some (a :: b :: more)) (Some d))
    with (List.last (map Some (b :: more)) (Some d)).
  rewrite IH. reflexivity.
Qed.

Lemma current_refl (e : C99PreProcessor) : current_file_is_last_read e e.
Proof. exists []. split; [rewrite app_nil_r; reflexivity | reflexivity]. Qed.

Lemma current_trans (a b c : C99PreProcessor) :
  current_file_is_last_read a b -> current_file_is_last_read b c ->
  current_file_is_last_read a c.
Proof.
  intros [m1 [F1 C1]] [m2 [F2 C2]]. exists (m1 ++ m2)%list. split.
  - rewrite F2, F1, app_assoc. reflexivity.
  - rewrite C2, C1, map_app, last_app_default. reflexivity.
Qed.

Lemma current_file_step (p : string) (e : C99PreProcessor) :
  current_file_is_last_read e (log_read p (set_current_file (Some p) e)).
Proof. exists [p]. split; reflexivity. Qed.

Lemma current_include (process : string -> M value) :
  (forall p, keeps current_file_is_last_read (process p)) ->
  forall header_name, keeps current_file_is_last_read (include process header_name).
Proof.
  intros Hp header_name e e1 v H.
  destruct (include_run _ _ _ _ _ H) as [hn [-> [[s [Hs [-> ->]]] | [Hn Hm]]]].
  - apply current_refl.
  - destruct Hm as [ip [s [ep [Hr [-> ->]]]]].
    destruct (Hp _ _ _ _ Hr) as [more [F C]]. exists more. split; assumption.
Qed.

Lemma later_current (e e' : C99PreProcessor) :
  later e e' -> current_file_is_last_read e e'.
Proof.
  apply later_keeps.
  - apply current_refl.
  - apply current_trans.
  - intros lx e0. exists []. split; [rewrite app_nil_r; reflexivity | reflexivity].
  - intros m e0. exists []. split; [rewrite app_nil_r; reflexivity | reflexivity].
  - apply current_file_step.
  - apply current_include.
Qed.

Lemma parse_text_current (depth : nat) (data : string) :
  keeps current_file_is_last_read (parse_text depth data).
Proof.
  apply keeps_parse_text.
  - apply current_refl.
  - apply current_trans.
  - intros lx e0. exists []. split; [rewrite app_nil_r; reflexivity | reflexivity].
  - intros m e0. exists []. split; [rewrite app_nil_r; reflexivity | reflexivity].
  - apply current_file_step.
  - apply current_include.
Qed.

(** X14: [process] sets [_current_file] and nothing sets it back.  After an
    [#include] that was not served from the cache, the current file of the
    engine is the last file read during the inclusion, the header or a file
    read while the header was processed, and not the file that holds the
    [#include].  Whatever the engine does, the current file is the last
    file read.  A later [#include "b.h"] of the including file is then
    looked up next to the header: with [main.c] including ["sub/a.h"] and
    then ["b.h"], the file read is [sub/b.h], not [b.h]. *)
Theorem include_does_not_restore_current_file :
  (forall (depth : nat) (hn : string) (e e1 : C99PreProcessor) (v : value),
      headers_table e !! slice_1_m1 hn = None ->
      run_include depth (VStr hn) e = Ok (v, e1) ->
      exists (p : string) (more : list string),
        files_read e1 = (files_read e ++ p :: more)%list
        /\ _current_file e1 = Some (List.last more p))
  /\ (forall e e' : C99PreProcessor,
         later e e' ->
         exists more : list string,
           files_read e' = (files_read e ++ more)%list
           /\ _current_file e' = List.last (map Some more) (_current_file e))
  /\ (forall d : nat,
         match run_process (S (S (S d))) "main.c" sub_engine with
         | Ok (v, e) => Ok (v, files_read e, _current_file e)
         | Raise x => Raise x
         end
         = Ok (VStr ("int a ; " ++ nl ++ nl ++ nl ++ "int sub_b ; " ++ nl ++ nl ++ nl),
               ["main.c"; "sub/a.h"; "sub/b.h"], Some "sub/b.h")).
Proof.
  split; [|split].
  - intros depth hn e e1 v Hc H. unfold run_include in H.
    destruct (include_run _ _ _ _ _ H) as [hn' [E [[s [Hs _]] | [_ Hm]]]];
      inversion E; subst hn'.
    + congruence.
    + destruct Hm as [ip [s [ep [Hr [-> ->]]]]].
      unfold run_process in Hr.
      destruct (process_run _ _ _ _ _ Hr) as [content [_ Hq]].
      destruct (parse_text_current _ _ _ _ _ Hq) as [more [F C]].
      exists (Path ip), more. cbn [files_read _current_file set_headers_table].
      destruct e; cbn in *. split.
      * rewrite F, <- app_assoc. reflexivity.
      * rewrite C. apply last_map_some.
  - intros e e' H. exact (later_current e e' H).
  - intros d. vm_compute. reflexivity.
Qed.

Lemma include_of_missing_file_raises_witness :
  include (run_process 1) (VStr ("<" ++ "stdio.h" ++ ">")) include_engine
  = Raise (FileNotFoundError ("stdio.h" ++ " doesn't resolve to an existing file.")).
Proof.
  apply (include_of_missing_file_raises (run_process 1) "stdio.h" include_engine).
  - reflexivity.
  - intros d [<- | []]. reflexivity.
Defined.

Lemma include_does_not_restore_current_file_witness :
  exists (v : value) (e1 : C99PreProcessor),
    run_include 2 (VStr (dq ++ "sub/a.h" ++ dq))
      (set_current_file (Some "main.c") sub_engine) = Ok (v, e1)
    /\ exists (p : string) (more : list string),
         files_read e1
         = (files_read (set_current_file (Some "main.c") sub_engine) ++ p :: more)%list
         /\ _current_file e1 = Some (List.last more p).
Proof.
  destruct (run_include 2 (VStr (dq ++ "sub/a.h" ++ dq))
              (set_current_file (Some "main.c") sub_engine)) as [[v e1]|x] eqn:H.
  - exists v, e1. split; [reflexivity|].
    exact (proj1 include_does_not_restore_current_file 2%nat (dq ++ "sub/a.h" ++ dq)
             (set_current_file (Some "main.c") sub_engine) e1 v eq_refl H).
  - vm_compute in H. discriminate.
Defined.

(** ** The phase filter, pass by pass *)

(** ** Line splicing *)

Lemma splice_length_aux (n : nat) :
  forall s, (String.length s <= n)%nat ->
    (String.length (splice s) <= String.length s)%nat.
Proof.
  induction n as [|n IH]; intros s Hlen.
  - destruct s; [simpl; lia | simpl in Hlen; lia].
  - destruct s as [|c [|d s'']]; [simpl; lia | simpl; lia |].
    rewrite splice_step. destruct (Ascii.eqb c BSL && Ascii.eqb d NL).
    + specialize (IH s''). simpl in Hlen. simpl. lia.
    + specialize (IH (String d s'')). simpl in Hlen.
      cbn [String.length] in *. lia.
Qed.

Lemma splice_length (s : string) :
  (String.length (splice s) <= String.length s)%nat.
Proof. apply (splice_length_aux (String.length s)). apply le_n. Qed.

Lemma splice_shrinks_aux (n : nat) :
  forall s, (String.length s <= n)%nat ->
    contains (String BSL nl) s = true ->
    (String.length (splice s) < String.length s)%nat.
Proof.
  induction n as [|n IH]; intros s Hlen Hc.
  - destruct s; [discriminate | simpl in Hlen; lia].
  - destruct s as [|c [|d s'']]; [discriminate | |].
    + rewrite contains_cons, starts_with_bsl_nl_short in Hc. discriminate.
    + rewrite contains_cons, starts_with_bsl_nl in Hc. rewrite splice_step.
      destruct (Ascii.eqb c BSL && Ascii.eqb d NL).
      * pose proof (splice_length s''). simpl. lia.
      * cbn [orb] in Hc. specialize (IH (String d s'')). simpl in Hlen.
        cbn [String.length] in *. apply Nat.succ_lt_mono in IH; [exact IH | lia | exact Hc].
Qed.

Lemma splice_id_aux (n : nat) :
  forall s, (String.length s <= n)%nat ->
    contains (String BSL nl) s = false -> splice s = s.
Proof.
  induction n as [|n IH]; intros s Hlen Hc.
  - destruct s; [reflexivity | simpl in Hlen; lia].
  - destruct s as [|c [|d s'']]; [reflexivity | reflexivity |].
    rewrite contains_cons, starts_with_bsl_nl in Hc. apply orb_false_iff in Hc.
    destruct Hc as [H0 H1]. rewrite splice_step, H0. f_equal.
    apply IH; [simpl in Hlen; simpl; lia | exact H1].
Qed.

Lemma splice_app_aux (n : nat) :
  forall a b, (String.length a <= n)%nat ->
    last_char a <> Some BSL -> splice (a ++ b) = splice a ++ splice b.
Proof.
  induction n as [|n IH]; intros a b Hlen Hl.
  - destruct a; [reflexivity | simpl in Hlen; lia].
  - destruct a as [|c [|d a'']]; [reflexivity | |].
    + change (String c EmptyString ++ b) with (String c b).
      cbn [last_char] in Hl.
      destruct b as [|d b']; [reflexivity|].
      rewrite splice_step.
      destruct (Ascii.eqb c BSL) eqn:Ec.
      * apply Ascii.eqb_eq in Ec. congruence.
      * reflexivity.
    + change (String c (String d a'') ++ b) with (String c (String d (a'' ++ b))).
      rewrite !splice_step.
      change (last_char (String c (String d a''))) with (last_char (String d a'')) in Hl.
      destruct (Ascii.eqb c BSL && Ascii.eqb d NL) eqn:Em.
      * apply IH; [simpl in Hlen; lia|].
        destruct a'' as [|x a3]; [discriminate|]. exact Hl.
      * change (String d (a'' ++ b)) with (String d a'' ++ b).
        rewrite IH; [reflexivity | simpl in Hlen; simpl; lia | exact Hl].
Qed.

(** X15: line splicing leaves a text unchanged exactly when the text holds
    no backslash-newline; it never makes a text longer; and it works
    locally: the splice of [a ++ b] is the splice of [a] followed by the
    splice of [b], unless the cut falls after a backslash. *)
Theorem join_backslash_fixed_points :
  (forall s : string, _join_backslash s = s <-> contains (bsl ++ nl) s = false)
  /\ (forall s : string,
         (String.length (_join_backslash s) <= String.length s)%nat)
  /\ (forall a b : string,
         last_char a <> Some BSL ->
         _join_backslash (a ++ b) = _join_backslash a ++ _join_backslash b).
Proof.
  split; [|split].
  - intros s. rewrite join_backslash_splice. split.
    + intros H. destruct (contains (bsl ++ nl) s) eqn:Hc; [|reflexivity].
      pose proof (splice_shrinks_aux _ s (le_n _) Hc) as Hlt. rewrite H in Hlt. lia.
    + apply (splice_id_aux (String.length s)). apply le_n.
  - intros s. rewrite join_backslash_splice. apply splice_length.
  - intros a b H. rewrite !join_backslash_splice.
    apply (splice_app_aux (String.length a)); [apply le_n | exact H].
Qed.

(** ** Digraphs and trigraphs *)

Lemma starts_with_other (a c : ascii) (p s : string) :
  Ascii.eqb a c = false -> starts_with (String a p) (String c s) = false.
Proof. intros H. rewrite starts_with_cons, H. reflexivity. Qed.

Lemma replace_from_absent (a : ascii) (old new : string) :
  forall s : string,
    all_chars (fun c => negb (Ascii.eqb a c)) s = true ->
    replace_from (String a old) new 0 s = s.
Proof.
  induction s as [|c s IH]; intros H; [reflexivity|].
  cbn [all_chars] in H. apply andb_true_iff in H. destruct H as [Hc Hs].
  rewrite replace_from_step, starts_with_other by (apply negb_true_iff; exact Hc).
  rewrite IH by exact Hs. reflexivity.
Qed.

Lemma replace_di_trigraph_plain (s : string) :
  all_chars (fun c => negb (mem_char c "<>%?")) s = true ->
  _replace_di_trigraph s = s.
Proof.
  intros H.
  assert (Hk : forall (a : ascii) (old new : string),
             mem_char a "<>%?" = true -> replace_from (String a old) new 0 s = s).
  { intros a old new Ha. apply replace_from_absent.
    revert H. apply all_chars_weaken. intros c Hc.
    apply negb_true_iff. apply negb_true_iff in Hc.
    destruct (Ascii.eqb a c) eqn:E; [|reflexivity].
    apply Ascii.eqb_eq in E. subst c. congruence. }
  unfold _replace_di_trigraph, replace_with_table, _di_tri_graph_replace_table.
  cbn [fold_left fst snd py_replace bsl].
  repeat (rewrite Hk by reflexivity). reflexivity.
Qed.

(** X16: the digraph and trigraph pass changes nothing in a text that has
    none of the characters [<], [>], [%] and [?], with which every key of
    the table starts. *)
Theorem text_without_lead_characters_passes_phase_1 :
  forall s : string,
    all_chars (fun c => negb (mem_char c "<>%?")) s = true ->
    _replace_di_trigraph s = s.
Proof. exact replace_di_trigraph_plain. Qed.

Lemma text_without_lead_characters_passes_phase_1_witness :
  _replace_di_trigraph "int x[2] = {1, 2};" = "int x[2] = {1, 2};".
Proof. apply text_without_lead_characters_passes_phase_1. reflexivity. Defined.

(** ** Comments *)

Lemma sub_from_skip_app (r : regex) (repl : string) :
  forall (a t : string),
    sub_from r repl (String.length a) (a ++ t) = sub_from r repl 0 t.
Proof.
  induction a as [|c a IH]; intros t; [reflexivity|].
  change (String c a ++ t) with (String c (a ++ t)). cbn [String.length].
  rewrite sub_from_skip. apply IH.
Qed.

Lemma comment_starts_with_slash (c : ascii) (s : string) :
  Ascii.eqb "/" c = false -> match_len COMMENT_RE (String c s) = None.
Proof.
  intros H. unfold match_len, re_match, COMMENT_RE. cbn [rmatch RLit]. rewrite H.
  reflexivity.
Qed.

Lemma sub_from_plain (repl : string) :
  forall (pre t : string),
    all_chars (fun c => negb (Ascii.eqb "/" c)) pre = true ->
    sub_from COMMENT_RE repl 0 (pre ++ t) = pre ++ sub_from COMMENT_RE repl 0 t.
Proof.
  induction pre as [|c pre IH]; intros t H; [reflexivity|].
  cbn [all_chars] in H. apply andb_true_iff in H. destruct H as [Hc Hp].
  change (String c pre ++ t) with (String c (pre ++ t)).
  rewrite sub_from_step, comment_starts_with_slash by (apply negb_true_iff; exact Hc).
  rewrite IH by exact Hp. reflexivity.
Qed.

Lemma line_comment_match (body rest : string) :
  all_chars (fun c => negb (Ascii.eqb c NL)) body = true ->
  match rest with String c _ => c = NL | EmptyString => True end ->
  re_match COMMENT_RE ("//" ++ body ++ rest) = Some rest.
Proof.
  intros Hb Hr. unfold re_match, COMMENT_RE.
  change ("//" ++ body ++ rest) with (String "/" (String "/" (body ++ rest))).
  rewrite rmatch_alt.
  change (rmatch (RSeq (RLit "/*") _) (String "/" (String "/" (body ++ rest))) Some)
    with (@None string).
  rewrite rmatch_seq. cbn [RLit].
  repeat (first [rewrite rmatch_seq | rewrite rmatch_chr_hit | rewrite rmatch_eps];
          cbv beta).
  rewrite rmatch_star_any. apply backtrack_longest.
  rewrite drop_while_app; [reflexivity | exact Hb |].
  destruct rest as [|c rest']; [exact I|]. subst c. reflexivity.
Qed.

(** X17: the first [//] comment of a text, up to the end of its line, is
    replaced by one space; the newline stays, and the text before the
    comment (which has no [/]) is kept as it is.  The pass works on the
    text, not on tokens: a [//] inside a string literal starts a comment
    too. *)
Theorem line_comment_becomes_one_space :
  forall pre body rest : string,
    all_chars (fun c => negb (Ascii.eqb "/" c)) pre = true ->
    all_chars (fun c => negb (Ascii.eqb c NL)) body = true ->
    match rest with String c _ => c = NL | EmptyString => True end ->
    _strip_comment (pre ++ "//" ++ body ++ rest) = pre ++ " " ++ _strip_comment rest.
Proof.
  intros pre body rest Hp Hb Hr. unfold _strip_comment, re_sub.
  rewrite sub_from_plain by exact Hp. f_equal.
  change ("//" ++ body ++ rest) with (String "/" (String "/" body ++ rest)).
  rewrite sub_from_step. unfold match_len.
  change (String "/" (String "/" body ++ rest)) with ("//" ++ body ++ rest).
  rewrite (line_comment_match body rest Hb Hr).
  change ("//" ++ body ++ rest) with (String "/" (String "/" body ++ rest)).
  cbn [String.length]. rewrite string_length_app.
  replace (S (String.length (String "/" body) + String.length rest) - String.length rest)%nat
    with (S (String.length (String "/" body))) by lia.
  rewrite sub_from_skip_app. reflexivity.
Qed.

Lemma line_comment_becomes_one_space_witness :
  _strip_comment ("int x; " ++ "//" ++ " a/b */ " ++ (nl ++ "int y;"))
  = "int x; " ++ " " ++ _strip_comment (nl ++ "int y;").
Proof.
  apply line_comment_becomes_one_space; [reflexivity | reflexivity | reflexivity].
Defined.

Lemma block_end_here (slashes rest : string) :
  all_chars (Ascii.eqb "/") slashes = true ->
  match rest with String c _ => Ascii.eqb "/" c = false | EmptyString => True end ->
  block_end ("*/" ++ slashes ++ rest) = Some rest.
Proof.
  intros Hs Hr. unfold block_end.
  change ("*/" ++ slashes ++ rest) with (String "*" (String "/" (slashes ++ rest))).
  rewrite rmatch_seq, rmatch_chr_hit, rmatch_plus_chr. cbn [Ascii.eqb Bool.eqb].
  apply backtrack_longest. rewrite drop_while_app; [reflexivity | exact Hs | exact Hr].
Qed.

Lemma block_end_not_here (c : ascii) (s : string) :
  starts_with "*/" (String c s) = false -> block_end (String c s) = None.
Proof.
  unfold block_end. rewrite rmatch_seq. intros H.
  destruct (Ascii.eqb "*" c) eqn:Ec.
  - apply Ascii.eqb_eq in Ec. subst c. rewrite rmatch_chr_hit, rmatch_plus_chr.
    destruct s as [|d s']; [reflexivity|].
    rewrite starts_with_cons in H. cbn [Ascii.eqb Bool.eqb andb] in H.
    rewrite starts_with_cons in H.
    destruct (Ascii.eqb "/" d); [|reflexivity].
    unfold starts_with in H. cbn [strip_prefix andb] in H. discriminate.
  - apply rmatch_chr_miss. exact Ec.
Qed.

Lemma block_comment_body (body tail rest : string) :
  contains "*/" body = false ->
  block_end ("*/" ++ tail) = Some rest ->
  shortest (fun _ => true) (body ++ "*/" ++ tail) block_end = Some rest.
Proof.
  intros Hb He. induction body as [|c body IH].
  - apply shortest_here. exact He.
  - rewrite contains_cons in Hb. apply orb_false_iff in Hb. destruct Hb as [H0 H1].
    change (String c body ++ "*/" ++ tail) with (String c (body ++ "*/" ++ tail)).
    rewrite shortest_step; [apply IH; exact H1 | | reflexivity].
    apply block_end_not_here.
    destruct body as [|d body'].
    + change (EmptyString ++ "*/" ++ tail) with (String "*" (String "/" tail)).
      rewrite starts_with_cons. destruct (Ascii.eqb "*" c); [|reflexivity].
      rewrite starts_with_cons. reflexivity.
    + change (String d body' ++ "*/" ++ tail) with (String d (body' ++ "*/" ++ tail)).
      rewrite !starts_with_cons in *.
      destruct (Ascii.eqb "*" c); [|reflexivity].
      destruct (Ascii.eqb "/" d); [|reflexivity].
      cbn [andb] in H0. unfold starts_with in H0. cbn [strip_prefix] in H0. discriminate.
Qed.

Lemma block_comment_match (body slashes rest : string) :
  contains "*/" body = false ->
  all_chars (Ascii.eqb "/") slashes = true ->
  match rest with String c _ => Ascii.eqb "/" c = false | EmptyString => True end ->
  re_match COMMENT_RE ("/*" ++ body ++ "*/" ++ slashes ++ rest) = Some rest.
Proof.
  intros Hb Hs Hr. unfold re_match, COMMENT_RE.
  change ("/*" ++ body ++ "*/" ++ slashes ++ rest)
    with (String "/" (String "*" (body ++ "*/" ++ slashes ++ rest))).
  rewrite rmatch_alt, rmatch_seq. cbn [RLit].
  repeat (first [rewrite rmatch_seq | rewrite rmatch_chr_hit | rewrite rmatch_eps];
          cbv beta).
  rewrite rmatch_lazy_set.
  change (fun s' : string => rmatch (RSeq (RChr "*") (RPlus (RChr "/"))) s' Some)
    with block_end.
  rewrite (block_comment_body body (slashes ++ rest) rest Hb (block_end_here _ _ Hs Hr)).
  reflexivity.
Qed.

(** X18: the first block comment of a text is replaced by one space, line
    breaks inside it included, together with every [/] that directly
    follows the closing [*/] (the expression ends in [\/+]): in
    [a /* c *// b] the division sign goes with the comment. *)
Theorem block_comment_becomes_one_space :
  forall pre body slashes rest : string,
    all_chars (fun c => negb (Ascii.eqb "/" c)) pre = true ->
    contains "*/" body = false ->
    all_chars (Ascii.eqb "/") slashes = true ->
    match rest with String c _ => Ascii.eqb "/" c = false | EmptyString => True end ->
    _strip_comment (pre ++ "/*" ++ body ++ "*/" ++ slashes ++ rest)
    = pre ++ " " ++ _strip_comment rest.
Proof.
  intros pre body slashes rest Hp Hb Hs Hr. unfold _strip_comment, re_sub.
  rewrite sub_from_plain by exact Hp. f_equal.
  set (t := body ++ "*/" ++ slashes).
  assert (Et : "/*" ++ body ++ "*/" ++ slashes ++ rest = String "/" (String "*" t ++ rest)).
  { unfold t. change (String "/" (String "*" (body ++ "*/" ++ slashes) ++ rest))
      with (String "/" (String "*" ((body ++ "*/" ++ slashes) ++ rest))).
    change ("/*" ++ body ++ "*/" ++ slashes ++ rest)
      with (String "/" (String "*" (body ++ "*/" ++ slashes ++ rest))).
    do 2 f_equal. rewrite !string_app_assoc. reflexivity. }
  pose proof (block_comment_match body slashes rest Hb Hs Hr) as Hm.
  rewrite Et in *. rewrite sub_from_step. unfold match_len. rewrite Hm.
  cbn [String.length]. rewrite string_length_app.
  replace (S (String.length (String "*" t) + String.length rest) - String.length rest)%nat
    with (S (String.length (String "*" t))) by lia.
  rewrite sub_from_skip_app. reflexivity.
Qed.

Lemma block_comment_becomes_one_space_witness :
  _strip_comment ("x = a " ++ "/*" ++ (" per " ++ nl ++ " unit ") ++ "*/" ++ "/" ++ " b;")
  = "x = a " ++ " " ++ _strip_comment " b;".
Proof.
  apply block_comment_becomes_one_space; reflexivity.
Defined.

Lemma join_backslash_fixed_points_witness :
  _join_backslash ("int x;" ++ nl) = "int x;" ++ nl.
Proof. apply (proj1 join_backslash_fixed_points). reflexivity. Defined.

(** ** The rules of the lexer *)

(** ** Decimal constants *)

Lemma parse_digits_acc (d : Decimal.uint) :
  forall acc : positive,
    parse_digits 10 digit_val (Zpos acc) (uint_to_string d)
    = Some (Zpos (Pos.of_uint_acc d acc)).
Proof.
  induction d; intros acc; cbn [uint_to_string parse_digits Pos.of_uint_acc];
    [reflexivity | ..];
    match goal with
    | |- context [digit_val ?c] =>
        let v := eval vm_compute in (digit_val c) in change (digit_val c) with v
    end; cbv beta iota;
    match goal with
    | |- parse_digits _ _ ?a _ = Some (Zpos (Pos.of_uint_acc _ ?b)) =>
        replace a with (Zpos b) by lia
    end; apply IHd.
Qed.

Lemma parse_digits_uint (d : Decimal.uint) :
  parse_digits 10 digit_val 0 (uint_to_string d) = Some (Z.of_N (Pos.of_uint d)).
Proof.
  induction d; cbn [uint_to_string parse_digits Pos.of_uint]; [reflexivity | ..];
    match goal with
    | |- context [digit_val ?c] =>
        let v := eval vm_compute in (digit_val c) in change (digit_val c) with v
    end; cbv beta iota; cbn [Z.mul Z.add];
    first [exact IHd | apply parse_digits_acc].
Qed.

Lemma parse_digits_leading_zero (s : string) :
  parse_digits 10 digit_val 0 (String "0" s) = parse_digits 10 digit_val 0 s.
Proof. reflexivity. Qed.

(** X22: [t_INTEGER] reads its text with [int]: the text [str(z)] of a
    non-negative integer is read back as [z] (what a rescan does with a
    constant that a token list has turned into text), and a leading zero
    does not make a constant octal: [010] is ten. *)
Theorem decimal_constant_round_trip :
  (forall z : Z, 0 <= z -> int_of_lexeme (Z_to_string z) = Ok z)
  /\ (forall s : string, s <> EmptyString -> int_of_lexeme (String "0" s) = int_of_lexeme s)
  /\ int_of_lexeme "010" = Ok 10.
Proof.
  split; [|split].
  - intros z Hz. destruct z as [|p|p]; [reflexivity | | lia].
    unfold Z_to_string, int_of_lexeme.
    pose proof (parse_digits_uint (Pos.to_uint p)) as H.
    rewrite DecimalPos.Unsigned.of_to in H. cbn [Z.of_N] in H.
    destruct (uint_to_string (Pos.to_uint p)) eqn:E.
    + cbn in H. discriminate.
    + rewrite H. reflexivity.
  - intros s Hs. unfold int_of_lexeme. rewrite parse_digits_leading_zero.
    destruct s; [congruence | reflexivity].
  - reflexivity.
Qed.

(** ** The line counter *)

Lemma t_DIRECTIVE_lineno (v : string) (self self' : C99PreProcessorLexer) (tok : token) :
  t_DIRECTIVE v self = Ok (tok, self') -> lineno self' = lineno self.
Proof.
  unfold t_DIRECTIVE. destruct (lookup_reserved reserved v) as [ty|].
  - destruct (toktype_eqb ty IF || toktype_eqb ty IFDEF || toktype_eqb ty IFNDEF).
    + intros H; inversion H; reflexivity.
    + destruct (toktype_eqb ty ENDIF).
      * destruct (nested_if self - 1 <? 0); [discriminate|].
        intros H; inversion H; reflexivity.
      * intros H; inversion H; reflexivity.
  - intros H; inversion H; reflexivity.
Qed.

Lemma run_raw_lineno (t : rawtok) (l l' : Z) (self self' : C99PreProcessorLexer)
  (o : option token) :
  run_raw t l self = Ok (o, l', self') ->
  l' = l + (if is_newline t then Z.of_nat (String.length (lexeme t)) else 0)
  /\ lineno self' = (if is_newline t then l' else lineno self).
Proof.
  unfold run_raw, is_newline. destruct t as [k v]. cbn [rk lexeme].
  destruct k as [r| |]; [| intros H; inversion H; split; [lia | reflexivity]
                         | intros H; inversion H; split; [lia | reflexivity]].
  destruct r; cbn [run_rule bind]; intros H;
    try (inversion H; subst; split; [lia | reflexivity]).
  - destruct (t_DIRECTIVE v self) as [[tk s1]|] eqn:Hd; [|discriminate].
    cbn [bind] in H. inversion H; subst. split; [lia|].
    exact (t_DIRECTIVE_lineno _ _ _ _ Hd).
  - destruct (float_of_lexeme v); [|discriminate]. inversion H; subst.
    split; [lia | reflexivity].
  - destruct (hex_of_lexeme v); [|discriminate]. inversion H; subst.
    split; [lia | reflexivity].
  - destruct (int_of_lexeme v); [|discriminate]. inversion H; subst.
    split; [lia | reflexivity].
Qed.

(** X23: the line counter moves only in [t_NEWLINE].  Scanning a list of
    raw tokens advances the counter of the lexer by the number of
    characters matched by [t_NEWLINE], and [lineno] of the wrapper is that
    counter when a [NEWLINE] was seen and is unchanged otherwise: newlines
    inside a header name or a string literal are not counted. *)
Theorem line_counter_counts_newline_tokens :
  forall (raws : list rawtok) (l l' : Z) (self self' : C99PreProcessorLexer)
         (toks : list token),
    scan raws l self = Ok (toks, l', self') ->
    l' = l + newlines raws
    /\ lineno self' = (if existsb is_newline raws then l' else lineno self).
Proof.
  induction raws as [|t raws IH]; intros l l' self self' toks; cbn [scan newlines existsb].
  - intros H. inversion H; subst. split; [lia | reflexivity].
  - destruct (run_raw t l self) as [[[o l1] s1]|] eqn:Hr; [|discriminate].
    cbn [bind].
    destruct (scan raws l1 s1) as [[[toks1 l2] s2]|] eqn:Hs; [|discriminate].
    cbn [bind]. intros H. inversion H; subst. clear H.
    destruct (run_raw_lineno _ _ _ _ _ _ Hr) as [H1 H2].
    destruct (IH _ _ _ _ _ Hs) as [H3 H4].
    split; [lia|]. rewrite H4, H2.
    destruct (existsb is_newline raws) eqn:E1; destruct (is_newline t) eqn:E2;
      cbn [orb]; try reflexivity.
    rewrite H3. assert (newlines raws = 0); [|lia].
    clear - E1. induction raws as [|x raws IHr]; [reflexivity|].
    cbn [existsb newlines] in *. apply orb_false_iff in E1. destruct E1 as [Ex Er].
    rewrite Ex, (IHr Er). reflexivity.
Qed.

Lemma line_counter_counts_newline_tokens_witness :
  3 = 1 + newlines (raw_lex None 0 ("a" ++ nl ++ nl ++ "b"))
  /\ lineno {| lineno := 3; nested_if := 0 |}
     = (if existsb is_newline (raw_lex None 0 ("a" ++ nl ++ nl ++ "b"))
        then 3 else lineno lexer_init).
Proof.
  apply (line_counter_counts_newline_tokens
           (raw_lex None 0 ("a" ++ nl ++ nl ++ "b")) 1 3 lexer_init _
           [ {| ttype := IDENTIFIER; tvalue := VStr "a" |};
             {| ttype := NEWLINE; tvalue := VStr (nl ++ nl) |};
             {| ttype := IDENTIFIER; tvalue := VStr "b" |} ]).
  vm_compute. reflexivity.
Defined.

(** ** Literals with the prefix [L] *)

Lemma backtrack_some (f : ascii -> bool) (s : string) :
  backtrack f s Some <> None.
Proof.
  induction s as [|c s IH]; cbn [backtrack]; [discriminate|].
  destruct (f c); [|discriminate]. destruct (backtrack f s Some); discriminate.
Qed.

Lemma ident_matches (c : ascii) (s : string) :
  is_ident_start c = true -> match_len IDENT_RE (String c s) <> None.
Proof.
  intros H. unfold match_len, re_match, IDENT_RE.
  rewrite rmatch_seq, rmatch_set_hit by exact H. rewrite rmatch_star_set.
  destruct (backtrack is_ident_char s Some) eqn:E; [discriminate|].
  exfalso. exact (backtrack_some _ _ E).
Qed.

Lemma string_literal_head (c : ascii) (s : string) (n : nat) :
  match_len STRING_LITERAL_RE (String c s) = Some n -> c = "L"%char \/ c = DQ.
Proof.
  unfold match_len, re_match, STRING_LITERAL_RE.
  rewrite rmatch_seq, rmatch_opt.
  destruct (Ascii.eqb "L" c) eqn:EL; [apply Ascii.eqb_eq in EL; auto|].
  rewrite rmatch_chr_miss by exact EL. rewrite rmatch_seq.
  destruct (Ascii.eqb DQ c) eqn:ED; [apply Ascii.eqb_eq in ED; auto|].
  rewrite rmatch_chr_miss by exact ED. discriminate.
Qed.

Lemma literal_head (c : ascii) (s : string) (n : nat) :
  match_len LITERAL_RE (String c s) = Some n -> c = "L"%char \/ c = SQ.
Proof.
  unfold match_len, re_match, LITERAL_RE.
  rewrite rmatch_seq, rmatch_opt.
  destruct (Ascii.eqb "L" c) eqn:EL; [apply Ascii.eqb_eq in EL; auto|].
  rewrite rmatch_chr_miss by exact EL. rewrite rmatch_seq.
  destruct (Ascii.eqb SQ c) eqn:ED; [apply Ascii.eqb_eq in ED; auto|].
  rewrite rmatch_chr_miss by exact ED. discriminate.
Qed.

Lemma function_rule_literal (c : ascii) (s : string) (r : lexrule) (n : nat) :
  first_function_rule function_rules (String c s) = Some (r, n) ->
  match r with
  | R_STRING_LITERAL => c = DQ
  | R_LITERAL => c = SQ
  | R_LPAREN | R_STR _ => False
  | _ => True
  end.
Proof.
  unfold function_rules. cbn [first_function_rule].
  destruct (match_len NEWLINE_RE (String c s)); [intros H; inversion H; exact I|].
  destruct (match_len HEADER_NAME_RE (String c s)); [intros H; inversion H; exact I|].
  destruct (match_len DIRECTIVE_RE (String c s)); [intros H; inversion H; exact I|].
  destruct (match_len IDENT_RE (String c s)) eqn:Hi; [intros H; inversion H; exact I|].
  assert (HL : c <> "L"%char).
  { intros ->. exact (ident_matches "L" s eq_refl Hi). }
  destruct (match_len STRING_LITERAL_RE (String c s)) eqn:Hs.
  { intros H; inversion H; subst.
    destruct (string_literal_head _ _ _ Hs); [contradiction | assumption]. }
  destruct (match_len FLOAT_RE (String c s)); [intros H; inversion H; exact I|].
  destruct (match_len HEX_RE (String c s)); [intros H; inversion H; exact I|].
  destruct (match_len INTEGER_RE (String c s)); [intros H; inversion H; exact I|].
  destruct (match_len LITERAL_RE (String c s)) eqn:Hl; [|discriminate].
  intros H; inversion H; subst.
  destruct (literal_head _ _ _ Hl); [contradiction | assumption].
Qed.

Lemma raw_lex_literal_ok (s : string) :
  forall (prev : option ascii) (skip : nat), Forall literal_ok (raw_lex prev skip s).
Proof.
  induction s as [|c s' IH]; intros prev skip; cbn [raw_lex].
  - constructor.
  - destruct skip as [|k]; [|apply IH].
    destruct (mem_char c t_ignore); [apply IH|].
    destruct (master_match prev (String c s')) as [[r [|m]]|] eqn:Hm.
    + destruct (mem_char c literals); constructor; try apply IH; exact I.
    + constructor; [|apply IH].
      unfold literal_ok. cbn [rk lexeme take head_char].
      unfold master_match in Hm.
      destruct (first_function_rule function_rules (String c s')) as [[r0 n0]|] eqn:Hf.
      * inversion Hm; subst r0 n0. apply function_rule_literal in Hf.
        destruct r; try exact I; subst c; reflexivity.
      * destruct (lparen_len prev (String c s')).
        -- inversion Hm; subst. exact I.
        -- apply string_rule_not_defined in Hm. destruct Hm as [t [-> _]]. exact I.
    + destruct (mem_char c literals); constructor; try apply IH; exact I.
Qed.

(** X24: the prefix [L] of [t_STRING_LITERAL] and [t_LITERAL] is dead.  Every
    string literal token starts with the double quote and every character
    literal token with the single quote, for every input: [t_IDENTIFIER]
    comes first in the master expression and takes the [L] as an
    identifier of its own. *)
Theorem wide_literals_are_never_one_token :
  (forall (data : string) (t : rawtok),
      In t (raw_lex None 0 data) ->
      (rk t = RRule R_STRING_LITERAL -> head_char (lexeme t) = Some DQ)
      /\ (rk t = RRule R_LITERAL -> head_char (lexeme t) = Some SQ))
  /\ tokenize ("L" ++ dq ++ "abc" ++ dq) lexer_init
     = Ok ([ {| ttype := IDENTIFIER; tvalue := VStr "L" |};
             {| ttype := STRING_LITERAL; tvalue := VStr (dq ++ "abc" ++ dq) |} ],
           lexer_init)
  /\ tokenize "L'a'" lexer_init
     = Ok ([ {| ttype := IDENTIFIER; tvalue := VStr "L" |};
             {| ttype := CONSTANT; tvalue := VStr "'a'" |} ], lexer_init).
Proof.
  split; [|split].
  - intros data t Ht.
    pose proof (raw_lex_literal_ok data None O) as H.
    rewrite List.Forall_forall in H. specialize (H t Ht). unfold literal_ok in H.
    split; intros E; rewrite E in H; exact H.
  - vm_compute. reflexivity.
  - vm_compute. reflexivity.
Qed.

Lemma wide_literals_are_never_one_token_witness :
  head_char (dq ++ "abc" ++ dq) = Some DQ.
Proof.
  apply (proj1 (proj1 wide_literals_are_never_one_token ("L" ++ dq ++ "abc" ++ dq)
                  {| rk := RRule R_STRING_LITERAL; lexeme := dq ++ "abc" ++ dq |}
                  (or_intror (or_introl eq_refl)))).
  reflexivity.
Defined.

(** ** Parentheses *)

Lemma raw_lex_step (prev : option ascii) (c : ascii) (s' : string) :
  raw_lex prev 0 (String c s')
  = if mem_char c t_ignore then raw_lex (Some c) 0 s'
    else match master_match prev (String c s') with
         | Some (r, S m) =>
             {| rk := RRule r; lexeme := take (S m) (String c s') |}
               :: raw_lex (Some c) m s'
         | _ =>
             if mem_char c literals
             then {| rk := RLiteral; lexeme := String c EmptyString |}
                    :: raw_lex (Some c) 0 s'
             else {| rk := RIllegal; lexeme := String c EmptyString |}
                    :: raw_lex (Some c) 0 s'
         end.
Proof. reflexivity. Qed.

Lemma raw_lex_skip_app (a : string) :
  forall (prev : option ascii) (rest : string),
    raw_lex prev (String.length a) (a ++ rest)
    = raw_lex (match last_char a with Some c => Some c | None => prev end) 0 rest.
Proof.
  induction a as [|c a IH]; intros prev rest; [reflexivity|].
  change (String c a ++ rest) with (String c (a ++ rest)).
  cbn [String.length raw_lex]. rewrite IH.
  destruct a as [|d a']; [reflexivity|].
  change (last_char (String c (String d a'))) with (last_char (String d a')).
  destruct (last_char (String d a')) eqn:E; [reflexivity|].
  exfalso. clear - E. revert d E. induction a' as [|x a' IHa]; intros d E; [discriminate|].
  change (last_char (String d (String x a'))) with (last_char (String x a')) in E.
  exact (IHa x E).
Qed.

Lemma no_function_rule_at_paren (rest : string) :
  first_function_rule function_rules (String "(" rest) = None.
Proof. reflexivity. Qed.

Lemma no_string_rule_at_paren (rest : string) :
  first_string_rule string_rules (String "(" rest) = None.
Proof. reflexivity. Qed.

(** X25: [t_LPAREN].  A left parenthesis is an [LPAREN] token when no white
    space stands before it (also at the start of the input), and the
    literal ['('] otherwise.  The grammar has the literal in
    [primary_expression] and [LPAREN] only in [#define]: [#if (1)] is
    accepted, and in [#if ((1))] the second parenthesis is an [LPAREN]. *)
Theorem lparen_is_a_parenthesis_without_space_before :
  (forall (prev : option ascii) (rest : string),
      raw_lex prev 0 ("(" ++ rest)
      = {| rk := if match prev with Some p => is_space p | None => false end
                 then RLiteral else RRule R_LPAREN;
           lexeme := "(" |} :: raw_lex (Some "("%char) 0 rest)
  /\ (forall (l : Z) (self : C99PreProcessorLexer),
         run_raw {| rk := RRule R_LPAREN; lexeme := "(" |} l self
         = Ok (Some {| ttype := LPAREN; tvalue := VStr "(" |}, l, self)
         /\ run_raw {| rk := RLiteral; lexeme := "(" |} l self
            = Ok (Some {| ttype := LIT "("; tvalue := VStr "(" |}, l, self))
  /\ (forall d : nat,
         output (run_process (S (S d)) "main.c"
                   (engine_on ("#if (1)" ++ nl ++ "a" ++ nl ++ "#endif" ++ nl)))
         = Ok (VStr ("a " ++ nl)))
  /\ tokenize ("#if ((1))" ++ nl) lexer_init
     = Ok ([ {| ttype := IF; tvalue := VStr "#if" |};
             {| ttype := LIT "("; tvalue := VStr "(" |};
             {| ttype := LPAREN; tvalue := VStr "(" |};
             {| ttype := CONSTANT; tvalue := VInt 1 |};
             {| ttype := LIT ")"; tvalue := VStr ")" |};
             {| ttype := LIT ")"; tvalue := VStr ")" |};
             {| ttype := NEWLINE; tvalue := VStr nl |} ],
           {| lineno := 2; nested_if := 1 |}).
Proof.
  split; [|split; [|split]].
  - intros prev rest. change ("(" ++ rest) with (String "(" rest).
    rewrite raw_lex_step. change (mem_char "(" t_ignore) with false. cbv iota.
    unfold master_match. rewrite no_function_rule_at_paren.
    unfold lparen_len. destruct prev as [p|].
    + destruct (is_space p).
      * rewrite no_string_rule_at_paren. reflexivity.
      * reflexivity.
    + reflexivity.
  - intros l self. split; reflexivity.
  - intros d. vm_compute. reflexivity.
  - vm_compute. reflexivity.
Qed.

(** ** Header names *)

Lemma header_name_match (body rest : string) :
  body <> EmptyString ->
  all_chars (fun c => negb (mem_char c "<>")) body = true ->
  re_match HEADER_NAME_RE ("<" ++ body ++ ">" ++ rest) = Some rest.
Proof.
  intros Hne Hb. unfold re_match, HEADER_NAME_RE.
  change ("<" ++ body ++ ">" ++ rest) with (String "<" (body ++ ">" ++ rest)).
  rewrite rmatch_alt, rmatch_seq, rmatch_chr_hit, rmatch_seq, rmatch_plus_set.
  destruct body as [|c body]; [congruence|].
  cbn [all_chars] in Hb. apply andb_true_iff in Hb. destruct Hb as [Hc Hb].
  change (String c body ++ ">" ++ rest) with (String c (body ++ ">" ++ rest)).
  cbv iota. rewrite Hc.
  rewrite (backtrack_longest _ _ _ _ rest); [reflexivity|].
  rewrite drop_while_app; [| exact Hb | reflexivity].
  change (">" ++ rest) with (String ">" rest). apply rmatch_chr_hit.
Qed.

(** X19: anything between [<] and the next [>], when no other [<] comes in
    between, is one [HEADER_NAME] token, wherever it stands and across
    lines: [t_HEADER_NAME] is the second rule of the master expression.  In
    [#if 1 < 2 && 3 > 2] the lexer finds the constant 1, one header name
    and the constant 2, no comparison; and the text line [a<b>c] is three
    tokens. *)
Theorem angle_brackets_make_a_header_name :
  (forall (prev : option ascii) (body rest : string),
      body <> EmptyString ->
      all_chars (fun c => negb (mem_char c "<>")) body = true ->
      raw_lex prev 0 ("<" ++ body ++ ">" ++ rest)
      = {| rk := RRule R_HEADER_NAME; lexeme := "<" ++ body ++ ">" |}
          :: raw_lex (Some ">"%char) 0 rest)
  /\ tokenize ("#if 1 < 2 && 3 > 2" ++ nl) lexer_init
     = Ok ([ {| ttype := IF; tvalue := VStr "#if" |};
             {| ttype := CONSTANT; tvalue := VInt 1 |};
             {| ttype := HEADER_NAME; tvalue := VStr "< 2 && 3 >" |};
             {| ttype := CONSTANT; tvalue := VInt 2 |};
             {| ttype := NEWLINE; tvalue := VStr nl |} ],
           {| lineno := 2; nested_if := 1 |})
  /\ (forall d : nat,
         output (run_process (S d) "main.c" (engine_on ("a<b>c" ++ nl)))
         = Ok (VStr ("a <b> c " ++ nl))).
Proof.
  split; [|split].
  - intros prev body rest Hne Hb.
    pose proof (header_name_match body rest Hne Hb) as Hm.
    change ("<" ++ body ++ ">" ++ rest) with (String "<" (body ++ ">" ++ rest)) in *.
    rewrite raw_lex_step. change (mem_char "<" t_ignore) with false. cbv iota.
    unfold master_match, function_rules. cbn [first_function_rule].
    change (match_len NEWLINE_RE (String "<" (body ++ ">" ++ rest))) with (@None nat).
    cbv iota. unfold match_len at 1. rewrite Hm.
    cbn [String.length].
    assert (El : (S (String.length (body ++ ">" ++ rest)) - String.length rest
                  = S (String.length (body ++ ">")))%nat).
    { rewrite !string_length_app. lia. }
    rewrite El. f_equal.
    + f_equal. cbn [take]. f_equal.
      rewrite <- (string_app_assoc body ">" rest). apply string_take_app.
    + rewrite <- (string_app_assoc body ">" rest). rewrite raw_lex_skip_app.
      rewrite last_char_app by discriminate. reflexivity.
  - vm_compute. reflexivity.
  - intros d. vm_compute. reflexivity.
Qed.

Lemma angle_brackets_make_a_header_name_witness :
  raw_lex None 0 ("<" ++ " 2 && 3 " ++ ">" ++ " 2")
  = {| rk := RRule R_HEADER_NAME; lexeme := "<" ++ " 2 && 3 " ++ ">" |}
      :: raw_lex (Some ">"%char) 0 " 2".
Proof.
  apply (proj1 angle_brackets_make_a_header_name); [discriminate | reflexivity].
Defined.

(** ** Numeric constants the conversions refuse *)

Lemma rmatch_plus_digit (A : Type) (s : string) (k : string -> option A) :
  rmatch (RPlus DIGIT) s k
  = match s with
    | String c s' => if is_digit c then backtrack is_digit s' k else None
    | EmptyString => None
    end.
Proof. apply rmatch_plus_set. Qed.

Lemma rmatch_star_digit (A : Type) (s : string) (k : string -> option A) :
  rmatch (RStar DIGIT) s k = backtrack is_digit s k.
Proof. apply rmatch_star_set. Qed.

Lemma float_needs_exponent_or_dot (s : string) :
  heads_ok is_digit exp_or_dot s = true -> match_len FLOAT_RE s = None.
Proof.
  intros H. unfold match_len, re_match, FLOAT_RE.
  assert (K1 : forall t, heads_ok is_digit exp_or_dot t = true ->
               backtrack is_digit t
                 (fun s' => rmatch (RSeq E (ROpt FLOAT_SUFFIX)) s' Some) = None).
  { apply backtrack_guard; [|reflexivity].
    intros x s' Hx. unfold E. rewrite !rmatch_seq. apply rmatch_set_miss.
    unfold exp_or_dot in Hx. apply orb_false_iff in Hx. tauto. }
  assert (K2 : forall (r : regex) t, heads_ok is_digit exp_or_dot t = true ->
               backtrack is_digit t
                 (fun s' => rmatch (RSeq (RChr ".") r) s' Some) = None).
  { intros r. apply backtrack_guard; [|reflexivity].
    intros x s' Hx. rewrite rmatch_seq. apply rmatch_chr_miss.
    unfold exp_or_dot in Hx. apply orb_false_iff in Hx. tauto. }
  assert (Ht : forall c t, heads_ok is_digit exp_or_dot (String c t) = true ->
               is_digit c = true -> heads_ok is_digit exp_or_dot t = true).
  { intros c t Hc Hd. cbn [heads_ok] in Hc. rewrite Hd in Hc.
    apply andb_true_iff in Hc. tauto. }
  rewrite !rmatch_alt.
  rewrite (rmatch_seq _ (RPlus DIGIT)), rmatch_plus_digit.
  rewrite (rmatch_seq _ (RStar DIGIT)), rmatch_star_digit.
  rewrite (rmatch_seq _ (RPlus DIGIT)), rmatch_plus_digit.
  rewrite (K2 _ s H).
  destruct s as [|c t]; [reflexivity|].
  destruct (is_digit c) eqn:Hd; [|reflexivity].
  rewrite (K1 t (Ht _ _ H Hd)), (K2 _ t (Ht _ _ H Hd)). reflexivity.
Qed.

Lemma digit_facts (c : ascii) :
  is_digit c = true ->
  Ascii.eqb NL c = false /\ Ascii.eqb "<" c = false /\ Ascii.eqb DQ c = false
  /\ Ascii.eqb "#" c = false /\ is_ident_start c = false /\ Ascii.eqb "L" c = false
  /\ mem_char c t_ignore = false /\ exp_or_dot c = false /\ mem_char c "xX" = false
  /\ Ascii.eqb SQ c = false.
Proof.
  destruct c as [[] [] [] [] [] [] [] []]; vm_compute; intros H;
    first [discriminate H | repeat split].
Qed.

Lemma suffix_facts (c : ascii) :
  mem_char c "uUlL" = true ->
  is_digit c = false /\ exp_or_dot c = false /\ mem_char c "xX" = false
  /\ digit_val c = None /\ hex_val c = None.
Proof.
  destruct c as [[] [] [] [] [] [] [] []]; vm_compute; intros H;
    first [discriminate H | repeat split].
Qed.

(** The rules tried on a text that starts with a digit. *)
Lemma rules_at_digit (c : ascii) (t : string) :
  is_digit c = true ->
  first_function_rule function_rules (String c t)
  = match match_len FLOAT_RE (String c t) with
    | Some n => Some (R_FLOAT, n)
    | None =>
        match match_len HEX_RE (String c t) with
        | Some n => Some (R_HEX, n)
        | None =>
            match match_len INTEGER_RE (String c t) with
            | Some n => Some (R_INTEGER, n)
            | None => None
            end
        end
    end.
Proof.
  intros Hd. destruct (digit_facts c Hd) as (F1 & F2 & F3 & F4 & F5 & F6 & F7 & F8 & F9 & F10).
  unfold function_rules. cbn [first_function_rule].
  assert (E1 : match_len NEWLINE_RE (String c t) = None).
  { unfold match_len, re_match, NEWLINE_RE. rewrite rmatch_plus_chr, F1. reflexivity. }
  assert (E2 : match_len HEADER_NAME_RE (String c t) = None).
  { unfold match_len, re_match, HEADER_NAME_RE.
    rewrite rmatch_alt, !rmatch_seq, !rmatch_chr_miss by assumption. reflexivity. }
  assert (E3 : match_len DIRECTIVE_RE (String c t) = None).
  { unfold match_len, re_match, DIRECTIVE_RE.
    rewrite rmatch_seq, rmatch_chr_miss by assumption. reflexivity. }
  assert (E4 : match_len IDENT_RE (String c t) = None).
  { unfold match_len, re_match, IDENT_RE.
    rewrite rmatch_seq, rmatch_set_miss by assumption. reflexivity. }
  assert (E5 : match_len STRING_LITERAL_RE (String c t) = None).
  { unfold match_len, re_match, STRING_LITERAL_RE.
    rewrite rmatch_seq, rmatch_opt, rmatch_chr_miss by assumption.
    rewrite rmatch_seq, rmatch_chr_miss by assumption. reflexivity. }
  assert (E6 : match_len LITERAL_RE (String c t) = None).
  { unfold match_len, re_match, LITERAL_RE.
    rewrite rmatch_seq, rmatch_opt, rmatch_chr_miss by assumption.
    rewrite rmatch_seq, rmatch_chr_miss by assumption. reflexivity. }
  rewrite E1, E2, E3, E4, E5, E6.
  destruct (match_len FLOAT_RE (String c t)); [reflexivity|].
  destruct (match_len HEX_RE (String c t)); [reflexivity|].
  destruct (match_len INTEGER_RE (String c t)); reflexivity.
Qed.

Lemma opt_suffix_hit (c : ascii) (rest : string) :
  mem_char c "uUlL" = true ->
  rmatch (ROpt INT_SUFFIX) (String c rest) Some = Some rest.
Proof.
  intros H. rewrite rmatch_opt. unfold INT_SUFFIX. rewrite rmatch_set_hit by exact H.
  reflexivity.
Qed.

Lemma integer_with_suffix_match (d : string) (c : ascii) (rest : string) :
  d <> EmptyString -> all_chars is_digit d = true -> mem_char c "uUlL" = true ->
  re_match INTEGER_RE (d ++ String c rest) = Some rest.
Proof.
  intros Hne Hd Hc. destruct (suffix_facts c Hc) as (S1 & _).
  assert (L : forall t, all_chars is_digit t = true ->
              backtrack is_digit (t ++ String c rest)
                (fun s' => rmatch (ROpt INT_SUFFIX) s' Some) = Some rest).
  { intros t Ht. apply backtrack_longest.
    rewrite drop_while_app; [apply opt_suffix_hit; exact Hc | exact Ht | exact S1]. }
  destruct d as [|c0 d']; [congruence|].
  cbn [all_chars] in Hd. apply andb_true_iff in Hd. destruct Hd as [H0 Hd'].
  change (String c0 d' ++ String c rest) with (String c0 (d' ++ String c rest)).
  unfold re_match, INTEGER_RE. rewrite rmatch_alt.
  assert (I2 : rmatch (RSeq (RPlus DIGIT) (ROpt INT_SUFFIX))
                 (String c0 (d' ++ String c rest)) Some = Some rest).
  { rewrite rmatch_seq, rmatch_plus_digit, H0. apply L. exact Hd'. }
  rewrite I2.
  rewrite rmatch_seq.
  destruct (Ascii.eqb "0" c0) eqn:E0.
  - apply Ascii.eqb_eq in E0. subst c0. rewrite rmatch_chr_hit, rmatch_seq.
    rewrite rmatch_plus_digit.
    destruct d' as [|x d''].
    + change (EmptyString ++ String c rest) with (String c rest). cbv iota.
      rewrite S1. reflexivity.
    + cbn [all_chars] in Hd'. apply andb_true_iff in Hd'. destruct Hd' as [Hx Hd''].
      change (String x d'' ++ String c rest) with (String x (d'' ++ String c rest)).
      cbv iota. rewrite Hx, (L d'' Hd''). reflexivity.
  - rewrite rmatch_chr_miss by exact E0. reflexivity.
Qed.

Lemma hex_needs_x (c : ascii) (t : string) :
  match t with String x _ => mem_char x "xX" = false | EmptyString => True end ->
  match_len HEX_RE (String c t) = None.
Proof.
  intros H. unfold match_len, re_match, HEX_RE. rewrite rmatch_seq.
  destruct (Ascii.eqb "0" c) eqn:E0; [|rewrite rmatch_chr_miss by exact E0; reflexivity].
  apply Ascii.eqb_eq in E0. subst c. rewrite rmatch_chr_hit, rmatch_seq.
  destruct t as [|x t']; [reflexivity|].
  rewrite rmatch_set_miss by exact H. reflexivity.
Qed.

Lemma parse_digits_stops (base : Z) (dv : ascii -> option Z) (a : string) :
  forall (acc : Z) (c : ascii) (b : string),
    dv c = None -> parse_digits base dv acc (a ++ String c b) = None.
Proof.
  induction a as [|x a IH]; intros acc c b Hc.
  - change (EmptyString ++ String c b) with (String c b). cbn [parse_digits].
    rewrite Hc. reflexivity.
  - change (String x a ++ String c b) with (String x (a ++ String c b)).
    cbn [parse_digits]. destruct (dv x); [apply IH; exact Hc | reflexivity].
Qed.

Lemma all_digits_heads (d : string) (c : ascii) (rest : string) :
  all_chars is_digit d = true -> mem_char c "uUlL" = true ->
  heads_ok is_digit exp_or_dot (d ++ String c rest) = true.
Proof.
  intros Hd Hc. apply heads_ok_app.
  - revert Hd. apply all_chars_weaken. intros x Hx. rewrite Hx.
    destruct (digit_facts x Hx) as (_ & _ & _ & _ & _ & _ & _ & F & _). rewrite F.
    reflexivity.
  - destruct (suffix_facts c Hc) as (S1 & S2 & _). split; assumption.
Qed.

Lemma scan_first_raises (t : rawtok) (raws : list rawtok) (l : Z)
  (self : C99PreProcessorLexer) (x : exn) :
  run_raw t l self = Raise x -> scan (t :: raws) l self = Raise x.
Proof. intros H. cbn [scan]. rewrite H. reflexivity. Qed.

(** X20: an integer constant with a suffix ([u], [U], [l], [L]) is matched
    by [INTEGER_RE] with its suffix, and [int] refuses the text:
    [t_INTEGER] raises [ValueError] and the buffer cannot be tokenized,
    whatever follows. *)
Theorem integer_suffix_raises_ValueError :
  (forall (d : string) (c : ascii) (rest : string) (prev : option ascii),
      d <> EmptyString -> all_chars is_digit d = true -> mem_char c "uUlL" = true ->
      raw_lex prev 0 (d ++ String c rest)
      = {| rk := RRule R_INTEGER; lexeme := d ++ String c EmptyString |}
          :: raw_lex (Some c) 0 rest)
  /\ (forall (d : string) (c : ascii) (rest : string) (self : C99PreProcessorLexer),
         d <> EmptyString -> all_chars is_digit d = true -> mem_char c "uUlL" = true ->
         tokenize (d ++ String c rest) self = Raise ValueError)
  /\ (forall d : nat,
         output (run_process (S d) "main.c" (engine_on ("x = 10L;" ++ nl)))
         = Raise ValueError).
Proof.
  assert (R : forall (d : string) (c : ascii) (rest : string) (prev : option ascii),
             d <> EmptyString -> all_chars is_digit d = true -> mem_char c "uUlL" = true ->
             raw_lex prev 0 (d ++ String c rest)
             = {| rk := RRule R_INTEGER; lexeme := d ++ String c EmptyString |}
                 :: raw_lex (Some c) 0 rest).
  { intros d c rest prev Hne Hd Hc.
    pose proof (integer_with_suffix_match d c rest Hne Hd Hc) as Hm.
    pose proof (float_needs_exponent_or_dot _ (all_digits_heads d c rest Hd Hc)) as Hf.
    destruct (suffix_facts c Hc) as (S1 & S2 & S3 & S4 & S5).
    destruct d as [|c0 d']; [congruence|].
    cbn [all_chars] in Hd. apply andb_true_iff in Hd. destruct Hd as [H0 Hd'].
    destruct (digit_facts c0 H0) as (F1 & F2 & F3 & F4 & F5 & F6 & F7 & F8 & F9 & F10).
    change (String c0 d' ++ String c rest) with (String c0 (d' ++ String c rest)) in *.
    rewrite raw_lex_step, F7. unfold master_match.
    rewrite (rules_at_digit c0 _ H0), Hf.
    rewrite hex_needs_x.
    2:{ destruct d' as [|x d'']; cbn [all_chars] in Hd'.
        - exact S3.
        - apply andb_true_iff in Hd'. destruct Hd' as [Hx _].
          change (String x d'' ++ String c rest) with (String x (d'' ++ String c rest)).
          cbv iota. destruct (digit_facts x Hx) as (_ & _ & _ & _ & _ & _ & _ & _ & G & _).
          exact G. }
    unfold match_len. rewrite Hm. cbn [String.length].
    assert (El : (S (String.length (d' ++ String c rest)) - String.length rest
                  = S (String.length (d' ++ String c EmptyString)))%nat).
    { rewrite !string_length_app. cbn [String.length]. lia. }
    rewrite El.
    assert (Ea : d' ++ String c rest = (d' ++ String c EmptyString) ++ rest).
    { rewrite string_app_assoc. reflexivity. }
    f_equal.
    - f_equal. cbn [take].
      change (String c0 d' ++ String c EmptyString)
        with (String c0 (d' ++ String c EmptyString)). f_equal.
      rewrite Ea. apply string_take_app.
    - rewrite Ea, raw_lex_skip_app, last_char_app by discriminate. reflexivity. }
  split; [exact R | split].
  - intros d c rest self Hne Hd Hc. unfold tokenize.
    rewrite (R d c rest None Hne Hd Hc).
    rewrite (scan_first_raises _ _ _ _ ValueError); [reflexivity|].
    unfold run_raw. cbn [rk lexeme run_rule].
    destruct (suffix_facts c Hc) as (S1 & S2 & S3 & S4 & S5).
    assert (Hi : int_of_lexeme (d ++ String c EmptyString) = Raise ValueError).
    { unfold int_of_lexeme. rewrite parse_digits_stops by exact S4.
      destruct (d ++ String c EmptyString); reflexivity. }
    rewrite Hi. reflexivity.
  - intros d. vm_compute. reflexivity.
Qed.

Lemma integer_suffix_raises_ValueError_witness :
  tokenize ("10" ++ String "L" ";") lexer_init = Raise ValueError.
Proof.
  apply (proj1 (proj2 integer_suffix_raises_ValueError));
    [discriminate | reflexivity | reflexivity].
Defined.

(** ** Hexadecimal constants *)

Lemma rmatch_plus_hex (A : Type) (s : string) (k : string -> option A) :
  rmatch (RPlus HEX_DIGIT) s k
  = match s with
    | String c s' => if hex_class c then backtrack hex_class s' k else None
    | EmptyString => None
    end.
Proof. apply rmatch_plus_set. Qed.

Lemma opt_suffix_total (s : string) :
  exists sfx rest',
    s = sfx ++ rest'
    /\ rmatch (ROpt INT_SUFFIX) s Some = Some rest'
    /\ (sfx = EmptyString \/ exists c, sfx = String c EmptyString).
Proof.
  rewrite rmatch_opt. unfold INT_SUFFIX. destruct s as [|c s'].
  - exists EmptyString, EmptyString. repeat split. left. reflexivity.
  - destruct (mem_char c "uUlL") eqn:Hc.
    + exists (String c EmptyString), s'. rewrite rmatch_set_hit by exact Hc.
      repeat split. right. exists c. reflexivity.
    + exists EmptyString, (String c s'). rewrite rmatch_set_miss by exact Hc.
      repeat split. left. reflexivity.
Qed.

Lemma parse_digits_minus (a : string) :
  forall (acc : Z) (b : string),
    mem_char "-" a = true -> parse_digits 16 hex_val acc (a ++ b) = None.
Proof.
  induction a as [|x a IH]; intros acc b H; [discriminate|].
  change (String x a ++ b) with (String x (a ++ b)). cbn [parse_digits].
  cbn [mem_char] in H. destruct (Ascii.eqb "-" x) eqn:E.
  - apply Ascii.eqb_eq in E. subst x. reflexivity.
  - cbn [orb] in H. destruct (hex_val x); [apply IH; exact H | reflexivity].
Qed.

Lemma x_facts (x : ascii) :
  mem_char x "xX" = true ->
  is_digit x = false /\ exp_or_dot x = false.
Proof.
  destruct x as [[] [] [] [] [] [] [] []]; vm_compute; intros H;
    first [discriminate H | repeat split].
Qed.

(** X21: the class [HEX_DIGIT] is written [[a-fA-F-0-9]] and holds the
    minus sign, so [t_HEX] takes [0x1-2] as one lexeme, which [int(_, 16)]
    refuses: a hexadecimal constant directly followed by a minus raises
    [ValueError], where the same with a decimal constant gives three
    tokens. *)
Theorem hex_constant_with_minus_raises_ValueError :
  (forall (x : ascii) (body rest : string) (self : C99PreProcessorLexer),
      mem_char x "xX" = true ->
      all_chars hex_class body = true ->
      mem_char "-" body = true ->
      match rest with String c _ => hex_class c = false | EmptyString => True end ->
      tokenize (String "0" (String x (body ++ rest))) self = Raise ValueError)
  /\ (forall d : nat,
         output (run_process (S d) "main.c" (engine_on ("x = 0x1-2;" ++ nl)))
         = Raise ValueError)
  /\ tokenize "1-2" lexer_init
     = Ok ([ {| ttype := CONSTANT; tvalue := VInt 1 |};
             {| ttype := LIT "-"; tvalue := VStr "-" |};
             {| ttype := CONSTANT; tvalue := VInt 2 |} ], lexer_init).
Proof.
  split; [|split].
  - intros x body rest self Hx Hb Hm Hr.
    destruct (x_facts x Hx) as (X1 & X2).
    destruct body as [|b0 body']; [discriminate|].
    cbn [all_chars] in Hb. apply andb_true_iff in Hb. destruct Hb as [Hb0 Hb'].
    change (String b0 body' ++ rest) with (String b0 (body' ++ rest)).
    destruct (opt_suffix_total rest) as (sfx & rest' & Er & Ho & Hs).
    assert (Hre : re_match HEX_RE (String "0" (String x (String b0 (body' ++ rest))))
                  = Some rest').
    { unfold re_match, HEX_RE.
      rewrite rmatch_seq, rmatch_chr_hit, rmatch_seq, rmatch_set_hit by exact Hx.
      rewrite rmatch_seq, rmatch_plus_hex. cbv iota. rewrite Hb0.
      apply backtrack_longest. rewrite drop_while_app; [exact Ho | exact Hb' | exact Hr]. }
    assert (Hf : match_len FLOAT_RE (String "0" (String x (String b0 (body' ++ rest))))
                 = None).
    { apply float_needs_exponent_or_dot. cbn [heads_ok].
      change (exp_or_dot "0") with false. change (is_digit "0") with true.
      rewrite X1, X2. reflexivity. }
    unfold tokenize. rewrite raw_lex_step.
    change (mem_char "0" t_ignore) with false. cbv iota.
    unfold master_match. rewrite (rules_at_digit "0" _ eq_refl), Hf.
    unfold match_len. rewrite Hre.
    set (s := String "0" (String x (String b0 (body' ++ rest)))).
    assert (El : (String.length s - String.length rest'
                  = S (S (S (String.length (body' ++ sfx)))))%nat).
    { unfold s. cbn [String.length]. rewrite Er, !string_length_app. lia. }
    rewrite El.
    rewrite (scan_first_raises _ _ _ _ ValueError); [reflexivity|].
    unfold run_raw. cbn [rk lexeme run_rule].
    assert (Et : take (S (S (S (String.length (body' ++ sfx))))) s
                 = String "0" (String x (String b0 (body' ++ sfx)))).
    { unfold s. cbn [take]. do 3 f_equal.
      rewrite Er, <- string_app_assoc. apply string_take_app. }
    rewrite Et. unfold hex_of_lexeme. rewrite Hx.
    change (String b0 (body' ++ sfx)) with (String b0 body' ++ sfx).
    rewrite parse_digits_minus by exact Hm. reflexivity.
  - intros d. vm_compute. reflexivity.
  - vm_compute. reflexivity.
Qed.

Lemma hex_constant_with_minus_raises_ValueError_witness :
  tokenize (String "0" (String "x" ("1-2" ++ ";"))) lexer_init = Raise ValueError.
Proof.
  apply (proj1 hex_constant_with_minus_raises_ValueError); reflexivity.
Defined.

Lemma decimal_constant_round_trip_witness :
  int_of_lexeme (Z_to_string 2026) = Ok 2026.
Proof. apply (proj1 decimal_constant_round_trip). lia. Defined.

(** ** Parameter lists *)

Lemma split_on_word (sep : ascii) (w : string) :
  forall (cur rest : string),
    mem_char sep w = false ->
    split_on sep cur (w ++ rest) = split_on sep (cur ++ w) rest.
Proof.
  induction w as [|c w IH]; intros cur rest H.
  - rewrite string_app_empty_r. reflexivity.
  - change (String c w ++ rest) with (String c (w ++ rest)). cbn [split_on].
    cbn [mem_char] in H. apply orb_false_iff in H. destruct H as [Hc Hw].
    rewrite Ascii.eqb_sym in Hc. rewrite Hc. rewrite IH by exact Hw.
    rewrite string_app_assoc. reflexivity.
Qed.

Lemma split_on_join (sep : ascii) (names : list string) :
  names <> [] ->
  Forall (fun w => mem_char sep w = false) names ->
  split_on sep EmptyString (join (String sep EmptyString) names) = names.
Proof.
  intros Hne Hall. induction Hall as [|x l Hx Hl IH]; [congruence|].
  destruct l as [|y l'].
  - cbn [join]. rewrite <- (string_app_empty_r x) at 1.
    rewrite split_on_word by exact Hx. reflexivity.
  - change (join (String sep EmptyString) (x :: y :: l'))
      with (x ++ String sep EmptyString ++ join (String sep EmptyString) (y :: l')).
    rewrite split_on_word by exact Hx.
    change (String sep EmptyString ++ join (String sep EmptyString) (y :: l'))
      with (String sep (join (String sep EmptyString) (y :: l'))).
    cbn [split_on]. rewrite Ascii.eqb_refl. f_equal.
    apply IH. discriminate.
Qed.

Lemma join_snoc (sep : string) (names : list string) (i : string) :
  names <> [] ->
  join sep (names ++ [i]) = join sep names ++ sep ++ i.
Proof.
  intros Hne. induction names as [|x l IH]; [congruence|].
  destruct l as [|y l'].
  - reflexivity.
  - change (join sep ((x :: y :: l') ++ [i])) with (x ++ sep ++ join sep ((y :: l') ++ [i])).
    rewrite IH by discriminate.
    change (join sep (x :: y :: l')) with (x ++ sep ++ join sep (y :: l')).
    rewrite !string_app_assoc. reflexivity.
Qed.

Lemma p_define_directive_3_run (p1 p3 p5 r : value) (n params : string)
  (e : C99PreProcessor) :
  nested_if (_lexer e) = 0 ->
  p_define_directive_3 [p1; VStr n; p3; VStr params; p5; r] e
  = Ok (VStr nl,
        set_macro
          (<[n := Macro_init n r (VList (map VStr (split_on "," EmptyString params)))
                    false VNone]> (macro e)) e).
Proof.
  intros Hz. unfold p_define_directive_3, nested_if_zero, mbind, get, ret, item.
  rewrite Hz. reflexivity.
Qed.

(** X26: the parameters of [#define NAME(a,b,c)].  [p_identifier_list]
    joins the names and the commas into one string and [p_define_directive_3]
    splits it at the commas again: the parameter list stored for the macro
    is the list of the names, in order. *)
Theorem parameter_list_round_trip :
  forall (names : list string),
    names <> [] ->
    Forall (fun w => mem_char "," w = false) names ->
    (forall (i : string) (e : C99PreProcessor),
        p_identifier_list [VStr (join "," names); VStr ","; VStr i] e
        = Ok (VStr (join "," (names ++ [i])), e))
    /\ (forall (n : string) (r : value) (e : C99PreProcessor),
           nested_if (_lexer e) = 0 ->
           exists e1,
             p_define_directive_3
               [VStr "#define"; VStr n; VStr "("; VStr (join "," names); VStr ")"; r] e
             = Ok (VStr nl, e1)
             /\ macro e1 !! n
                = Some (Macro_init n r (VList (map VStr names)) false VNone)).
Proof.
  intros names Hne Hall. split.
  - intros i e. rewrite join_snoc by exact Hne. reflexivity.
  - intros n r e Hz. eexists. split.
    + rewrite (p_define_directive_3_run _ _ _ _ _ _ _ Hz).
      change (String "," EmptyString) with ",".
      rewrite (split_on_join "," names Hne Hall). reflexivity.
    + destruct e; cbn. apply lookup_insert_eq.
Qed.

Lemma parameter_list_round_trip_witness :
  p_identifier_list [VStr (join "," ["a"; "b"]); VStr ","; VStr "c"] (engine_on EmptyString)
  = Ok (VStr (join "," (["a"; "b"] ++ ["c"])), engine_on EmptyString).
Proof.
  apply (parameter_list_round_trip ["a"; "b"]); [discriminate|].
  repeat constructor.
Defined.

(** ** A line of identifiers, end to end *)

Lemma ident_start_facts (c : ascii) :
  is_ident_start c = true ->
  Ascii.eqb NL c = false /\ Ascii.eqb "<" c = false /\ Ascii.eqb DQ c = false
  /\ Ascii.eqb "#" c = false /\ mem_char c t_ignore = false.
Proof.
  destruct c as [[] [] [] [] [] [] [] []]; vm_compute; intros H;
    first [discriminate H | repeat split].
Qed.

Lemma ident_lex (w rest : string) (prev : option ascii) :
  is_identifier w = true ->
  match rest with String c _ => is_ident_char c = false | EmptyString => True end ->
  exists p, raw_lex prev 0 (w ++ rest) = ident_raw w :: raw_lex (Some p) 0 rest.
Proof.
  intros Hw Hr. destruct w as [|c0 w']; [discriminate|].
  cbn [is_identifier] in Hw. apply andb_true_iff in Hw. destruct Hw as [H0 Hw'].
  destruct (ident_start_facts c0 H0) as (F1 & F2 & F3 & F4 & F5).
  change (String c0 w' ++ rest) with (String c0 (w' ++ rest)).
  rewrite raw_lex_step, F5. unfold master_match, function_rules.
  cbn [first_function_rule].
  assert (E1 : match_len NEWLINE_RE (String c0 (w' ++ rest)) = None).
  { unfold match_len, re_match, NEWLINE_RE. rewrite rmatch_plus_chr, F1. reflexivity. }
  assert (E2 : match_len HEADER_NAME_RE (String c0 (w' ++ rest)) = None).
  { unfold match_len, re_match, HEADER_NAME_RE.
    rewrite rmatch_alt, !rmatch_seq, !rmatch_chr_miss by assumption. reflexivity. }
  assert (E3 : match_len DIRECTIVE_RE (String c0 (w' ++ rest)) = None).
  { unfold match_len, re_match, DIRECTIVE_RE.
    rewrite rmatch_seq, rmatch_chr_miss by assumption. reflexivity. }
  assert (E4 : match_len IDENT_RE (String c0 (w' ++ rest)) = Some (S (String.length w'))).
  { unfold match_len, re_match, IDENT_RE.
    rewrite rmatch_seq, rmatch_set_hit by exact H0. rewrite rmatch_star_set.
    rewrite (backtrack_longest _ _ _ _ rest).
    - cbn [String.length]. rewrite string_length_app. f_equal. lia.
    - rewrite drop_while_app; [reflexivity | exact Hw' | exact Hr]. }
  rewrite E1, E2, E3, E4.
  exists (match last_char w' with Some c => c | None => c0 end).
  unfold ident_raw. f_equal.
  - f_equal. cbn [take]. f_equal. apply string_take_app.
  - rewrite raw_lex_skip_app. destruct (last_char w'); reflexivity.
Qed.

Lemma newline_lex (prev : option ascii) : raw_lex prev 0 nl = [newline_raw].
Proof. reflexivity. Qed.

Lemma space_lex (prev : option ascii) (s : string) :
  raw_lex prev 0 (String " " s) = raw_lex (Some " "%char) 0 s.
Proof. reflexivity. Qed.

Lemma line_lex (ws : list string) :
  ws <> [] ->
  Forall (fun w => is_identifier w = true) ws ->
  forall prev : option ascii,
    raw_lex prev 0 (join " " ws ++ nl) = (map ident_raw ws ++ [newline_raw])%list.
Proof.
  intros Hne Hall. induction Hall as [|w l Hw Hl IH]; intros prev; [congruence|].
  destruct l as [|w2 l'].
  - cbn [join map app].
    destruct (ident_lex w nl prev Hw) as [p Hp]; [reflexivity|].
    rewrite Hp, newline_lex. reflexivity.
  - change (join " " (w :: w2 :: l')) with (w ++ " " ++ join " " (w2 :: l')).
    rewrite !string_app_assoc.
    change (" " ++ join " " (w2 :: l') ++ nl) with (String " " (join " " (w2 :: l') ++ nl)).
    destruct (ident_lex w (String " " (join " " (w2 :: l') ++ nl)) prev Hw) as [p Hp];
      [reflexivity|].
    rewrite Hp, space_lex, IH by discriminate. reflexivity.
Qed.

Lemma set_lexer_id (e : C99PreProcessor) : set_lexer (_lexer e) e = e.
Proof. destruct e; reflexivity. Qed.

Lemma next_token_words (ws : list string) (l : Z) (e : C99PreProcessor) :
  next_token (map ident_raw ws ++ [newline_raw])%list l e = Ok (at_words ws l e).
Proof.
  destruct ws as [|w ws']; cbn [map app next_token at_words].
  - reflexivity.
  - unfold run_raw, ident_raw. cbn [rk lexeme run_rule bind].
    rewrite set_lexer_id. reflexivity.
Qed.

Lemma macro_at_words (ws : list string) (l : Z) (e : C99PreProcessor) :
  macro (eng (at_words ws l e)) = macro e.
Proof. destruct ws; destruct e; reflexivity. Qed.

Lemma act_p_token_undefined (w : string) (s : pst) :
  macro (eng s) !! w = None -> act (p_token [VStr w]) s = Ok (VStr w, s).
Proof.
  intros H. unfold act, p_token, mbind, item, ret. cbn [nth_error Nat.pred].
  rewrite (in_macro_undefined _ _ H). destruct s; reflexivity.
Qed.

Lemma peek_words (w : string) (ws : list string) (l : Z) (e : C99PreProcessor) :
  peek (at_words (w :: ws) l e) = Ok (Some IDENTIFIER, at_words (w :: ws) l e).
Proof. reflexivity. Qed.

Lemma shift_words (w : string) (ws : list string) (l : Z) (e : C99PreProcessor) :
  shift (at_words (w :: ws) l e) = Ok (VStr w, at_words ws l e).
Proof.
  unfold shift. cbn [at_words la pending lex_lineno eng].
  rewrite next_token_words. reflexivity.
Qed.

Lemma reduce_at_words (m : M value) (ws : list string) (l : Z) (e : C99PreProcessor) :
  reduce_on follows_token m (at_words ws l e) = act m (at_words ws l e).
Proof. destruct ws; reflexivity. Qed.

Lemma parse_token_word (w : string) (ws : list string) (l : Z) (e : C99PreProcessor) :
  macro e !! w = None ->
  parse_token (at_words (w :: ws) l e) = Ok (VStr w, at_words ws l e).
Proof.
  intros H. unfold parse_token. unfold pbind at 1. rewrite peek_words.
  unfold pbind. rewrite shift_words, reduce_at_words. apply act_p_token_undefined.
  rewrite macro_at_words. exact H.
Qed.

Lemma act_token_list_2 (a w : string) (s : pst) :
  act (p_token_list [VStr a; VStr w]) s = Ok (VStr (a ++ " " ++ w), s).
Proof. destruct s; reflexivity. Qed.

Lemma act_token_list_1 (v : value) (s : pst) :
  act (p_token_list [v]) s = Ok (v, s).
Proof. destruct s; reflexivity. Qed.

Lemma join_onto_join (ws : list string) :
  forall (acc w : string),
    join_onto (acc ++ " " ++ w) ws = acc ++ " " ++ join " " (w :: ws).
Proof.
  induction ws as [|x ws IH]; intros acc w; [reflexivity|].
  cbn [join_onto]. rewrite IH.
  change (join " " (w :: x :: ws)) with (w ++ " " ++ join " " (x :: ws)).
  rewrite !string_app_assoc. reflexivity.
Qed.

Lemma join_onto_head (w : string) (ws : list string) :
  join_onto w ws = join " " (w :: ws).
Proof.
  destruct ws as [|x ws]; [reflexivity|].
  cbn [join_onto]. rewrite join_onto_join. reflexivity.
Qed.

Lemma token_list_loop (ws : list string) :
  forall (n : nat) (acc : string) (l : Z) (e : C99PreProcessor),
    Forall (fun w => macro e !! w = None) ws ->
    (List.length ws < n)%nat ->
    loop_while n (la_is starts_token)
      (fun acc => pbind parse_token (fun t => act (p_token_list [acc; t])))
      (VStr acc) (at_words ws l e)
    = Ok (VStr (join_onto acc ws), at_words [] l e).
Proof.
  induction ws as [|w ws IH]; intros n acc l e Hall Hn.
  - destruct n as [|n]; [simpl in Hn; lia|]. reflexivity.
  - destruct n as [|n]; [simpl in Hn; lia|].
    inversion Hall as [|x y Hw Hws]; subst.
    cbn [loop_while]. unfold pbind at 1. rewrite peek_words.
    cbn [la_is starts_token].
    unfold pbind at 1. unfold pbind at 1.
    rewrite (parse_token_word w ws l e Hw), act_token_list_2.
    apply IH; [exact Hws | simpl in Hn; lia].
Qed.

Lemma pending_at_words (ws : list string) (l : Z) (e : C99PreProcessor) :
  List.length (pending (at_words ws l e)) = List.length ws.
Proof.
  destruct ws as [|w ws]; [reflexivity|]. cbn [at_words pending].
  rewrite length_app, length_map. simpl. lia.
Qed.

Lemma parse_token_list_words (w : string) (ws : list string) (l : Z) (e : C99PreProcessor) :
  Forall (fun w => macro e !! w = None) (w :: ws) ->
  parse_token_list (at_words (w :: ws) l e)
  = Ok (VStr (join " " (w :: ws)), at_words [] l e).
Proof.
  intros Hall. inversion Hall as [|x y Hw Hws]; subst.
  unfold parse_token_list. unfold pbind at 1.
  rewrite (parse_token_word w ws l e Hw). unfold pbind at 1.
  rewrite act_token_list_1. unfold while.
  rewrite token_list_loop; [rewrite join_onto_head; reflexivity | exact Hws |].
  rewrite pending_at_words. lia.
Qed.

Lemma parse_text_line_words (w : string) (ws : list string) (l : Z) (e : C99PreProcessor) :
  Forall (fun w => macro e !! w = None) (w :: ws) ->
  parse_text_line (at_words (w :: ws) l e)
  = Ok (VStr (join " " (w :: ws) ++ " " ++ nl),
        {| la := None; pending := []; lex_lineno := l + 1; eng := after_newline l e |}).
Proof.
  intros Hall. unfold parse_text_line. unfold pbind at 1. rewrite peek_words.
  cbn [la_is toktype_eqb].
  unfold pbind at 1. rewrite (parse_token_list_words w ws l e Hall).
  reflexivity.
Qed.

Lemma parse_group_words (parse : string -> M value) (rec : nonterm -> P value)
  (w : string) (ws : list string) (l : Z) (e : C99PreProcessor) :
  Forall (fun w => macro e !! w = None) (w :: ws) ->
  parse_group parse rec (at_words (w :: ws) l e)
  = Ok (VStr (join " " (w :: ws) ++ " " ++ nl),
        {| la := None; pending := []; lex_lineno := l + 1; eng := after_newline l e |}).
Proof.
  intros Hall. unfold parse_group. unfold pbind at 1.
  unfold parse_group_part. unfold pbind at 1. rewrite peek_words.
  cbn [starts_group_part starts_token].
  unfold pbind at 1. rewrite (parse_text_line_words w ws l e Hall).
  reflexivity.
Qed.

Lemma parse_text_words (depth : nat) (ws : list string) (e : C99PreProcessor) :
  ws <> [] ->
  Forall (fun w => is_identifier w = true /\ macro e !! w = None) ws ->
  parse_text (S depth) (join " " ws ++ nl) e
  = Ok (VStr (join " " ws ++ " " ++ nl), after_newline 1 e).
Proof.
  intros Hne Hall.
  assert (H1 : Forall (fun w => is_identifier w = true) ws).
  { revert Hall. apply List.Forall_impl. tauto. }
  assert (H2 : Forall (fun w => macro e !! w = None) ws).
  { revert Hall. apply List.Forall_impl. tauto. }
  cbn [parse_text]. rewrite (line_lex ws Hne H1 None), next_token_words.
  destruct ws as [|w ws']; [congruence|].
  unfold parse_preprocessing_file. unfold pbind at 1. rewrite peek_words.
  unfold pbind at 1.
  replace (4 * List.length (map ident_raw (w :: ws') ++ [newline_raw]) + 8)%nat
    with (S (4 * List.length (map ident_raw (w :: ws') ++ [newline_raw]) + 7))%nat by lia.
  cbn [drive parse_nonterm].
  rewrite (parse_group_words _ _ w ws' 1 e H2). reflexivity.
Qed.

Lemma plain_facts (c : ascii) :
  plain c = true ->
  negb (mem_char c "<>%?") = true /\ negb (Ascii.eqb "/" c) = true
  /\ Ascii.eqb c BSL = false.
Proof.
  destruct c as [[] [] [] [] [] [] [] []]; vm_compute; intros H;
    first [discriminate H | repeat split].
Qed.

Lemma ident_start_char (c : ascii) : is_ident_start c = true -> is_ident_char c = true.
Proof. unfold is_ident_char. intros ->. reflexivity. Qed.

Lemma all_chars_app (f : ascii -> bool) (a b : string) :
  all_chars f (a ++ b) = all_chars f a && all_chars f b.
Proof.
  induction a as [|c a IH]; [reflexivity|].
  change (String c a ++ b) with (String c (a ++ b)). cbn [all_chars].
  rewrite IH, andb_assoc. reflexivity.
Qed.

Lemma identifier_plain (w : string) : is_identifier w = true -> all_chars plain w = true.
Proof.
  destruct w as [|c w']; [discriminate|]. cbn [is_identifier all_chars].
  intros H. apply andb_true_iff in H. destruct H as [H0 H1].
  unfold plain at 1. rewrite (ident_start_char c H0). cbn [orb andb].
  revert H1. apply all_chars_weaken. intros x Hx. unfold plain. rewrite Hx. reflexivity.
Qed.

Lemma line_plain (ws : list string) :
  Forall (fun w => is_identifier w = true) ws ->
  all_chars plain (join " " ws ++ nl) = true.
Proof.
  intros Hall. rewrite all_chars_app. apply andb_true_iff. split; [|reflexivity].
  induction Hall as [|w l Hw Hl IH]; [reflexivity|].
  destruct l as [|w2 l'].
  - cbn [join]. exact (identifier_plain w Hw).
  - change (join " " (w :: w2 :: l')) with (w ++ " " ++ join " " (w2 :: l')).
    rewrite !all_chars_app, (identifier_plain w Hw), IH. reflexivity.
Qed.

Lemma no_backslash_newline (s : string) :
  all_chars (fun c => negb (Ascii.eqb c BSL)) s = true ->
  contains (String BSL nl) s = false.
Proof.
  induction s as [|c s IH]; intros H; [reflexivity|].
  cbn [all_chars] in H. apply andb_true_iff in H. destruct H as [Hc Hs].
  rewrite contains_cons, (IH Hs), orb_false_r.
  apply starts_with_other. rewrite Ascii.eqb_sym. apply negb_true_iff. exact Hc.
Qed.

Lemma phase_filter_plain (keep : bool) (s : string) :
  all_chars plain s = true -> ends_with_nl s = true ->
  phase_filter keep s = s.
Proof.
  intros Hp He. unfold phase_filter, _is_source_file. rewrite He.
  assert (Hn : negb (Nat.eqb (String.length s) 0) = true).
  { destruct s; [discriminate | reflexivity]. }
  rewrite Hn. cbn [andb].
  rewrite replace_di_trigraph_plain.
  2:{ revert Hp. apply all_chars_weaken. intros c Hc. apply (plain_facts c Hc). }
  rewrite join_backslash_splice, (splice_id_aux _ s (le_n _)).
  2:{ apply no_backslash_newline. revert Hp. apply all_chars_weaken.
      intros c Hc. apply negb_true_iff. apply (plain_facts c Hc). }
  destruct keep; [reflexivity|].
  unfold _strip_comment, re_sub. rewrite <- (string_app_empty_r s) at 1.
  rewrite sub_from_plain.
  - cbn [sub_from]. apply string_app_empty_r.
  - revert Hp. apply all_chars_weaken. intros c Hc. apply (plain_facts c Hc).
Qed.

Lemma process_found (parse : string -> M value) (fp content : string) (e : C99PreProcessor) :
  files e !! Path fp = Some content ->
  process parse fp e
  = parse (phase_filter (_keep_comment e) content)
          (log_read (Path fp) (set_current_file (Some (Path fp)) e)).
Proof.
  intros H. cbv [process mbind modify read_text get ret raise].
  destruct e as [cf lx ht mc sp kc fl fr ck].
  cbn [files set_current_file _keep_comment log_read] in *. rewrite H. reflexivity.
Qed.

(** X27: a file of one line of identifiers, none of them a macro, separated
    by single spaces: [process] returns the identifiers joined by single
    spaces, then a space and the newline.  The phase filter leaves the text
    as it is, each word is one [IDENTIFIER] token, the token list is
    reduced word by word, and the text line joins it with the newline.
    The engine afterwards has the file as its current file and in its log,
    and the line counter at 2. *)
Theorem line_of_identifiers_is_copied :
  forall (depth : nat) (ws : list string) (fp : string) (e : C99PreProcessor),
    ws <> [] ->
    Forall (fun w => is_identifier w = true /\ macro e !! w = None) ws ->
    files e !! Path fp = Some (join " " ws ++ nl) ->
    run_process (S depth) fp e
    = Ok (VStr (join " " ws ++ " " ++ nl),
          after_newline 1 (log_read (Path fp) (set_current_file (Some (Path fp)) e))).
Proof.
  intros depth ws fp e Hne Hall Hf. unfold run_process.
  rewrite (process_found _ _ _ _ Hf).
  rewrite phase_filter_plain.
  - apply parse_text_words; [exact Hne|].
    revert Hall. apply List.Forall_impl. intros w [H1 H2]. split; [exact H1|].
    destruct e; exact H2.
  - apply line_plain. revert Hall. apply List.Forall_impl. tauto.
  - unfold ends_with_nl. rewrite last_char_app by discriminate. reflexivity.
Qed.

Lemma line_of_identifiers_is_copied_witness :
  run_process 1 "main.c" (engine_on ("int x" ++ nl))
  = Ok (VStr ("int x " ++ nl),
        after_newline 1
          (log_read (Path "main.c")
             (set_current_file (Some (Path "main.c")) (engine_on ("int x" ++ nl))))).
Proof.
  apply (line_of_identifiers_is_copied 0 ["int"; "x"] "main.c");
    [discriminate | repeat constructor | reflexivity].
Defined.

(** ** Conditional sections *)

Lemma first_true_group_none (gs : list value) (e : C99PreProcessor) :
  Forall false_group gs -> first_true_group gs e = Ok (None, e).
Proof.
  induction 1 as [|g gs (c & b & -> & Hc) Hgs IH]; [reflexivity|].
  cbn [first_true_group]. unfold mbind, index, ret. rewrite Hc. exact IH.
Qed.

Lemma first_true_group_found (gs1 gs2 : list value) (c b : value) (e : C99PreProcessor) :
  Forall false_group gs1 -> truthy c = true ->
  first_true_group (gs1 ++ VTuple c b :: gs2) e = Ok (Some b, e).
Proof.
  intros H Hc. induction H as [|g gs (c' & b' & -> & Hc') Hgs IH].
  - cbn [app first_true_group]. unfold mbind, index, ret. rewrite Hc. reflexivity.
  - cbn [app first_true_group]. unfold mbind, index, ret. rewrite Hc'. exact IH.
Qed.

(** X28: the selection of a group in [if_section] with [#elif] groups.
    When the condition of [#if] holds its group is taken; otherwise the
    group of the first [#elif] whose condition holds, whatever the later
    ones say; when none holds, the [#else] group, or a single newline when
    there is no [#else].  The selected block is what is handed to the
    rescan. *)
Theorem first_true_elif_group_is_selected :
  forall (parse : string -> M value) (c0 g0 els endif : value) (e : C99PreProcessor),
    (truthy c0 = true ->
     forall gs : value,
       p_if_section4 parse [VTuple c0 g0; gs; els; endif] e = rescan parse g0 e
       /\ p_if_section2 parse [VTuple c0 g0; gs; endif] e = rescan parse g0 e)
    /\ (truthy c0 = false ->
        forall (gs1 gs2 : list value) (c b : value),
          Forall false_group gs1 -> truthy c = true ->
          p_if_section4 parse [VTuple c0 g0; VList (gs1 ++ VTuple c b :: gs2); els; endif] e
          = rescan parse b e
          /\ p_if_section2 parse [VTuple c0 g0; VList (gs1 ++ VTuple c b :: gs2); endif] e
             = rescan parse b e)
    /\ (truthy c0 = false ->
        forall gs : list value,
          Forall false_group gs ->
          p_if_section4 parse [VTuple c0 g0; VList gs; els; endif] e = rescan parse els e
          /\ p_if_section2 parse [VTuple c0 g0; VList gs; endif] e
             = rescan parse (VStr nl) e)
    /\ (forall d : nat,
           output (run_process (S (S d)) "main.c"
                     (engine_on ("#if 0" ++ nl ++ "A" ++ nl ++ "#elif 1" ++ nl ++ "B" ++ nl
                                 ++ "#elif 1" ++ nl ++ "C" ++ nl ++ "#else" ++ nl
                                 ++ "D" ++ nl ++ "#endif" ++ nl)))
           = Ok (VStr ("B " ++ nl))).
Proof.
  intros parse c0 g0 els endif e. split; [|split; [|split]].
  - intros H0 gs.
    cbv [p_if_section4 p_if_section2 mbind item index lift ret nth_error Nat.pred].
    rewrite H0. split; reflexivity.
  - intros H0 gs1 gs2 c b Hf Hc.
    cbv [p_if_section4 p_if_section2 mbind item index lift ret nth_error Nat.pred py_iter].
    rewrite H0, (first_true_group_found gs1 gs2 c b e Hf Hc). split; reflexivity.
  - intros H0 gs Hf.
    cbv [p_if_section4 p_if_section2 mbind item index lift ret nth_error Nat.pred py_iter].
    rewrite H0, (first_true_group_none gs e Hf). split; reflexivity.
  - intros d. vm_compute. reflexivity.
Qed.

Lemma first_true_elif_group_is_selected_witness :
  p_if_section4 (fun s => ret (VStr s))
    [VTuple (VInt 0) (VStr EmptyString);
     VList ([VTuple (VInt 0) (VStr EmptyString)]
            ++ VTuple (VInt 1) (VStr "B") :: [VTuple (VInt 1) (VStr "C")]);
     VStr "D"; VStr nl] (engine_on EmptyString)
  = rescan (fun s => ret (VStr s)) (VStr "B") (engine_on EmptyString).
Proof.
  apply (proj1 (proj2 (first_true_elif_group_is_selected (fun s => ret (VStr s))
                         (VInt 0) (VStr EmptyString) (VStr "D") (VStr nl)
                         (engine_on EmptyString)))).
  - reflexivity.
  - constructor; [|constructor]. exists (VInt 0), (VStr EmptyString). split; reflexivity.
  - reflexivity.
Defined.

(** ** Illegal characters *)

Lemma illegal_char_lex (c : ascii) (rest : string) (prev : option ascii) :
  illegal_char c = true ->
  raw_lex prev 0 (String c rest)
  = {| rk := RIllegal; lexeme := String c EmptyString |} :: raw_lex (Some c) 0 rest.
Proof.
  destruct prev as [p|];
    destruct c as [[] [] [] [] [] [] [] []]; intros H;
    first [discriminate H | reflexivity].
Qed.

Lemma scan_illegal (t : rawtok) (raws : list rawtok) (l : Z)
  (self : C99PreProcessorLexer) :
  rk t = RIllegal -> scan (t :: raws) l self = scan raws l self.
Proof.
  intros H. cbn [scan]. unfold run_raw. rewrite H. cbn [bind].
  destruct (scan raws l self) as [[[toks l'] s1]|]; reflexivity.
Qed.

(** The scanner looks at the character before a position only to tell
    whether it is white space. *)
Lemma raw_lex_prev (s : string) (p q : option ascii) :
  match p with Some c => is_space c | None => false end
  = match q with Some c => is_space c | None => false end ->
  raw_lex p 0 s = raw_lex q 0 s.
Proof.
  intros H. destruct s as [|c s']; [reflexivity|].
  rewrite !raw_lex_step. unfold master_match.
  assert (L : lparen_len p (String c s') = lparen_len q (String c s')).
  { unfold lparen_len.
    destruct p as [a|], q as [b|]; try rewrite H; try rewrite <- H; reflexivity. }
  rewrite L. reflexivity.
Qed.

(** X29: a character with which no rule of the lexer starts, which is not
    in [t_ignore] and is no literal, gives no token.  At any position where
    a token could start, scanning goes on behind it with the line counter
    and the state of the wrapper as they were; at the head of the text, a
    character of this kind that is not white space can be removed without
    changing what [tokenize] returns.  (The white space among them, such as
    a carriage return, still counts as white space before a parenthesis.) *)
Theorem illegal_character_is_skipped (c : ascii) :
  illegal_char c = true ->
  (forall (prev : option ascii) (rest : string) (l : Z) (self : C99PreProcessorLexer),
      scan (raw_lex prev 0 (String c rest)) l self
      = scan (raw_lex (Some c) 0 rest) l self)
  /\ (forall (rest : string) (self : C99PreProcessorLexer),
         is_space c = false ->
         tokenize (String c rest) self = tokenize rest self).
Proof.
  intros H. split.
  - intros prev rest l self. rewrite (illegal_char_lex c rest prev H).
    apply scan_illegal. reflexivity.
  - intros rest self Hs. unfold tokenize.
    rewrite (illegal_char_lex c rest None H).
    rewrite scan_illegal by reflexivity.
    rewrite (raw_lex_prev rest (Some c) None); [reflexivity|]. exact Hs.
Qed.

Lemma illegal_character_is_skipped_witness :
  illegal_char "$" = true
  /\ tokenize ("$x" ++ nl) lexer_init = tokenize ("x" ++ nl) lexer_init.
Proof.
  split; [reflexivity|].
  apply (proj2 (illegal_character_is_skipped "$" eq_refl)). reflexivity.
Defined.

(** ** Directives inside a conditional group *)

Lemma fstr_kept (parts : list value) (e : C99PreProcessor) :
  kept_as_text e (fstr parts e).
Proof.
  unfold fstr, lift.
  assert (H : match map_str parts with
              | Ok _ => True
              | Raise x => exists w : string, x = Unmodelled w
              end).
  { induction parts as [|v parts IH]; cbn [map_str]; [exact I|].
    destruct v; cbn [py_str bind];
      try (destruct (map_str parts); cbn [bind]; [exact I | exact IH]);
      try (eexists; reflexivity).
    destruct b; cbn [bind]; (destruct (map_str parts); cbn [bind]; [exact I | exact IH]). }
  destruct (map_str parts) as [ss|x]; cbn [bind kept_as_text].
  - split; [reflexivity | eexists; reflexivity].
  - right. right. exact H.
Qed.

Lemma join_kept (sep : string) (p : list value) (e : C99PreProcessor) :
  kept_as_text e (lift (py_join sep p) e).
Proof.
  unfold lift, py_join.
  assert (H : match all_str p with Ok _ => True | Raise x => x = TypeError end).
  { induction p as [|v p IH]; cbn [all_str]; [exact I|].
    destruct v; try reflexivity.
    destruct (all_str p); cbn [bind]; [exact I | exact IH]. }
  destruct (all_str p) as [ss|x]; cbn [bind kept_as_text].
  - split; [reflexivity | eexists; reflexivity].
  - right. left. exact H.
Qed.

Lemma item_kept (p : list value) (i : nat) (k : value -> M value) (e : C99PreProcessor) :
  (forall v : value, kept_as_text e (k v e)) ->
  kept_as_text e (mbind (item p i) k e).
Proof.
  intros H. unfold mbind, item.
  destruct (nth_error p (Nat.pred i)) as [v|]; cbn [ret raise].
  - apply H.
  - left. reflexivity.
Qed.

Lemma nested_if_zero_run (e : C99PreProcessor) :
  nested_if_zero e = Ok (nested_if (_lexer e) =? 0, e).
Proof. reflexivity. Qed.

(** X30: while the lexer is inside a conditional ([nested_if] is not
    zero), no action of a directive does what the directive says: for
    [#define] in its five forms, [#undef], [#include], [#line], [#pragma]
    and [#error] the action leaves the engine as it was (no macro defined
    or removed, no file read) and returns a string; it can only fail on the
    items handed to it, never with the exception of [#error] or with a
    missing file. *)
Theorem directive_inside_a_conditional_is_kept_as_text
  (process : string -> M value) (e : C99PreProcessor)
  (action : list value -> M value) (p : list value) :
  nested_if (_lexer e) <> 0 ->
  In action [p_define_directive; p_define_directive_2; p_define_directive_3;
             p_define_directive_4; p_define_directive_5; p_undef_directive;
             p_include_directive process; p_line_directive; p_pragma_directive;
             p_error_directive] ->
  kept_as_text e (action p e).
Proof.
  intros Hz Hin.
  assert (Hb : (nested_if (_lexer e) =? 0) = false) by (apply Z.eqb_neq; exact Hz).
  cbn [In] in Hin.
  repeat (destruct Hin as [<- | Hin]); try contradiction;
    unfold p_define_directive, p_define_directive_2, p_define_directive_3,
      p_define_directive_4, p_define_directive_5, p_undef_directive,
      p_include_directive, p_line_directive, p_pragma_directive, p_error_directive;
    unfold mbind at 1; rewrite nested_if_zero_run, Hb;
    repeat (apply item_kept; intros ?);
    try apply fstr_kept; try apply join_kept.
  destruct (Nat.eqb (len p) 2).
  - apply item_kept. intros ?. apply fstr_kept.
  - unfold mbind, ret. apply fstr_kept.
Qed.

Lemma directive_inside_a_conditional_is_kept_as_text_witness :
  nested_if (_lexer (set_lexer {| lineno := 2; nested_if := 1 |} include_engine)) <> 0
  /\ kept_as_text (set_lexer {| lineno := 2; nested_if := 1 |} include_engine)
       (p_include_directive (run_process 1) [VStr "#include"; h_name]
          (set_lexer {| lineno := 2; nested_if := 1 |} include_engine)).
Proof.
  assert (H : nested_if (_lexer (set_lexer {| lineno := 2; nested_if := 1 |}
                                   include_engine)) <> 0) by discriminate.
  split; [exact H|].
  apply (directive_inside_a_conditional_is_kept_as_text (run_process 1) _
           (p_include_directive (run_process 1)) [VStr "#include"; h_name] H).
  cbn [In]. do 6 right. left. reflexivity.
Defined.
